(** * BearLang translator: lexer, parser and C++ code generator

    A shallow embedding of the three-stage pipeline of the BearLang
    classroom tool (app/core/lexer, app/core/parser, app/core/codegen) and
    the properties of its specification.

    Conventions of the embedding.
    - [std::string] is [string]: a sequence of bytes ([ascii]); Cyrillic
      keywords are their UTF-8 byte sequences, as in the C++ source.
    - [std::size_t] is [nat].  Every counter of the program is bounded by a
      small multiple of the length of the input held in memory, so the
      64-bit wrap-around is never reached.
    - [std::vector] is [list], [push_back] appends at the end and [back]
      reads the last element.
    - A C++ exception is the [Throw] result.  [while] loops are run by
      [iterate] with a fuel bound; [Starved] (fuel exhausted) is an artefact
      of the embedding and is shown never to be the result of [tokenize] or
      [parseProgram] ([tokenize_total], [parseProgram_total]); the generator
      is structurally recursive and needs no fuel. *)

From stdpp Require Import gmap strings list.
From Stdlib Require Import Ascii DecimalString DecimalNat.

Open Scope string_scope.
Open Scope list_scope.
Open Scope nat_scope.

(** ** Results, exceptions and loops *)

Inductive Res (E A : Type) : Type :=
| Ret (a : A)
| Throw (e : E)
| Starved.
Arguments Ret {E A} a.
Arguments Throw {E A} e.
Arguments Starved {E A}.

Definition bind {E A B} (r : Res E A) (k : A → Res E B) : Res E B :=
  match r with
  | Ret a => k a
  | Throw e => Throw e
  | Starved => Starved
  end.

Notation "'let*' x := r 'in' k" := (bind r (fun x => k))
  (at level 10, x pattern, r at level 100, k at level 200, only parsing).

(** One turn of a loop body either goes round again ([Next], also what
    [continue] does) or leaves the loop ([Done]: [break], a false loop
    condition, or [return] from inside the loop). *)
Inductive LoopCtl (S : Type) : Type :=
| Next (s : S)
| Done (s : S).
Arguments Next {S} s.
Arguments Done {S} s.

Fixpoint iterate {E S} (fuel : nat) (body : S → Res E (LoopCtl S)) (s : S)
  : Res E S :=
  match fuel with
  | O => Starved
  | S fuel' =>
      match body s with
      | Ret (Next s') => iterate fuel' body s'
      | Ret (Done s') => Ret s'
      | Throw e => Throw e
      | Starved => Starved
      end
  end.

(** ** Characters *)

Definition NL : ascii := "010".
Definition TAB : ascii := "009".
Definition CR : ascii := "013".
Definition QUOTE : ascii := "034".
Definition BACKSLASH : ascii := "\".
Definition NUL : ascii := "000".

(** [std::isdigit], [std::isalpha], [std::isalnum] in the "C" locale. *)
Definition isdigit (ch : ascii) : bool :=
  let u := nat_of_ascii ch in (48 <=? u) && (u <=? 57).

Definition isalpha (ch : ascii) : bool :=
  let u := nat_of_ascii ch in
  ((65 <=? u) && (u <=? 90)) || ((97 <=? u) && (u <=? 122)).

Definition isalnum (ch : ascii) : bool := isalpha ch || isdigit ch.

(** [std::to_string] and [operator<<] on a [std::size_t]: decimal digits. *)
Definition to_string (n : nat) : string :=
  NilEmpty.string_of_uint (Nat.to_uint n).

(** ** Tokens (token.h) *)

Inductive TokenType : Set :=
| EndOfFile | Newline | Indent | Dedent
| Identifier | IntegerLiteral | DoubleLiteral | StringLiteral
| KeywordInteger | KeywordDouble | KeywordString | KeywordLogic
| KeywordIf | KeywordElse | KeywordWhile | KeywordFor
| KeywordInput | KeywordOutput
| KeywordAnd | KeywordOr | KeywordNot
| KeywordFrom | KeywordTo | KeywordTrue | KeywordFalse
| LeftParen | RightParen
| Plus | Minus | Star | Slash | Percent | Caret
| Assign | Equal | Less | LessEqual | Greater | GreaterEqual
| Comma.

Global Instance TokenType_eq_dec : EqDecision TokenType.
Proof. solve_decision. Defined.

Record Token : Type := mkToken {
  type : TokenType;
  lexeme : string;
  line : nat;
  column : nat
}.

Definition isTypeKeyword (t : TokenType) : bool :=
  bool_decide (t = KeywordInteger) || bool_decide (t = KeywordDouble) ||
  bool_decide (t = KeywordString) || bool_decide (t = KeywordLogic).

(** [tokenTypeToString] (token.cpp): the printed name of a token type.  The
    [return "?"] after the [switch] is reached by no enumerator. *)
Definition tokenTypeToString (ty : TokenType) : string :=
  match ty with
  | EndOfFile => "EOF"
  | Newline => "NEWLINE"
  | Indent => "INDENT"
  | Dedent => "DEDENT"
  | Identifier => "IDENT"
  | IntegerLiteral => "INT"
  | DoubleLiteral => "DOUBLE"
  | StringLiteral => "STRING"
  | KeywordInteger => "целое"
  | KeywordDouble => "дробное"
  | KeywordString => "строка"
  | KeywordLogic => "логика"
  | KeywordIf => "если"
  | KeywordElse => "иначе"
  | KeywordWhile => "пока"
  | KeywordFor => "для"
  | KeywordInput => "ввод"
  | KeywordOutput => "вывод"
  | KeywordAnd => "и"
  | KeywordOr => "или"
  | KeywordNot => "не"
  | KeywordFrom => "от"
  | KeywordTo => "до"
  | KeywordTrue => "правда"
  | KeywordFalse => "ложь"
  | LeftParen => "("
  | RightParen => ")"
  | Plus => "+"
  | Minus => "-"
  | Star => "*"
  | Slash => "/"
  | Percent => "%"
  | Caret => "^"
  | Assign => "="
  | Equal => "=="
  | Less => "<"
  | LessEqual => "<="
  | Greater => ">"
  | GreaterEqual => ">="
  | Comma => ","
  end.

(** ** Lexer (lexer.h, lexer.cpp) *)

Module Lexer.


Record LexerError : Type := mkLexerError { lex_what : string }.

(** [kKeywords.find(text)]: the fixed keyword table. *)
Definition kKeywords (text : string) : option TokenType :=
  if String.eqb text "целое" then Some KeywordInteger
  else if String.eqb text "дробное" then Some KeywordDouble
  else if String.eqb text "строка" then Some KeywordString
  else if String.eqb text "логика" then Some KeywordLogic
  else if String.eqb text "если" then Some KeywordIf
  else if String.eqb text "иначе" then Some KeywordElse
  else if String.eqb text "пока" then Some KeywordWhile
  else if String.eqb text "для" then Some KeywordFor
  else if String.eqb text "ввод" then Some KeywordInput
  else if String.eqb text "вывод" then Some KeywordOutput
  else if String.eqb text "и" then Some KeywordAnd
  else if String.eqb text "или" then Some KeywordOr
  else if String.eqb text "не" then Some KeywordNot
  else if String.eqb text "от" then Some KeywordFrom
  else if String.eqb text "до" then Some KeywordTo
  else if String.eqb text "правда" then Some KeywordTrue
  else if String.eqb text "ложь" then Some KeywordFalse
  else None.

Record t : Type := mkLexer {
  source_ : string;
  current_ : nat;
  line_ : nat;
  column_ : nat;
  atLineStart_ : bool;
  indentStack_ : list nat;
  tokens_ : list Token
}.

(** The constructor and the default member initialisers. *)
Definition newLexer (source : string) : t :=
  mkLexer source 0 1 1 true [0] [].

(** A [throw LexerError(msg)] leaves the lexer; the exception object holds the
    message only.  The embedding keeps, next to the exception, the lexer
    state in which it was thrown: the state is not part of what the caller
    receives ([tokenize] below drops it), it only lets the statements about
    failures speak of the position and of the tokens pushed so far. *)
Definition LexM (A : Type) : Type := Res (LexerError * t) A.

(** [indentStack_.back()]; the stack is never empty (it starts as [[0]] and
    the bottom entry is never popped), the default only makes [back] total. *)
Definition back (stack : list nat) : nat := List.last stack 0.

Definition set_current (L : t) (c : nat) : t :=
  mkLexer (source_ L) c (line_ L) (column_ L) (atLineStart_ L)
          (indentStack_ L) (tokens_ L).
Definition set_line (L : t) (l : nat) : t :=
  mkLexer (source_ L) (current_ L) l (column_ L) (atLineStart_ L)
          (indentStack_ L) (tokens_ L).
Definition set_column (L : t) (c : nat) : t :=
  mkLexer (source_ L) (current_ L) (line_ L) c (atLineStart_ L)
          (indentStack_ L) (tokens_ L).
Definition set_atLineStart (L : t) (b : bool) : t :=
  mkLexer (source_ L) (current_ L) (line_ L) (column_ L) b
          (indentStack_ L) (tokens_ L).
Definition set_indentStack (L : t) (st : list nat) : t :=
  mkLexer (source_ L) (current_ L) (line_ L) (column_ L) (atLineStart_ L)
          st (tokens_ L).
(** [tokens_.push_back(t)] *)
Definition push_back_token (L : t) (tok : Token) : t :=
  mkLexer (source_ L) (current_ L) (line_ L) (column_ L) (atLineStart_ L)
          (indentStack_ L) (tokens_ L ++ [tok]).

(** [++current_; ++column_;] repeated [n] times. *)
Definition bump (n : nat) (L : t) : t :=
  set_column (set_current L (current_ L + n)) (column_ L + n).

Definition pushToken (ty : TokenType) (lexeme : string) (L : t) : t :=
  push_back_token L (mkToken ty lexeme (line_ L) (column_ L)).

(** [peekChar(offset)] *)
Definition peekChar (offset : nat) (L : t) : ascii :=
  match String.get (current_ L + offset) (source_ L) with
  | Some ch => ch
  | None => NUL
  end.

(** [handleIndentation]: the [while (spaces < indentStack_.back())] loop. *)
Definition popWhileDeeper (spaces line : nat) (L : t)
  : LexM (LoopCtl t) :=
  if spaces <? back (indentStack_ L) then
    Ret (Next (push_back_token
                 (set_indentStack L (removelast (indentStack_ L)))
                 (mkToken Dedent "" line 1)))
  else Ret (Done L).

Definition throwLexerError {A} (message : string) (L : t) : LexM A :=
  Throw (mkLexerError message, L).

Definition inconsistentIndent (line : nat) : string :=
  "Несогласованный отступ на строке " +:+ to_string line.

Definition handleIndentation (spaces line : nat) (L : t) : LexM t :=
  if back (indentStack_ L) <? spaces then
    Ret (push_back_token
           (set_indentStack L (indentStack_ L ++ [spaces]))
           (mkToken Indent "" line 1))
  else
    let* L' := iterate (S (length (indentStack_ L))) (popWhileDeeper spaces line) L in
    if negb (spaces =? back (indentStack_ L')) then
      throwLexerError (inconsistentIndent line) L'
    else Ret L'.

(** [emitPendingDedents]: [while (indentStack_.size() > 1)]. *)
Definition popPending (line : nat) (L : t) : LexM (LoopCtl t) :=
  if 1 <? length (indentStack_ L) then
    Ret (Next (push_back_token
                 (set_indentStack L (removelast (indentStack_ L)))
                 (mkToken Dedent "" line 1)))
  else Ret (Done L).

Definition emitPendingDedents (line : nat) (L : t) : LexM t :=
  iterate (S (length (indentStack_ L))) (popPending line) L.

(** The number of bytes left to read; every scanning loop reads at least one
    byte per turn, so this (plus one for the turn that leaves the loop)
    bounds its turns. *)
Definition remaining (L : t) : nat :=
  String.length (source_ L) - current_ L.

(** The loop [while (current_ < source_.size() && keep(source_[current_]))
    { ++current_; ++column_; }], the common form of the loops of
    [skipComment] and [scanIdentifierOrKeyword]. *)
Definition advanceWhile (keep : ascii → bool) (L : t) : LexM (LoopCtl t) :=
  match String.get (current_ L) (source_ L) with
  | Some ch => if keep ch then Ret (Next (bump 1 L)) else Ret (Done L)
  | None => Ret (Done L)
  end.

(** [skipComment] *)
Definition skipComment (L : t) : LexM t :=
  iterate (S (remaining L))
          (advanceWhile (fun ch => negb (Ascii.eqb ch NL))) L.

Definition isIdentifierStart (ch : ascii) : bool :=
  isalpha ch || Ascii.eqb ch "_" || (128 <=? nat_of_ascii ch).

Definition isIdentifierPart (ch : ascii) : bool :=
  isalnum ch || Ascii.eqb ch "_" || (128 <=? nat_of_ascii ch).

(** [scanIdentifierOrKeyword] *)
Definition scanIdentifierOrKeyword (L : t) : LexM t :=
  let start := current_ L in
  let startColumn := column_ L in
  let* L' := iterate (S (remaining L)) (advanceWhile isIdentifierPart) L in
  let text := String.substring start (current_ L' - start) (source_ L') in
  let ty := match kKeywords text with
            | None => Identifier
            | Some kw => kw
            end in
  Ret (push_back_token L' (mkToken ty text (line_ L') startColumn)).

(** [scanNumber]; the loop state carries the local [seenDot]. *)
Definition numberBody (st : bool * t) : LexM (LoopCtl (bool * t)) :=
  let '(seenDot, L) := st in
  match String.get (current_ L) (source_ L) with
  | None => Ret (Done st)
  | Some ch =>
      if isdigit ch then Ret (Next (seenDot, bump 1 L))
      else if Ascii.eqb ch "." && negb seenDot then
        let next := peekChar 1 L in
        if negb (isdigit next) then Ret (Done st)
        else Ret (Next (true, bump 1 L))
      else Ret (Done st)
  end.

Definition scanNumber (L : t) : LexM t :=
  let start := current_ L in
  let startColumn := column_ L in
  let* (seenDot, L') := iterate (S (remaining L)) numberBody (false, L) in
  let number := String.substring start (current_ L' - start) (source_ L') in
  let ty := if seenDot : bool then DoubleLiteral else IntegerLiteral in
  Ret (push_back_token L' (mkToken ty number (line_ L') startColumn)).

(** [value.push_back(ch)] *)
Definition push_back_char (value : string) (ch : ascii) : string :=
  value +:+ String ch "".

(** [scanString]; the loop state carries the local [value].  Leaving the loop
    by [Done] is the [return] after the closing quote; running off the end of
    the source is the [throw] after the loop. *)
Definition stringBody (startColumn : nat) (st : string * t)
  : LexM (LoopCtl (string * t)) :=
  let '(value, L) := st in
  match String.get (current_ L) (source_ L) with
  | None => throwLexerError "Незакрытая строка" L
  | Some ch =>
      if Ascii.eqb ch NL then
        throwLexerError
          "Строковый литерал не может переноситься на новую строку" L
      else if Ascii.eqb ch QUOTE then
        let L1 := bump 1 L in
        Ret (Done (value,
                   push_back_token L1
                     (mkToken StringLiteral value (line_ L1) startColumn)))
      else if Ascii.eqb ch BACKSLASH then
        let L1 := bump 1 L in
        match String.get (current_ L1) (source_ L1) with
        | None => throwLexerError "Незавершённая escape-последовательность" L1
        | Some next =>
            if Ascii.eqb next BACKSLASH then
              Ret (Next (push_back_char value BACKSLASH, bump 1 L1))
            else if Ascii.eqb next QUOTE then
              Ret (Next (push_back_char value QUOTE, bump 1 L1))
            else if Ascii.eqb next "n" then
              Ret (Next (push_back_char value NL, bump 1 L1))
            else if Ascii.eqb next "t" then
              Ret (Next (push_back_char value TAB, bump 1 L1))
            else throwLexerError "Неизвестная escape-последовательность" L1
        end
      else Ret (Next (push_back_char value ch, bump 1 L))
  end.

Definition scanString (L : t) : LexM t :=
  let startColumn := column_ L in
  let L0 := bump 1 L in
  let* (_, L') := iterate (S (remaining L0)) (stringBody startColumn) ("", L0) in
  Ret L'.

Definition unknownChar (ch : ascii) (line column : nat) : string :=
  "Неизвестный символ '" +:+ String ch "" +:+ "' на строке "
  +:+ to_string line +:+ ":" +:+ to_string column.

(** [scanOperator] *)
Definition scanOperator (L : t) : LexM t :=
  let ch := peekChar 0 L in
  let single ty := Ret (bump 1 (pushToken ty "" L)) in
  let twoOr ty2 ty1 :=
    if Ascii.eqb (peekChar 1 L) "=" then Ret (bump 2 (pushToken ty2 "" L))
    else Ret (bump 1 (pushToken ty1 "" L)) in
  if Ascii.eqb ch "+" then single Plus
  else if Ascii.eqb ch "-" then single Minus
  else if Ascii.eqb ch "*" then single Star
  else if Ascii.eqb ch "/" then single Slash
  else if Ascii.eqb ch "%" then single Percent
  else if Ascii.eqb ch "^" then single Caret
  else if Ascii.eqb ch "(" then single LeftParen
  else if Ascii.eqb ch ")" then single RightParen
  else if Ascii.eqb ch "," then single Comma
  else if Ascii.eqb ch "=" then twoOr Equal Assign
  else if Ascii.eqb ch "<" then twoOr LessEqual Less
  else if Ascii.eqb ch ">" then twoOr GreaterEqual Greater
  else throwLexerError (unknownChar ch (line_ L) (column_ L)) L.

(** The measure of the indentation at a line start: the loop over the locals
    [temp] and [indentCount]. *)
Definition indentBody (source : string) (st : nat * nat)
  : LexM (LoopCtl (nat * nat)) :=
  let '(temp, indentCount) := st in
  match String.get temp source with
  | None => Ret (Done st)
  | Some ch =>
      if Ascii.eqb ch " " then Ret (Next (temp + 1, indentCount + 1))
      else if Ascii.eqb ch TAB then Ret (Next (temp + 1, indentCount + 4))
      else if Ascii.eqb ch CR then Ret (Next (temp + 1, indentCount))
      else Ret (Done st)
  end.

Definition measureIndent (L : t) : LexM (nat * nat) :=
  iterate (S (remaining L)) (indentBody (source_ L)) (current_ L, 0).

(** What the measured indentation is followed by, as the [if]/[else if]
    chain after the measuring loop tells it apart: the end of the source, the
    line feed of a blank line, the [//] of a comment line, or code. *)
Inductive LineKind : Set := EndOfSource | BlankLine | CommentLine | CodeLine.

Definition lineKind (source : string) (temp : nat) : LineKind :=
  match String.get temp source with
  | None => EndOfSource
  | Some next =>
      if Ascii.eqb next NL then BlankLine
      else if Ascii.eqb next "/" &&
              match String.get (temp + 1) source with
              | Some c => Ascii.eqb c "/"
              | None => false
              end then CommentLine
      else CodeLine
  end.

(** How the [if (atLineStart_)] block of [tokenize] is left. *)
Inductive Flow : Type :=
| Break (L : t)
| Continue (L : t)
| FallThrough (L : t).

Definition lineStart (L : t) : LexM Flow :=
  if atLineStart_ L then
    let* (temp, indentCount) := measureIndent L in
    match lineKind (source_ L) temp with
    | EndOfSource => Ret (Break (set_current L temp))
    | BlankLine => Ret (FallThrough (set_column (set_current L temp) 1))
    | CommentLine =>
        let* L1 :=
          skipComment (set_column (set_current L temp) (indentCount + 1)) in
        Ret (Continue L1)
    | CodeLine =>
        let* L1 := handleIndentation indentCount (line_ L) L in
        Ret (FallThrough
               (set_atLineStart
                  (set_column (set_current L1 temp) (indentCount + 1))
                  false))
    end
  else Ret (FallThrough L).

(** One turn of the [while (current_ < source_.size())] loop of [tokenize]. *)
Definition tokenizeBody (L : t) : LexM (LoopCtl t) :=
  if current_ L <? String.length (source_ L) then
    let* fl := lineStart L in
    match fl with
    | Break L1 => Ret (Done L1)
    | Continue L1 => Ret (Next L1)
    | FallThrough L1 =>
        match String.get (current_ L1) (source_ L1) with
        | None => Ret (Done L1)
        | Some ch =>
            if Ascii.eqb ch " " || Ascii.eqb ch TAB then Ret (Next (bump 1 L1))
            else if Ascii.eqb ch CR then
              Ret (Next (set_current L1 (current_ L1 + 1)))
            else if Ascii.eqb ch NL then
              let L2 := pushToken Newline "" L1 in
              Ret (Next (set_atLineStart
                           (set_column
                              (set_line (set_current L2 (current_ L2 + 1))
                                        (line_ L2 + 1))
                              1)
                           true))
            else if Ascii.eqb ch "/" && Ascii.eqb (peekChar 1 L1) "/" then
              let* L2 := skipComment L1 in Ret (Next L2)
            else if Ascii.eqb ch QUOTE then
              let* L2 := scanString L1 in Ret (Next L2)
            else if isdigit ch then
              let* L2 := scanNumber L1 in Ret (Next L2)
            else if isIdentifierStart ch then
              let* L2 := scanIdentifierOrKeyword L1 in Ret (Next L2)
            else
              let* L2 := scanOperator L1 in Ret (Next L2)
        end
    end
  else Ret (Done L).

(** [Lexer::tokenize], run to its end; a failure comes with the lexer state
    at the throw. *)
Definition runLexer (source : string) : LexM t :=
  let* L := iterate (S (String.length source)) tokenizeBody (newLexer source) in
  let* L1 := emitPendingDedents (line_ L) L in
  Ret (pushToken EndOfFile "" L1).

(** [Lexer(source).tokenize()] as its caller sees it: the token vector, or the
    exception alone. *)
Definition tokenize (source : string) : Res LexerError (list Token) :=
  match runLexer source with
  | Ret L => Ret (tokens_ L)
  | Throw (e, _) => Throw e
  | Starved => Starved
  end.


End Lexer.

(** ** Abstract syntax (ast.h) *)

Module ValueType.
Inductive t : Set := Integer | Double | String | Boolean | Unknown.
End ValueType.

(** The parser builds every child expression before the node that owns it,
    so an [ExprPtr] child is never null; the one nullable [ExprPtr] is the
    initializer of a declaration, an [option]. *)
Inductive Expression : Type :=
| LiteralExpr (vtype : ValueType.t) (text : string) (boolValue : bool)
| VariableExpr (name : string)
| UnaryExpr (op : string) (operand : Expression)
| BinaryExpr (op : string) (left right : Expression).

Definition makeLiteral (vtype : ValueType.t) (text : string) (boolValue : bool)
  : Expression := LiteralExpr vtype text boolValue.
Definition makeVariable (name : string) : Expression := VariableExpr name.
Definition makeUnary (op : string) (operand : Expression) : Expression :=
  UnaryExpr op operand.
Definition makeBinary (op : string) (left right : Expression) : Expression :=
  BinaryExpr op left right.

#[warnings="-register-all"]
Inductive Statement : Type :=
| VarDeclStmt (vtype : ValueType.t) (name : string)
              (initializer : option Expression)
| AssignStmt (name : string) (value : Expression)
| InputStmt (name : string)
| OutputStmt (value : Expression)
| IfStmt (branches : list (Expression * list Statement))
         (elseBranch : list Statement) (hasElse : bool)
| WhileStmt (condition : Expression) (body : list Statement)
| ForRangeStmt (vtype : ValueType.t) (name : string) (from to : Expression)
               (body : list Statement).

Definition makeVarDecl := VarDeclStmt.
Definition makeAssign := AssignStmt.
Definition makeInput := InputStmt.
Definition makeOutput := OutputStmt.
Definition makeWhile := WhileStmt.
Definition makeFor := ForRangeStmt.

Record Program : Type := mkProgram { statements : list Statement }.

(** ** Parser (parser.h, parser.cpp) *)

Module Parser.

Record ParserError : Type := mkParserError { parse_what : string }.

Record t : Type := mkParser {
  tokens_ : list Token;
  current_ : nat
}.

(** A parsing method returns its value and the parser it leaves behind, or
    throws. *)
Definition M (A : Type) : Type := t → Res ParserError (A * t).

Definition throwParserError {A} (message : string) : Res ParserError A :=
  Throw (mkParserError message).

(** Reading [tokens_] past its end is undefined in C++; the lexer always ends
    the vector with [EndOfFile] and [advance] never steps past it, so the
    default below is never what a run on lexer output reads. *)
Definition eof : Token := mkToken EndOfFile "" 0 0.

Definition peek (p : t) : Token := nth (current_ p) (tokens_ p) eof.

(** [previous] is only called after a token was consumed, so [current_ - 1]
    never wraps. *)
Definition previous (p : t) : Token := nth (current_ p - 1) (tokens_ p) eof.

Definition isAtEnd (p : t) : bool := bool_decide (type (peek p) = EndOfFile).

Definition check (ty : TokenType) (p : t) : bool :=
  if isAtEnd p then false else bool_decide (type (peek p) = ty).

Definition advance (p : t) : Token * t :=
  let p1 := if isAtEnd p then p else mkParser (tokens_ p) (current_ p + 1) in
  (previous p1, p1).

Definition consume (ty : TokenType) (message : string) : M Token :=
  fun p => if check ty p then Ret (advance p) else throwParserError message.

Definition match_ (ty : TokenType) (p : t) : bool * t :=
  if check ty p then (true, snd (advance p)) else (false, p).

(** Tokens not yet consumed: a bound on the turns of every loop that
    consumes a token per turn. *)
Definition remaining (p : t) : nat := length (tokens_ p) - current_ p.

Definition skipNewlines : M unit :=
  fun p =>
    let* p1 := iterate (S (remaining p))
                 (fun p => let (b, p1) := match_ Newline p in
                           if b then Ret (Next p1) else Ret (Done p1)) p in
    Ret (tt, p1).

Definition expectNewline (context : string) : M unit :=
  fun p =>
    let (b, p1) := match_ Newline p in
    if b then skipNewlines p1
    else if check Dedent p1 || check EndOfFile p1 then Ret (tt, p1)
    else throwParserError ("Ожидается перевод строки после " +:+ context).

Definition parseTypeKeyword (context : string) : M ValueType.t :=
  fun p =>
    let (b, p1) := match_ KeywordInteger p in
    if b then Ret (ValueType.Integer, p1) else
    let (b, p1) := match_ KeywordDouble p1 in
    if b then Ret (ValueType.Double, p1) else
    let (b, p1) := match_ KeywordString p1 in
    if b then Ret (ValueType.String, p1) else
    let (b, p1) := match_ KeywordLogic p1 in
    if b then Ret (ValueType.Boolean, p1) else
    throwParserError ("Ожидается тип для " +:+ context).

(** A left-associative level is a first operand followed by the loop
    [while (match(op)) { right = sub(); expr = makeBinary(op, expr, right); }];
    [ops] lists the token types tried in order by the [if]/[else if] chain of
    the loop, each with the operator text it builds. *)
Fixpoint matchFirst (ops : list (TokenType * string)) (p : t)
  : option (string * t) :=
  match ops with
  | [] => None
  | (ty, op) :: ops' =>
      let (b, p1) := match_ ty p in
      if b then Some (op, p1) else matchFirst ops' p1
  end.

Definition binaryLoop (ops : list (TokenType * string)) (sub : M Expression)
  (st : Expression * t) : Res ParserError (LoopCtl (Expression * t)) :=
  let '(expr, p) := st in
  match matchFirst ops p with
  | Some (op, p1) =>
      let* (rhs, p2) := sub p1 in
      Ret (Next (makeBinary op expr rhs, p2))
  | None => Ret (Done st)
  end.

Definition unexpectedToken (p : t) : string :=
  "Неожиданный токен '" +:+ lexeme (peek p) +:+ "'".

Fixpoint parseExpression (fuel : nat) (p : t) {struct fuel}
  : Res ParserError (Expression * t) :=
  match fuel with
  | O => Starved
  | S n => parseOr n p
  end

with parseOr (fuel : nat) (p : t) {struct fuel}
  : Res ParserError (Expression * t) :=
  match fuel with
  | O => Starved
  | S n =>
      let* (expr, p1) := parseAnd n p in
      iterate (S (remaining p1))
        (binaryLoop [(KeywordOr, "||")] (parseAnd n)) (expr, p1)
  end

with parseAnd (fuel : nat) (p : t) {struct fuel}
  : Res ParserError (Expression * t) :=
  match fuel with
  | O => Starved
  | S n =>
      let* (expr, p1) := parseEquality n p in
      iterate (S (remaining p1))
        (binaryLoop [(KeywordAnd, "&&")] (parseEquality n)) (expr, p1)
  end

with parseEquality (fuel : nat) (p : t) {struct fuel}
  : Res ParserError (Expression * t) :=
  match fuel with
  | O => Starved
  | S n =>
      let* (expr, p1) := parseComparison n p in
      iterate (S (remaining p1))
        (binaryLoop [(Equal, "==")] (parseComparison n)) (expr, p1)
  end

with parseComparison (fuel : nat) (p : t) {struct fuel}
  : Res ParserError (Expression * t) :=
  match fuel with
  | O => Starved
  | S n =>
      let* (expr, p1) := parseTerm n p in
      iterate (S (remaining p1))
        (binaryLoop [(Less, "<"); (LessEqual, "<=");
                     (Greater, ">"); (GreaterEqual, ">=")] (parseTerm n))
        (expr, p1)
  end

with parseTerm (fuel : nat) (p : t) {struct fuel}
  : Res ParserError (Expression * t) :=
  match fuel with
  | O => Starved
  | S n =>
      let* (expr, p1) := parseFactor n p in
      iterate (S (remaining p1))
        (binaryLoop [(Plus, "+"); (Minus, "-")] (parseFactor n)) (expr, p1)
  end

with parseFactor (fuel : nat) (p : t) {struct fuel}
  : Res ParserError (Expression * t) :=
  match fuel with
  | O => Starved
  | S n =>
      let* (expr, p1) := parsePower n p in
      iterate (S (remaining p1))
        (binaryLoop [(Star, "*"); (Slash, "/"); (Percent, "%")] (parsePower n))
        (expr, p1)
  end

with parsePower (fuel : nat) (p : t) {struct fuel}
  : Res ParserError (Expression * t) :=
  match fuel with
  | O => Starved
  | S n =>
      let* (expr, p1) := parseUnary n p in
      let (b, p2) := match_ Caret p1 in
      if b then
        let* (rhs, p3) := parsePower n p2 in
        Ret (makeBinary "^" expr rhs, p3)
      else Ret (expr, p2)
  end

with parseUnary (fuel : nat) (p : t) {struct fuel}
  : Res ParserError (Expression * t) :=
  match fuel with
  | O => Starved
  | S n =>
      let (b, p1) := match_ Minus p in
      if b then
        let* (operand, p2) := parseUnary n p1 in
        Ret (makeUnary "-" operand, p2)
      else
      let (b, p1) := match_ KeywordNot p1 in
      if b then
        let* (operand, p2) := parseUnary n p1 in
        Ret (makeUnary "!" operand, p2)
      else parsePrimary n p1
  end

with parsePrimary (fuel : nat) (p : t) {struct fuel}
  : Res ParserError (Expression * t) :=
  match fuel with
  | O => Starved
  | S n =>
      let (b, p1) := match_ IntegerLiteral p in
      if b then
        Ret (makeLiteral ValueType.Integer (lexeme (previous p1)) false, p1)
      else
      let (b, p1) := match_ DoubleLiteral p1 in
      if b then
        Ret (makeLiteral ValueType.Double (lexeme (previous p1)) false, p1)
      else
      let (b, p1) := match_ StringLiteral p1 in
      if b then
        Ret (makeLiteral ValueType.String (lexeme (previous p1)) false, p1)
      else
      let (b, p1) := match_ KeywordTrue p1 in
      if b then Ret (makeLiteral ValueType.Boolean "true" true, p1) else
      let (b, p1) := match_ KeywordFalse p1 in
      if b then Ret (makeLiteral ValueType.Boolean "false" false, p1) else
      let (b, p1) := match_ Identifier p1 in
      if b then Ret (makeVariable (lexeme (previous p1)), p1) else
      let (b, p1) := match_ LeftParen p1 in
      if b then
        let* (expr, p2) := parseExpression n p1 in
        let* (_, p3) := consume RightParen "Ожидается ')' " p2 in
        Ret (expr, p3)
      else throwParserError (unexpectedToken p1)
  end.

Definition parseParenthesizedCondition (fuel : nat) (context : string)
  : M Expression :=
  fun p =>
    let* (_, p1) := consume LeftParen ("Ожидается '(' после " +:+ context) p in
    let* (condition, p2) := parseExpression fuel p1 in
    let* (_, p3) :=
      consume RightParen ("Ожидается ')' после условия " +:+ context) p2 in
    Ret (condition, p3).

Definition parseVarDecl (fuel : nat) : M Statement :=
  fun p =>
    let (typeToken, p1) := advance p in
    let vtype := match type typeToken with
                 | KeywordInteger => ValueType.Integer
                 | KeywordDouble => ValueType.Double
                 | KeywordString => ValueType.String
                 | KeywordLogic => ValueType.Boolean
                 | _ => ValueType.Unknown
                 end in
    let* (name, p2) := consume Identifier "Ожидается имя переменной" p1 in
    let (b, p3) := match_ Assign p2 in
    let* (initializer, p4) :=
      if b then let* (e, p4) := parseExpression fuel p3 in Ret (Some e, p4)
      else Ret (None, p3) in
    let stmt := makeVarDecl vtype (lexeme name) initializer in
    let* (_, p5) := expectNewline "объявления переменной" p4 in
    Ret (stmt, p5).

Definition parseAssignment (fuel : nat) : M Statement :=
  fun p =>
    let (name, p1) := advance p in
    let* (_, p2) := consume Assign "Ожидается '=' в присваивании" p1 in
    let* (value, p3) := parseExpression fuel p2 in
    let stmt := makeAssign (lexeme name) value in
    let* (_, p4) := expectNewline "присваивания" p3 in
    Ret (stmt, p4).

Definition parseInput : M Statement :=
  fun p =>
    let (_, p1) := advance p in
    let* (name, p2) := consume Identifier "Ожидается переменная для ввода" p1 in
    let stmt := makeInput (lexeme name) in
    let* (_, p3) := expectNewline "оператора ввода" p2 in
    Ret (stmt, p3).

Definition parseOutput (fuel : nat) : M Statement :=
  fun p =>
    let (_, p1) := advance p in
    let* (value, p2) := parseExpression fuel p1 in
    let stmt := makeOutput value in
    let* (_, p3) := expectNewline "оператора вывода" p2 in
    Ret (stmt, p3).

(** The body loop of [parseIndentedBlock]:
    [while (!check(Dedent) && !isAtEnd()) { body.push_back(parseStatement());
    skipNewlines(); }]. *)
Definition blockLoop (parseStatement : M Statement)
  (st : list Statement * t)
  : Res ParserError (LoopCtl (list Statement * t)) :=
  let '(body, p) := st in
  if negb (check Dedent p) && negb (isAtEnd p) then
    let* (stmt, p1) := parseStatement p in
    let* (_, p2) := skipNewlines p1 in
    Ret (Next (body ++ [stmt], p2))
  else Ret (Done st).

(** The [while (match(KeywordElse))] loop of [parseIf]; its state is the
    [IfStmt] under construction. *)
Definition IfState : Type :=
  list (Expression * list Statement) * list Statement * bool * t.

Definition elseLoop (fuel : nat) (parseIndentedBlock : string → M (list Statement))
  (st : IfState) : Res ParserError (LoopCtl IfState) :=
  let '(branches, elseBranch, hasElse, p) := st in
  let (b, p1) := match_ KeywordElse p in
  if b then
    let (b, p2) := match_ KeywordIf p1 in
    if b then
      let* (elseIfCond, p3) :=
        parseParenthesizedCondition fuel "иначе если" p2 in
      let* (elseIfBody, p4) := parseIndentedBlock "условия 'иначе если'" p3 in
      Ret (Next (branches ++ [(elseIfCond, elseIfBody)], elseBranch, hasElse, p4))
    else
      let* (body, p3) := parseIndentedBlock "блока 'иначе'" p2 in
      Ret (Done (branches, body, true, p3))
  else Ret (Done (branches, elseBranch, hasElse, p1)).

Definition unexpectedWord (p : t) : string :=
  "Неожиданное слово '" +:+ lexeme (peek p) +:+ "'".

Fixpoint parseStatement (fuel : nat) (p : t) {struct fuel}
  : Res ParserError (Statement * t) :=
  match fuel with
  | O => Starved
  | S n =>
      if check Indent p then throwParserError "Неожиданный отступ"
      else if isTypeKeyword (type (peek p)) then parseVarDecl n p
      else
        match type (peek p) with
        | KeywordInput => parseInput p
        | KeywordOutput => parseOutput n p
        | KeywordIf => parseIf n p
        | KeywordWhile => parseWhile n p
        | KeywordFor => parseFor n p
        | Identifier => parseAssignment n p
        | _ => throwParserError (unexpectedWord p)
        end
  end

with parseIf (fuel : nat) (p : t) {struct fuel}
  : Res ParserError (Statement * t) :=
  match fuel with
  | O => Starved
  | S n =>
      let (_, p1) := advance p in
      let* (condition, p2) := parseParenthesizedCondition n "если" p1 in
      let* (ifBody, p3) := parseIndentedBlock n "условия 'если'" p2 in
      let* (st : IfState) :=
        iterate (S (remaining p3)) (elseLoop n (parseIndentedBlock n))
                ([(condition, ifBody)], [], false, p3) in
      let '(branches, elseBranch, hasElse, p4) := st in
      Ret (IfStmt branches elseBranch hasElse, p4)
  end

with parseWhile (fuel : nat) (p : t) {struct fuel}
  : Res ParserError (Statement * t) :=
  match fuel with
  | O => Starved
  | S n =>
      let (_, p1) := advance p in
      let* (condition, p2) := parseParenthesizedCondition n "пока" p1 in
      let* (body, p3) := parseIndentedBlock n "цикла 'пока'" p2 in
      Ret (makeWhile condition body, p3)
  end

with parseFor (fuel : nat) (p : t) {struct fuel}
  : Res ParserError (Statement * t) :=
  match fuel with
  | O => Starved
  | S n =>
      let (_, p1) := advance p in
      let* (_, p2) := consume LeftParen "Ожидается '(' после 'для'" p1 in
      let* (vtype, p3) := parseTypeKeyword "цикла 'для'" p2 in
      let* (name, p4) := consume Identifier "Ожидается имя счётчика" p3 in
      let* (_, p5) := consume KeywordFrom "Ожидается слово 'от' в цикле" p4 in
      let* (from, p6) := parseExpression n p5 in
      let* (_, p7) := consume KeywordTo "Ожидается слово 'до' в цикле" p6 in
      let* (to, p8) := parseExpression n p7 in
      let* (_, p9) :=
        consume RightParen "Ожидается ')' после заголовка цикла" p8 in
      let* (body, p10) := parseIndentedBlock n "цикла 'для'" p9 in
      Ret (makeFor vtype (lexeme name) from to body, p10)
  end

with parseIndentedBlock (fuel : nat) (context : string) (p : t) {struct fuel}
  : Res ParserError (list Statement * t) :=
  match fuel with
  | O => Starved
  | S n =>
      let* (_, p1) :=
        consume Newline ("Ожидается новая строка после " +:+ context) p in
      let* (_, p2) :=
        consume Indent ("Ожидается отступ после " +:+ context) p1 in
      let* (_, p3) := skipNewlines p2 in
      let* (body, p4) :=
        iterate (S (remaining p3)) (blockLoop (parseStatement n)) ([], p3) in
      let* (_, p5) :=
        consume Dedent ("Ожидается завершение блока " +:+ context) p4 in
      Ret (body, p5)
  end.

(** The [while (!isAtEnd())] loop of [parseProgram]. *)
Definition programLoop (fuel : nat) (st : list Statement * t)
  : Res ParserError (LoopCtl (list Statement * t)) :=
  let '(stmts, p) := st in
  if negb (isAtEnd p) then
    let* (stmt, p1) := parseStatement fuel p in
    let* (_, p2) := skipNewlines p1 in
    Ret (Next (stmts ++ [stmt], p2))
  else Ret (Done st).

(** The depth of the calls of the recursive descent is bounded by a multiple
    of the number of tokens; [callDepth] is such a bound. *)
Definition callDepth (tokens : list Token) : nat := 16 * length tokens + 16.

Definition runParser (tokens : list Token) : Res ParserError (Program * t) :=
  let p := mkParser tokens 0 in
  let* (_, p1) := skipNewlines p in
  let* (stmts, p2) :=
    iterate (S (remaining p1)) (programLoop (callDepth tokens)) ([], p1) in
  Ret (mkProgram stmts, p2).

(** [Parser(tokens).parseProgram()] *)
Definition parseProgram (tokens : list Token) : Res ParserError Program :=
  let* (program, _) := runParser tokens in Ret program.

End Parser.


(** ** Code generator (codegen.h, codegen.cpp) *)

Module NameMangler.

Record t : Type := mkNameMangler {
  counter_ : nat;
  scopes_ : list (gmap string string)
}.

(** The constructor: [scopes_.emplace_back()]. *)
Definition new : t := mkNameMangler 0 [∅].

Definition pushScope (m : t) : t :=
  mkNameMangler (counter_ m) (scopes_ m ++ [∅]).

Definition popScope (m : t) : t :=
  if 1 <? length (scopes_ m) then
    mkNameMangler (counter_ m) (removelast (scopes_ m))
  else m.

(** [scopes_.back()[original] = renamed]: the last scope is updated in place
    ([scopes_] is never empty: the constructor pushes a scope and [popScope]
    keeps the last one). *)
Definition declare (original : string) (m : t) : string * t :=
  let counter := counter_ m + 1 in
  let renamed := "vr_" +:+ to_string counter in
  (renamed,
   mkNameMangler counter
     (alter (insert original renamed) (length (scopes_ m) - 1) (scopes_ m))).

(** The loop of [resolve] from [scopes_.rbegin()] to [scopes_.rend()]. *)
Fixpoint resolveFrom (innermostFirst : list (gmap string string))
  (original : string) : string :=
  match innermostFirst with
  | [] => original
  | scope :: outer =>
      match scope !! original with
      | Some renamed => renamed
      | None => resolveFrom outer original
      end
  end.

Definition resolve (original : string) (m : t) : string :=
  resolveFrom (rev (scopes_ m)) original.

End NameMangler.

Module CodeGenerator.

Definition LF : string := String NL "".
Definition DQUOTE : string := String QUOTE "".

(** [std::string(level * 4, ' ')] *)
Fixpoint spaces (n : nat) : string :=
  match n with
  | O => ""
  | S n' => String " " (spaces n')
  end.

Definition indent (level : nat) : string := spaces (level * 4).

Definition cppType (vtype : ValueType.t) : string :=
  match vtype with
  | ValueType.Integer => "int"
  | ValueType.Double => "double"
  | ValueType.String => "std::string"
  | ValueType.Boolean => "bool"
  | ValueType.Unknown => "auto"
  end.

Fixpoint escapeString (value : string) : string :=
  match value with
  | EmptyString => ""
  | String ch rest =>
      (if Ascii.eqb ch BACKSLASH then String BACKSLASH (String BACKSLASH "")
       else if Ascii.eqb ch QUOTE then String BACKSLASH (String QUOTE "")
       else if Ascii.eqb ch NL then String BACKSLASH "n"
       else if Ascii.eqb ch TAB then String BACKSLASH "t"
       else String ch "")
      +:+ escapeString rest
  end.

Fixpoint emitExpression (expr : Expression) (mangler : NameMangler.t)
  : string :=
  match expr with
  | LiteralExpr vtype text boolValue =>
      match vtype with
      | ValueType.Integer | ValueType.Double => text
      | ValueType.String => DQUOTE +:+ escapeString text +:+ DQUOTE
      | ValueType.Boolean => if boolValue then "true" else "false"
      | ValueType.Unknown => text
      end
  | VariableExpr name => NameMangler.resolve name mangler
  | UnaryExpr op operand => op +:+ "(" +:+ emitExpression operand mangler +:+ ")"
  | BinaryExpr op lhs rhs =>
      if String.eqb op "^" then
        "std::pow(" +:+ emitExpression lhs mangler +:+ ", " +:+
        emitExpression rhs mangler +:+ ")"
      else
        "(" +:+ emitExpression lhs mangler +:+ " " +:+ op +:+ " " +:+
        emitExpression rhs mangler +:+ ")"
  end.

(** What the emitting functions work on: the stream [out] and the [mangler],
    both passed by reference in the source.  [declared] is a ghost field: the
    names returned by the [declare] calls so far, in order.  Nothing reads
    it (see [emitStatements_declared_ghost]); it states which identifiers the
    emitted text defines. *)
Record Gen : Type := mkGen {
  out : string;
  mangler : NameMangler.t;
  declared : list string
}.

(** [out << text] *)
Definition write (text : string) (g : Gen) : Gen :=
  mkGen (out g +:+ text) (mangler g) (declared g).

Definition pushScope (g : Gen) : Gen :=
  mkGen (out g) (NameMangler.pushScope (mangler g)) (declared g).

Definition popScope (g : Gen) : Gen :=
  mkGen (out g) (NameMangler.popScope (mangler g)) (declared g).

(** [mangler.declare(name)], with the returned name logged. *)
Definition declare (name : string) (g : Gen) : string * Gen :=
  let (cppName, m) := NameMangler.declare name (mangler g) in
  (cppName, mkGen (out g) m (declared g ++ [cppName])).

(** [emitStatement] and [emitStatements] call each other; [emitBlock] is the
    [for] loop of [emitStatements] over the statements of a body and
    [scoped] is [emitStatements(body, indentLevel + 1, out, mangler, true)].
    [emitStatements] itself is defined after [emitStatement] and
    [emitStatement_eq] restates each case with it. *)
Fixpoint emitStatement (statement : Statement) (indentLevel : nat) (g : Gen)
  {struct statement} : Gen :=
  let emitBlock :=
    fix emitBlock (statements : list Statement) (g : Gen) {struct statements}
      : Gen :=
      match statements with
      | [] => g
      | stmt :: rest => emitBlock rest (emitStatement stmt (indentLevel + 1) g)
      end in
  let scoped (body : list Statement) (g : Gen) : Gen :=
    popScope (emitBlock body (pushScope g)) in
  match statement with
  | VarDeclStmt vtype name initializer =>
      let (cppName, g1) := declare name g in
      let g2 := write (indent indentLevel +:+ cppType vtype +:+ " " +:+ cppName)
                      g1 in
      let g3 := match initializer with
                | Some init =>
                    write (" = " +:+ emitExpression init (mangler g2)) g2
                | None => write "{}" g2
                end in
      write (";" +:+ LF) g3
  | AssignStmt name value =>
      write (indent indentLevel +:+ NameMangler.resolve name (mangler g) +:+
             " = " +:+ emitExpression value (mangler g) +:+ ";" +:+ LF) g
  | InputStmt name =>
      write (indent indentLevel +:+ "std::cin >> " +:+
             NameMangler.resolve name (mangler g) +:+ ";" +:+ LF) g
  | OutputStmt value =>
      write (indent indentLevel +:+ "std::cout << " +:+
             emitExpression value (mangler g) +:+ " << std::endl;" +:+ LF) g
  | IfStmt branches elseBranch hasElse =>
      let emitBranches :=
        fix emitBranches (i : nat)
            (branches : list (Expression * list Statement)) (g : Gen)
            {struct branches} : Gen :=
          match branches with
          | [] => g
          | (condition, body) :: rest =>
              let g1 := write (indent indentLevel +:+
                               (if i =? 0 then "if" else "else if") +:+ " (" +:+
                               emitExpression condition (mangler g) +:+
                               ") {" +:+ LF) g in
              let g2 := scoped body g1 in
              let g3 := write (indent indentLevel +:+ "}" +:+ LF) g2 in
              emitBranches (i + 1) rest g3
          end in
      let g1 := emitBranches 0 branches g in
      if hasElse then
        let g2 := write (indent indentLevel +:+ "else {" +:+ LF) g1 in
        let g3 := scoped elseBranch g2 in
        write (indent indentLevel +:+ "}" +:+ LF) g3
      else g1
  | WhileStmt condition body =>
      let g1 := write (indent indentLevel +:+ "while (" +:+
                       emitExpression condition (mangler g) +:+ ") {" +:+ LF)
                      g in
      let g2 := scoped body g1 in
      write (indent indentLevel +:+ "}" +:+ LF) g2
  | ForRangeStmt vtype name from to body =>
      let g1 := pushScope g in
      let (loopName, g2) := declare name g1 in
      let g3 := write (indent indentLevel +:+ "for (" +:+ cppType vtype +:+
                       " " +:+ loopName +:+ " = " +:+
                       emitExpression from (mangler g2) +:+ "; " +:+
                       loopName +:+ " <= " +:+
                       emitExpression to (mangler g2) +:+ "; ++" +:+
                       loopName +:+ ") {" +:+ LF) g2 in
      let g4 := scoped body g3 in
      let g5 := write (indent indentLevel +:+ "}" +:+ LF) g4 in
      popScope g5
  end.

(** The [for (const auto& stmt : statements)] loop of [emitStatements]. *)
Fixpoint emitEach (statements : list Statement) (indentLevel : nat) (g : Gen)
  : Gen :=
  match statements with
  | [] => g
  | stmt :: rest => emitEach rest indentLevel (emitStatement stmt indentLevel g)
  end.

Definition emitStatements (statements : list Statement) (indentLevel : nat)
  (g : Gen) (createNewScope : bool) : Gen :=
  let g1 := if createNewScope then pushScope g else g in
  let g2 := emitEach statements indentLevel g1 in
  if createNewScope then popScope g2 else g2.

(** The loop over the branches of an [if], as [emitStatement] runs it
    ([emitStatement_If] below). *)
Fixpoint emitBranches (indentLevel i : nat)
  (branches : list (Expression * list Statement)) (g : Gen) : Gen :=
  match branches with
  | [] => g
  | (condition, body) :: rest =>
      let g1 := write (indent indentLevel +:+
                       (if i =? 0 then "if" else "else if") +:+ " (" +:+
                       emitExpression condition (mangler g) +:+
                       ") {" +:+ LF) g in
      let g2 := emitStatements body (indentLevel + 1) g1 true in
      let g3 := write (indent indentLevel +:+ "}" +:+ LF) g2 in
      emitBranches indentLevel (i + 1) rest g3
  end.

(** The generator state on entry to [generate]: an empty stream and a fresh
    [NameMangler]. *)
Definition newGen : Gen := mkGen "" NameMangler.new [].

(** [generate], up to the final [out.str()]. *)
Definition runGenerate (program : Program) : Gen :=
  let g := write ("#include <cmath>" +:+ LF) newGen in
  let g := write ("#include <iostream>" +:+ LF) g in
  let g := write ("#include <string>" +:+ LF +:+ LF) g in
  let g := write ("int main() {" +:+ LF) g in
  let g := write (indent 1 +:+ "std::ios_base::sync_with_stdio(false);" +:+ LF)
                 g in
  let g := emitStatements (statements program) 1 g false in
  let g := write (indent 1 +:+ "return 0;" +:+ LF) g in
  write ("}" +:+ LF) g.

Definition generate (program : Program) : string := out (runGenerate program).

End CodeGenerator.

(** ** The pipeline (app.cpp): tokenize, parse, generate *)

Inductive TranslateError : Type :=
| LexFailure (e : Lexer.LexerError)
| ParseFailure (e : Parser.ParserError).

Definition translate (source : string) : Res TranslateError string :=
  match Lexer.tokenize source with
  | Ret tokens =>
      match Parser.parseProgram tokens with
      | Ret program => Ret (CodeGenerator.generate program)
      | Throw e => Throw (ParseFailure e)
      | Starved => Starved
      end
  | Throw e => Throw (LexFailure e)
  | Starved => Starved
  end.


(** * Vocabulary of the statements *)

(** ** Loops *)

(** The states a loop passes through. *)
Inductive reaches {E St} (body : St → Res E (LoopCtl St)) (s0 : St)
  : St → Prop :=
| reaches_start : reaches body s0 s0
| reaches_turn s s' :
    reaches body s0 s → body s = Ret (Next s') → reaches body s0 s'.

(** [k] turns of a loop that all go round again. *)
Fixpoint turns {E St} (body : St → Res E (LoopCtl St)) (k : nat) (s : St)
  : option St :=
  match k with
  | O => Some s
  | S k' =>
      match body s with
      | Ret (Next s') => turns body k' s'
      | _ => None
      end
  end.

(** ** Text *)

Definition LFs : string := String NL "".

(** Lines of text, each ended by a line feed. *)
Fixpoint unlines (lines : list string) : string :=
  match lines with
  | [] => ""
  | l :: rest => l +:+ LFs +:+ unlines rest
  end.

(** [text] mentions [word]: [word] occurs in it. *)
Fixpoint mentions (word text : string) : bool :=
  String.prefix word text ||
  match text with
  | EmptyString => false
  | String _ rest => mentions word rest
  end.

(** A string with every tab byte replaced by the two bytes backslash, t. *)
Fixpoint escapeTabs (s : string) : string :=
  match s with
  | EmptyString => ""
  | String ch rest =>
      (if Ascii.eqb ch TAB then String BACKSLASH "t" else String ch "")
      +:+ escapeTabs rest
  end.

(** A string holds a tab byte. *)
Fixpoint hasTab (s : string) : bool :=
  match s with
  | EmptyString => false
  | String ch rest => Ascii.eqb ch TAB || hasTab rest
  end.

(** ** Token streams and the lexer *)

(** How many tokens of a type a stream holds. *)
Definition countType (ty : TokenType) (ts : list Token) : nat :=
  length (filter (fun tok => type tok = ty) ts).

(** The type of the token at an index of a stream ([EndOfFile] past its
    end, as [Parser.peek] reads it). *)
Definition typeAt (ts : list Token) (i : nat) : TokenType :=
  type (nth i ts Parser.eof).

(** Token types other than the ones the indentation machinery and the end of
    [tokenize] push. *)
Definition plain (ty : TokenType) : bool :=
  negb (bool_decide (ty = Indent) || bool_decide (ty = Dedent) ||
        bool_decide (ty = EndOfFile)).

(** The indent stack once every level deeper than [spaces] has been popped
    off its top (the stack is listed bottom first, as the vector is). *)
Fixpoint popDeeper (spaces : nat) (stack : list nat) : list nat :=
  match stack with
  | [] => []
  | level :: above =>
      match popDeeper spaces above with
      | [] => if spaces <? level then [] else [level]
      | kept => level :: kept
      end
  end.

(** The token [handleIndentation] and [emitPendingDedents] push per pop. *)
Definition dedentAt (line : nat) : Token := mkToken Dedent "" line 1.

(** The error messages of [scanString]. *)
Definition stringErrors : list string :=
  [ "Строковый литерал не может переноситься на новую строку";
    "Незавершённая escape-последовательность";
    "Неизвестная escape-последовательность";
    "Незакрытая строка" ].

(** The exceptions of the lexer, with the state they are thrown in: the
    message of [scanOperator] holds the character, line and column of that
    state, the message of [handleIndentation] its line, the messages of
    [scanString] nothing of it. *)
Definition knownFailure (x : Lexer.LexerError * Lexer.t) : Prop :=
  let (e, L) := x in
  Lexer.lex_what e =
    Lexer.unknownChar (Lexer.peekChar 0 L) (Lexer.line_ L) (Lexer.column_ L) ∨
  Lexer.lex_what e = Lexer.inconsistentIndent (Lexer.line_ L) ∨
  Lexer.lex_what e ∈ stringErrors.

(** What a scanner does to the lexer besides moving on: it leaves the source
    and the indent stack alone and pushes [plain] tokens. *)
Definition scans (L L' : Lexer.t) : Prop :=
  Lexer.source_ L' = Lexer.source_ L ∧
  Lexer.indentStack_ L' = Lexer.indentStack_ L ∧
  ∃ new, Lexer.tokens_ L' = Lexer.tokens_ L ++ new ∧
         Forall (fun tok => plain (type tok) = true) new.

(** The invariant of the loop of [tokenize]: the bottom of the indent stack
    is 0, every level above it is matched by an [Indent] not yet closed by a
    [Dedent], and no [EndOfFile] has been pushed. *)
Definition lexInv (L : Lexer.t) : Prop :=
  (∃ above, Lexer.indentStack_ L = 0 :: above) ∧
  countType Indent (Lexer.tokens_ L) + 1 =
    countType Dedent (Lexer.tokens_ L) + length (Lexer.indentStack_ L) ∧
  Forall (fun tok => type tok ≠ EndOfFile) (Lexer.tokens_ L).

(** ** Headers and blocks *)

(** The keywords that open a statement with an indented body. *)
Definition isHeader (ty : TokenType) : bool :=
  bool_decide (ty = KeywordIf) || bool_decide (ty = KeywordWhile) ||
  bool_decide (ty = KeywordFor).

(** In [ts], the first [Newline] is directly followed by an [Indent]. *)
Fixpoint opensBlock (ts : list Token) : bool :=
  match ts with
  | [] => false
  | tok :: rest =>
      if bool_decide (type tok = Newline) then
        match rest with
        | next :: _ => bool_decide (type next = Indent)
        | [] => false
        end
      else opensBlock rest
  end.

(** The header whose keyword is the token at index [i] is followed by an
    indented body: the [Newline] that ends its line is followed by an
    [Indent]. *)
Definition blockFollows (ts : list Token) (i : nat) : bool :=
  opensBlock (drop (S i) ts).

(** Tokens that can stand inside the line of a statement: not the
    [Newline] and not a header keyword. *)
Definition inlineTok (ty : TokenType) : bool :=
  negb (bool_decide (ty = Newline)) && negb (isHeader ty).

(** ** The parser on a fixed token vector *)

Section ParserVocabulary.
Variable ts : list Token.

(** The parser at index [c] of [ts]. *)
Definition pos (c : nat) : Parser.t := Parser.mkParser ts c.

(** The length of [ts]. *)
Definition len : nat := length ts.

(** The token at [i] can stand inside a line. *)
Definition inlineAt (i : nat) : Prop := inlineTok (typeAt ts i) = true.

(** The token at [i] respects the block rule: if it is a header keyword, an
    indented body follows its line. *)
Definition goodAt (i : nat) : Prop :=
  isHeader (typeAt ts i) = true → blockFollows ts i = true.

(** From [c] to [c'] the parser went forward over tokens that satisfy [P]. *)
Definition adv (P : nat → Prop) (c c' : nat) : Prop :=
  c ≤ c' ∧ c' ≤ Nat.max c len ∧ ∀ i, c ≤ i < c' → P i.

(** An expression method called at [c]: it does not run out of fuel, and
    when it returns it has gone forward over tokens that can stand inside a
    line. *)
Definition exprSpec
  (f : Parser.t → Res Parser.ParserError (Expression * Parser.t)) (c : nat)
  : Prop :=
  match f (pos c) with
  | Ret (_, p') => ∃ c', p' = pos c' ∧ adv inlineAt c c'
  | Throw _ => True
  | Starved => False
  end.

(** Fuel [n] covers a call of height [h] at position [c]. *)
Definition fits (h n c : nat) : Prop := 16 * (len - c) + h ≤ n.

(** A method that goes forward over tokens that respect the block rule. *)
Definition goesOn {A} (r : Res Parser.ParserError (A * Parser.t)) (c : nat)
  : Prop :=
  match r with
  | Ret (_, p') => ∃ c', p' = pos c' ∧ adv goodAt c c'
  | Throw _ => True
  | Starved => False
  end.

(** A statement method: it also consumes at least one token. *)
Definition stmtSpec {A} (r : Res Parser.ParserError (A * Parser.t)) (c : nat)
  : Prop :=
  match r with
  | Ret (_, p') => ∃ c', p' = pos c' ∧ c < c' ∧ adv goodAt c c'
  | Throw _ => True
  | Starved => False
  end.

(** [parseIndentedBlock]: the block begins with [Newline], [Indent]. *)
Definition blockSpec {A} (r : Res Parser.ParserError (A * Parser.t)) (c : nat)
  : Prop :=
  match r with
  | Ret (_, p') =>
      ∃ c', p' = pos c' ∧ c < c' ∧ typeAt ts c = Newline ∧
            typeAt ts (c + 1) = Indent ∧ adv goodAt c c'
  | Throw _ => True
  | Starved => False
  end.
End ParserVocabulary.

(** ** The generator *)

(** The C++ name [declare] makes from the value of its counter. *)
Definition mangled (counter : nat) : string := "vr_" +:+ to_string counter.

(** Statements that own a body: [if], [while], [for]. *)
Definition ownsBody (statement : Statement) : bool :=
  match statement with
  | IfStmt _ _ _ | WhileStmt _ _ | ForRangeStmt _ _ _ _ _ => true
  | _ => false
  end.

(** Every name handed out is logged: the log is the names of the counter
    values used so far. *)
Definition logged (g : CodeGenerator.Gen) : Prop :=
  CodeGenerator.declared g =
  map mangled (seq 1 (NameMangler.counter_ (CodeGenerator.mangler g))).

(** A statement changes at most the innermost scope, and a statement that
    owns a body changes none. *)
Definition keepsOuter (stmt : Statement) : Prop :=
  ∀ i g outer top,
    NameMangler.scopes_ (CodeGenerator.mangler g) = outer ++ [top] →
    ∃ top',
      NameMangler.scopes_
        (CodeGenerator.mangler (CodeGenerator.emitStatement stmt i g)) =
        outer ++ [top'] ∧
      (ownsBody stmt = true → top' = top).

(** [emitStatement] on [stmt] keeps two generator states related by [R]. *)
Definition relatedBy (R : CodeGenerator.Gen → CodeGenerator.Gen → Prop)
  (stmt : Statement) : Prop :=
  ∀ i g g', R g g' →
    R (CodeGenerator.emitStatement stmt i g)
      (CodeGenerator.emitStatement stmt i g').

(** Induction over statements, with the statements of nested bodies. *)
Section StatementInduction.
Variable P : Statement → Prop.
Hypothesis HVarDecl : ∀ vtype name initializer,
  P (VarDeclStmt vtype name initializer).
Hypothesis HAssign : ∀ name value, P (AssignStmt name value).
Hypothesis HInput : ∀ name, P (InputStmt name).
Hypothesis HOutput : ∀ value, P (OutputStmt value).
Hypothesis HIf : ∀ branches elseBranch hasElse,
  Forall (fun branch => Forall P branch.2) branches → Forall P elseBranch →
  P (IfStmt branches elseBranch hasElse).
Hypothesis HWhile : ∀ condition body,
  Forall P body → P (WhileStmt condition body).
Hypothesis HFor : ∀ vtype name from to body,
  Forall P body → P (ForRangeStmt vtype name from to body).

Fixpoint Statement_nested_ind (statement : Statement) : P statement :=
  let all :=
    fix all (body : list Statement) : Forall P body :=
      match body with
      | [] => Forall_nil_2 P
      | stmt :: rest =>
          Forall_cons_2 P stmt rest (Statement_nested_ind stmt) (all rest)
      end in
  match statement with
  | VarDeclStmt vtype name initializer => HVarDecl vtype name initializer
  | AssignStmt name value => HAssign name value
  | InputStmt name => HInput name
  | OutputStmt value => HOutput value
  | IfStmt branches elseBranch hasElse =>
      HIf branches elseBranch hasElse
        ((fix each (branches : list (Expression * list Statement))
            : Forall (fun branch => Forall P branch.2) branches :=
            match branches with
            | [] => Forall_nil_2 _
            | branch :: rest =>
                Forall_cons_2 (fun branch => Forall P branch.2) branch rest
                  (all branch.2) (each rest)
            end) branches)
        (all elseBranch)
  | WhileStmt condition body => HWhile condition body (all body)
  | ForRangeStmt vtype name from to body =>
      HFor vtype name from to body (all body)
  end.
End StatementInduction.

(** ** Example inputs *)

(** An [если] with a [пока] nested in it. *)
Definition nestedSource : string :=
  unlines [ "если (x)"; "    пока (y)"; "        вывод 1" ].

Definition nestedTokens : list Token :=
  Eval vm_compute in
    match Lexer.tokenize nestedSource with Ret ts => ts | _ => [] end.

(** A third line indented by one space under a block indented by two. *)
Definition badDedentSource : string :=
  "a" +:+ LFs +:+ "  b" +:+ LFs +:+ " c".

(** The lexer at the start of that third line, four turns into the loop. *)
Definition badDedentState : Lexer.t :=
  Eval vm_compute in
    match turns Lexer.tokenizeBody 4 (Lexer.newLexer badDedentSource) with
    | Some L => L
    | None => Lexer.newLexer ""
    end.



(** A string literal that holds one raw tab byte. *)
Definition tabLiteralSource : string :=
  String QUOTE (String TAB (String QUOTE "")).

(** The power example, without a line feed after it. *)
Definition powerSource : string := "целое x = 2 ^ 3 ^ 2".

(** A declaration followed by the words of a [для] header. *)
Definition forFramingSource : string := "целое i от 0 до 2".

(** A [пока] header followed by a line that is not indented. *)
Definition emptyWhileSource : string := unlines [ "пока (x)"; "вывод 1" ].

Definition emptyWhileTokens : list Token :=
  Eval vm_compute in
    match Lexer.tokenize emptyWhileSource with Ret ts => ts | _ => [] end.

(** A [пока] header followed by a line that the lexer rejects. *)
Definition emptyWhileBadCharSource : string := "пока (x)" +:+ LFs +:+ "?".

(** An [если] and a [для] header at the end of the input. *)
Definition emptyIfSource : string := unlines [ "если (x)" ].

Definition emptyForSource : string := unlines [ "для (целое i от 1 до 3)" ].

(** A declaration in a loop body that shadows an outer one. *)
Definition shadowSource : string :=
  unlines [ "целое x = 1";
            "пока (x < 3)";
            "    целое x = 10";
            "    вывод x";
            "    x = x + 1";
            "вывод x" ].

(** Two programs that differ in one declaration inside the body of the
    loop; both declare and print [z] after the loop. *)
Definition declaringBody : Program :=
  mkProgram [ WhileStmt (VariableExpr "c")
                [ VarDeclStmt ValueType.Integer "y" None;
                  OutputStmt (VariableExpr "c") ];
              VarDeclStmt ValueType.Integer "z" None;
              OutputStmt (VariableExpr "z") ].

Definition plainBody : Program :=
  mkProgram [ WhileStmt (VariableExpr "c")
                [ OutputStmt (VariableExpr "c") ];
              VarDeclStmt ValueType.Integer "z" None;
              OutputStmt (VariableExpr "z") ].

(** ** Token types and lexemes *)

(** The token types of the keywords. *)
Definition isKeyword (ty : TokenType) : bool :=
  match ty with
  | KeywordInteger | KeywordDouble | KeywordString | KeywordLogic
  | KeywordIf | KeywordElse | KeywordWhile | KeywordFor
  | KeywordInput | KeywordOutput | KeywordAnd | KeywordOr | KeywordNot
  | KeywordFrom | KeywordTo | KeywordTrue | KeywordFalse => true
  | _ => false
  end.

(** The token types of the operators and punctuation. *)
Definition isOperator (ty : TokenType) : bool :=
  match ty with
  | LeftParen | RightParen | Plus | Minus | Star | Slash | Percent | Caret
  | Assign | Equal | Less | LessEqual | Greater | GreaterEqual | Comma => true
  | _ => false
  end.

(** Every byte of [s] satisfies [keep]. *)
Fixpoint allBytes (keep : ascii → bool) (s : string) : bool :=
  match s with
  | EmptyString => true
  | String ch rest => keep ch && allBytes keep rest
  end.

(** One decimal digit or more. *)
Definition isNumeral (s : string) : bool :=
  negb (String.eqb s "") && allBytes isdigit s.

(** The lexeme of a number token of type [ty]: a numeral for an integer, two
    numerals with a point between them for a double. *)
Definition numberLexeme (ty : TokenType) (s : string) : Prop :=
  (ty = IntegerLiteral ∧ isNumeral s = true) ∨
  (ty = DoubleLiteral ∧
   ∃ whole frac, s = whole +:+ "." +:+ frac ∧
                 isNumeral whole = true ∧ isNumeral frac = true).

(** What the loop of [scanNumber] has read after [k] bytes from [L]: digits,
    then, once [seenDot] is set, a point and more digits.  As long as the
    digits (after the point, if it was read) are none yet, the next byte is
    a digit. *)
Definition numberRead (L : Lexer.t) (seenDot : bool) (k : nat) : Prop :=
  let text := String.substring (Lexer.current_ L) k (Lexer.source_ L) in
  let digitNext :=
    ∃ d, String.get (Lexer.current_ L + k) (Lexer.source_ L) = Some d ∧
         isdigit d = true in
  if seenDot then
    ∃ whole frac, text = whole +:+ "." +:+ frac ∧ isNumeral whole = true ∧
                  allBytes isdigit frac = true ∧ (frac = "" → digitNext)
  else allBytes isdigit text = true ∧ (text = "" → digitNext).

(** The lexeme a token carries, by its type: a number as above, an
    identifier a run of identifier bytes that is no keyword, a keyword its
    word; a string literal carries its decoded payload, whatever it is, and
    every other token (operators, [Newline], [Indent], [Dedent],
    [EndOfFile]) the empty lexeme. *)
Definition lexemeOf (tok : Token) : Prop :=
  match type tok with
  | IntegerLiteral | DoubleLiteral => numberLexeme (type tok) (lexeme tok)
  | StringLiteral => True
  | Identifier =>
      lexeme tok ≠ "" ∧ allBytes Lexer.isIdentifierPart (lexeme tok) = true ∧
      Lexer.kKeywords (lexeme tok) = None
  | ty =>
      if isKeyword ty then Lexer.kKeywords (lexeme tok) = Some ty
      else lexeme tok = ""
  end.

(** ** The steps of the lexer *)

(** Token types of words: what the scanners of identifiers, numbers,
    strings and operators push. *)
Definition isWord (ty : TokenType) : bool :=
  plain ty && negb (bool_decide (ty = Newline)).

(** A scanner pushes one word of the current line. *)
Definition pushesWord (L L' : Lexer.t) : Prop :=
  ∃ k tok, isWord (type tok) = true ∧ line tok = Lexer.line_ L ∧
           lexemeOf tok ∧ L' = Lexer.push_back_token (Lexer.bump k L) tok.

(** What the loop of [tokenize] does to the line counter, the line-start
    flag, the indent stack and the token vector, step by step: it skips
    blanks and comments, pushes a word, ends a line, or opens or closes
    blocks at the start of a line of code. *)
Inductive lexStep (L L' : Lexer.t) : Prop :=
| step_skip :
    Lexer.line_ L' = Lexer.line_ L →
    Lexer.atLineStart_ L' = Lexer.atLineStart_ L →
    Lexer.indentStack_ L' = Lexer.indentStack_ L →
    Lexer.tokens_ L' = Lexer.tokens_ L →
    lexStep L L'
| step_word tok :
    Lexer.atLineStart_ L = false →
    isWord (type tok) = true → line tok = Lexer.line_ L → lexemeOf tok →
    Lexer.line_ L' = Lexer.line_ L →
    Lexer.atLineStart_ L' = false →
    Lexer.indentStack_ L' = Lexer.indentStack_ L →
    Lexer.tokens_ L' = Lexer.tokens_ L ++ [tok] →
    lexStep L L'
| step_newline col :
    Lexer.line_ L' = Lexer.line_ L + 1 →
    Lexer.atLineStart_ L' = true →
    Lexer.indentStack_ L' = Lexer.indentStack_ L →
    Lexer.tokens_ L' =
      Lexer.tokens_ L ++ [mkToken Newline "" (Lexer.line_ L) col] →
    lexStep L L'
| step_indent spaces :
    Lexer.atLineStart_ L = true →
    Lexer.back (Lexer.indentStack_ L) < spaces →
    Lexer.line_ L' = Lexer.line_ L →
    Lexer.atLineStart_ L' = false →
    Lexer.indentStack_ L' = Lexer.indentStack_ L ++ [spaces] →
    Lexer.tokens_ L' =
      Lexer.tokens_ L ++ [mkToken Indent "" (Lexer.line_ L) 1] →
    lexStep L L'
| step_dedent k :
    Lexer.atLineStart_ L = true →
    k < length (Lexer.indentStack_ L) →
    Lexer.line_ L' = Lexer.line_ L →
    Lexer.atLineStart_ L' = false →
    Lexer.indentStack_ L' =
      take (length (Lexer.indentStack_ L) - k) (Lexer.indentStack_ L) →
    Lexer.tokens_ L' =
      Lexer.tokens_ L ++ repeat (dedentAt (Lexer.line_ L)) k →
    lexStep L L'.

(** The depth of open blocks after a stream read at depth [d]: each
    [Indent] opens a block, each [Dedent] closes one; [None] when a
    [Dedent] comes with no block open. *)
Fixpoint depthAfter (d : nat) (ts : list Token) : option nat :=
  match ts with
  | [] => Some d
  | tok :: rest =>
      match type tok with
      | Indent => depthAfter (S d) rest
      | Dedent =>
          match d with
          | O => None
          | S d' => depthAfter d' rest
          end
      | _ => depthAfter d rest
      end
  end.

(** The line numbers of a token stream never go down. *)
Definition linesAscend (ts : list Token) : Prop :=
  ∀ i j ti tj, i ≤ j → ts !! i = Some ti → ts !! j = Some tj →
               line ti ≤ line tj.

(** A stream that is empty or ends with a [Newline]: what follows it starts
    a line. *)
Definition endsLine (ts : list Token) : Prop :=
  ts = [] ∨ ∃ nl, last ts = Some nl ∧ type nl = Newline.

(** Every [Indent] of a stream is the first token of its line: the first
    token of the stream or the one after a [Newline]. *)
Definition indentsStartLines (ts : list Token) : Prop :=
  ∀ i tok, ts !! i = Some tok → type tok = Indent →
           i = 0 ∨ ∃ nl, ts !! (i - 1) = Some nl ∧ type nl = Newline.

(** The line counter is one more than the [Newline]s pushed, no token is
    of a later line, and the lines of the tokens start at 1 and never go
    down. *)
Definition linesInv (L : Lexer.t) : Prop :=
  Lexer.line_ L = 1 + countType Newline (Lexer.tokens_ L) ∧
  Forall (fun tok => 1 ≤ line tok ≤ Lexer.line_ L) (Lexer.tokens_ L) ∧
  linesAscend (Lexer.tokens_ L).

(** ** Source text *)

(** The byte [ch] occurs in [s]. *)
Fixpoint occurs (ch : ascii) (s : string) : bool :=
  match s with
  | EmptyString => false
  | String c rest => Ascii.eqb c ch || occurs ch rest
  end.

(** The unread part of the source of [L] is [s]. *)
Definition unread (L : Lexer.t) (s : string) : Prop :=
  ∀ k, String.get (Lexer.current_ L + k) (Lexer.source_ L) = String.get k s.

(** A string literal as the generator writes it: the escaped payload
    between quotes. *)
Definition quoted (value : string) : string :=
  String QUOTE (CodeGenerator.escapeString value +:+ String QUOTE "").

(** ** What the parser builds *)

(** The binary operators: the text the parser puts into a [BinaryExpr],
    with the level of the method that builds it ([parseOr] is level 1,
    [parsePower] level 7) and the token it is read from. *)
Definition binaryOp (op : string) : option (nat * TokenType) :=
  if String.eqb op "||" then Some (1, KeywordOr)
  else if String.eqb op "&&" then Some (2, KeywordAnd)
  else if String.eqb op "==" then Some (3, Equal)
  else if String.eqb op "<" then Some (4, Less)
  else if String.eqb op "<=" then Some (4, LessEqual)
  else if String.eqb op ">" then Some (4, Greater)
  else if String.eqb op ">=" then Some (4, GreaterEqual)
  else if String.eqb op "+" then Some (5, Plus)
  else if String.eqb op "-" then Some (5, Minus)
  else if String.eqb op "*" then Some (6, Star)
  else if String.eqb op "/" then Some (6, Slash)
  else if String.eqb op "%" then Some (6, Percent)
  else if String.eqb op "^" then Some (7, Caret)
  else None.

(** The unary operators, built by [parseUnary] (level 8). *)
Definition unaryOp (op : string) : option TokenType :=
  if String.eqb op "-" then Some Minus
  else if String.eqb op "!" then Some KeywordNot
  else None.

(** The literals [parsePrimary] builds: numbers and strings with the
    default [boolValue], and the two truth values. *)
Definition parsedLiteral (vtype : ValueType.t) (text : string)
  (boolValue : bool) : bool :=
  match vtype with
  | ValueType.Integer | ValueType.Double | ValueType.String => negb boolValue
  | ValueType.Boolean =>
      (String.eqb text "true" && boolValue) ||
      (String.eqb text "false" && negb boolValue)
  | ValueType.Unknown => false
  end.

(** Expressions made of these literals and operators. *)
Fixpoint parsedExpr (expr : Expression) : bool :=
  match expr with
  | LiteralExpr vtype text boolValue => parsedLiteral vtype text boolValue
  | VariableExpr _ => true
  | UnaryExpr op operand => bool_decide (is_Some (unaryOp op)) && parsedExpr operand
  | BinaryExpr op lhs rhs =>
      bool_decide (is_Some (binaryOp op)) && parsedExpr lhs && parsedExpr rhs
  end.

Definition knownType (vtype : ValueType.t) : bool :=
  match vtype with
  | ValueType.Unknown => false
  | _ => true
  end.

(** Statements as the parser builds them: a declared type is never
    [Unknown], an [if] has at least one branch, and its [else] branch is
    empty unless [hasElse] is set. *)
Fixpoint parsedStmt (statement : Statement) : bool :=
  match statement with
  | VarDeclStmt vtype _ initializer =>
      knownType vtype &&
      match initializer with
      | Some init => parsedExpr init
      | None => true
      end
  | AssignStmt _ value => parsedExpr value
  | InputStmt _ => true
  | OutputStmt value => parsedExpr value
  | IfStmt branches elseBranch hasElse =>
      negb (bool_decide (branches = [])) &&
      forallb (fun branch : Expression * list Statement =>
                 parsedExpr branch.1 && forallb parsedStmt branch.2) branches &&
      forallb parsedStmt elseBranch &&
      (hasElse || bool_decide (elseBranch = []))
  | WhileStmt condition body => parsedExpr condition && forallb parsedStmt body
  | ForRangeStmt vtype _ from to body =>
      knownType vtype && parsedExpr from && parsedExpr to &&
      forallb parsedStmt body
  end.


(** A parsing method started on a parser that satisfies [I]: what it
    returns, when it returns, satisfies [P], and the parser it leaves
    satisfies [I]. *)
Definition keeps {A} (I : Parser.t → Prop) (P : A → Prop)
  (f : Parser.M A) : Prop :=
  ∀ p, I p →
    match f p with
    | Ret (a, p') => P a ∧ I p'
    | _ => True
    end.

(** The [if] under construction in the loop of [parseIf] over the [иначе]
    parts has the form of a parsed [if]. *)
Definition parsedIf (st : Parser.IfState) : Prop :=
  let '(branches, elseBranch, hasElse, _) := st in
  parsedStmt (IfStmt branches elseBranch hasElse) = true.

(** The parser reads the vector [ts] and has not moved past an
    [EndOfFile]. *)
Definition inside (ts : list Token) (p : Parser.t) : Prop :=
  Parser.tokens_ p = ts ∧
  ∀ i, i < Parser.current_ p → typeAt ts i ≠ EndOfFile.

(** ** Writing an expression as tokens *)

(** A keyword or operator token, spelled as the lexer spells it. *)
Definition wordToken (ty : TokenType) : Token :=
  mkToken ty (if isKeyword ty then tokenTypeToString ty else "") 1 1.

(** The token [parsePrimary] reads a literal from. *)
Definition literalToken (vtype : ValueType.t) (text : string)
  (boolValue : bool) : Token :=
  match vtype with
  | ValueType.Integer => mkToken IntegerLiteral text 1 1
  | ValueType.Double => mkToken DoubleLiteral text 1 1
  | ValueType.String => mkToken StringLiteral text 1 1
  | ValueType.Boolean =>
      wordToken (if boolValue then KeywordTrue else KeywordFalse)
  | ValueType.Unknown => mkToken Identifier text 1 1
  end.

(** Tokens between parentheses, when [parens] is set. *)
Definition wrap (parens : bool) (toks : list Token) : list Token :=
  if parens then wordToken LeftParen :: toks ++ [wordToken RightParen]
  else toks.

(** An expression written with the fewest parentheses for a place where
    the method of level [lvl] reads it ([parseOr] is level 1, [parseAnd] 2,
    [parseEquality] 3, [parseComparison] 4, [parseTerm] 5, [parseFactor] 6,
    [parsePower] 7, [parseUnary] 8, [parsePrimary] 9): a node of a lower
    level than [lvl] is put in parentheses; the operands of a
    left-associative operator of level [k] are written for levels [k] and
    [k + 1], the operands of [^] for levels 8 and 7. *)
Fixpoint tokensAt (lvl : nat) (expr : Expression) : list Token :=
  match expr with
  | LiteralExpr vtype text boolValue => [literalToken vtype text boolValue]
  | VariableExpr name => [mkToken Identifier name 1 1]
  | UnaryExpr op operand =>
      match unaryOp op with
      | Some ty => wrap (8 <? lvl) (wordToken ty :: tokensAt 8 operand)
      | None => []
      end
  | BinaryExpr op lhs rhs =>
      match binaryOp op with
      | Some (k, ty) =>
          wrap (k <? lvl)
            (tokensAt (if k =? 7 then 8 else k) lhs ++
             wordToken ty :: tokensAt (if k =? 7 then 7 else k + 1) rhs)
      | None => []
      end
  end.

(** The number of nodes of an expression. *)
Fixpoint nodes (expr : Expression) : nat :=
  match expr with
  | LiteralExpr _ _ _ | VariableExpr _ => 1
  | UnaryExpr _ operand => 1 + nodes operand
  | BinaryExpr _ lhs rhs => 1 + nodes lhs + nodes rhs
  end.

(** The level at which a token goes on with a binary operation. *)
Definition opLevel (ty : TokenType) : option nat :=
  match ty with
  | KeywordOr => Some 1
  | KeywordAnd => Some 2
  | Equal => Some 3
  | Less | LessEqual | Greater | GreaterEqual => Some 4
  | Plus | Minus => Some 5
  | Star | Slash | Percent => Some 6
  | Caret => Some 7
  | _ => None
  end.

(** The tokens [rest] that follow an expression end it for the method of
    level [lvl]: they start with a token that is no binary operator of
    level [lvl] or higher. *)
Definition stopsAt (lvl : nat) (rest : list Token) : bool :=
  match rest with
  | [] => false
  | tok :: _ =>
      match opLevel (type tok) with
      | Some k => k <? lvl
      | None => true
      end
  end.

(** The expression methods by level, with the fuel that leaves [m] to the
    calls of [parseExpression] from [parsePrimary]. *)
Definition parseAt (lvl m : nat) : Parser.M Expression :=
  match lvl with
  | 1 => Parser.parseOr (9 + m)
  | 2 => Parser.parseAnd (8 + m)
  | 3 => Parser.parseEquality (7 + m)
  | 4 => Parser.parseComparison (6 + m)
  | 5 => Parser.parseTerm (5 + m)
  | 6 => Parser.parseFactor (4 + m)
  | 7 => Parser.parsePower (3 + m)
  | 8 => Parser.parseUnary (2 + m)
  | _ => Parser.parsePrimary (1 + m)
  end.

(** The operators of the loop of a left-associative level. *)
Definition opsAt (lvl : nat) : list (TokenType * string) :=
  match lvl with
  | 1 => [(KeywordOr, "||")]
  | 2 => [(KeywordAnd, "&&")]
  | 3 => [(Equal, "==")]
  | 4 => [(Less, "<"); (LessEqual, "<="); (Greater, ">"); (GreaterEqual, ">=")]
  | 5 => [(Plus, "+"); (Minus, "-")]
  | 6 => [(Star, "*"); (Slash, "/"); (Percent, "%")]
  | _ => []
  end.

(** The method of level [lvl] reads [toks] as [expr], whatever stands
    before and whatever ends the expression after. *)
Definition parsesTo (lvl m : nat) (toks : list Token) (expr : Expression)
  : Prop :=
  ∀ ts c rest,
    drop c ts = toks ++ rest → stopsAt lvl rest = true →
    parseAt lvl m (pos ts c) = Ret (expr, pos ts (c + length toks)).

(** The method of a left-associative level [lvl], having read [toks] as
    [expr], goes on with its loop. *)
Definition loopsFrom (lvl m : nat) (toks : list Token) (expr : Expression)
  : Prop :=
  ∀ ts c rest,
    drop c ts = toks ++ rest → stopsAt (lvl + 1) rest = true →
    ∃ turnsLeft,
      length ts - (c + length toks) < turnsLeft ∧
      parseAt lvl m (pos ts c) =
      iterate turnsLeft
        (Parser.binaryLoop (opsAt lvl) (parseAt (lvl + 1) m))
        (expr, pos ts (c + length toks)).

(** Tokens that start with an operand of [parseUnary]: with a token other
    than the two prefix operators. *)
Definition startsOperand (toks : list Token) : bool :=
  match toks with
  | [] => false
  | tok :: _ =>
      negb (bool_decide (type tok = Minus)) &&
      negb (bool_decide (type tok = KeywordNot))
  end.

(** ** The generator's names and stream *)

(** How many names the generator declares for a statement: one per
    declaration and per [для] loop that it emits, at any depth (the [else]
    branch of an [if] is emitted only when [hasElse] is set). *)
Fixpoint declarations (statement : Statement) : nat :=
  let all :=
    fix all (body : list Statement) : nat :=
      match body with
      | [] => 0
      | stmt :: rest => declarations stmt + all rest
      end in
  match statement with
  | VarDeclStmt _ _ _ => 1
  | AssignStmt _ _ | InputStmt _ | OutputStmt _ => 0
  | IfStmt branches elseBranch hasElse =>
      (fix each (branches : list (Expression * list Statement)) : nat :=
         match branches with
         | [] => 0
         | (_, body) :: rest => all body + each rest
         end) branches +
      (if hasElse then all elseBranch else 0)
  | WhileStmt _ body => all body
  | ForRangeStmt _ _ _ _ body => 1 + all body
  end.

Fixpoint declarationsIn (body : list Statement) : nat :=
  match body with
  | [] => 0
  | stmt :: rest => declarations stmt + declarationsIn rest
  end.

(** The generator with the same mangler and log and an empty stream. *)
Definition freshStream (g : CodeGenerator.Gen) : CodeGenerator.Gen :=
  CodeGenerator.mkGen "" (CodeGenerator.mangler g) (CodeGenerator.declared g).

(** The text [generate] writes before and after the statements. *)
Definition prologue : string :=
  unlines [ "#include <cmath>";
            "#include <iostream>";
            "#include <string>";
            "";
            "int main() {";
            "    std::ios_base::sync_with_stdio(false);" ].

Definition epilogue : string := unlines [ "    return 0;"; "}" ].

(** [declare] called for each of [names] in turn. *)
Fixpoint declareAll (names : list string) (m : NameMangler.t) : NameMangler.t :=
  match names with
  | [] => m
  | name :: rest => declareAll rest (NameMangler.declare name m).2
  end.

(** ** Writing a program as tokens *)

(** The keyword of a declared type ([Unknown] has none; the parser never
    builds a declaration of that type). *)
Definition typeKeyword (vtype : ValueType.t) : TokenType :=
  match vtype with
  | ValueType.Integer => KeywordInteger
  | ValueType.Double => KeywordDouble
  | ValueType.String => KeywordString
  | ValueType.Boolean => KeywordLogic
  | ValueType.Unknown => EndOfFile
  end.

(** The tokens of a body: the end of the header line, an [Indent], the
    statements, a [Dedent]. *)
Definition blockTokens (body : list Token) : list Token :=
  wordToken Newline :: wordToken Indent :: body ++ [wordToken Dedent].

(** A condition between parentheses. *)
Definition conditionTokens (condition : Expression) : list Token :=
  wordToken LeftParen :: tokensAt 1 condition ++ [wordToken RightParen].

(** A statement written as the tokens the lexer gives for its lines: one
    line for a declaration, an assignment, [ввод] and [вывод], a header
    line and an indented body for [если], [иначе если], [иначе], [пока] and
    [для]. *)
Fixpoint stmtTokens (statement : Statement) : list Token :=
  let block := fun body : list Statement =>
    blockTokens (flat_map stmtTokens body) in
  let branch := fun b : Expression * list Statement =>
    wordToken KeywordIf :: conditionTokens b.1 ++ block b.2 in
  match statement with
  | VarDeclStmt vtype name initializer =>
      wordToken (typeKeyword vtype) :: mkToken Identifier name 1 1 ::
      match initializer with
      | Some init => wordToken Assign :: tokensAt 1 init
      | None => []
      end ++ [wordToken Newline]
  | AssignStmt name value =>
      mkToken Identifier name 1 1 :: wordToken Assign ::
      tokensAt 1 value ++ [wordToken Newline]
  | InputStmt name =>
      [wordToken KeywordInput; mkToken Identifier name 1 1; wordToken Newline]
  | OutputStmt value =>
      wordToken KeywordOutput :: tokensAt 1 value ++ [wordToken Newline]
  | IfStmt branches elseBranch hasElse =>
      match branches with
      | [] => []
      | first :: others =>
          branch first ++
          flat_map (fun b => wordToken KeywordElse :: branch b) others
      end ++
      (if hasElse then wordToken KeywordElse :: block elseBranch else [])
  | WhileStmt condition body =>
      wordToken KeywordWhile :: conditionTokens condition ++ block body
  | ForRangeStmt vtype name from to body =>
      wordToken KeywordFor :: wordToken LeftParen ::
      wordToken (typeKeyword vtype) :: mkToken Identifier name 1 1 ::
      wordToken KeywordFrom :: tokensAt 1 from ++
      wordToken KeywordTo :: tokensAt 1 to ++
      wordToken RightParen :: block body
  end.

(** The statements of a body, one after the other. *)
Definition bodyTokens (body : list Statement) : list Token :=
  flat_map stmtTokens body.

(** A branch of an [если]: the keyword, the condition and the body. *)
Definition branchTokensOf (b : Expression * list Statement) : list Token :=
  wordToken KeywordIf :: conditionTokens b.1 ++ blockTokens (bodyTokens b.2).

(** A program written as tokens, with the final [EndOfFile]. *)
Definition programTokens (program : Program) : list Token :=
  bodyTokens (statements program) ++ [wordToken EndOfFile].

(** The tokens [rest] that follow a statement leave it as it is: they
    start with a token that is neither a [Newline] nor [иначе]. *)
Definition endsStatement (rest : list Token) : bool :=
  match rest with
  | [] => false
  | tok :: _ =>
      negb (bool_decide (type tok = Newline)) &&
      negb (bool_decide (type tok = KeywordElse))
  end.

(** The token types a statement starts with. *)
Definition startsStatement (ty : TokenType) : bool :=
  isTypeKeyword ty ||
  match ty with
  | KeywordInput | KeywordOutput | KeywordIf | KeywordWhile | KeywordFor
  | Identifier => true
  | _ => false
  end.

(** The parser reads [toks] as the statement [s] with fuel [n], whatever
    stands before and whatever other statement or end of block follows. *)
Definition readsStmt (n : nat) (s : Statement) : Prop :=
  ∀ ts c rest,
    drop c ts = stmtTokens s ++ rest → endsStatement rest = true →
    Parser.parseStatement n (pos ts c) =
    Ret (s, pos ts (c + length (stmtTokens s))).

(** ** Where a statement leaves the parser *)

(** The parser has just passed the end of a line or of a block, or stands
    before the end of a block. *)
Definition lineEnded (p : Parser.t) : Prop :=
  (0 < Parser.current_ p ∧
   (type (Parser.previous p) = Newline ∨ type (Parser.previous p) = Dedent)) ∨
  type (Parser.peek p) = Dedent.

(** The parser has just passed a token of type [ty]. *)
Definition passed (ty : TokenType) (p : Parser.t) : Prop :=
  0 < Parser.current_ p ∧ type (Parser.previous p) = ty.

(** The parser that a method leaves, when it returns, satisfies [Q]. *)
Definition leaves {A} (Q : Parser.t → Prop)
  (r : Res Parser.ParserError (A * Parser.t)) : Prop :=
  match r with
  | Ret (_, p') => Q p'
  | _ => True
  end.

(** ** Tokens without their places *)

(** A token without its line and column. *)
Definition unplaced (tok : Token) : Token :=
  mkToken (type tok) (lexeme tok) 0 0.

(** The parser at the same index of the same tokens without places. *)
Definition unplacedParser (p : Parser.t) : Parser.t :=
  Parser.mkParser (map unplaced (Parser.tokens_ p)) (Parser.current_ p).

(** The result of a method with the parser it leaves taken to the tokens
    without places. *)
Definition onParser {A} (r : Res Parser.ParserError (A * Parser.t))
  : Res Parser.ParserError (A * Parser.t) :=
  match r with
  | Ret (a, p') => Ret (a, unplacedParser p')
  | Throw e => Throw e
  | Starved => Starved
  end.

(** A method that does on the tokens without places what it does on the
    tokens: same value or same exception, same index. *)
Definition ignoresPlaces {A} (f : Parser.M A) : Prop :=
  ∀ p, f (unplacedParser p) = onParser (f p).

(** ** Writing tokens as text *)

(** A name the lexer reads as an identifier: a byte that starts an
    identifier, then bytes that go on with one, and no keyword. *)
Definition isName (s : string) : bool :=
  match s with
  | EmptyString => false
  | String c rest =>
      Lexer.isIdentifierStart c && allBytes Lexer.isIdentifierPart rest &&
      bool_decide (Lexer.kKeywords s = None)
  end.

(** Digits, a point, digits. *)
Fixpoint isDecimal (s : string) : bool :=
  match s with
  | EmptyString => false
  | String c rest =>
      isdigit c &&
      match rest with
      | String "." frac => isNumeral frac
      | _ => isDecimal rest
      end
  end.

(** A word the lexer can read back: its lexeme is the one the lexer gives
    a token of that type. *)
Definition writableWord (tok : Token) : bool :=
  match type tok with
  | Identifier => isName (lexeme tok)
  | IntegerLiteral => isNumeral (lexeme tok)
  | DoubleLiteral => isDecimal (lexeme tok)
  | StringLiteral => true
  | Newline | Indent | Dedent | EndOfFile => false
  | ty =>
      String.eqb (lexeme tok)
                 (if isKeyword ty then tokenTypeToString ty else "")
  end.

(** The text of a word: the spelling of a keyword or an operator, the
    lexeme of a name or a number, the escaped payload of a string between
    quotes. *)
Definition wordText (tok : Token) : string :=
  match type tok with
  | Identifier | IntegerLiteral | DoubleLiteral => lexeme tok
  | StringLiteral => quoted (lexeme tok)
  | ty => tokenTypeToString ty
  end.

(** The words of a line, each followed by a space. *)
Fixpoint wordsText (ws : list Token) : string :=
  match ws with
  | [] => ""
  | w :: rest => wordText w +:+ String " " (wordsText rest)
  end.

(** [n] spaces before [s]. *)
Fixpoint spaces (n : nat) (s : string) : string :=
  match n with
  | O => s
  | S n' => String " " (spaces n' s)
  end.

(** A line of code: its depth in the blocks and its words. *)
Definition Line : Type := nat * list Token.

(** Lines of code as text: four spaces per level of depth, the words, a
    line feed. *)
Fixpoint linesText (ls : list Line) : string :=
  match ls with
  | [] => ""
  | (d, ws) :: rest =>
      spaces (4 * d) (wordsText ws +:+ String NL (linesText rest))
  end.

(** The tokens between a line at depth [cur] and a line at depth [d]. *)
Definition enter (cur d : nat) : list Token :=
  if cur <? d then [wordToken Indent] else repeat (wordToken Dedent) (cur - d).

(** The tokens of lines of code that follow a line at depth [cur]. *)
Fixpoint linesTokens (cur : nat) (ls : list Line) : list Token :=
  match ls with
  | [] => repeat (wordToken Dedent) cur ++ [wordToken EndOfFile]
  | (d, ws) :: rest =>
      enter cur d ++ ws ++ wordToken Newline :: linesTokens d rest
  end.

(** Lines the lexer can read back after a line at depth [cur]: no line is
    more than one level deeper than the line before it, every line has a
    word, and the words are writable. *)
Fixpoint wellLaid (cur : nat) (ls : list Line) : bool :=
  match ls with
  | [] => true
  | (d, ws) :: rest =>
      (d <=? cur + 1) && negb (bool_decide (ws = [])) &&
      forallb writableWord ws && wellLaid d rest
  end.

(** The indent stack at depth [d]: the widths 0, 4, ..., 4 d. *)
Definition levels (d : nat) : list nat := map (Nat.mul 4) (seq 0 (S d)).

(** The lexer stands before the text [s], at the start of a line or not,
    at depth [cur], having pushed the tokens [pushed], places apart. *)
Definition stands (L : Lexer.t) (s : string) (atStart : bool) (cur : nat)
  (pushed : list Token) : Prop :=
  unread L s ∧ Lexer.atLineStart_ L = atStart ∧
  Lexer.indentStack_ L = levels cur ∧
  map unplaced (Lexer.tokens_ L) = map unplaced pushed.

(** What a turn of the loop of [tokenize] does after its line-start part:
    it reads the byte at [current_]. *)
Definition scanAt (L1 : Lexer.t) : Lexer.LexM (LoopCtl Lexer.t) :=
  match String.get (Lexer.current_ L1) (Lexer.source_ L1) with
  | None => Ret (Done L1)
  | Some ch =>
      if Ascii.eqb ch " " || Ascii.eqb ch TAB then Ret (Next (Lexer.bump 1 L1))
      else if Ascii.eqb ch CR then
        Ret (Next (Lexer.set_current L1 (Lexer.current_ L1 + 1)))
      else if Ascii.eqb ch NL then
        let L2 := Lexer.pushToken Newline "" L1 in
        Ret (Next (Lexer.set_atLineStart
                     (Lexer.set_column
                        (Lexer.set_line
                           (Lexer.set_current L2 (Lexer.current_ L2 + 1))
                           (Lexer.line_ L2 + 1))
                        1)
                     true))
      else if Ascii.eqb ch "/" && Ascii.eqb (Lexer.peekChar 1 L1) "/" then
        let* L2 := Lexer.skipComment L1 in Ret (Next L2)
      else if Ascii.eqb ch QUOTE then
        let* L2 := Lexer.scanString L1 in Ret (Next L2)
      else if isdigit ch then
        let* L2 := Lexer.scanNumber L1 in Ret (Next L2)
      else if Lexer.isIdentifierStart ch then
        let* L2 := Lexer.scanIdentifierOrKeyword L1 in Ret (Next L2)
      else
        let* L2 := Lexer.scanOperator L1 in Ret (Next L2)
  end.

(** The tokens of lines of code without the [Dedent]s and the [EndOfFile]
    at the end. *)
Fixpoint linesWords (cur : nat) (ls : list Line) : list Token :=
  match ls with
  | [] => []
  | (d, ws) :: rest =>
      enter cur d ++ ws ++ wordToken Newline :: linesWords d rest
  end.

(** The depth of the last of the lines that follow a line at depth
    [cur]. *)
Fixpoint lastDepth (cur : nat) (ls : list Line) : nat :=
  match ls with
  | [] => cur
  | (d, _) :: rest => lastDepth d rest
  end.

(** ** A program as lines of code *)

(** A statement at depth [d] as lines of code: one line for a declaration,
    an assignment, [ввод] and [вывод]; a header line and the lines of the
    body, one level deeper, for [если], [иначе если], [иначе], [пока] and
    [для]. *)
Fixpoint stmtLines (d : nat) (statement : Statement) : list Line :=
  let block := fun body : list Statement => flat_map (stmtLines (S d)) body in
  match statement with
  | VarDeclStmt vtype name initializer =>
      [(d, wordToken (typeKeyword vtype) :: mkToken Identifier name 1 1 ::
           match initializer with
           | Some init => wordToken Assign :: tokensAt 1 init
           | None => []
           end)]
  | AssignStmt name value =>
      [(d, mkToken Identifier name 1 1 :: wordToken Assign ::
           tokensAt 1 value)]
  | InputStmt name =>
      [(d, [wordToken KeywordInput; mkToken Identifier name 1 1])]
  | OutputStmt value => [(d, wordToken KeywordOutput :: tokensAt 1 value)]
  | IfStmt branches elseBranch hasElse =>
      match branches with
      | [] => []
      | first :: others =>
          ((d, wordToken KeywordIf :: conditionTokens first.1) ::
           block first.2) ++
          flat_map (fun b : Expression * list Statement =>
                      (d, wordToken KeywordElse :: wordToken KeywordIf ::
                          conditionTokens b.1) :: block b.2) others
      end ++
      (if hasElse then (d, [wordToken KeywordElse]) :: block elseBranch
       else [])
  | WhileStmt condition body =>
      (d, wordToken KeywordWhile :: conditionTokens condition) :: block body
  | ForRangeStmt vtype name from to body =>
      (d, wordToken KeywordFor :: wordToken LeftParen ::
          wordToken (typeKeyword vtype) :: mkToken Identifier name 1 1 ::
          wordToken KeywordFrom :: tokensAt 1 from ++
          wordToken KeywordTo :: tokensAt 1 to ++ [wordToken RightParen]) ::
      block body
  end.

(** The lines of a body at depth [d]. *)
Definition bodyLines (d : nat) (body : list Statement) : list Line :=
  flat_map (stmtLines d) body.

(** A program as text: its lines, four spaces per level, a space after
    every word, a line feed after every line. *)
Definition programText (program : Program) : string :=
  linesText (bodyLines 0 (statements program)).

(** The names and numbers of an expression are ones the lexer reads
    back. *)
Fixpoint writableExpr (expr : Expression) : bool :=
  match expr with
  | LiteralExpr vtype text _ =>
      match vtype with
      | ValueType.Integer => isNumeral text
      | ValueType.Double => isDecimal text
      | _ => true
      end
  | VariableExpr name => isName name
  | UnaryExpr _ operand => writableExpr operand
  | BinaryExpr _ lhs rhs => writableExpr lhs && writableExpr rhs
  end.

Definition nonEmpty {A} (l : list A) : bool :=
  match l with
  | [] => false
  | _ => true
  end.

(** The names and numbers of a statement are ones the lexer reads back,
    and no body is empty. *)
Fixpoint writableStmt (statement : Statement) : bool :=
  let block := fun body : list Statement =>
    nonEmpty body && forallb writableStmt body in
  match statement with
  | VarDeclStmt _ name initializer =>
      isName name &&
      match initializer with
      | Some init => writableExpr init
      | None => true
      end
  | AssignStmt name value => isName name && writableExpr value
  | InputStmt name => isName name
  | OutputStmt value => writableExpr value
  | IfStmt branches elseBranch hasElse =>
      forallb (fun b : Expression * list Statement =>
                 writableExpr b.1 && block b.2) branches &&
      (if hasElse then block elseBranch else true)
  | WhileStmt condition body => writableExpr condition && block body
  | ForRangeStmt _ name from to body =>
      isName name && writableExpr from && writableExpr to && block body
  end.

(** A program the translator reads back from its text. *)
Definition printable (program : Program) : bool :=
  forallb (fun s => parsedStmt s && writableStmt s) (statements program).

(** The lines [rest] that follow a statement at depth [d] are no deeper
    than it. *)
Definition shallow (d : nat) (rest : list Line) : bool :=
  match rest with
  | [] => true
  | (d', _) :: _ => d' <=? d
  end.

(** A statement at depth [d], written as lines after a line at depth
    [cur] and before the lines [rest], gives its tokens between the tokens
    that enter depth [d] and the tokens of [rest], and lines the lexer
    reads back. *)
Definition laysOut (statement : Statement) : Prop :=
  ∀ d cur rest,
    d ≤ cur + 1 → shallow d rest = true → wellLaid d rest = true →
    linesTokens cur (stmtLines d statement ++ rest) =
      enter cur d ++ stmtTokens statement ++ linesTokens d rest ∧
    wellLaid cur (stmtLines d statement ++ rest) = true.

(** ** More example inputs *)

(** A program with every kind of statement. *)
Definition branchSource : string :=
  unlines [ "целое n = 0";
            "ввод n";
            "// ветвление";
            "если (n > 0)";
            "    вывод n";
            "иначе если (n == 0)";
            "    вывод 0";
            "иначе";
            "    для (целое i от 1 до 3)";
            "        n = n - i * 2.5";
            "";
            "пока (не (n < 0))";
            "    n = n - 1" ].

Definition branchTokens : list Token :=
  Eval vm_compute in
    match Lexer.tokenize branchSource with Ret ts => ts | _ => [] end.

(** The parser after [parseProgram] on these tokens. *)
Definition branchParsed : Program * Parser.t :=
  Eval vm_compute in
    match Parser.runParser branchTokens with
    | Ret r => r
    | _ => (mkProgram [], Parser.mkParser [] 0)
    end.

(** [a - (b + 1) - -(-c ^ d ^ (e или правда)) * f] *)
Definition sampleExpression : Expression :=
  BinaryExpr "-"
    (BinaryExpr "-" (VariableExpr "a")
       (BinaryExpr "+" (VariableExpr "b")
          (LiteralExpr ValueType.Integer "1" false)))
    (BinaryExpr "*"
       (UnaryExpr "-"
          (BinaryExpr "^" (UnaryExpr "-" (VariableExpr "c"))
             (BinaryExpr "^" (VariableExpr "d")
                (BinaryExpr "||" (VariableExpr "e")
                   (LiteralExpr ValueType.Boolean "true" true)))))
       (VariableExpr "f")).

(** The statement [вывод] of that expression, as tokens. *)
Definition sampleTokens : list Token :=
  wordToken KeywordOutput :: tokensAt 1 sampleExpression ++
  [ mkToken Newline "" 1 1; mkToken EndOfFile "" 2 1 ].

(** * Properties *)

(** ** Loops *)

Section Iterate.
Context {E St : Type}.
Variable body : St → Res E (LoopCtl St).
Variable Inv Post : St → Prop.
Variable Exn : E → Prop.

(** Partial correctness of a loop: an invariant kept by every turn holds
    when the loop is left. *)
Lemma iterate_invariant :
  (∀ s, Inv s →
        match body s with
        | Ret (Next s') => Inv s'
        | Ret (Done s') => Post s'
        | Throw e => Exn e
        | Starved => True
        end) →
  ∀ fuel s, Inv s →
    match iterate fuel body s with
    | Ret s' => Post s'
    | Throw e => Exn e
    | Starved => True
    end.
Proof.
  intros Hbody fuel. induction fuel as [|fuel IH]; intros s Hs; simpl; [done|].
  specialize (Hbody s Hs).
  destruct (body s) as [[s'|s']|e|]; try done. by apply IH.
Qed.

(** Total correctness: with a measure that every turn decreases and fuel
    above the measure, the loop is left with fuel to spare. *)
Lemma iterate_total (measure : St → nat) :
  (∀ s, Inv s →
        match body s with
        | Ret (Next s') => Inv s' ∧ measure s' < measure s
        | Ret (Done s') => Post s'
        | Throw e => Exn e
        | Starved => False
        end) →
  ∀ fuel s, Inv s → measure s < fuel →
    match iterate fuel body s with
    | Ret s' => Post s'
    | Throw e => Exn e
    | Starved => False
    end.
Proof.
  intros Hbody fuel. induction fuel as [|fuel IH]; intros s Hs Hm; simpl; [lia|].
  specialize (Hbody s Hs).
  destruct (body s) as [[s'|s']|e|]; try done.
  destruct Hbody as [Hs' Hlt]. apply IH; [done|lia].
Qed.
End Iterate.

Lemma iterate_from_reached {E St} (body : St → Res E (LoopCtl St)) s0 s :
  reaches body s0 s →
  ∀ fuel, ∃ fuel', fuel' ≤ fuel ∧
    (iterate fuel body s0 = Starved ∨
     iterate fuel body s0 = iterate fuel' body s ∧ 0 < fuel').
Proof.
  induction 1 as [|s s' Hr IH Hstep]; intros fuel.
  - destruct fuel; [exists 0; split; [lia|by left]|].
    exists (S fuel). split; [lia|]. right. split; [done|lia].
  - destruct (IH fuel) as (f1 & Hle & [Hst|[Heq Hpos]]).
    + exists 0. split; [lia|by left].
    + destruct f1 as [|f1]; [lia|]. simpl in Heq. rewrite Hstep in Heq.
      destruct f1 as [|f1].
      * exists 0. split; [lia|]. left. by rewrite Heq.
      * exists (S f1). split; [lia|]. right. split; [done|lia].
Qed.

(** A throw in a turn the loop gets to is what the loop throws (unless the
    embedding runs out of fuel before). *)
Lemma iterate_throw_reached {E St} (body : St → Res E (LoopCtl St)) s0 s e fuel :
  reaches body s0 s → body s = Throw e →
  iterate fuel body s0 = Starved ∨ iterate fuel body s0 = Throw e.
Proof.
  intros Hr Hthrow.
  destruct (iterate_from_reached body s0 s Hr fuel) as (f & _ & [?|[Heq Hpos]]);
    [by left|].
  right. rewrite Heq. destruct f; [lia|]. simpl. by rewrite Hthrow.
Qed.

(** ** Lexer *)

Lemma get_Some_lt s : ∀ n c, String.get n s = Some c → n < String.length s.
Proof.
  induction s as [|a s IH]; intros [|n] c H; simpl in *; try done; try lia.
  apply IH in H. lia.
Qed.

Lemma get_None_ge s : ∀ n, String.get n s = None → String.length s ≤ n.
Proof.
  induction s as [|a s IH]; intros [|n] H; simpl in *; try done; try lia.
  apply IH in H. lia.
Qed.

(** Case analysis on the conditions of the code, innermost first. *)
Ltac break_if :=
  match goal with
  | |- context [if ?c then _ else _] =>
      lazymatch c with
      | context [if _ then _ else _] => fail
      | context [match _ with _ => _ end] => fail
      | _ => destruct c eqn:?
      end
  | |- context [match String.get ?n ?s with _ => _ end] =>
      destruct (String.get n s) eqn:?
  end.

Section LexerFacts.
Import Lexer.

Lemma popDeeper_snoc spaces stack level :
  popDeeper spaces (stack ++ [level]) =
  if spaces <? level then popDeeper spaces stack else stack ++ [level].
Proof.
  induction stack as [|x stack IH]; cbn [popDeeper app].
  - by destruct (spaces <? level).
  - rewrite IH. destruct (spaces <? level) eqn:Hlt; [done|].
    destruct stack; cbn [app]; done.
Qed.

Lemma popDeeper_length spaces stack :
  length (popDeeper spaces stack) ≤ length stack.
Proof.
  induction stack as [|x stack IH]; cbn [popDeeper length]; [done|].
  destruct (popDeeper spaces stack); cbn [length] in *;
    [case_match; cbn [length]; lia|lia].
Qed.

Lemma popDeeper_bottom spaces above :
  ∃ kept, popDeeper spaces (0 :: above) = 0 :: kept.
Proof.
  cbn [popDeeper]. destruct (popDeeper spaces above) as [|k kept]; eauto.
Qed.

Lemma popLoop_spec spaces line stack : ∀ L fuel,
  indentStack_ L = stack → length stack < fuel →
  iterate fuel (popWhileDeeper spaces line) L =
  Ret (mkLexer (source_ L) (current_ L) (line_ L) (column_ L) (atLineStart_ L)
         (popDeeper spaces stack)
         (tokens_ L ++ repeat (dedentAt line)
                         (length stack - length (popDeeper spaces stack)))).
Proof.
  induction stack as [|level stack IH] using rev_ind; intros L fuel Hst Hfuel.
  - destruct fuel; [simpl in Hfuel; lia|]. simpl.
    unfold popWhileDeeper. rewrite Hst. simpl. rewrite app_nil_r.
    destruct L; simpl in *; by subst.
  - destruct fuel; [lia|]. simpl. unfold popWhileDeeper at 1.
    rewrite Hst. unfold back. rewrite List.last_last, popDeeper_snoc.
    destruct (spaces <? level) eqn:Hlt.
    + rewrite List.removelast_last.
      rewrite (IH _ fuel); simpl; [|done|rewrite length_app in Hfuel; simpl in *; lia].
      f_equal. f_equal. rewrite <- app_assoc. f_equal.
      pose proof (popDeeper_length spaces stack).
      rewrite length_app. simpl.
      replace (length stack + 1 - length (popDeeper spaces stack))
        with (S (length stack - length (popDeeper spaces stack))) by lia.
      done.
    + rewrite Nat.sub_diag. simpl. rewrite app_nil_r. destruct L; simpl in *; by subst.
Qed.

Lemma countType_app ty ts1 ts2 :
  countType ty (ts1 ++ ts2) = countType ty ts1 + countType ty ts2.
Proof. unfold countType. by rewrite filter_app, length_app. Qed.

Lemma countType_repeat_dedent ty line n :
  countType ty (repeat (dedentAt line) n) = if bool_decide (ty = Dedent) then n else 0.
Proof.
  unfold countType. induction n as [|n IH]; simpl; [by case_bool_decide|].
  rewrite filter_cons. simpl.
  destruct (decide (Dedent = ty)) as [<-|Hne]; simpl.
  - rewrite IH. by rewrite !bool_decide_eq_true_2.
  - rewrite IH. by rewrite !bool_decide_eq_false_2.
Qed.

Lemma countType_plain ty new :
  plain ty = false →
  Forall (fun tok => plain (type tok) = true) new → countType ty new = 0.
Proof.
  intros Hty. unfold countType. induction 1 as [|tok new Htok _ IH]; [done|].
  rewrite filter_cons. case_decide; [congruence|done].
Qed.

Lemma scans_refl L : scans L L.
Proof. repeat split. exists []. by rewrite app_nil_r. Qed.

Lemma scans_trans L1 L2 L3 : scans L1 L2 → scans L2 L3 → scans L1 L3.
Proof.
  intros (Hs1 & Hi1 & n1 & Ht1 & Hp1) (Hs2 & Hi2 & n2 & Ht2 & Hp2).
  repeat split; [congruence..|].
  exists (n1 ++ n2). split; [by rewrite Ht2, Ht1, app_assoc|by apply Forall_app].
Qed.

Lemma scans_lexInv L L' : scans L L' → lexInv L → lexInv L'.
Proof.
  intros (Hs & Hi & new & Ht & Hp) (Hb & Hc & He).
  unfold lexInv. rewrite Hi, Ht, !countType_app, !(countType_plain _ new) by done.
  repeat split; [done|lia|].
  apply Forall_app. split; [done|].
  eapply Forall_impl; [exact Hp|]. intros tok Htok Heq.
  simpl in Htok. by rewrite Heq in Htok.
Qed.

Lemma scans_push L tok : plain (type tok) = true → scans L (push_back_token L tok).
Proof. intros H. repeat split. exists [tok]. split; [done|by constructor]. Qed.

(** *** handleIndentation *)

Lemma handleIndentation_spec spaces line L :
  lexInv L →
  match handleIndentation spaces line L with
  | Ret L' => lexInv L' ∧ source_ L' = source_ L ∧ current_ L' = current_ L ∧
              line_ L' = line_ L
  | Throw (e, Lf) => lex_what e = inconsistentIndent line ∧ line_ Lf = line_ L
  | Starved => False
  end.
Proof.
  intros ([above Hst] & Hc & He). unfold handleIndentation.
  destruct (back (indentStack_ L) <? spaces) eqn:Hdeeper.
  - unfold lexInv. simpl. rewrite !countType_app, length_app, Hst. simpl.
    change (countType Indent [_]) with 1. change (countType Dedent [_]) with 0.
    rewrite Hst in Hc. simpl in Hc.
    repeat split; [by eexists|lia|].
    apply Forall_app. split; [done|]. by repeat constructor.
  - rewrite (popLoop_spec spaces line (indentStack_ L)) by (done || lia).
    cbn [bind indentStack_ line_ source_ current_]. 
    destruct (spaces =? back (popDeeper spaces (indentStack_ L))); cbn [negb].
    + unfold lexInv. cbn [indentStack_ tokens_ source_ current_ line_].
      rewrite !countType_app, !countType_repeat_dedent. simpl.
      pose proof (popDeeper_length spaces (indentStack_ L)).
      rewrite Hst in *. destruct (popDeeper_bottom spaces above) as [kept Hk].
      rewrite Hk in *. simpl in *.
      repeat split; [by eexists|lia|].
      apply Forall_app. split; [done|].
      apply Forall_forall. intros tok Hin. apply list_elem_of_In in Hin.
      apply repeat_spec in Hin. by subst.
    + done.
Qed.

(** *** The scanners *)

Lemma bump_0 L : bump 0 L = L.
Proof. destruct L. unfold bump, set_column, set_current. simpl. by rewrite !Nat.add_0_r. Qed.

Lemma bump_bump a b L : bump a (bump b L) = bump (b + a) L.
Proof. unfold bump, set_column, set_current. simpl. by rewrite !Nat.add_assoc. Qed.

Lemma bump_scans k L : scans L (bump k L).
Proof. repeat split. exists []. by rewrite app_nil_r. Qed.

Lemma remaining_bump L ch :
  String.get (current_ L) (source_ L) = Some ch →
  remaining (bump 1 L) < remaining L.
Proof. intros H%get_Some_lt. unfold remaining. simpl. lia. Qed.

Lemma advanceWhile_loop keep L fuel :
  remaining L < fuel →
  ∃ k, iterate fuel (advanceWhile keep) L = Ret (bump k L).
Proof.
  intros Hfuel.
  pose proof (iterate_total (advanceWhile keep)
                (fun Lc => ∃ k, Lc = bump k L) (fun Lc => ∃ k, Lc = bump k L)
                (fun _ => False) remaining) as Hloop.
  specialize (Hloop ltac:(
    intros Lc [k ->]; unfold advanceWhile;
    destruct (String.get _ _) as [ch|] eqn:Hget; [|by eexists];
    destruct (keep ch); [|by eexists];
    split; [exists (k + 1); by rewrite bump_bump|by eapply remaining_bump]) fuel L).
  specialize (Hloop ltac:(exists 0; by rewrite bump_0) Hfuel).
  destruct (iterate fuel (advanceWhile keep) L) as [L'| |]; try done.
  destruct Hloop as [k ->]. by exists k.
Qed.

Lemma advanceWhile_progress keep L ch :
  String.get (current_ L) (source_ L) = Some ch → keep ch = true →
  ∃ k, 0 < k ∧ iterate (S (remaining L)) (advanceWhile keep) L = Ret (bump k L).
Proof.
  intros Hget Hkeep. cbn [iterate]. unfold advanceWhile at 1. rewrite Hget, Hkeep.
  destruct (advanceWhile_loop keep (bump 1 L) (remaining L)) as [k Hk];
    [by eapply remaining_bump|].
  exists (1 + k). split; [lia|]. by rewrite Hk, bump_bump.
Qed.

Lemma skipComment_spec L : ∃ k, skipComment L = Ret (bump k L).
Proof. apply advanceWhile_loop. lia. Qed.

Lemma skipComment_progress L ch :
  String.get (current_ L) (source_ L) = Some ch → ch ≠ NL →
  ∃ k, 0 < k ∧ skipComment L = Ret (bump k L).
Proof.
  intros Hget Hne. eapply advanceWhile_progress; [done|].
  apply negb_true_iff, Ascii.eqb_neq. done.
Qed.

Lemma kKeywords_plain text kw : kKeywords text = Some kw → plain kw = true.
Proof.
  unfold kKeywords. repeat case_match; intros; simplify_eq; done.
Qed.

Lemma isIdentifierStart_part ch : isIdentifierStart ch = true → isIdentifierPart ch = true.
Proof.
  unfold isIdentifierStart, isIdentifierPart, isalnum.
  destruct (isalpha ch), (Ascii.eqb ch "_"), (128 <=? nat_of_ascii ch); simpl; try done.
  all: by rewrite ?orb_true_r.
Qed.

Lemma scanIdentifierOrKeyword_spec L ch :
  String.get (current_ L) (source_ L) = Some ch → isIdentifierStart ch = true →
  ∃ k tok, 0 < k ∧ plain (type tok) = true ∧
           scanIdentifierOrKeyword L = Ret (push_back_token (bump k L) tok).
Proof.
  intros Hget Hstart%isIdentifierStart_part.
  destruct (advanceWhile_progress _ L ch Hget Hstart) as (k & Hk & Hloop).
  unfold scanIdentifierOrKeyword. rewrite Hloop. cbn [bind].
  eexists k, _. split; [done|]. split; [|reflexivity].
  cbn [type]. destruct (kKeywords _) eqn:Hkw; [by eapply kKeywords_plain|done].
Qed.

Lemma numberBody_loop L fuel : ∀ seenDot,
  remaining L < fuel →
  ∃ k seenDot', iterate fuel numberBody (seenDot, L) = Ret (seenDot', bump k L).
Proof.
  intros seenDot Hfuel.
  pose proof (iterate_total numberBody
                (fun st => ∃ k, st.2 = bump k L) (fun st => ∃ k, st.2 = bump k L)
                (fun _ => False) (fun st => remaining st.2)) as Hloop.
  specialize (Hloop ltac:(
    intros [sd Lc] [k Hk]; cbn [snd] in Hk; subst Lc; unfold numberBody;
    destruct (String.get _ _) as [ch|] eqn:Hget; [|by eexists];
    repeat break_if; cbn [snd]; try (by eexists);
    (split; [exists (k + 1); by rewrite bump_bump|by eapply remaining_bump]))
    fuel (seenDot, L)).
  specialize (Hloop ltac:(exists 0; by rewrite bump_0) Hfuel).
  destruct (iterate fuel numberBody (seenDot, L)) as [[sd L']| |]; try done.
  destruct Hloop as [k Hk]. simpl in Hk. subst. by exists k, sd.
Qed.

Lemma scanNumber_spec L ch :
  String.get (current_ L) (source_ L) = Some ch → isdigit ch = true →
  ∃ k tok, 0 < k ∧ plain (type tok) = true ∧
           scanNumber L = Ret (push_back_token (bump k L) tok).
Proof.
  intros Hget Hdigit. unfold scanNumber. cbn [iterate].
  unfold numberBody at 1. rewrite Hget, Hdigit.
  destruct (numberBody_loop (bump 1 L) (remaining L) false) as (k & sd & Hloop);
    [by eapply remaining_bump|].
  rewrite Hloop. cbn [bind]. rewrite bump_bump.
  eexists (1 + k), _. split; [lia|]. split; [|reflexivity].
  by destruct sd.
Qed.

Lemma stringBody_loop startColumn L fuel : ∀ value,
  remaining L < fuel →
  match iterate fuel (stringBody startColumn) (value, L) with
  | Ret (_, L') => ∃ k tok, type tok = StringLiteral ∧
                            L' = push_back_token (bump k L) tok
  | Throw x => knownFailure x
  | Starved => False
  end.
Proof.
  intros value Hfuel.
  pose proof (iterate_total (stringBody startColumn)
                (fun st => ∃ k, st.2 = bump k L)
                (fun st => ∃ k tok, type tok = StringLiteral ∧
                                    st.2 = push_back_token (bump k L) tok)
                knownFailure (fun st => remaining st.2)) as Hloop.
  specialize (Hloop ltac:(
    intros [v Lc] [k Hk]; cbn [snd] in Hk; subst Lc; unfold stringBody, throwLexerError;
    destruct (String.get _ _) as [ch|] eqn:Hget;
      [|right; right; unfold stringErrors; set_solver];
    repeat break_if; cbn [snd];
    try (right; right; unfold stringErrors; set_solver);
    try (rewrite bump_bump; eexists _, _; split; [|reflexivity]; reflexivity);
    (split; [rewrite ?bump_bump; by eexists|
             pose proof (get_Some_lt _ _ _ Hget) as Hlt; unfold remaining;
             simpl in Hlt |- *; lia]))
    fuel (value, L)).
  specialize (Hloop ltac:(exists 0; by rewrite bump_0) Hfuel).
  destruct (iterate fuel _ (value, L)) as [[v L']| |]; done.
Qed.

Lemma scanString_spec L ch :
  String.get (current_ L) (source_ L) = Some ch →
  match scanString L with
  | Ret L' => ∃ k tok, 0 < k ∧ plain (type tok) = true ∧
                       L' = push_back_token (bump k L) tok
  | Throw x => knownFailure x
  | Starved => False
  end.
Proof.
  intros Hget. unfold scanString.
  pose proof (stringBody_loop (column_ L) (bump 1 L) (S (remaining (bump 1 L))) ""
                ltac:(lia)) as Hloop.
  destruct (iterate _ _ _) as [[v L']| |]; cbn [bind]; try done.
  destruct Hloop as (k & tok & Hty & ->). rewrite bump_bump.
  exists (1 + k), tok. split; [lia|]. split; [by rewrite Hty|done].
Qed.

Lemma bump_push k L tok :
  bump k (push_back_token L tok) = push_back_token (bump k L) tok.
Proof. done. Qed.

Lemma scanOperator_spec L :
  match scanOperator L with
  | Ret L' => ∃ k tok, 0 < k ∧ plain (type tok) = true ∧
                       L' = push_back_token (bump k L) tok
  | Throw x => knownFailure x
  | Starved => False
  end.
Proof.
  unfold scanOperator, throwLexerError.
  repeat break_if;
    try (eexists _, _; split; [|split; [|unfold pushToken; rewrite bump_push; reflexivity]]; [lia|done]).
  by left.
Qed.

(** *** One turn of the main loop *)

Lemma measureIndent_spec L :
  ∃ temp n, measureIndent L = Ret (temp, n) ∧ current_ L ≤ temp.
Proof.
  unfold measureIndent.
  pose proof (iterate_total (E := LexerError * t) (indentBody (source_ L))
                (fun st => current_ L ≤ st.1) (fun st => current_ L ≤ st.1)
                (fun _ => False)
                (fun st => String.length (source_ L) - st.1)) as Hloop.
  specialize (Hloop ltac:(
    intros [temp n] Hle; cbn [fst] in Hle; unfold indentBody;
    destruct (String.get _ _) as [ch|] eqn:Hget; [|done];
    apply get_Some_lt in Hget;
    repeat break_if; cbn [fst]; try done; (split; lia))
    (S (remaining L)) (current_ L, 0)).
  specialize (Hloop ltac:(simpl; lia) ltac:(unfold remaining; simpl; lia)).
  destruct (iterate _ _ _) as [[temp n]| |]; try done. by exists temp, n.
Qed.

Lemma lineKind_get source temp :
  match lineKind source temp with
  | EndOfSource => String.get temp source = None
  | BlankLine => String.get temp source = Some NL
  | CommentLine => String.get temp source = Some "/"%char
  | CodeLine => ∃ ch, String.get temp source = Some ch ∧ ch ≠ NL
  end.
Proof.
  unfold lineKind. destruct (String.get temp source) as [ch|]; [|done].
  destruct (Ascii.eqb ch NL) eqn:Hnl; [by apply Ascii.eqb_eq in Hnl; subst|].
  apply Ascii.eqb_neq in Hnl.
  destruct (Ascii.eqb ch "/") eqn:Hs; simpl; [|by eexists].
  apply Ascii.eqb_eq in Hs. subst.
  destruct (String.get (temp + 1) source) as [c|]; [|by eexists].
  destruct (Ascii.eqb c "/"); [done|by eexists].
Qed.

Lemma lexInv_same L L' :
  indentStack_ L' = indentStack_ L → tokens_ L' = tokens_ L →
  lexInv L → lexInv L'.
Proof. unfold lexInv. by intros -> ->. Qed.

Lemma lineStart_spec L :
  lexInv L →
  match lineStart L with
  | Ret (Break L') => lexInv L' ∧ source_ L' = source_ L
  | Ret (Continue L') =>
      lexInv L' ∧ source_ L' = source_ L ∧ current_ L < current_ L'
  | Ret (FallThrough L') =>
      lexInv L' ∧ source_ L' = source_ L ∧ current_ L ≤ current_ L'
  | Throw x => knownFailure x
  | Starved => False
  end.
Proof.
  intros Hinv. unfold lineStart. destruct (atLineStart_ L); [|done].
  destruct (measureIndent_spec L) as (temp & n & -> & Hle). cbn [bind].
  pose proof (lineKind_get (source_ L) temp) as Hkind.
  destruct (lineKind (source_ L) temp).
  - done.
  - done.
  - destruct (skipComment_progress
                (set_column (set_current L temp) (n + 1)) "/") as (k & Hk & ->);
      [done|done|].
    cbn [bind]. split; [by eapply lexInv_same|]. split; [done|simpl; lia].
  - pose proof (handleIndentation_spec n (line_ L) L Hinv) as Hh.
    destruct (handleIndentation n (line_ L) L) as [L1|[e Lf]|]; cbn [bind]; [| |done].
    + destruct Hh as (Hinv1 & Hs & Hc & _).
      split; [by eapply lexInv_same|]. split; [done|simpl; lia].
    + destruct Hh as [He Hl]. right. left. by rewrite Hl.
Qed.

Lemma tokenizeBody_spec L :
  lexInv L →
  match tokenizeBody L with
  | Ret (Next L') =>
      lexInv L' ∧ source_ L' = source_ L ∧ remaining L' < remaining L
  | Ret (Done L') => lexInv L' ∧ source_ L' = source_ L
  | Throw x => knownFailure x
  | Starved => False
  end.
Proof.
  intros Hinv. unfold tokenizeBody.
  destruct (current_ L <? String.length (source_ L)) eqn:Hcur; [|done].
  apply Nat.ltb_lt in Hcur.
  pose proof (lineStart_spec L Hinv) as Hls.
  destruct (lineStart L) as [[L1|L1|L1]|x|]; cbn [bind]; try done.
  - destruct Hls as (? & Hs & ?). split; [done|]. split; [done|].
    unfold remaining. rewrite Hs. lia.
  - destruct Hls as (Hinv1 & Hs & Hle).
    destruct (String.get (current_ L1) (source_ L1)) as [ch|] eqn:Hget; [|done].
    pose proof (get_Some_lt _ _ _ Hget) as Hlt.
    assert (Hdone : ∀ k tok L2, 0 < k → plain (type tok) = true →
              L2 = push_back_token (bump k L1) tok →
              lexInv L2 ∧ source_ L2 = source_ L ∧ remaining L2 < remaining L).
    { intros k tok L2 Hk Hp ->. split; [|split].
      - eapply scans_lexInv; [|exact Hinv1].
        eapply scans_trans; [apply (bump_scans k)|by apply scans_push].
      - done.
      - unfold remaining. simpl. rewrite Hs in *. lia. }
    assert (Hmove : ∀ L2, tokens_ L2 = tokens_ L1 →
              indentStack_ L2 = indentStack_ L1 → source_ L2 = source_ L1 →
              current_ L1 < current_ L2 →
              lexInv L2 ∧ source_ L2 = source_ L ∧ remaining L2 < remaining L).
    { intros L2 Ht Hi Hs2 Hc. split; [by eapply lexInv_same|].
      split; [congruence|]. unfold remaining. rewrite Hs2, Hs in *. lia. }
    destruct (Ascii.eqb ch " " || Ascii.eqb ch TAB); [apply Hmove; simpl; done || lia|].
    destruct (Ascii.eqb ch CR); [apply Hmove; simpl; done || lia|].
    destruct (Ascii.eqb ch NL).
    { split; [|split].
      - eapply scans_lexInv; [|exact Hinv1]. repeat split. exists [mkToken Newline "" (line_ L1) (column_ L1)].
        split; [done|by repeat constructor].
      - done.
      - unfold remaining. simpl. rewrite Hs in *. lia. }
    destruct (Ascii.eqb ch "/" && Ascii.eqb (peekChar 1 L1) "/") eqn:Hcomment.
    { apply andb_true_iff in Hcomment as [Hc%Ascii.eqb_eq _]. subst ch.
      destruct (skipComment_progress L1 "/") as (k & Hk & ->); [done..|].
      cbn [bind]. apply Hmove; simpl; done || lia. }
    destruct (Ascii.eqb ch QUOTE).
    { pose proof (scanString_spec L1 ch Hget) as Hsp.
      destruct (scanString L1) as [L2|x|]; cbn [bind]; try done.
      destruct Hsp as (k & tok & ? & ? & ->). by eapply Hdone. }
    destruct (isdigit ch) eqn:Hdigit.
    { destruct (scanNumber_spec L1 ch Hget Hdigit) as (k & tok & ? & ? & ->).
      cbn [bind]. by eapply Hdone. }
    destruct (isIdentifierStart ch) eqn:Hid.
    { destruct (scanIdentifierOrKeyword_spec L1 ch Hget Hid) as (k & tok & ? & ? & ->).
      cbn [bind]. by eapply Hdone. }
    pose proof (scanOperator_spec L1) as Hsp.
    destruct (scanOperator L1) as [L2|x|]; cbn [bind]; try done.
    destruct Hsp as (k & tok & ? & ? & ->). by eapply Hdone.
Qed.

(** *** The whole run *)

Lemma lexInv_new source : lexInv (newLexer source).
Proof. split; [by exists []|]. split; [done|constructor]. Qed.

Lemma mainLoop_spec source fuel :
  String.length source < fuel →
  match iterate fuel tokenizeBody (newLexer source) with
  | Ret L => lexInv L ∧ source_ L = source
  | Throw x => knownFailure x
  | Starved => False
  end.
Proof.
  intros Hfuel.
  apply (iterate_total tokenizeBody
           (fun L => lexInv L ∧ source_ L = source)
           (fun L => lexInv L ∧ source_ L = source)
           knownFailure remaining).
  - intros L [Hinv Hs]. pose proof (tokenizeBody_spec L Hinv) as Hb.
    destruct (tokenizeBody L) as [[L'|L']|x|]; try done.
    + destruct Hb as (? & ? & ?). split; [split|]; [done|congruence|done].
    + destruct Hb as (? & ?). split; [done|congruence].
  - split; [apply lexInv_new|done].
  - unfold remaining. simpl. lia.
Qed.

Lemma popPending_loop line above : ∀ L fuel,
  indentStack_ L = 0 :: above → length above < fuel →
  iterate fuel (popPending line) L =
  Ret (mkLexer (source_ L) (current_ L) (line_ L) (column_ L) (atLineStart_ L)
         [0] (tokens_ L ++ repeat (dedentAt line) (length above))).
Proof.
  induction above as [|level above IH] using rev_ind; intros L fuel Hst Hfuel.
  - destruct fuel; [simpl in Hfuel; lia|]. simpl.
    unfold popPending. rewrite Hst. simpl. rewrite app_nil_r.
    destruct L; simpl in *. by rewrite Hst.
  - destruct fuel; [lia|]. rewrite length_app in *. cbn [length] in *.
    cbn [iterate]. unfold popPending at 1. rewrite Hst.
    cbn [length]. rewrite length_app. cbn [length].
    replace (1 <? S (length above + 1)) with true
      by (symmetry; apply Nat.ltb_lt; lia).
    rewrite app_comm_cons, List.removelast_last.
    rewrite (IH _ fuel); [|done|lia]. simpl.
    f_equal. f_equal. rewrite <- app_assoc. f_equal.
    replace (length above + 1) with (S (length above)) by lia.
    done.
Qed.
End LexerFacts.

Lemma reaches_turns {E St} (body : St → Res E (LoopCtl St)) k : ∀ s0 s,
  turns body k s0 = Some s → reaches body s0 s.
Proof.
  induction k as [|k IH]; intros s0 s H; simpl in H.
  - injection H as <-. constructor.
  - destruct (body s0) as [[s1|s1]| |] eqn:Hb; try done.
    specialize (IH s1 s H). clear H.
    induction IH as [|s2 s3 Hr IH2 Hstep].
    + eapply reaches_turn; [constructor|done].
    + eapply reaches_turn; [exact IH2|done].
Qed.

Section LexerRun.
Import Lexer.

Lemma runLexer_spec source :
  match runLexer source with
  | Ret L =>
      ∃ ts, tokens_ L = ts ++ [mkToken EndOfFile "" (line_ L) (column_ L)] ∧
            countType Indent ts = countType Dedent ts ∧
            Forall (fun tok => type tok ≠ EndOfFile) ts
  | Throw x => knownFailure x
  | Starved => False
  end.
Proof.
  unfold runLexer.
  pose proof (mainLoop_spec source (S (String.length source)) ltac:(lia)) as Hm.
  destruct (iterate _ tokenizeBody _) as [L|x|]; cbn [bind]; try done.
  destruct Hm as [([above Hst] & Hc & He) Hs].
  unfold emitPendingDedents.
  rewrite (popPending_loop (line_ L) above) by (rewrite ?Hst; simpl; done || lia).
  cbn [bind]. unfold pushToken, push_back_token. cbn [tokens_ line_ column_].
  eexists. split; [reflexivity|].
  rewrite !countType_app, !countType_repeat_dedent. simpl.
  rewrite Hst in Hc. simpl in Hc. split; [lia|].
  apply Forall_app. split; [done|].
  apply Forall_forall. intros tok Hin%list_elem_of_In%repeat_spec. by subst.
Qed.

Lemma tokenize_total source : tokenize source ≠ Starved.
Proof.
  unfold tokenize. pose proof (runLexer_spec source) as H.
  by destruct (runLexer source) as [L|[e Lf]|].
Qed.

Lemma runLexer_throw_of_turn source L x :
  reaches tokenizeBody (newLexer source) L → tokenizeBody L = Throw x →
  runLexer source = Throw x.
Proof.
  intros Hr Ht. unfold runLexer.
  pose proof (mainLoop_spec source (S (String.length source)) ltac:(lia)) as Hm.
  destruct (iterate_throw_reached tokenizeBody _ L x (S (String.length source)) Hr Ht)
    as [Hst| ->]; [by rewrite Hst in Hm|done].
Qed.
End LexerRun.

(** C2. On every source that [tokenize] accepts, the token stream has as
    many [Indent] as [Dedent] tokens and its last token is [EndOfFile]. *)
Theorem C2_indent_dedent_balanced source ts :
  Lexer.tokenize source = Ret ts →
  countType Indent ts = countType Dedent ts ∧
  ∃ tok, last ts = Some tok ∧ type tok = EndOfFile.
Proof.
  unfold Lexer.tokenize. pose proof (runLexer_spec source) as H.
  destruct (Lexer.runLexer source) as [L|[e Lf]|]; [|done..].
  intros [= <-]. destruct H as (ts & -> & Hc & _).
  split.
  - rewrite !countType_app. by rewrite Hc.
  - eexists. by rewrite last_snoc.
Qed.

Lemma C2_indent_dedent_balanced_witness :
  Lexer.tokenize nestedSource = Ret nestedTokens ∧
  countType Indent nestedTokens = 2 ∧
  countType Indent nestedTokens = countType Dedent nestedTokens ∧
  ∃ tok, last nestedTokens = Some tok ∧ type tok = EndOfFile.
Proof.
  split; [vm_compute; reflexivity|]. split; [vm_compute; reflexivity|].
  apply (C2_indent_dedent_balanced nestedSource nestedTokens).
  vm_compute; reflexivity.
Defined.

(** C4. When the loop of [tokenize] gets to the start of a line of code
    whose measured indent [n] is below the top of the indent stack and is
    not the top left once every deeper level is popped, [tokenize] throws the
    [LexerError] "Несогласованный отступ на строке L" for the current line
    [L]; one [Dedent] per popped level has been pushed when it is thrown. *)
Theorem C4_inconsistent_dedent source L temp n :
  reaches Lexer.tokenizeBody (Lexer.newLexer source) L →
  Lexer.current_ L < String.length (Lexer.source_ L) →
  Lexer.atLineStart_ L = true →
  Lexer.measureIndent L = Ret (temp, n) →
  Lexer.lineKind (Lexer.source_ L) temp = Lexer.CodeLine →
  n < Lexer.back (Lexer.indentStack_ L) →
  n ≠ Lexer.back (popDeeper n (Lexer.indentStack_ L)) →
  let e := Lexer.mkLexerError
             ("Несогласованный отступ на строке " +:+ to_string (Lexer.line_ L)) in
  let popped := length (Lexer.indentStack_ L) -
                length (popDeeper n (Lexer.indentStack_ L)) in
  Lexer.tokenize source = Throw e ∧
  ∃ Lf, Lexer.runLexer source = Throw (e, Lf) ∧
        Lexer.indentStack_ Lf = popDeeper n (Lexer.indentStack_ L) ∧
        Lexer.tokens_ Lf =
          Lexer.tokens_ L ++ repeat (dedentAt (Lexer.line_ L)) popped.
Proof.
  intros Hr Hcur Hstart Hm Hkind Hlt Hne e popped.
  assert (Hthrow : ∃ Lf, Lexer.tokenizeBody L = Throw (e, Lf) ∧
            Lexer.indentStack_ Lf = popDeeper n (Lexer.indentStack_ L) ∧
            Lexer.tokens_ Lf =
              Lexer.tokens_ L ++ repeat (dedentAt (Lexer.line_ L)) popped).
  { unfold Lexer.tokenizeBody, Lexer.lineStart.
    apply Nat.ltb_lt in Hcur. rewrite Hcur, Hstart, Hm. cbn [bind]. rewrite Hkind.
    unfold Lexer.handleIndentation.
    replace (Lexer.back (Lexer.indentStack_ L) <? n) with false
      by (symmetry; apply Nat.ltb_ge; lia).
    rewrite (popLoop_spec n (Lexer.line_ L) (Lexer.indentStack_ L)) by (done || lia).
    cbn [bind Lexer.indentStack_].
    replace (n =? Lexer.back (popDeeper n (Lexer.indentStack_ L))) with false
      by (symmetry; by apply Nat.eqb_neq).
    cbn [negb bind]. unfold Lexer.throwLexerError. eexists. split; [reflexivity|done]. }
  destruct Hthrow as (Lf & Hthrow & Hst & Htok).
  pose proof (runLexer_throw_of_turn source L _ Hr Hthrow) as Hrun.
  split; [|by exists Lf].
  unfold Lexer.tokenize. by rewrite Hrun.
Qed.

Lemma C4_inconsistent_dedent_witness :
  let L := badDedentState in
  let e := Lexer.mkLexerError "Несогласованный отступ на строке 3" in
  reaches Lexer.tokenizeBody (Lexer.newLexer badDedentSource) L ∧
  Lexer.indentStack_ L = [0; 2] ∧
  Lexer.measureIndent L = Ret (7, 1) ∧
  Lexer.tokenize badDedentSource = Throw e ∧
  ∃ Lf, Lexer.runLexer badDedentSource = Throw (e, Lf) ∧
        Lexer.indentStack_ Lf = [0] ∧
        Lexer.tokens_ Lf = Lexer.tokens_ L ++ [dedentAt 3].
Proof.
  intros L e.
  assert (Hr : reaches Lexer.tokenizeBody (Lexer.newLexer badDedentSource) L)
    by (apply (reaches_turns _ 4); vm_compute; reflexivity).
  split; [exact Hr|]. split; [reflexivity|]. split; [vm_compute; reflexivity|].
  apply (C4_inconsistent_dedent badDedentSource L 7 1 Hr).
  - vm_compute. lia.
  - reflexivity.
  - vm_compute; reflexivity.
  - vm_compute; reflexivity.
  - vm_compute. lia.
  - vm_compute. lia.
Defined.




(** *** Re-escaping string literals *)

Lemma app_String x (a b : string) : String x a +:+ b = String x (a +:+ b).
Proof. reflexivity. Qed.

Lemma string_app_assoc (a b c : string) : (a +:+ b) +:+ c = a +:+ (b +:+ c).
Proof.
  induction a as [|x a IH]; [reflexivity|]. by rewrite !app_String, IH.
Qed.

Lemma substring_0_0 s : String.substring 0 0 s = "".
Proof. by destruct s. Qed.

Lemma substring_snoc s : ∀ n m c,
  String.get (n + m) s = Some c →
  String.substring n (S m) s = String.substring n m s +:+ String c "".
Proof.
  induction s as [|a s IH]; intros n m c Hget.
  - by destruct (n + m).
  - destruct n as [|n].
    + destruct m as [|m]; simpl in *.
      * injection Hget as ->. by rewrite substring_0_0.
      * rewrite app_String. f_equal. by apply (IH 0).
    + simpl in *. by apply IH.
Qed.

Lemma substring_n_0 s : ∀ n, String.substring n 0 s = "".
Proof. induction s as [|a s IH]; intros [|n]; simpl; auto. Qed.

Lemma substring_snoc2 s n m a b :
  String.get (n + m) s = Some a → String.get (n + m + 1) s = Some b →
  String.substring n (m + 2) s =
  String.substring n m s +:+ String a (String b "").
Proof.
  intros Ha Hb. replace (m + 2) with (S (S m)) by lia.
  rewrite (substring_snoc s n (S m) b) by (rewrite <- Hb; f_equal; lia).
  rewrite (substring_snoc s n m a) by done.
  by rewrite string_app_assoc.
Qed.

Lemma escapeString_app a b :
  CodeGenerator.escapeString (a +:+ b) =
  CodeGenerator.escapeString a +:+ CodeGenerator.escapeString b.
Proof.
  induction a as [|x a IH]; [reflexivity|].
  rewrite app_String. cbn [CodeGenerator.escapeString].
  by rewrite IH, string_app_assoc.
Qed.

Lemma escapeTabs_app a b : escapeTabs (a +:+ b) = escapeTabs a +:+ escapeTabs b.
Proof.
  induction a as [|x a IH]; [reflexivity|].
  rewrite app_String. cbn [escapeTabs].
  by rewrite IH, string_app_assoc.
Qed.

Lemma escapeTabs_noTab s : hasTab s = false → escapeTabs s = s.
Proof.
  induction s as [|x s IH]; [done|]. cbn [hasTab escapeTabs].
  intros [-> Hs]%orb_false_iff. by rewrite IH.
Qed.

Section ScanString.
Import Lexer.

Lemma current_bump k L : current_ (bump k L) = current_ L + k.
Proof. done. Qed.

Lemma source_bump k L : source_ (bump k L) = source_ L.
Proof. done. Qed.

(** What the loop of [scanString] keeps: [value], re-escaped, is the part of
    the literal read so far with its tabs escaped. *)
Lemma stringBody_roundtrip startColumn L0 fuel :
  match iterate fuel (stringBody startColumn) ("", L0) with
  | Ret (value, L') =>
      ∃ k, L' = push_back_token (bump (k + 1) L0)
                  (mkToken StringLiteral value (line_ L0) startColumn) ∧
           CodeGenerator.escapeString value =
             escapeTabs (String.substring (current_ L0) k (source_ L0))
  | _ => True
  end.
Proof.
  pose proof (iterate_invariant (stringBody startColumn)
    (fun st => ∃ k, st.2 = bump k L0 ∧
       CodeGenerator.escapeString st.1 =
         escapeTabs (String.substring (current_ L0) k (source_ L0)))
    (fun st => ∃ k, st.2 = push_back_token (bump (k + 1) L0)
                             (mkToken StringLiteral st.1 (line_ L0) startColumn) ∧
       CodeGenerator.escapeString st.1 =
         escapeTabs (String.substring (current_ L0) k (source_ L0)))
    (fun _ => True)) as Hloop.
  assert (Hstep : ∀ value k (piece decoded : string),
    CodeGenerator.escapeString value =
      escapeTabs (String.substring (current_ L0) k (source_ L0)) →
    CodeGenerator.escapeString decoded = escapeTabs piece →
    ∀ k', String.substring (current_ L0) k' (source_ L0) =
          String.substring (current_ L0) k (source_ L0) +:+ piece →
    CodeGenerator.escapeString (value +:+ decoded) =
      escapeTabs (String.substring (current_ L0) k' (source_ L0))).
  { intros value k piece decoded Hv Hd k' ->.
    by rewrite escapeString_app, escapeTabs_app, Hv, Hd. }
  specialize (Hloop ltac:(
    intros [value Lc] (k & Hk & Hv); cbn [fst snd] in Hk, Hv; subst Lc;
    unfold stringBody, throwLexerError;
    rewrite !current_bump, !source_bump;
    destruct (String.get (current_ L0 + k) (source_ L0)) as [ch|] eqn:Hget; [|done];
    destruct (Ascii.eqb ch NL) eqn:Hnl; [done|];
    destruct (Ascii.eqb ch QUOTE) eqn:Hq;
      [cbn [fst snd]; exists k; by rewrite bump_bump|];
    destruct (Ascii.eqb ch BACKSLASH) eqn:Hb;
      [apply Ascii.eqb_eq in Hb; subst ch;
       destruct (String.get (current_ L0 + k + 1) (source_ L0)) as [next|] eqn:Hnext;
         [|done];
       repeat break_if; try done;
       repeat match goal with H : Ascii.eqb _ _ = true |- _ =>
                apply Ascii.eqb_eq in H end; subst;
       cbn [fst snd]; exists (k + 2); rewrite !bump_bump;
       (split; [f_equal; lia|]);
       (eapply Hstep; [exact Hv| |by apply substring_snoc2]); reflexivity
      |];
    cbn [fst snd]; exists (k + 1); rewrite bump_bump; (split; [done|]);
    (eapply Hstep; [exact Hv| |
       replace (k + 1) with (S k) by lia; by apply substring_snoc]);
    cbn [CodeGenerator.escapeString escapeTabs];
    rewrite Hb, Hq, Hnl; reflexivity) fuel ("", L0)).
  specialize (Hloop ltac:(exists 0; rewrite bump_0, substring_n_0; done)).
  destruct (iterate fuel _ _) as [[value L']| |]; done.
Qed.
End ScanString.

(** C8 (as the code has it). For every string literal that [scanString]
    accepts, re-escaping the decoded payload of its token gives back the
    bytes between the quotes with each raw tab byte turned into the two bytes
    backslash, t; when no raw tab stands between the quotes it gives back
    exactly those bytes. *)
Theorem C8_reescape_literal L L' :
  String.get (Lexer.current_ L) (Lexer.source_ L) = Some QUOTE →
  Lexer.scanString L = Ret L' →
  let body := String.substring (Lexer.current_ L + 1)
                (Lexer.current_ L' - Lexer.current_ L - 2) (Lexer.source_ L) in
  ∃ tok, Lexer.tokens_ L' = Lexer.tokens_ L ++ [tok] ∧
         type tok = StringLiteral ∧
         CodeGenerator.escapeString (lexeme tok) = escapeTabs body ∧
         (hasTab body = false → CodeGenerator.escapeString (lexeme tok) = body).
Proof.
  intros _ Hscan body. unfold Lexer.scanString in Hscan.
  pose proof (stringBody_roundtrip (Lexer.column_ L) (Lexer.bump 1 L)
                (S (Lexer.remaining (Lexer.bump 1 L)))) as Hrt.
  destruct (iterate _ _ _) as [[value L1]| |]; cbn [bind] in Hscan; try done.
  injection Hscan as <-. destruct Hrt as (k & -> & Hesc).
  assert (Hbody : body = String.substring (Lexer.current_ (Lexer.bump 1 L)) k
                           (Lexer.source_ (Lexer.bump 1 L))).
  { unfold body. simpl. f_equal. lia. }
  eexists. split; [reflexivity|]. split; [reflexivity|]. cbn [lexeme].
  rewrite Hbody. split; [done|].
  intros Hno. by rewrite Hesc, escapeTabs_noTab.
Qed.

Lemma C8_reescape_literal_witness :
  let L := Lexer.newLexer (String QUOTE ("a\nb" +:+ String QUOTE "")) in
  String.get (Lexer.current_ L) (Lexer.source_ L) = Some QUOTE ∧
  ∃ L', Lexer.scanString L = Ret L' ∧
    ∃ tok, Lexer.tokens_ L' = Lexer.tokens_ L ++ [tok] ∧
           type tok = StringLiteral ∧
           lexeme tok = "a" +:+ String NL "b" ∧
           CodeGenerator.escapeString (lexeme tok) = "a\nb".
Proof.
  intros L. split; [reflexivity|]. eexists. split; [vm_compute; reflexivity|].
  destruct (C8_reescape_literal L _ ltac:(reflexivity) ltac:(vm_compute; reflexivity))
    as (tok & Htok & Hty & _ & Hbody).
  exists tok. split; [exact Htok|]. split; [exact Hty|].
  vm_compute in Htok. injection Htok as <-.
  split; [reflexivity|]. apply Hbody. vm_compute; reflexivity.
Defined.

(** C8 as stated fails: the lexer accepts a raw tab byte inside a literal,
    and re-escaping the payload gives backslash, t, two bytes, where the
    source had the one tab byte. *)
Lemma C8_counterexample :
  ∃ tok eofTok,
    Lexer.tokenize tabLiteralSource = Ret [tok; eofTok] ∧
    type tok = StringLiteral ∧ lexeme tok = String TAB "" ∧
    String.substring 1 1 tabLiteralSource = String TAB "" ∧
    CodeGenerator.escapeString (lexeme tok) ≠ String.substring 1 1 tabLiteralSource.
Proof.
  eexists _, _. split; [vm_compute; reflexivity|].
  repeat split; vm_compute; discriminate.
Qed.

Section ParserFacts.
Import Parser.
Variable ts : list Token.

Local Abbreviation pos := (pos ts).
Local Abbreviation len := (len ts).
Local Abbreviation inlineAt := (inlineAt ts).
Local Abbreviation goodAt := (goodAt ts).
Local Abbreviation adv := (adv ts).
Local Abbreviation exprSpec := (exprSpec ts).
Local Abbreviation fits := (fits ts).
Local Abbreviation goesOn := (goesOn ts).
Local Abbreviation stmtSpec := (stmtSpec ts).
Local Abbreviation blockSpec := (blockSpec ts).

Lemma adv_refl P c : adv P c c.
Proof. repeat split; try lia. Qed.

Lemma adv_trans P c1 c2 c3 : adv P c1 c2 → adv P c2 c3 → adv P c1 c3.
Proof.
  intros (? & ? & H1) (? & ? & H2). repeat split; try lia.
  intros i Hi. destruct (decide (i < c2)); [apply H1|apply H2]; lia.
Qed.

Lemma adv_weaken (P Q : nat → Prop) c c' :
  (∀ i, P i → Q i) → adv P c c' → adv Q c c'.
Proof. intros HPQ (? & ? & H). repeat split; auto. Qed.

Lemma adv_next (P : nat → Prop) c : c < len → P c → adv P c (c + 1).
Proof.
  intros Hc HP. repeat split; try lia.
  intros i Hi. by replace i with c by lia.
Qed.

Lemma inline_good i : inlineAt i → goodAt i.
Proof.
  unfold inlineAt, goodAt, inlineTok. intros [_ H]%andb_true_iff Hh.
  by rewrite Hh in H.
Qed.

Lemma notHeader_good i : isHeader (typeAt ts i) = false → goodAt i.
Proof. unfold goodAt. by intros ->. Qed.

Lemma typeAt_out c : len ≤ c → typeAt ts c = EndOfFile.
Proof. intros H. unfold typeAt. by rewrite nth_overflow. Qed.

Lemma typeAt_in c : typeAt ts c ≠ EndOfFile → c < len.
Proof.
  intros H. destruct (decide (c < len)); [done|].
  exfalso. apply H, typeAt_out. lia.
Qed.

Lemma peek_pos c : type (peek (pos c)) = typeAt ts c.
Proof. done. Qed.

Lemma isAtEnd_pos c : isAtEnd (pos c) = bool_decide (typeAt ts c = EndOfFile).
Proof. done. Qed.

Lemma check_pos ty c :
  check ty (pos c) = true →
  typeAt ts c = ty ∧ typeAt ts c ≠ EndOfFile ∧ c < len.
Proof.
  unfold check. rewrite isAtEnd_pos. case_bool_decide as Hend; [done|].
  rewrite peek_pos. intros Hty%bool_decide_eq_true.
  split; [done|]. split; [done|by apply typeAt_in].
Qed.

Lemma advance_pos c :
  typeAt ts c ≠ EndOfFile → advance (pos c) = (nth c ts eof, pos (c + 1)).
Proof.
  intros H. unfold advance. rewrite isAtEnd_pos, bool_decide_eq_false_2 by done.
  unfold previous. simpl. by replace (c + 1 - 1) with c by lia.
Qed.

Lemma match_pos ty c :
  (match_ ty (pos c) = (true, pos (c + 1)) ∧ typeAt ts c = ty ∧ c < len) ∨
  match_ ty (pos c) = (false, pos c).
Proof.
  unfold match_. destruct (check ty (pos c)) eqn:Hc; [|by right].
  left. apply check_pos in Hc as (Hty & Hne & Hlt).
  by rewrite advance_pos.
Qed.

Lemma remaining_pos c : remaining (pos c) = len - c.
Proof. done. Qed.

Lemma consume_pos ty message c :
  match consume ty message (pos c) with
  | Ret (tok, p') =>
      p' = pos (c + 1) ∧ tok = nth c ts eof ∧ typeAt ts c = ty ∧ c < len
  | Throw _ => True
  | Starved => False
  end.
Proof.
  unfold consume, throwParserError. destruct (check ty (pos c)) eqn:Hc; [|done].
  apply check_pos in Hc as (Hty & Hne & Hlt). by rewrite advance_pos.
Qed.

(** *** Expressions *)

Lemma matchFirst_pos ops c :
  Forall (fun o => inlineTok o.1 = true) ops →
  match matchFirst ops (pos c) with
  | Some (_, p1) => p1 = pos (c + 1) ∧ c < len ∧ inlineAt c
  | None => True
  end.
Proof.
  induction 1 as [|[ty op] ops Hty _ IH]; cbn [matchFirst]; [done|].
  destruct (match_pos ty c) as [(-> & Hc & Hlt)| ->]; [|done].
  repeat split; [done|]. unfold inlineAt. by rewrite Hc.
Qed.

Lemma level_spec ops sub c :
  Forall (fun o => inlineTok o.1 = true) ops →
  (∀ c', c ≤ c' → exprSpec sub c') →
  exprSpec (fun p => let* (expr, p1) := sub p in
                     iterate (S (remaining p1)) (binaryLoop ops sub) (expr, p1)) c.
Proof.
  intros Hops Hsub. unfold exprSpec at 1.
  pose proof (Hsub c ltac:(lia)) as Hfirst. unfold exprSpec in Hfirst.
  destruct (sub (pos c)) as [[expr p1]| |]; cbn [bind]; [|done..].
  destruct Hfirst as (c1 & -> & Hadv1).
  pose proof (iterate_total (binaryLoop ops sub)
    (fun st => ∃ c', st.2 = pos c' ∧ adv inlineAt c c')
    (fun st => ∃ c', st.2 = pos c' ∧ adv inlineAt c c')
    (fun _ => True) (fun st => remaining st.2)) as Hloop.
  specialize (Hloop ltac:(
    intros [e pc] (c' & Hpc & Hadv); cbn [snd] in Hpc; subst pc;
    unfold binaryLoop;
    pose proof (matchFirst_pos ops c' Hops) as Hm;
    destruct (matchFirst ops (pos c')) as [[op p2]|]; [|by exists c'];
    destruct Hm as (-> & Hlt & Hin);
    pose proof (Hsub (c' + 1) ltac:(destruct Hadv; lia)) as Hs;
    unfold exprSpec in Hs;
    destruct (sub (pos (c' + 1))) as [[rhs p3]| |]; cbn [bind]; [|done..];
    destruct Hs as (c3 & -> & Hadv3); cbn [snd];
    split; [exists c3; split; [done|];
            eapply adv_trans; [exact Hadv|];
            eapply adv_trans; [by apply adv_next|done]
           |rewrite !remaining_pos; destruct Hadv3; lia])
    (S (remaining (pos c1))) (expr, pos c1)).
  specialize (Hloop ltac:(by exists c1) ltac:(cbn [snd]; lia)).
  destruct (iterate _ _ _) as [[e p']| |]; done.
Qed.

Lemma fits_later h n c c' : fits h n c → c ≤ c' → fits h n c'.
Proof. unfold fits. lia. Qed.

Lemma fits_next h h' n c : fits h (S n) c → c < len → h' ≤ 15 → fits h' n (c + 1).
Proof. unfold fits. lia. Qed.

Lemma fits_lower h h' n c : fits h (S n) c → h' < h → fits h' n c.
Proof. unfold fits. lia. Qed.

Ltac fit :=
  first [ eapply fits_next; [eassumption|eassumption|lia]
        | eapply fits_lower; [eassumption|lia] ].

Lemma exprs_ok n :
  (∀ c, fits 1 n c → exprSpec (parsePrimary n) c) ∧
  (∀ c, fits 2 n c → exprSpec (parseUnary n) c) ∧
  (∀ c, fits 3 n c → exprSpec (parsePower n) c) ∧
  (∀ c, fits 4 n c → exprSpec (parseFactor n) c) ∧
  (∀ c, fits 5 n c → exprSpec (parseTerm n) c) ∧
  (∀ c, fits 6 n c → exprSpec (parseComparison n) c) ∧
  (∀ c, fits 7 n c → exprSpec (parseEquality n) c) ∧
  (∀ c, fits 8 n c → exprSpec (parseAnd n) c) ∧
  (∀ c, fits 9 n c → exprSpec (parseOr n) c) ∧
  (∀ c, fits 10 n c → exprSpec (parseExpression n) c).
Proof.
  induction n as [|n (IHprimary & IHunary & IHpower & IHfactor & IHterm &
                      IHcmp & IHeq & IHand & IHor & IHexpr)].
  { repeat split; intros c Hfit; unfold fits in Hfit; lia. }
  assert (Hlevel : ∀ h ops sub c,
    Forall (fun o => inlineTok o.1 = true) ops →
    (∀ c', fits h n c' → exprSpec sub c') → fits (S h) (S n) c →
    exprSpec (fun p => let* (expr, p1) := sub p in
                       iterate (S (remaining p1)) (binaryLoop ops sub) (expr, p1)) c).
  { intros h ops sub c Hops Hsub Hfit. apply level_spec; [done|].
    intros c' Hc'. apply Hsub. unfold fits in *. lia. }
  repeat split; intros c Hfit.
  - (* parsePrimary *)
    unfold exprSpec. cbn [parsePrimary].
    assert (Hlit : ∀ ty, typeAt ts c = ty → c < len → inlineTok ty = true →
              ∃ c', pos (c + 1) = pos c' ∧ adv inlineAt c c').
    { intros ty Hty Hlt Hin. exists (c + 1). split; [done|].
      apply adv_next; [done|]. unfold inlineAt. by rewrite Hty. }
    destruct (match_pos IntegerLiteral c) as [(-> & ? & ?)| ->]; [by eapply Hlit|].
    destruct (match_pos DoubleLiteral c) as [(-> & ? & ?)| ->]; [by eapply Hlit|].
    destruct (match_pos StringLiteral c) as [(-> & ? & ?)| ->]; [by eapply Hlit|].
    destruct (match_pos KeywordTrue c) as [(-> & ? & ?)| ->]; [by eapply Hlit|].
    destruct (match_pos KeywordFalse c) as [(-> & ? & ?)| ->]; [by eapply Hlit|].
    destruct (match_pos Identifier c) as [(-> & ? & ?)| ->]; [by eapply Hlit|].
    destruct (match_pos LeftParen c) as [(-> & Hty & Hlt)| ->]; [|done].
    pose proof (IHexpr (c + 1) ltac:(fit)) as He.
    unfold exprSpec in He.
    destruct (parseExpression n (pos (c + 1))) as [[e p2]| |]; cbn [bind]; [|done..].
    destruct He as (c2 & -> & Hadv2).
    pose proof (consume_pos RightParen "Ожидается ')' " c2) as Hc.
    destruct (consume _ _ (pos c2)) as [[tok p3]| |]; cbn [bind]; [|done..].
    destruct Hc as (-> & _ & Hty3 & Hlt3).
    exists (c2 + 1). split; [done|].
    eapply adv_trans; [apply adv_next; [done|by unfold inlineAt; rewrite Hty]|].
    eapply adv_trans; [exact Hadv2|].
    apply adv_next; [done|]. unfold inlineAt. by rewrite Hty3.
  - (* parseUnary *)
    unfold exprSpec. cbn [parseUnary].
    assert (Hop : ∀ ty, typeAt ts c = ty → c < len → inlineTok ty = true →
              ∀ op, match (let* (operand, p2) := parseUnary n (pos (c + 1)) in
                           Ret (makeUnary op operand, p2)) with
                    | Ret (_, p') => ∃ c', p' = pos c' ∧ adv inlineAt c c'
                    | Throw _ => True
                    | Starved => False
                    end).
    { intros ty Hty Hlt Hin op.
      pose proof (IHunary (c + 1) ltac:(fit)) as Hu.
      unfold exprSpec in Hu.
      destruct (parseUnary n (pos (c + 1))) as [[e p2]| |]; cbn [bind]; [|done..].
      destruct Hu as (c2 & -> & Hadv2). exists c2. split; [done|].
      eapply adv_trans; [|exact Hadv2].
      apply adv_next; [done|]. unfold inlineAt. by rewrite Hty. }
    destruct (match_pos Minus c) as [(-> & ? & ?)| ->]; [by eapply Hop|].
    destruct (match_pos KeywordNot c) as [(-> & ? & ?)| ->]; [by eapply Hop|].
    apply IHprimary. fit.
  - (* parsePower *)
    unfold exprSpec. cbn [parsePower].
    pose proof (IHunary c ltac:(fit)) as Hu. unfold exprSpec in Hu.
    destruct (parseUnary n (pos c)) as [[e p1]| |]; cbn [bind]; [|done..].
    destruct Hu as (c1 & -> & Hadv1).
    destruct (match_pos Caret c1) as [(-> & Hty & Hlt)| ->]; [|by exists c1].
    pose proof (IHpower (c1 + 1)
                  ltac:(destruct Hadv1; unfold fits in *; lia)) as Hp.
    unfold exprSpec in Hp.
    destruct (parsePower n (pos (c1 + 1))) as [[rhs p3]| |]; cbn [bind]; [|done..].
    destruct Hp as (c3 & -> & Hadv3). exists c3. split; [done|].
    eapply adv_trans; [exact Hadv1|].
    eapply adv_trans; [|exact Hadv3].
    apply adv_next; [done|]. unfold inlineAt. by rewrite Hty.
  - cbn [parseFactor]. eapply (Hlevel 3); [by repeat constructor|done..].
  - cbn [parseTerm]. eapply (Hlevel 4); [by repeat constructor|done..].
  - cbn [parseComparison]. eapply (Hlevel 5); [by repeat constructor|done..].
  - cbn [parseEquality]. eapply (Hlevel 6); [by repeat constructor|done..].
  - cbn [parseAnd]. eapply (Hlevel 7); [by repeat constructor|done..].
  - cbn [parseOr]. eapply (Hlevel 8); [by repeat constructor|done..].
  - unfold exprSpec. cbn [parseExpression]. apply IHor. fit.
Qed.

Lemma parseExpression_ok n c : fits 10 n c → exprSpec (parseExpression n) c.
Proof. apply exprs_ok. Qed.

(** *** Statements *)

Lemma drop_typeAt c :
  c < len → ∃ tok, drop c ts = tok :: drop (S c) ts ∧ type tok = typeAt ts c.
Proof.
  intros Hc. unfold typeAt, len in *.
  destruct (nth_lookup_or_length ts c eof) as [Hl|]; [|lia].
  exists (nth c ts eof). split; [by apply drop_S|done].
Qed.

Lemma opensBlock_drop j d : ∀ a,
  j = a + d → (∀ k, a ≤ k < j → typeAt ts k ≠ Newline) →
  typeAt ts j = Newline → typeAt ts (j + 1) = Indent →
  opensBlock (drop a ts) = true.
Proof.
  induction d as [|d IH]; intros a Hj Hline Hnl Hind.
  - replace a with j in * by lia.
    destruct (drop_typeAt j) as (tok & -> & Hty);
      [apply typeAt_in; by rewrite Hnl|].
    destruct (drop_typeAt (S j)) as (tok' & -> & Hty');
      [apply typeAt_in; replace (S j) with (j + 1) by lia; by rewrite Hind|].
    cbn [opensBlock]. rewrite Hty, Hnl, bool_decide_eq_true_2 by done.
    apply bool_decide_eq_true_2. rewrite Hty'. by replace (S j) with (j + 1) by lia.
  - assert (Hlt : j < len) by (apply typeAt_in; by rewrite Hnl).
    destruct (drop_typeAt a) as (tok & -> & Hty); [lia|].
    cbn [opensBlock]. rewrite Hty, bool_decide_eq_false_2 by (apply Hline; lia).
    apply IH; [lia| |done..]. intros k Hk. apply Hline. lia.
Qed.

Lemma header_good i j :
  i < j → (∀ k, i < k < j → inlineAt k) →
  typeAt ts j = Newline → typeAt ts (j + 1) = Indent → goodAt i.
Proof.
  intros Hij Hline Hnl Hind _. unfold blockFollows.
  apply (opensBlock_drop j (j - S i)); [lia| |done..].
  intros k Hk Heq. specialize (Hline k ltac:(lia)).
  unfold inlineAt, inlineTok in Hline. by rewrite Heq in Hline.
Qed.

Lemma skipNewlines_pos c :
  ∃ c', skipNewlines (pos c) = Ret (tt, pos c') ∧
        adv (fun i => typeAt ts i = Newline) c c'.
Proof.
  unfold skipNewlines.
  pose proof (iterate_total (E := ParserError)
    (fun p => let (b, p1) := match_ Newline p in
              if b then Ret (Next p1) else Ret (Done p1))
    (fun p => ∃ c', p = pos c' ∧ adv (fun i => typeAt ts i = Newline) c c')
    (fun p => ∃ c', p = pos c' ∧ adv (fun i => typeAt ts i = Newline) c c')
    (fun _ => False) remaining) as Hloop.
  specialize (Hloop ltac:(
    intros p (c' & -> & Hadv);
    destruct (match_pos Newline c') as [(-> & Hty & Hlt)| ->];
      [|by exists c'];
    split; [exists (c' + 1); split; [done|];
            eapply adv_trans; [exact Hadv|by apply adv_next]
           |rewrite !remaining_pos; lia])
    (S (remaining (pos c))) (pos c)).
  specialize (Hloop ltac:(exists c; split; [done|apply adv_refl]) ltac:(lia)).
  destruct (iterate _ _ _) as [p'| |]; try done.
  destruct Hloop as (c' & -> & Hadv). by exists c'.
Qed.

Lemma newline_good i : typeAt ts i = Newline → goodAt i.
Proof. intros H. apply notHeader_good. by rewrite H. Qed.

Lemma expectNewline_pos context c : goesOn (expectNewline context (pos c)) c.
Proof.
  unfold expectNewline, goesOn, throwParserError.
  destruct (match_pos Newline c) as [(-> & Hty & Hlt)| ->].
  - destruct (skipNewlines_pos (c + 1)) as (c' & -> & Hadv).
    exists c'. split; [done|].
    eapply adv_trans; [apply adv_next; [done|by apply newline_good]|].
    eapply adv_weaken; [|exact Hadv]. apply newline_good.
  - destruct (check Dedent (pos c) || check EndOfFile (pos c)); [|done].
    exists c. split; [done|apply adv_refl].
Qed.

Lemma consume_good ty message c :
  isHeader ty = false →
  match consume ty message (pos c) with
  | Ret (tok, p') =>
      p' = pos (c + 1) ∧ typeAt ts c = ty ∧ adv goodAt c (c + 1)
  | Throw _ => True
  | Starved => False
  end.
Proof.
  intros Hty. pose proof (consume_pos ty message c) as H.
  destruct (consume ty message (pos c)) as [[tok p']| |]; [|done..].
  destruct H as (-> & _ & Hc & Hlt). split; [done|]. split; [done|].
  apply adv_next; [done|]. apply notHeader_good. by rewrite Hc.
Qed.

Lemma adv_inline_good c c' : adv inlineAt c c' → adv goodAt c c'.
Proof. apply adv_weaken, inline_good. Qed.

Lemma adv_one_good c : c < len → isHeader (typeAt ts c) = false → adv goodAt c (c + 1).
Proof. intros. apply adv_next; [done|by apply notHeader_good]. Qed.

Lemma parseParenthesizedCondition_pos n context c :
  fits 10 n c →
  match parseParenthesizedCondition n context (pos c) with
  | Ret (_, p') => ∃ c', p' = pos c' ∧ c < c' ∧ adv inlineAt c c'
  | Throw _ => True
  | Starved => False
  end.
Proof.
  intros Hfit. unfold parseParenthesizedCondition.
  pose proof (consume_pos LeftParen ("Ожидается '(' после " +:+ context) c) as H1.
  destruct (consume _ _ (pos c)) as [[tok p1]| |]; cbn [bind]; [|done..].
  destruct H1 as (-> & _ & Hty1 & Hlt1).
  pose proof (parseExpression_ok n (c + 1) ltac:(eapply fits_later; [exact Hfit|lia])) as H2.
  unfold exprSpec in H2.
  destruct (parseExpression n (pos (c + 1))) as [[e p2]| |]; cbn [bind]; [|done..].
  destruct H2 as (c2 & -> & Hadv2).
  pose proof (consume_pos RightParen ("Ожидается ')' после условия " +:+ context) c2) as H3.
  destruct (consume _ _ (pos c2)) as [[tok3 p3]| |]; cbn [bind]; [|done..].
  destruct H3 as (-> & _ & Hty3 & Hlt3).
  exists (c2 + 1). split; [done|]. split; [destruct Hadv2; lia|].
  eapply adv_trans; [apply adv_next; [done|by unfold inlineAt; rewrite Hty1]|].
  eapply adv_trans; [exact Hadv2|].
  apply adv_next; [done|by unfold inlineAt; rewrite Hty3].
Qed.

Lemma parseTypeKeyword_pos context c :
  match parseTypeKeyword context (pos c) with
  | Ret (_, p') => p' = pos (c + 1) ∧ c < len ∧ inlineAt c
  | Throw _ => True
  | Starved => False
  end.
Proof.
  unfold parseTypeKeyword, throwParserError, inlineAt.
  destruct (match_pos KeywordInteger c) as [(-> & -> & ?)| ->]; [done|].
  destruct (match_pos KeywordDouble c) as [(-> & -> & ?)| ->]; [done|].
  destruct (match_pos KeywordString c) as [(-> & -> & ?)| ->]; [done|].
  destruct (match_pos KeywordLogic c) as [(-> & -> & ?)| ->]; done.
Qed.

(** After the first [k] tokens of a simple statement, none of them a
    header, the rest of the statement goes on from [c + k]. *)
Lemma stmt_after {A B} (r : Res ParserError (A * Parser.t)) (s : B) c c1 :
  c < c1 → adv goodAt c c1 →
  goesOn r c1 →
  stmtSpec (let* (_, p') := r in Ret (s, p')) c.
Proof.
  intros Hk Hadv Hr. unfold stmtSpec, goesOn in *.
  destruct r as [[a p']| |]; cbn [bind]; [|done..].
  destruct Hr as (c' & -> & Hadv'). exists c'. split; [done|].
  split; [destruct Hadv'; lia|by eapply adv_trans].
Qed.

Lemma parseVarDecl_pos n c :
  fits 10 n c → isTypeKeyword (typeAt ts c) = true →
  stmtSpec (parseVarDecl n (pos c)) c.
Proof.
  intros Hfit Hkw. unfold parseVarDecl.
  assert (Hne : typeAt ts c ≠ EndOfFile) by (intros Heq; by rewrite Heq in Hkw).
  assert (Hnh : isHeader (typeAt ts c) = false)
    by (destruct (typeAt ts c); done).
  rewrite advance_pos by done.
  pose proof (consume_good Identifier "Ожидается имя переменной" (c + 1) eq_refl) as H1.
  destruct (consume _ _ (pos (c + 1))) as [[name p2]| |]; cbn [bind]; [|done..].
  destruct H1 as (-> & _ & Hadv1).
  assert (Hadv2 : adv goodAt c (c + 1 + 1)).
  { eapply adv_trans; [|exact Hadv1]. apply adv_one_good; [by apply typeAt_in|done]. }
  destruct (match_pos Assign (c + 1 + 1)) as [(-> & Hty & Hlt)| ->].
  - pose proof (parseExpression_ok n (c + 1 + 1 + 1)
                  ltac:(eapply fits_later; [exact Hfit|lia])) as He.
    unfold exprSpec in He.
    destruct (parseExpression n _) as [[e p4]| |]; cbn [bind]; [|done..].
    destruct He as (c4 & -> & Hadv4).
    eapply (stmt_after _ _ c c4); [destruct Hadv4; lia| |apply expectNewline_pos].
    eapply adv_trans; [exact Hadv2|].
    eapply adv_trans; [apply adv_one_good; [done|by rewrite Hty]|].
    by apply adv_inline_good.
  - cbn [bind].
    eapply (stmt_after _ _ c (c + 1 + 1)); [lia|done|apply expectNewline_pos].
Qed.

Lemma parseAssignment_pos n c :
  fits 10 n c → typeAt ts c = Identifier →
  stmtSpec (parseAssignment n (pos c)) c.
Proof.
  intros Hfit Hty. unfold parseAssignment.
  rewrite advance_pos by (by rewrite Hty).
  pose proof (consume_good Assign "Ожидается '=' в присваивании" (c + 1) eq_refl) as H1.
  destruct (consume _ _ (pos (c + 1))) as [[tok p2]| |]; cbn [bind]; [|done..].
  destruct H1 as (-> & _ & Hadv1).
  pose proof (parseExpression_ok n (c + 1 + 1)
                ltac:(eapply fits_later; [exact Hfit|lia])) as He.
  unfold exprSpec in He.
  destruct (parseExpression n _) as [[e p3]| |]; cbn [bind]; [|done..].
  destruct He as (c3 & -> & Hadv3).
  eapply (stmt_after _ _ c c3); [destruct Hadv3; lia| |apply expectNewline_pos].
  eapply adv_trans;
    [apply adv_one_good; [apply typeAt_in; by rewrite Hty|by rewrite Hty]|].
  eapply adv_trans; [exact Hadv1|by apply adv_inline_good].
Qed.

Lemma parseInput_pos c :
  typeAt ts c = KeywordInput → stmtSpec (parseInput (pos c)) c.
Proof.
  intros Hty. unfold parseInput.
  rewrite advance_pos by (by rewrite Hty).
  pose proof (consume_good Identifier "Ожидается переменная для ввода" (c + 1) eq_refl)
    as H1.
  destruct (consume _ _ (pos (c + 1))) as [[tok p2]| |]; cbn [bind]; [|done..].
  destruct H1 as (-> & _ & Hadv1).
  eapply (stmt_after _ _ c (c + 1 + 1)); [lia| |apply expectNewline_pos].
  eapply adv_trans; [|exact Hadv1].
  apply adv_one_good; [apply typeAt_in; by rewrite Hty|by rewrite Hty].
Qed.

Lemma parseOutput_pos n c :
  fits 10 n c → typeAt ts c = KeywordOutput →
  stmtSpec (parseOutput n (pos c)) c.
Proof.
  intros Hfit Hty. unfold parseOutput.
  rewrite advance_pos by (by rewrite Hty).
  pose proof (parseExpression_ok n (c + 1)
                ltac:(eapply fits_later; [exact Hfit|lia])) as He.
  unfold exprSpec in He.
  destruct (parseExpression n _) as [[e p3]| |]; cbn [bind]; [|done..].
  destruct He as (c3 & -> & Hadv3).
  eapply (stmt_after _ _ c c3); [destruct Hadv3; lia| |apply expectNewline_pos].
  eapply adv_trans;
    [apply adv_one_good; [apply typeAt_in; by rewrite Hty|by rewrite Hty]|].
  by apply adv_inline_good.
Qed.

Lemma header_block c c2 c3 :
  c < len → adv inlineAt (c + 1) c2 →
  typeAt ts c2 = Newline → typeAt ts (c2 + 1) = Indent →
  adv goodAt c2 c3 → adv goodAt c c3.
Proof.
  intros Hc Hline Hnl Hind Hbody.
  eapply adv_trans; [apply adv_next; [done|]|].
  - apply (header_good c c2); [destruct Hline; lia| |done..].
    intros k Hk. destruct Hline as (_ & _ & Hline). apply Hline. lia.
  - eapply adv_trans; [by apply adv_inline_good|done].
Qed.

Lemma blockLoop_spec parseStmt c0 body0 :
  (∀ c', c0 ≤ c' → stmtSpec (parseStmt (pos c')) c') →
  goesOn (iterate (S (remaining (pos c0))) (blockLoop parseStmt)
                  (body0, pos c0)) c0.
Proof.
  intros Hstmt. unfold goesOn.
  pose proof (iterate_total (blockLoop parseStmt)
    (fun st => ∃ c', st.2 = pos c' ∧ adv goodAt c0 c')
    (fun st => ∃ c', st.2 = pos c' ∧ adv goodAt c0 c')
    (fun _ => True) (fun st => remaining st.2)) as Hloop.
  specialize (Hloop ltac:(
    intros [body pc] (c' & Hpc & Hadv); cbn [snd] in Hpc; subst pc;
    unfold blockLoop;
    destruct (negb (check Dedent (pos c')) && negb (isAtEnd (pos c')));
      [|by exists c'];
    pose proof (Hstmt c' ltac:(destruct Hadv; lia)) as Hs; unfold stmtSpec in Hs;
    destruct (parseStmt (pos c')) as [[stmt p1]| |]; cbn [bind]; [|done..];
    destruct Hs as (c1 & -> & Hlt & Hadv1);
    destruct (skipNewlines_pos c1) as (c2 & -> & Hadv2); cbn [bind snd];
    split; [exists c2; split; [done|];
            eapply adv_trans; [exact Hadv|];
            eapply adv_trans; [exact Hadv1|];
            eapply adv_weaken; [|exact Hadv2]; apply newline_good
           |rewrite !remaining_pos; destruct Hadv1 as (? & ? & _);
            destruct Hadv2 as (? & ? & _); lia])
    (S (remaining (pos c0))) (body0, pos c0)).
  specialize (Hloop ltac:(exists c0; split; [done|apply adv_refl])
                    ltac:(cbn [snd]; lia)).
  destruct (iterate _ _ _) as [[body p']| |]; done.
Qed.

Lemma elseLoop_spec n blockP c0 st0 :
  (∀ c' context, c0 ≤ c' → blockSpec (blockP context (pos c')) c') →
  fits 10 n c0 → st0.2 = pos c0 →
  match iterate (S (remaining (pos c0))) (elseLoop n blockP) st0 with
  | Ret st => ∃ c', st.2 = pos c' ∧ adv goodAt c0 c'
  | Throw _ => True
  | Starved => False
  end.
Proof.
  intros Hblock Hfit Hst0.
  pose proof (iterate_total (elseLoop n blockP)
    (fun st => ∃ c', st.2 = pos c' ∧ adv goodAt c0 c')
    (fun st => ∃ c', st.2 = pos c' ∧ adv goodAt c0 c')
    (fun _ => True) (fun st => remaining st.2)) as Hloop.
  apply Hloop; [|by exists c0; split; [|apply adv_refl]|rewrite Hst0; lia].
  clear Hloop. intros [[[branches elseBranch] hasElse] pc] (c' & Hpc & Hadv).
  cbn [snd] in Hpc. subst pc. unfold elseLoop.
  destruct (match_pos KeywordElse c') as [(-> & Hty & Hlt)| ->]; [|by exists c'].
  assert (Helse : adv goodAt c0 (c' + 1)).
  { eapply adv_trans; [exact Hadv|]. apply adv_one_good; [done|by rewrite Hty]. }
  destruct (match_pos KeywordIf (c' + 1)) as [(-> & Hty2 & Hlt2)| ->].
  - pose proof (parseParenthesizedCondition_pos n "иначе если" (c' + 1 + 1)
                  ltac:(eapply fits_later; [exact Hfit|destruct Hadv; lia])) as Hc.
    destruct (parseParenthesizedCondition n _ _) as [[cond p3]| |];
      cbn [bind]; [|done..].
    destruct Hc as (c3 & -> & Hlt3 & Hadv3).
    pose proof (Hblock c3 "условия 'иначе если'" ltac:(destruct Hadv; lia)) as Hb.
    unfold blockSpec in Hb.
    destruct (blockP _ (pos c3)) as [[body p4]| |]; cbn [bind]; [|done..].
    destruct Hb as (c4 & -> & Hlt4 & Hnl & Hind & Hadv4). cbn [snd].
    split; [exists c4; split; [done|]|].
    + eapply adv_trans; [exact Helse|]. by eapply header_block.
    + rewrite !remaining_pos. destruct Hadv4 as (? & ? & _). lia.
  - pose proof (Hblock (c' + 1) "блока 'иначе'" ltac:(destruct Hadv; lia)) as Hb.
    unfold blockSpec in Hb.
    destruct (blockP _ (pos (c' + 1))) as [[body p4]| |]; cbn [bind]; [|done..].
    destruct Hb as (c4 & -> & Hlt4 & Hnl & Hind & Hadv4). cbn [snd].
    exists c4. split; [done|]. by eapply adv_trans.
Qed.

Lemma stmts_ok n :
  (∀ c, fits 12 n c → stmtSpec (parseStatement n (pos c)) c) ∧
  (∀ c, fits 11 n c → typeAt ts c = KeywordIf →
        stmtSpec (parseIf n (pos c)) c) ∧
  (∀ c, fits 11 n c → typeAt ts c = KeywordWhile →
        stmtSpec (parseWhile n (pos c)) c) ∧
  (∀ c, fits 11 n c → typeAt ts c = KeywordFor →
        stmtSpec (parseFor n (pos c)) c) ∧
  (∀ c context, fits 11 n c →
        blockSpec (parseIndentedBlock n context (pos c)) c).
Proof.
  induction n as [|n (IHstmt & IHif & IHwhile & IHfor & IHblock)].
  { repeat split; intros; unfold fits in *; lia. }
  assert (Hblock : ∀ c0 c, fits 11 (S n) c0 → c0 < len → c0 < c →
            ∀ context, blockSpec (parseIndentedBlock n context (pos c)) c).
  { intros c0 c Hfit Hlt Hc context. apply IHblock. unfold fits in *. lia. }
  assert (Hcond : ∀ c0 c context, fits 11 (S n) c0 → c0 ≤ c →
            match parseParenthesizedCondition n context (pos c) with
            | Ret (_, p') => ∃ c', p' = pos c' ∧ c < c' ∧ adv inlineAt c c'
            | Throw _ => True
            | Starved => False
            end).
  { intros c0 c context Hfit Hc. apply parseParenthesizedCondition_pos.
    unfold fits in *. lia. }
  repeat split.
  - (* parseStatement *)
    intros c Hfit. cbn [parseStatement].
    destruct (check Indent (pos c)); [done|].
    rewrite peek_pos.
    destruct (isTypeKeyword (typeAt ts c)) eqn:Hkw;
      [apply parseVarDecl_pos; [fit|done]|].
    destruct (typeAt ts c) eqn:Hty; try done.
    + apply parseAssignment_pos; [fit|done].
    + apply IHif; [fit|done].
    + apply IHwhile; [fit|done].
    + apply IHfor; [fit|done].
    + by apply parseInput_pos.
    + apply parseOutput_pos; [fit|done].
  - (* parseIf *)
    intros c Hfit Hty. cbn [parseIf].
    assert (Hlt : c < len) by (apply typeAt_in; by rewrite Hty).
    rewrite advance_pos by (by rewrite Hty).
    pose proof (Hcond c (c + 1) "если" Hfit ltac:(lia)) as Hc.
    destruct (parseParenthesizedCondition n _ _) as [[cond p2]| |];
      cbn [bind]; [|done..].
    destruct Hc as (c2 & -> & Hlt2 & Hadv2).
    pose proof (Hblock c c2 Hfit Hlt ltac:(lia) "условия 'если'") as Hb.
    unfold blockSpec in Hb.
    destruct (parseIndentedBlock n _ (pos c2)) as [[body p3]| |];
      cbn [bind]; [|done..].
    destruct Hb as (c3 & -> & Hlt3 & Hnl & Hind & Hadv3).
    pose proof (elseLoop_spec n (parseIndentedBlock n) c3
                  ([(cond, body)], [], false, pos c3)
                  ltac:(intros c' context Hc'; apply (Hblock c c' Hfit Hlt); lia)
                  ltac:(unfold fits in *; lia) eq_refl) as Hl.
    destruct (iterate _ _ _) as [[[[br eb] he] p4]| |]; cbn [bind]; [|done..].
    destruct Hl as (c4 & Hp4 & Hadv4). cbn [snd] in Hp4. subst p4.
    exists c4. split; [done|]. split; [destruct Hadv4; lia|].
    eapply adv_trans; [|exact Hadv4]. by eapply header_block.
  - (* parseWhile *)
    intros c Hfit Hty. cbn [parseWhile].
    assert (Hlt : c < len) by (apply typeAt_in; by rewrite Hty).
    rewrite advance_pos by (by rewrite Hty).
    pose proof (Hcond c (c + 1) "пока" Hfit ltac:(lia)) as Hc.
    destruct (parseParenthesizedCondition n _ _) as [[cond p2]| |];
      cbn [bind]; [|done..].
    destruct Hc as (c2 & -> & Hlt2 & Hadv2).
    pose proof (Hblock c c2 Hfit Hlt ltac:(lia) "цикла 'пока'") as Hb.
    unfold blockSpec in Hb.
    destruct (parseIndentedBlock n _ (pos c2)) as [[body p3]| |];
      cbn [bind]; [|done..].
    destruct Hb as (c3 & -> & Hlt3 & Hnl & Hind & Hadv3).
    exists c3. split; [done|]. split; [lia|]. by eapply header_block.
  - (* parseFor *)
    intros c Hfit Hty. cbn [parseFor].
    assert (Hlt : c < len) by (apply typeAt_in; by rewrite Hty).
    rewrite advance_pos by (by rewrite Hty).
    pose proof (consume_pos LeftParen "Ожидается '(' после 'для'" (c + 1)) as H2.
    destruct (consume _ _ (pos (c + 1))) as [[t2 p2]| |]; cbn [bind]; [|done..].
    destruct H2 as (-> & _ & Hty2 & Hlt2).
    pose proof (parseTypeKeyword_pos "цикла 'для'" (c + 1 + 1)) as H3.
    destruct (parseTypeKeyword _ _) as [[vt p3]| |]; cbn [bind]; [|done..].
    destruct H3 as (-> & Hlt3 & Hin3).
    pose proof (consume_pos Identifier "Ожидается имя счётчика" (c + 1 + 1 + 1)) as H4.
    destruct (consume _ _ (pos (c + 1 + 1 + 1))) as [[t4 p4]| |];
      cbn [bind]; [|done..].
    destruct H4 as (-> & _ & Hty4 & Hlt4).
    pose proof (consume_pos KeywordFrom "Ожидается слово 'от' в цикле"
                  (c + 1 + 1 + 1 + 1)) as H5.
    destruct (consume _ _ (pos (c + 1 + 1 + 1 + 1))) as [[t5 p5]| |];
      cbn [bind]; [|done..].
    destruct H5 as (-> & _ & Hty5 & Hlt5).
    pose proof (parseExpression_ok n (c + 1 + 1 + 1 + 1 + 1)
                  ltac:(unfold fits in *; lia)) as H6.
    unfold exprSpec in H6.
    destruct (parseExpression n _) as [[from p6]| |]; cbn [bind]; [|done..].
    destruct H6 as (c6 & -> & Hadv6).
    pose proof (consume_pos KeywordTo "Ожидается слово 'до' в цикле" c6) as H7.
    destruct (consume _ _ (pos c6)) as [[t7 p7]| |]; cbn [bind]; [|done..].
    destruct H7 as (-> & _ & Hty7 & Hlt7).
    pose proof (parseExpression_ok n (c6 + 1)
                  ltac:(destruct Hadv6; unfold fits in *; lia)) as H8.
    unfold exprSpec in H8.
    destruct (parseExpression n _) as [[to p8]| |]; cbn [bind]; [|done..].
    destruct H8 as (c8 & -> & Hadv8).
    pose proof (consume_pos RightParen "Ожидается ')' после заголовка цикла" c8)
      as H9.
    destruct (consume _ _ (pos c8)) as [[t9 p9]| |]; cbn [bind]; [|done..].
    destruct H9 as (-> & _ & Hty9 & Hlt9).
    pose proof (Hblock c (c8 + 1) Hfit Hlt
                  ltac:(destruct Hadv6, Hadv8; lia) "цикла 'для'") as Hb.
    unfold blockSpec in Hb.
    destruct (parseIndentedBlock n _ (pos (c8 + 1))) as [[body p10]| |];
      cbn [bind]; [|done..].
    destruct Hb as (c10 & -> & Hlt10 & Hnl & Hind & Hadv10).
    exists c10. split; [done|]. split; [destruct Hadv6, Hadv8; lia|].
    eapply (header_block c (c8 + 1)); [done| |done..].
    assert (Hone : ∀ i ty, typeAt ts i = ty → i < len → inlineTok ty = true →
              adv inlineAt i (i + 1)).
    { intros i ty Hi Hl Hin. apply adv_next; [done|]. unfold inlineAt. by rewrite Hi. }
    eapply adv_trans; [by eapply Hone|].
    eapply adv_trans; [by apply adv_next|].
    eapply adv_trans; [by eapply Hone|].
    eapply adv_trans; [by eapply Hone|].
    eapply adv_trans; [exact Hadv6|].
    eapply adv_trans; [by eapply Hone|].
    eapply adv_trans; [exact Hadv8|]. by eapply Hone.
  - (* parseIndentedBlock *)
    intros c context Hfit. cbn [parseIndentedBlock]. unfold blockSpec.
    pose proof (consume_good Newline ("Ожидается новая строка после " +:+ context)
                  c eq_refl) as H1.
    destruct (consume _ _ (pos c)) as [[t1 p1]| |]; cbn [bind]; [|done..].
    destruct H1 as (-> & Hnl & Hadv1).
    pose proof (consume_good Indent ("Ожидается отступ после " +:+ context)
                  (c + 1) eq_refl) as H2.
    destruct (consume _ _ (pos (c + 1))) as [[t2 p2]| |]; cbn [bind]; [|done..].
    destruct H2 as (-> & Hind & Hadv2).
    destruct (skipNewlines_pos (c + 1 + 1)) as (c3 & -> & Hadv3). cbn [bind].
    assert (Hlt : c < len) by (apply typeAt_in; by rewrite Hnl).
    assert (Hlt2 : c + 1 < len) by (apply typeAt_in; by rewrite Hind).
    pose proof (blockLoop_spec (parseStatement n) c3 []
                  ltac:(intros c' Hc'; apply IHstmt;
                        destruct Hadv3; unfold fits in *; lia)) as Hl.
    unfold goesOn in Hl.
    destruct (iterate _ _ _) as [[body p4]| |]; cbn [bind]; [|done..].
    destruct Hl as (c4 & -> & Hadv4).
    pose proof (consume_good Dedent ("Ожидается завершение блока " +:+ context)
                  c4 eq_refl) as H5.
    destruct (consume _ _ (pos c4)) as [[t5 p5]| |]; cbn [bind]; [|done..].
    destruct H5 as (-> & Hded & Hadv5).
    exists (c4 + 1). split; [done|].
    split; [destruct Hadv3, Hadv4; lia|]. split; [done|]. split; [done|].
    eapply adv_trans; [exact Hadv1|].
    eapply adv_trans; [exact Hadv2|].
    eapply adv_trans; [eapply adv_weaken; [|exact Hadv3]; apply newline_good|].
    by eapply adv_trans.
Qed.

(** *** The whole parse *)

Lemma runParser_spec :
  match runParser ts with
  | Ret (_, p') =>
      ∃ c', p' = pos c' ∧ typeAt ts c' = EndOfFile ∧ adv goodAt 0 c'
  | Throw _ => True
  | Starved => False
  end.
Proof.
  unfold runParser. fold (pos 0).
  destruct (skipNewlines_pos 0) as (c1 & -> & Hadv1). cbn [bind].
  pose proof (iterate_total (programLoop (callDepth ts))
    (fun st => ∃ c', st.2 = pos c' ∧ adv goodAt 0 c')
    (fun st => ∃ c', st.2 = pos c' ∧ typeAt ts c' = EndOfFile ∧ adv goodAt 0 c')
    (fun _ => True) (fun st => remaining st.2)) as Hloop.
  specialize (Hloop ltac:(
    intros [stmts pc] (c' & Hpc & Hadv); cbn [snd] in Hpc; subst pc;
    unfold programLoop; rewrite isAtEnd_pos;
    case_bool_decide as Hend; cbn [negb]; [by exists c'|];
    pose proof (proj1 (stmts_ok (callDepth ts)) c'
                  ltac:(unfold fits, callDepth, len; lia)) as Hs;
    unfold stmtSpec in Hs;
    destruct (parseStatement _ (pos c')) as [[stmt p1]| |]; cbn [bind]; [|done..];
    destruct Hs as (c2 & -> & Hlt & Hadv2);
    destruct (skipNewlines_pos c2) as (c3 & -> & Hadv3); cbn [bind snd];
    split; [exists c3; split; [done|];
            eapply adv_trans; [exact Hadv|];
            eapply adv_trans; [exact Hadv2|];
            eapply adv_weaken; [|exact Hadv3]; apply newline_good
           |rewrite !remaining_pos; destruct Hadv2 as (? & ? & _);
            destruct Hadv3 as (? & ? & _); lia])
    (S (remaining (pos c1))) ([], pos c1)).
  specialize (Hloop ltac:(exists c1; split; [done|];
                          eapply adv_weaken; [|exact Hadv1]; apply newline_good)
                    ltac:(cbn [snd]; lia)).
  destruct (iterate _ _ _) as [[stmts p']| |]; cbn [bind]; done.
Qed.
End ParserFacts.

Lemma parseProgram_total ts : Parser.parseProgram ts ≠ Starved.
Proof.
  unfold Parser.parseProgram. pose proof (runParser_spec ts) as H.
  by destruct (Parser.runParser ts) as [[program p]| |].
Qed.

(** A stream that the parser accepts and that has no [EndOfFile] before its
    end respects the block rule at every header keyword. *)
Lemma parseProgram_headers ts program i :
  Parser.parseProgram ts = Ret program →
  (∀ k, typeAt ts k = EndOfFile → length ts ≤ k + 1) →
  isHeader (typeAt ts i) = true → blockFollows ts i = true.
Proof.
  unfold Parser.parseProgram. pose proof (runParser_spec ts) as H.
  destruct (Parser.runParser ts) as [[prog p]| |]; cbn [bind]; [|done..].
  intros _ Heof Hhdr. destruct H as (c' & _ & Hend & _ & _ & Hgood).
  apply Hgood; [|done]. split; [lia|].
  specialize (Heof c' Hend).
  assert (i < length ts).
  { apply typeAt_in. intros Heq. by rewrite Heq in Hhdr. }
  destruct (decide (i < c')); [done|].
  assert (i = c') as -> by lia. by rewrite Hend in Hhdr.
Qed.

Lemma tokenize_eof_last source ts :
  Lexer.tokenize source = Ret ts →
  ∀ k, typeAt ts k = EndOfFile → length ts ≤ k + 1.
Proof.
  unfold Lexer.tokenize. pose proof (runLexer_spec source) as H.
  destruct (Lexer.runLexer source) as [L|[e Lf]|]; [|done..].
  intros [= <-] k Hk. destruct H as (ts' & Hts & _ & Hne).
  rewrite Hts in Hk |- *. rewrite length_app. simpl.
  destruct (decide (k < length ts')) as [Hlt|]; [|lia].
  exfalso. unfold typeAt in Hk. rewrite app_nth1 in Hk by done.
  rewrite Forall_forall in Hne. apply (Hne (nth k ts' Parser.eof)); [|done].
  apply list_elem_of_In, nth_In. done.
Qed.

(** ** Code generator *)

Section Emit.
Import CodeGenerator.

(** *** The cases of [emitStatement], with [emitStatements] for the bodies *)

Lemma emitBlock_emitEach indentLevel : ∀ body g,
  (fix emitBlock (statements : list Statement) (g : Gen) {struct statements}
     : Gen :=
     match statements with
     | [] => g
     | stmt :: rest => emitBlock rest (emitStatement stmt (indentLevel + 1) g)
     end) body g = emitEach body (indentLevel + 1) g.
Proof. induction body as [|stmt rest IH]; intros g; simpl; [done|apply IH]. Qed.

Lemma emitStatement_While condition body indentLevel g :
  emitStatement (WhileStmt condition body) indentLevel g =
  write (indent indentLevel +:+ "}" +:+ LF)
    (emitStatements body (indentLevel + 1)
       (write (indent indentLevel +:+ "while (" +:+
               emitExpression condition (mangler g) +:+ ") {" +:+ LF) g)
       true).
Proof.
  cbn [emitStatement]. unfold emitStatements. by rewrite emitBlock_emitEach.
Qed.

Lemma emitStatement_For vtype name from to body indentLevel g :
  emitStatement (ForRangeStmt vtype name from to body) indentLevel g =
  let g1 := pushScope g in
  let (loopName, g2) := declare name g1 in
  let g3 := write (indent indentLevel +:+ "for (" +:+ cppType vtype +:+
                   " " +:+ loopName +:+ " = " +:+
                   emitExpression from (mangler g2) +:+ "; " +:+
                   loopName +:+ " <= " +:+
                   emitExpression to (mangler g2) +:+ "; ++" +:+
                   loopName +:+ ") {" +:+ LF) g2 in
  let g4 := emitStatements body (indentLevel + 1) g3 true in
  popScope (write (indent indentLevel +:+ "}" +:+ LF) g4).
Proof.
  cbn [emitStatement]. unfold emitStatements. cbv zeta.
  destruct (declare name (pushScope g)) as [loopName g2].
  by rewrite emitBlock_emitEach.
Qed.


Lemma emitStatement_If branches elseBranch hasElse indentLevel g :
  emitStatement (IfStmt branches elseBranch hasElse) indentLevel g =
  let g1 := emitBranches indentLevel 0 branches g in
  if hasElse then
    write (indent indentLevel +:+ "}" +:+ LF)
      (emitStatements elseBranch (indentLevel + 1)
         (write (indent indentLevel +:+ "else {" +:+ LF) g1) true)
  else g1.
Proof.
  cbn [emitStatement]. cbv zeta.
  match goal with
  | |- context [?f 0 branches g] =>
      assert (Heq : ∀ i g', f i branches g' = emitBranches indentLevel i branches g')
  end.
  { induction branches as [|[condition body] rest IH]; intros i g'; [done|].
    cbn [emitBranches]. cbv zeta. unfold emitStatements at 1.
    rewrite <- emitBlock_emitEach. apply IH. }
  rewrite Heq. destruct hasElse; [|done].
  unfold emitStatements. by rewrite emitBlock_emitEach.
Qed.

Lemma emitStatements_eq body indentLevel g createNewScope :
  emitStatements body indentLevel g createNewScope =
  if createNewScope then popScope (emitEach body indentLevel (pushScope g))
  else emitEach body indentLevel g.
Proof. unfold emitStatements. by destruct createNewScope. Qed.

(** *** What every emission keeps *)

(** Two generator states with the same mangler, related by a relation that
    the four things the emitting functions do to the state keep, stay
    related through [emitStatement] and [emitStatements]. *)
Section Related.
Variable R : Gen → Gen → Prop.
Hypothesis Hmangler : ∀ g g', R g g' → mangler g = mangler g'.
Hypothesis Hwrite : ∀ text g g', R g g' → R (write text g) (write text g').
Hypothesis Hpush : ∀ g g', R g g' → R (pushScope g) (pushScope g').
Hypothesis Hpop : ∀ g g', R g g' → R (popScope g) (popScope g').
Hypothesis Hdeclare : ∀ name g g', R g g' →
  (declare name g).1 = (declare name g').1 ∧
  R (declare name g).2 (declare name g').2.


Lemma emitEach_related body :
  Forall (relatedBy R) body →
  ∀ i g g', R g g' → R (emitEach body i g) (emitEach body i g').
Proof.
  induction 1 as [|stmt rest Hstmt _ IH]; intros i g g' Hg; cbn [emitEach];
    [done|]. by apply IH, Hstmt.
Qed.

Lemma emitStatements_related_from body :
  Forall (relatedBy R) body →
  ∀ i g g' b, R g g' → R (emitStatements body i g b) (emitStatements body i g' b).
Proof.
  intros Hbody i g g' b Hg. rewrite !emitStatements_eq.
  destruct b; [apply Hpop|]; apply emitEach_related; auto.
Qed.

Lemma emitStatement_related statement : relatedBy R statement.
Proof.
  induction statement as
    [vtype name initializer|name value|name|value
    |branches elseBranch hasElse IHbranches IHelse
    |condition body IHbody|vtype name from to body IHbody]
    using Statement_nested_ind; intros i g g' Hg.
  - cbn [emitStatement].
    destruct (Hdeclare name g g' Hg) as [Hname Hd].
    destruct (declare name g) as [cppName g1].
    destruct (declare name g') as [cppName' g1']. cbn [fst snd] in Hname, Hd.
    subst cppName'. apply Hwrite.
    destruct initializer as [init|]; cbn [mangler write];
      [rewrite (Hmangler _ _ Hd)|]; by repeat apply Hwrite.
  - cbn [emitStatement]. rewrite (Hmangler _ _ Hg). by apply Hwrite.
  - cbn [emitStatement]. rewrite (Hmangler _ _ Hg). by apply Hwrite.
  - cbn [emitStatement]. rewrite (Hmangler _ _ Hg). by apply Hwrite.
  - rewrite !emitStatement_If. cbv zeta.
    assert (Hbr : ∀ k g1 g1', R g1 g1' →
              R (emitBranches i k branches g1) (emitBranches i k branches g1')).
    { clear Hg g g'. induction IHbranches as [|[cond body] rest Hbody _ IH];
        intros k g1 g1' Hg1; [done|].
      cbn [emitBranches]. cbv zeta. apply IH, Hwrite.
      apply emitStatements_related_from; [exact Hbody|].
      rewrite (Hmangler _ _ Hg1). by apply Hwrite. }
    destruct hasElse; [|by apply Hbr].
    apply Hwrite, emitStatements_related_from; [done|].
    by apply Hwrite, Hbr.
  - rewrite !emitStatement_While.
    apply Hwrite, emitStatements_related_from; [done|].
    rewrite (Hmangler _ _ Hg). by apply Hwrite.
  - rewrite !emitStatement_For. cbv zeta.
    destruct (Hdeclare name _ _ (Hpush g g' Hg)) as [Hname Hd].
    destruct (declare name (pushScope g)) as [loopName g2].
    destruct (declare name (pushScope g')) as [loopName' g2'].
    cbn [fst snd] in Hname, Hd. subst loopName'.
    apply Hpop, Hwrite, emitStatements_related_from; [done|].
    rewrite (Hmangler _ _ Hd). by apply Hwrite.
Qed.

Lemma emitStatements_related body i g g' b :
  R g g' → R (emitStatements body i g b) (emitStatements body i g' b).
Proof.
  apply emitStatements_related_from, Forall_forall.
  intros stmt _. apply emitStatement_related.
Qed.
End Related.

(** The same for a property of one state. *)
Section Preserved.
Variable Inv : Gen → Prop.
Hypothesis Hwrite : ∀ text g, Inv g → Inv (write text g).
Hypothesis Hpush : ∀ g, Inv g → Inv (pushScope g).
Hypothesis Hpop : ∀ g, Inv g → Inv (popScope g).
Hypothesis Hdeclare : ∀ name g, Inv g → Inv (declare name g).2.

Lemma emitStatements_preserved body i g b :
  Inv g → Inv (emitStatements body i g b).
Proof.
  intros Hg.
  apply (emitStatements_related (fun g g' => Inv g ∧ g' = g)) with (g' := g).
  - by intros ?? [_ ->].
  - intros text ?? [? ->]. auto.
  - intros ?? [? ->]. auto.
  - intros ?? [? ->]. auto.
  - intros name ?? [? ->]. auto.
  - done.
Qed.
End Preserved.

(** The ghost field is only written: the stream and the mangler that
    [emitStatements] leaves do not depend on it. *)
Lemma emitStatements_declared_ghost body i g b log :
  let g' := emitStatements body i (mkGen (out g) (mangler g) log) b in
  out g' = out (emitStatements body i g b) ∧
  mangler g' = mangler (emitStatements body i g b).
Proof.
  apply (emitStatements_related
           (fun g1 g2 => out g1 = out g2 ∧ mangler g1 = mangler g2)); [..|done].
  - by intros ?? [_ ?].
  - intros text g1 g2 [Ho Hm]. unfold write. cbn. by rewrite Ho, Hm.
  - intros g1 g2 [Ho Hm]. unfold pushScope. cbn. by rewrite Ho, Hm.
  - intros g1 g2 [Ho Hm]. unfold popScope. cbn. by rewrite Ho, Hm.
  - intros name g1 g2 [Ho Hm]. unfold declare. rewrite Hm.
    destruct (NameMangler.declare name (mangler g2)). cbn. by rewrite Ho.
Qed.

(** *** Names *)





Lemma emitStatements_logged body i g b :
  logged g → logged (emitStatements body i g b).
Proof.
  apply emitStatements_preserved; try done.
  - intros g1. unfold logged, popScope, NameMangler.popScope.
    cbn [declared mangler]. by case_match.
  - intros name g1 Hg1. unfold logged, declare in *. cbn.
    rewrite Hg1. replace (NameMangler.counter_ (mangler g1) + 1)
      with (S (NameMangler.counter_ (mangler g1))) by lia.
    by rewrite seq_S, map_app.
Qed.

Lemma runGenerate_logged program : logged (runGenerate program).
Proof.
  unfold runGenerate. unfold logged. cbn [declared write mangler].
  by apply emitStatements_logged.
Qed.

(** *** Scopes *)

Lemma alter_last {A} (f : A → A) (outer : list A) (top : A) :
  alter f (length (outer ++ [top]) - 1) (outer ++ [top]) = outer ++ [f top].
Proof.
  rewrite length_app. cbn [length].
  replace (length outer + 1 - 1) with (length outer + 0) by lia.
  by rewrite alter_app_r.
Qed.

Abbreviation scopesOf g := (NameMangler.scopes_ (mangler g)).

Lemma declare_scopes name g outer top :
  scopesOf g = outer ++ [top] →
  scopesOf (declare name g).2 =
    outer ++ [<[name := mangled (NameMangler.counter_ (mangler g) + 1)]> top].
Proof.
  intros H. unfold declare, NameMangler.declare. cbn. rewrite H.
  apply alter_last.
Qed.

Lemma popScope_scopes g outer top :
  outer ≠ [] → scopesOf g = outer ++ [top] → scopesOf (popScope g) = outer.
Proof.
  intros Hne H. unfold popScope, NameMangler.popScope. cbn [mangler].
  rewrite H, length_app. cbn [length].
  replace (1 <? length outer + 1) with true
    by (symmetry; apply Nat.ltb_lt; destruct outer; [done|simpl; lia]).
  cbn. by rewrite List.removelast_last.
Qed.

Lemma emitEach_outer body :
  Forall keepsOuter body →
  ∀ i g outer top, scopesOf g = outer ++ [top] →
    ∃ top', scopesOf (emitEach body i g) = outer ++ [top'].
Proof.
  induction 1 as [|stmt rest Hstmt _ IH]; intros i g outer top Hg;
    cbn [emitEach]; [by eexists|].
  destruct (Hstmt i g outer top Hg) as (top1 & H1 & _). by eapply IH.
Qed.

Lemma scoped_scopes body :
  Forall keepsOuter body →
  ∀ i g, scopesOf g ≠ [] → scopesOf (emitStatements body i g true) = scopesOf g.
Proof.
  intros Hbody i g Hne. rewrite emitStatements_eq.
  destruct (emitEach_outer body Hbody i (pushScope g) (scopesOf g) ∅ eq_refl)
    as (top' & H).
  by eapply popScope_scopes.
Qed.

Lemma emitStatement_keepsOuter statement : keepsOuter statement.
Proof.
  induction statement as
    [vtype name initializer|name value|name|value
    |branches elseBranch hasElse IHbranches IHelse
    |condition body IHbody|vtype name from to body IHbody]
    using Statement_nested_ind; intros i g outer top Hg.
  - cbn [emitStatement].
    pose proof (declare_scopes name g outer top Hg) as Hd.
    destruct (declare name g) as [cppName g1]. cbn [snd] in Hd.
    exists (<[name := mangled (NameMangler.counter_ (mangler g) + 1)]> top).
    split; [|done]. destruct initializer; exact Hd.
  - by exists top.
  - by exists top.
  - by exists top.
  - exists top. split; [|done]. rewrite emitStatement_If. cbv zeta.
    assert (Hne : outer ++ [top] ≠ []) by (by destruct outer).
    assert (Hbr : ∀ k g', scopesOf g' = outer ++ [top] →
              scopesOf (emitBranches i k branches g') = outer ++ [top]).
    { clear Hg g. induction IHbranches as [|[cond body] rest Hbody _ IH];
        intros k g' Hg'; [done|].
      cbn [emitBranches]. cbv zeta. apply IH. cbn [write mangler].
      rewrite scoped_scopes; [done..|]. cbn [write mangler]. by rewrite Hg'. }
    destruct hasElse; [|by apply Hbr]. cbn [write mangler].
    rewrite scoped_scopes; [by apply Hbr|done|].
    cbn [write mangler]. by rewrite Hbr.
  - exists top. split; [|done]. rewrite emitStatement_While. cbn [write mangler].
    rewrite scoped_scopes; [done..|]. cbn [write mangler].
    rewrite Hg. by destruct outer.
  - exists top. split; [|done]. rewrite emitStatement_For. cbv zeta.
    pose proof (declare_scopes name (pushScope g) (outer ++ [top]) ∅
                  ltac:(cbn; by rewrite Hg)) as Hd.
    destruct (declare name (pushScope g)) as [loopName g2]. cbn [snd] in Hd.
    eapply popScope_scopes; [by destruct outer|]. cbn [write mangler].
    rewrite scoped_scopes; [exact Hd|done|].
    cbn [write mangler]. rewrite Hd. by destruct (outer ++ [top]).
Qed.

Lemma nonempty_snoc {A} (l : list A) : l ≠ [] → ∃ outer top, l = outer ++ [top].
Proof.
  intros H. destruct (exists_last H) as (outer & top & ->). by eexists _, _.
Qed.
End Emit.

(** ** The claims about the parser and the generator *)

(** *** C1: exponentiation *)

(** [parsePower] groups to the right: an operand, [^], an operand, [^], an
    operand and then no further [^] make [a ^ (b ^ c)]. *)
Lemma parsePower_right_assoc n p a p1 p1' b p2 p2' c p3 :
  Parser.parseUnary (S (S n)) p = Ret (a, p1) →
  Parser.match_ Caret p1 = (true, p1') →
  Parser.parseUnary (S n) p1' = Ret (b, p2) →
  Parser.match_ Caret p2 = (true, p2') →
  Parser.parseUnary n p2' = Ret (c, p3) →
  Parser.match_ Caret p3 = (false, p3) →
  Parser.parsePower (S (S (S n))) p =
  Ret (BinaryExpr "^" a (BinaryExpr "^" b c), p3).
Proof.
  intros Ha Hm1 Hb Hm2 Hc Hm3.
  change (Parser.parsePower (S (S (S n))) p) with
    (let* (expr, q1) := Parser.parseUnary (S (S n)) p in
     let (hit, q2) := Parser.match_ Caret q1 in
     if hit then
       let* (rhs, q3) := Parser.parsePower (S (S n)) q2 in
       Ret (makeBinary "^" expr rhs, q3)
     else Ret (expr, q2)).
  rewrite Ha. cbn [bind]. rewrite Hm1.
  change (Parser.parsePower (S (S n)) p1') with
    (let* (expr, q1) := Parser.parseUnary (S n) p1' in
     let (hit, q2) := Parser.match_ Caret q1 in
     if hit then
       let* (rhs, q3) := Parser.parsePower (S n) q2 in
       Ret (makeBinary "^" expr rhs, q3)
     else Ret (expr, q2)).
  rewrite Hb. cbn [bind]. rewrite Hm2.
  change (Parser.parsePower (S n) p2') with
    (let* (expr, q1) := Parser.parseUnary n p2' in
     let (hit, q2) := Parser.match_ Caret q1 in
     if hit then
       let* (rhs, q3) := Parser.parsePower n q2 in
       Ret (makeBinary "^" expr rhs, q3)
     else Ret (expr, q2)).
  rewrite Hc. cbn [bind]. by rewrite Hm3.
Qed.

(** The generator writes the right-grouped power with nested [std::pow]. *)
Lemma emitExpression_power a b c m :
  CodeGenerator.emitExpression (BinaryExpr "^" a (BinaryExpr "^" b c)) m =
  "std::pow(" +:+ CodeGenerator.emitExpression a m +:+ ", " +:+
  ("std::pow(" +:+ CodeGenerator.emitExpression b m +:+ ", " +:+
   CodeGenerator.emitExpression c m +:+ ")") +:+ ")".
Proof. reflexivity. Qed.

(** With a line feed after it, the example declaration is translated, and
    its initializer is [std::pow(2, std::pow(3, 2))]. *)
Lemma power_example_with_newline :
  translate (powerSource +:+ LFs) =
  Ret (unlines [ "#include <cmath>";
                 "#include <iostream>";
                 "#include <string>";
                 "";
                 "int main() {";
                 "    std::ios_base::sync_with_stdio(false);";
                 "    int vr_1 = std::pow(2, std::pow(3, 2));";
                 "    return 0;";
                 "}" ]).
Proof. vm_compute. reflexivity. Qed.

(** C1 (the code at the example input). The input
    [целое x = 2 ^ 3 ^ 2], as the claim gives it, has no line feed after the
    declaration.  [expectNewline] means to accept the end of the input, but
    [check(EndOfFile)] is false at the end of the tokens, so [parseVarDecl]
    throws and no initializer is emitted. *)
Theorem C1_power_example_rejected :
  translate powerSource =
  Throw (ParseFailure
           (Parser.mkParserError
              "Ожидается перевод строки после объявления переменной")).
Proof. vm_compute. reflexivity. Qed.

(** [check(EndOfFile)] is never true: at the end [check] answers false
    before it looks at the type. *)
Lemma check_EndOfFile_false p : Parser.check EndOfFile p = false.
Proof.
  unfold Parser.check, Parser.isAtEnd.
  by case_bool_decide.
Qed.

(** *** C5: a header without a body *)

(** C5 (as the code has it). For every source that the lexer accepts: if
    the [Newline] that ends the line of an [если], [пока] or [для] keyword is
    not directly followed by an [Indent] (the header has no indented body),
    [parseProgram] throws a [ParserError] and translation fails with it. *)
Theorem C5_empty_block_rejected source ts i :
  Lexer.tokenize source = Ret ts →
  isHeader (typeAt ts i) = true →
  blockFollows ts i = false →
  ∃ e, Parser.parseProgram ts = Throw e ∧
       translate source = Throw (ParseFailure e).
Proof.
  intros Hlex Hhdr Hblock. unfold translate. rewrite Hlex.
  destruct (Parser.parseProgram ts) as [program|e|] eqn:Hparse.
  - pose proof (parseProgram_headers ts program i Hparse
                  (tokenize_eof_last source ts Hlex) Hhdr) as Hok.
    by rewrite Hok in Hblock.
  - by exists e.
  - by apply parseProgram_total in Hparse.
Qed.

Lemma C5_empty_block_rejected_witness :
  Lexer.tokenize emptyWhileSource = Ret emptyWhileTokens ∧
  typeAt emptyWhileTokens 0 = KeywordWhile ∧
  blockFollows emptyWhileTokens 0 = false ∧
  ∃ e, Parser.parseProgram emptyWhileTokens = Throw e ∧
       translate emptyWhileSource = Throw (ParseFailure e).
Proof.
  split; [vm_compute; reflexivity|]. split; [reflexivity|].
  split; [reflexivity|].
  apply (C5_empty_block_rejected emptyWhileSource emptyWhileTokens 0);
    vm_compute; reflexivity.
Defined.

(** The same for an [если] and a [для] header that end the input. *)
Lemma empty_if_and_for_rejected :
  translate emptyIfSource =
    Throw (ParseFailure
             (Parser.mkParserError "Ожидается отступ после условия 'если'")) ∧
  translate emptyForSource =
    Throw (ParseFailure
             (Parser.mkParserError "Ожидается отступ после цикла 'для'")).
Proof. split; vm_compute; reflexivity. Qed.

(** C5 as stated fails: a [пока] header with no indented body, followed by a
    line the lexer rejects, makes translation fail in the lexer, with a
    [LexerError] and not a [ParserError]. *)
Lemma C5_counterexample :
  translate emptyWhileBadCharSource =
    Throw (LexFailure
             (Lexer.mkLexerError "Неизвестный символ '?' на строке 2:1")) ∧
  ∀ e, translate emptyWhileBadCharSource ≠ Throw (ParseFailure e).
Proof.
  assert (H : translate emptyWhileBadCharSource =
              Throw (LexFailure
                       (Lexer.mkLexerError "Неизвестный символ '?' на строке 2:1")))
    by (vm_compute; reflexivity).
  split; [exact H|]. intros e. rewrite H. discriminate.
Qed.

(** *** C6: a declaration followed by [от] *)

(** C6 (as the code has it). The input [целое i от 0 до 2] is rejected by
    the parser: [parseVarDecl] reads [целое i] and [expectNewline] throws
    "Ожидается перевод строки после объявления переменной" at [от]. *)
Theorem C6_declaration_then_from_rejected :
  translate forFramingSource =
  Throw (ParseFailure
           (Parser.mkParserError
              "Ожидается перевод строки после объявления переменной")).
Proof. vm_compute. reflexivity. Qed.

(** C6 as stated fails: the message of the error does not mention [для]. *)
Lemma C6_counterexample :
  ∃ e, translate forFramingSource = Throw (ParseFailure e) ∧
       mentions "для" (Parser.parse_what e) = false.
Proof. eexists. split; vm_compute; reflexivity. Qed.

(** *** C9: the empty program *)

(** C9. The empty source is translated to the fixed frame: the three
    includes, [int main() {], the [sync_with_stdio] line and [return 0;]
    indented by four spaces, no statement line, and the closing brace. *)
Theorem C9_empty_program :
  translate "" =
  Ret (unlines [ "#include <cmath>";
                 "#include <iostream>";
                 "#include <string>";
                 "";
                 "int main() {";
                 "    std::ios_base::sync_with_stdio(false);";
                 "    return 0;";
                 "}" ]).
Proof. vm_compute. reflexivity. Qed.

(** *** C10: distinct C++ names *)


(** Two declarations of one BearLang name in one scope. *)
Lemma same_name_twice :
  let program := mkProgram [ VarDeclStmt ValueType.Integer "x" None;
                             VarDeclStmt ValueType.Integer "x" None ] in
  CodeGenerator.declared (CodeGenerator.runGenerate program) = ["vr_1"; "vr_2"] ∧
  CodeGenerator.generate program =
  unlines [ "#include <cmath>";
            "#include <iostream>";
            "#include <string>";
            "";
            "int main() {";
            "    std::ios_base::sync_with_stdio(false);";
            "    int vr_1{};";
            "    int vr_2{};";
            "    return 0;";
            "}" ].
Proof. split; vm_compute; reflexivity. Qed.

(** *** C3: scopes *)

Lemma resolve_scopes name m m' :
  NameMangler.scopes_ m' = NameMangler.scopes_ m →
  NameMangler.resolve name m' = NameMangler.resolve name m.
Proof. unfold NameMangler.resolve. by intros ->. Qed.

(** C3 (as the code has it). Whatever a body declares is gone from the
    tables when the generator leaves it: the scopes of the mangler after the
    body of an [if], [while] or [for], and after the whole statement that owns
    it, are the scopes before it, so every name resolves as it did before the
    body was entered; inside a body a declared name resolves to its new C++
    name.  (The counter is not part of the scopes and keeps the values the
    body used.) *)
Theorem C3_scope_isolation g :
  NameMangler.scopes_ (CodeGenerator.mangler g) ≠ [] →
  (∀ body i,
     let g' := CodeGenerator.emitStatements body i g true in
     NameMangler.scopes_ (CodeGenerator.mangler g') =
       NameMangler.scopes_ (CodeGenerator.mangler g) ∧
     ∀ name, NameMangler.resolve name (CodeGenerator.mangler g') =
             NameMangler.resolve name (CodeGenerator.mangler g)) ∧
  (∀ statement i,
     ownsBody statement = true →
     let g' := CodeGenerator.emitStatement statement i g in
     NameMangler.scopes_ (CodeGenerator.mangler g') =
       NameMangler.scopes_ (CodeGenerator.mangler g) ∧
     ∀ name, NameMangler.resolve name (CodeGenerator.mangler g') =
             NameMangler.resolve name (CodeGenerator.mangler g)) ∧
  (∀ vtype name initializer i,
     NameMangler.resolve name
       (CodeGenerator.mangler
          (CodeGenerator.emitStatement (VarDeclStmt vtype name initializer) i g)) =
     mangled (NameMangler.counter_ (CodeGenerator.mangler g) + 1)).
Proof.
  intros Hne. split; [|split].
  - intros body i g'.
    assert (Hs : NameMangler.scopes_ (CodeGenerator.mangler g') =
                 NameMangler.scopes_ (CodeGenerator.mangler g)).
    { apply scoped_scopes; [|done]. apply Forall_forall.
      intros stmt _. apply emitStatement_keepsOuter. }
    split; [exact Hs|]. intros name. by apply resolve_scopes.
  - intros statement i Howns g'.
    destruct (nonempty_snoc _ Hne) as (outer & top & Hg).
    destruct (emitStatement_keepsOuter statement i g outer top Hg)
      as (top' & Hs & Htop).
    rewrite (Htop Howns), <- Hg in Hs.
    split; [exact Hs|]. intros name. by apply resolve_scopes.
  - intros vtype name initializer i.
    destruct (nonempty_snoc _ Hne) as (outer & top & Hg).
    destruct (emitStatement_keepsOuter (VarDeclStmt vtype name initializer)
                i g outer top Hg) as (top' & Hs & _).
    revert Hs. cbn [CodeGenerator.emitStatement].
    pose proof (declare_scopes name g outer top Hg) as Hd.
    destruct (CodeGenerator.declare name g) as [cppName g1]. cbn [snd] in Hd.
    intros _. unfold NameMangler.resolve.
    replace (NameMangler.scopes_ (CodeGenerator.mangler _))
      with (NameMangler.scopes_ (CodeGenerator.mangler g1))
      by (by destruct initializer).
    rewrite Hd, rev_app_distr. cbn [rev app NameMangler.resolveFrom].
    by rewrite lookup_insert_eq.
Qed.

Lemma C3_scope_isolation_witness :
  NameMangler.scopes_ (CodeGenerator.mangler CodeGenerator.newGen) ≠ [] ∧
  let body := [VarDeclStmt ValueType.Integer "x" None] in
  let g' := CodeGenerator.emitStatements body 2 CodeGenerator.newGen true in
  NameMangler.scopes_ (CodeGenerator.mangler g') =
    NameMangler.scopes_ (CodeGenerator.mangler CodeGenerator.newGen) ∧
  ∀ name, NameMangler.resolve name (CodeGenerator.mangler g') =
          NameMangler.resolve name (CodeGenerator.mangler CodeGenerator.newGen).
Proof.
  split; [done|].
  apply (proj1 (C3_scope_isolation CodeGenerator.newGen ltac:(done))).
Defined.

(** C3 as stated fails for names declared after a body: the counter of the
    mangler is shared by the whole generation, so the reference to [z] below
    resolves to [vr_2] when the body declares [y], and would resolve to
    [vr_1] had the declaration in the body never happened. *)
Lemma C3_counterexample :
  NameMangler.resolve "z"
    (CodeGenerator.mangler (CodeGenerator.runGenerate declaringBody)) = "vr_2" ∧
  NameMangler.resolve "z"
    (CodeGenerator.mangler (CodeGenerator.runGenerate plainBody)) = "vr_1" ∧
  mentions "std::cout << vr_2 << std::endl;"
    (CodeGenerator.generate declaringBody) = true ∧
  mentions "std::cout << vr_1 << std::endl;"
    (CodeGenerator.generate plainBody) = true.
Proof. repeat split; vm_compute; reflexivity. Qed.

(** The shadowing scenario: the [x] declared in the body is [vr_2] inside the
    body, and after the loop [x] is [vr_1] again. *)
Lemma shadowing_scenario :
  translate shadowSource =
  Ret (unlines [ "#include <cmath>";
                 "#include <iostream>";
                 "#include <string>";
                 "";
                 "int main() {";
                 "    std::ios_base::sync_with_stdio(false);";
                 "    int vr_1 = 1;";
                 "    while ((vr_1 < 3)) {";
                 "        int vr_2 = 10;";
                 "        std::cout << vr_2 << std::endl;";
                 "        vr_2 = (vr_2 + 1);";
                 "    }";
                 "    std::cout << vr_1 << std::endl;";
                 "    return 0;";
                 "}" ]).
Proof. vm_compute. reflexivity. Qed.

(** ** The embedding never runs out of fuel *)

Lemma translate_total source : translate source ≠ Starved.
Proof.
  unfold translate.
  destruct (Lexer.tokenize source) as [ts|e|] eqn:Hlex;
    [|done|by apply tokenize_total in Hlex].
  destruct (Parser.parseProgram ts) as [program|e|] eqn:Hparse;
    [done|done|by apply parseProgram_total in Hparse].
Qed.

(** * Further properties of the code *)

(** ** Numbers *)

Section Numbers.
Import Lexer.

Lemma allBytes_app keep a b : allBytes keep (a +:+ b) = allBytes keep a && allBytes keep b.
Proof.
  induction a as [|c a IH]; [done|]. rewrite app_String. simpl.
  by rewrite IH, andb_assoc.
Qed.

Lemma string_snoc_nonempty (a : string) c : a +:+ String c "" ≠ "".
Proof. destruct a; [done|]. by rewrite app_String. Qed.

Lemma isNumeral_intro s : s ≠ "" → allBytes isdigit s = true → isNumeral s = true.
Proof.
  intros Hne Hd. unfold isNumeral. rewrite Hd.
  by destruct (String.eqb_spec s "").
Qed.

Lemma numberBody_reads L ch fuel :
  String.get (current_ L) (source_ L) = Some ch → isdigit ch = true →
  match iterate fuel numberBody (false, L) with
  | Ret (seenDot, L') =>
      ∃ k, L' = bump k L ∧ numberRead L seenDot k ∧
           ∀ d, String.get (current_ L + k) (source_ L) = Some d →
                isdigit d = false
  | _ => True
  end.
Proof.
  intros Hget Hdigit.
  pose proof (iterate_invariant (E := LexerError * t) numberBody
    (fun st => ∃ k, st.2 = bump k L ∧ numberRead L st.1 k)
    (fun st => ∃ k, st.2 = bump k L ∧ numberRead L st.1 k ∧
                    ∀ d, String.get (current_ L + k) (source_ L) = Some d →
                         isdigit d = false)
    (fun _ => True)) as Hloop.
  assert (Hstep : ∀ st, (∃ k, st.2 = bump k L ∧ numberRead L st.1 k) →
    match numberBody st with
    | Ret (Next s') => ∃ k, s'.2 = bump k L ∧ numberRead L s'.1 k
    | Ret (Done s') =>
        ∃ k, s'.2 = bump k L ∧ numberRead L s'.1 k ∧
             ∀ d, String.get (current_ L + k) (source_ L) = Some d →
                  isdigit d = false
    | _ => True
    end).
  { intros [seenDot Lc] (k & Hk & Hread). cbn [fst snd] in Hk, Hread. subst Lc.
    unfold numberBody. rewrite current_bump, source_bump.
    destruct (String.get (current_ L + k) (source_ L)) as [c|] eqn:Hc.
    2:{ exists k. split; [done|]. split; [done|]. intros d Hd. congruence. }
    destruct (isdigit c) eqn:Hcd.
    { exists (k + 1). cbn [fst snd]. rewrite bump_bump. split; [done|].
      unfold numberRead in *. replace (k + 1) with (S k) by lia.
      rewrite (substring_snoc _ _ _ _ Hc).
      destruct seenDot.
      - destruct Hread as (whole & frac & -> & Hw & Hf & _).
        exists whole, (frac +:+ String c ""). rewrite !string_app_assoc.
        repeat split; try done.
        + rewrite allBytes_app, Hf. simpl. by rewrite Hcd.
        + intros He. by apply string_snoc_nonempty in He.
      - destruct Hread as [Ha _]. split.
        + rewrite allBytes_app, Ha. simpl. by rewrite Hcd.
        + intros He. by apply string_snoc_nonempty in He. }
    assert (Hstop : ∃ k', (seenDot, bump k L).2 = bump k' L ∧
              numberRead L (seenDot, bump k L).1 k' ∧
              ∀ d, String.get (current_ L + k') (source_ L) = Some d →
                   isdigit d = false).
    { exists k. split; [done|]. split; [done|]. intros d Hd. congruence. }
    destruct (Ascii.eqb_spec c ".") as [->|Hdot]; [|done].
    destruct seenDot; [done|]. cbn [andb negb].
    unfold peekChar. rewrite current_bump, source_bump.
    destruct (String.get (current_ L + k + 1) (source_ L)) as [next|] eqn:Hn;
      [|done].
    destruct (isdigit next) eqn:Hnd; [|done]. cbn [negb].
    exists (k + 1). cbn [fst snd]. rewrite bump_bump. split; [done|].
    unfold numberRead in *. replace (k + 1) with (S k) by lia.
    rewrite (substring_snoc _ _ _ _ Hc). destruct Hread as [Ha Hfirst].
    exists (String.substring (current_ L) k (source_ L)), "".
    repeat split; try done.
    - apply isNumeral_intro; [|done]. intros He.
      destruct (Hfirst He) as (d & Hd & Hdd). congruence.
    - intros _. exists next. split; [|done].
      by replace (current_ L + S k) with (current_ L + k + 1) by lia. }
  specialize (Hloop Hstep fuel (false, L)).
  specialize (Hloop ltac:(exists 0; cbn [fst snd]; split; [by rewrite bump_0|];
    unfold numberRead; rewrite substring_n_0, Nat.add_0_r; split; [done|];
    intros _; by exists ch)).
  by destruct (iterate _ _ _) as [[seenDot L']| |].
Qed.

Lemma scanNumber_lexeme L L' ch :
  String.get (current_ L) (source_ L) = Some ch → isdigit ch = true →
  scanNumber L = Ret L' →
  ∃ k tok, L' = push_back_token (bump k L) tok ∧
           line tok = line_ L ∧ column tok = column_ L ∧
           numberLexeme (type tok) (lexeme tok).
Proof.
  intros Hget Hdigit. unfold scanNumber.
  pose proof (numberBody_reads L ch (S (remaining L)) Hget Hdigit) as H.
  destruct (iterate _ _ _) as [[seenDot L1]| |]; cbn [bind]; [|done..].
  destruct H as (k & -> & Hread & Hstop). intros [= <-].
  eexists k, _. split; [reflexivity|]. split; [done|]. split; [done|].
  cbn [type lexeme].
  replace (current_ L + k - current_ L) with k by lia.
  unfold numberRead in Hread.
  assert (Hnext : ¬ ∃ d, String.get (current_ L + k) (source_ L) = Some d ∧
                         isdigit d = true).
  { intros (d & Hd & Hdd). by rewrite (Hstop d Hd) in Hdd. }
  destruct seenDot.
  - right. split; [done|].
    destruct Hread as (whole & frac & -> & Hw & Hf & Hfirst).
    exists whole, frac. repeat split; try done.
    apply isNumeral_intro; [|done]. intros He. by apply Hnext, Hfirst.
  - left. split; [done|]. destruct Hread as [Ha Hfirst].
    apply isNumeral_intro; [|done]. intros He. by apply Hnext, Hfirst.
Qed.

End Numbers.

(** ** The steps of the lexer *)

Section LexerSteps.
Import Lexer.

Lemma isWord_plain ty : isWord ty = true → plain ty = true.
Proof. unfold isWord. by intros [? _]%andb_true_iff. Qed.

Lemma kKeywords_word text kw : kKeywords text = Some kw → isWord kw = true.
Proof.
  unfold kKeywords. repeat break_if; by intros [= <-].
Qed.

Lemma kKeywords_isKeyword text kw : kKeywords text = Some kw → isKeyword kw = true.
Proof.
  unfold kKeywords. repeat break_if; by intros [= <-].
Qed.

Lemma lexemeOf_keyword tok :
  isKeyword (type tok) = true → kKeywords (lexeme tok) = Some (type tok) →
  lexemeOf tok.
Proof.
  unfold lexemeOf. intros Hk Hl. by destruct (type tok).
Qed.

Lemma advanceWhile_reads keep L fuel :
  match iterate fuel (advanceWhile keep) L with
  | Ret L' => ∃ k, L' = bump k L ∧
                   allBytes keep (String.substring (current_ L) k (source_ L)) = true
  | _ => True
  end.
Proof.
  apply (iterate_invariant (E := LexerError * t) (advanceWhile keep)
    (fun Lc => ∃ k, Lc = bump k L ∧
       allBytes keep (String.substring (current_ L) k (source_ L)) = true)
    (fun Lc => ∃ k, Lc = bump k L ∧
       allBytes keep (String.substring (current_ L) k (source_ L)) = true)
    (fun _ => True)).
  - intros Lc (k & -> & Hall). unfold advanceWhile.
    rewrite current_bump, source_bump.
    destruct (String.get (current_ L + k) (source_ L)) as [c|] eqn:Hc;
      [|by exists k].
    destruct (keep c) eqn:Hk; [|by exists k].
    exists (k + 1). rewrite bump_bump. split; [done|].
    replace (k + 1) with (S k) by lia.
    rewrite (substring_snoc _ _ _ _ Hc), allBytes_app, Hall. simpl. by rewrite Hk.
  - exists 0. by rewrite bump_0, substring_n_0.
Qed.

Lemma bump_inj k k' L : bump k L = bump k' L → k = k'.
Proof. intros H. apply (f_equal current_) in H. simpl in H. lia. Qed.

Lemma substring_nonempty s n k c :
  String.get n s = Some c → 0 < k → String.substring n k s ≠ "".
Proof.
  revert n k. induction s as [|a s IH]; intros n k Hget Hk; [done|].
  destruct n as [|n]; simpl in *.
  - destruct k; [lia|done].
  - by eapply IH.
Qed.

Lemma scanIdentifierOrKeyword_word L L' ch :
  String.get (current_ L) (source_ L) = Some ch → isIdentifierStart ch = true →
  scanIdentifierOrKeyword L = Ret L' → pushesWord L L'.
Proof.
  intros Hget Hstart. unfold scanIdentifierOrKeyword.
  destruct (advanceWhile_progress isIdentifierPart L ch Hget
              (isIdentifierStart_part ch Hstart)) as (k & Hk & Hrun).
  pose proof (advanceWhile_reads isIdentifierPart L (S (remaining L))) as Hread.
  rewrite Hrun in Hread |- *. destruct Hread as (k' & <-%bump_inj & Hall).
  cbn [bind current_ source_ line_ bump set_column set_current].
  replace (current_ L + k - current_ L) with k by lia.
  intros [= <-]. eexists k, _. split; [|split; [|split; [|reflexivity]]]; [|done|].
  - cbn [type]. destruct (kKeywords _) eqn:Hkw; [by eapply kKeywords_word|done].
  - destruct (kKeywords _) as [kw|] eqn:Hkw.
    + apply lexemeOf_keyword; [by eapply kKeywords_isKeyword|done].
    + unfold lexemeOf. cbn [type lexeme].
      split; [by eapply substring_nonempty|done].
Qed.

Lemma scanNumber_word L L' ch :
  String.get (current_ L) (source_ L) = Some ch → isdigit ch = true →
  scanNumber L = Ret L' → pushesWord L L'.
Proof.
  intros Hget Hdigit Hscan.
  destruct (scanNumber_lexeme L L' ch Hget Hdigit Hscan)
    as (k & tok & -> & Hl & _ & Hnum).
  exists k, tok. split; [|split; [done|split; [|done]]].
  - by destruct Hnum as [[-> _]|[-> _]].
  - unfold lexemeOf. by destruct Hnum as [[Ht ?]|[Ht ?]]; rewrite Ht; [left|right].
Qed.

Lemma scanString_word L L' : scanString L = Ret L' → pushesWord L L'.
Proof.
  unfold scanString.
  pose proof (stringBody_roundtrip (column_ L) (bump 1 L) (S (remaining (bump 1 L)))) as H.
  destruct (iterate _ _ _) as [[value L1]|x|]; cbn [bind]; [|done..].
  intros [= <-]. destruct H as (k & -> & _).
  eexists (1 + (k + 1)), _. split; [|split; [|split]];
    [| | |by rewrite bump_bump]; done.
Qed.

Lemma scanOperator_word L L' : scanOperator L = Ret L' → pushesWord L L'.
Proof.
  unfold scanOperator.
  repeat break_if; intros [= <-];
    (eexists _, _; split; [|split; [|split; [|apply bump_push]]]; done).
Qed.

Lemma pushesWord_step L L' :
  atLineStart_ L = false → pushesWord L L' → lexStep L L'.
Proof.
  intros Hf (k & tok & Hw & Hl & Hlex & ->). by eapply (step_word _ _ tok).
Qed.

Lemma popDeeper_take spaces stack :
  popDeeper spaces stack = take (length (popDeeper spaces stack)) stack.
Proof.
  induction stack as [|level above IH]; [done|]. simpl.
  destruct (popDeeper spaces above) as [|l kept] eqn:Hp.
  - by destruct (spaces <? level).
  - simpl. f_equal. exact IH.
Qed.

Lemma handleIndentation_step spaces L L1 temp col :
  lexInv L → atLineStart_ L = true →
  handleIndentation spaces (line_ L) L = Ret L1 →
  lexStep L (set_atLineStart (set_column (set_current L1 temp) col) false).
Proof.
  intros ([above Hst] & _) Hflag. unfold handleIndentation.
  destruct (back (indentStack_ L) <? spaces) eqn:Hdeeper.
  - intros [= <-]. apply Nat.ltb_lt in Hdeeper. by eapply (step_indent _ _ spaces).
  - rewrite (popLoop_spec spaces (line_ L) (indentStack_ L)) by (done || lia).
    cbn [bind indentStack_]. destruct (negb _); [done|]. intros [= <-].
    pose proof (popDeeper_length spaces (indentStack_ L)) as Hlen.
    destruct (popDeeper_bottom spaces above) as [kept Hk].
    eapply (step_dedent _ _ (length (indentStack_ L) -
                             length (popDeeper spaces (indentStack_ L)))); try done.
    + rewrite Hst, Hk. simpl. lia.
    + cbn [indentStack_ set_atLineStart set_column set_current].
      rewrite (popDeeper_take spaces (indentStack_ L)) at 1. f_equal. lia.
Qed.

(** The [if (atLineStart_)] block: after it the flag is down, or the
    lexer stands on the line feed of a blank line. *)
Lemma lineStart_steps L :
  lexInv L →
  match lineStart L with
  | Ret (Break L') | Ret (Continue L') => lexStep L L'
  | Ret (FallThrough L') =>
      lexStep L L' ∧
      (atLineStart_ L' = false ∨
       String.get (current_ L') (source_ L') = Some NL)
  | _ => True
  end.
Proof.
  intros Hinv. unfold lineStart. destruct (atLineStart_ L) eqn:Hflag.
  2:{ split; [by apply step_skip|by left]. }
  destruct (measureIndent_spec L) as (temp & n & -> & Hle). cbn [bind].
  pose proof (lineKind_get (source_ L) temp) as Hkind.
  destruct (lineKind (source_ L) temp).
  - by apply step_skip.
  - split; [by apply step_skip|by right].
  - destruct (skipComment_spec (set_column (set_current L temp) (n + 1))) as [k ->].
    cbn [bind]. by apply step_skip.
  - destruct (handleIndentation n (line_ L) L) as [L1|x|] eqn:Hh; cbn [bind]; [|done..].
    split; [by eapply handleIndentation_step|by left].
Qed.

Lemma tokenizeBody_steps L :
  lexInv L →
  match tokenizeBody L with
  | Ret (Next L') | Ret (Done L') => rtc lexStep L L'
  | _ => True
  end.
Proof.
  intros Hinv. unfold tokenizeBody.
  destruct (current_ L <? String.length (source_ L)); [|done].
  pose proof (lineStart_steps L Hinv) as Hls.
  destruct (lineStart L) as [[L1|L1|L1]|x|]; cbn [bind]; try done;
    [by apply rtc_once..|].
  destruct Hls as [Hstep Hflag].
  destruct (String.get (current_ L1) (source_ L1)) as [ch|] eqn:Hget;
    [|by apply rtc_once].
  assert (Hskip : ∀ L2, line_ L2 = line_ L1 → atLineStart_ L2 = atLineStart_ L1 →
            indentStack_ L2 = indentStack_ L1 → tokens_ L2 = tokens_ L1 →
            rtc lexStep L L2).
  { intros L2 ????. eapply rtc_l; [exact Hstep|]. apply rtc_once. by apply step_skip. }
  destruct (Ascii.eqb ch " " || Ascii.eqb ch TAB); [by apply Hskip|].
  destruct (Ascii.eqb ch CR); [by apply Hskip|].
  destruct (Ascii.eqb_spec ch NL) as [->|Hnl].
  { eapply rtc_l; [exact Hstep|]. apply rtc_once.
    by eapply (step_newline _ _ (column_ L1)). }
  destruct Hflag as [Hflag|Hnl']; [|congruence].
  assert (Hword : ∀ L2, pushesWord L1 L2 → rtc lexStep L L2).
  { intros L2 Hw. eapply rtc_l; [exact Hstep|]. apply rtc_once.
    by apply pushesWord_step. }
  destruct (Ascii.eqb ch "/" && Ascii.eqb (peekChar 1 L1) "/").
  { destruct (skipComment_spec L1) as [k ->]. cbn [bind]. by apply Hskip. }
  destruct (Ascii.eqb ch QUOTE).
  { destruct (scanString L1) as [L2|x|] eqn:Hs; cbn [bind]; [|done..].
    by apply Hword, scanString_word. }
  destruct (isdigit ch) eqn:Hdigit.
  { destruct (scanNumber L1) as [L2|x|] eqn:Hs; cbn [bind]; [|done..].
    by eapply Hword, scanNumber_word. }
  destruct (isIdentifierStart ch) eqn:Hid.
  { destruct (scanIdentifierOrKeyword L1) as [L2|x|] eqn:Hs; cbn [bind]; [|done..].
    by eapply Hword, scanIdentifierOrKeyword_word. }
  destruct (scanOperator L1) as [L2|x|] eqn:Hs; cbn [bind]; [|done..].
  by apply Hword, scanOperator_word.
Qed.

Lemma mainLoop_steps source fuel :
  match iterate fuel tokenizeBody (newLexer source) with
  | Ret L => lexInv L ∧ rtc lexStep (newLexer source) L
  | _ => True
  end.
Proof.
  apply (iterate_invariant tokenizeBody
           (fun L => lexInv L ∧ rtc lexStep (newLexer source) L)
           (fun L => lexInv L ∧ rtc lexStep (newLexer source) L)
           (fun _ => True)).
  - intros L [Hinv Hr]. pose proof (tokenizeBody_spec L Hinv) as Hb.
    pose proof (tokenizeBody_steps L Hinv) as Hs.
    destruct (tokenizeBody L) as [[L'|L']|x|]; try done.
    + split; [apply Hb|by etrans].
    + split; [apply Hb|by etrans].
  - split; [apply lexInv_new|done].
Qed.

(** A run of [tokenize] that returns: steps from the fresh lexer, then the
    pending [Dedent]s and [EndOfFile]. *)
Lemma runLexer_steps source Lf :
  runLexer source = Ret Lf →
  ∃ L, rtc lexStep (newLexer source) L ∧ lexInv L ∧
       tokens_ Lf =
         tokens_ L ++
         repeat (dedentAt (line_ L)) (length (indentStack_ L) - 1) ++
         [mkToken EndOfFile "" (line_ L) (column_ L)].
Proof.
  unfold runLexer.
  pose proof (mainLoop_steps source (S (String.length source))) as Hm.
  destruct (iterate _ tokenizeBody _) as [L|x|]; cbn [bind]; try done.
  destruct Hm as [Hinv Hr]. pose proof Hinv as ([above Hst] & _).
  unfold emitPendingDedents.
  rewrite (popPending_loop (line_ L) above) by (rewrite ?Hst; simpl; done || lia).
  cbn [bind]. intros [= <-]. exists L. split; [done|]. split; [done|].
  unfold pushToken, push_back_token. cbn [tokens_ line_ column_].
  rewrite Hst. simpl. rewrite Nat.sub_0_r. by rewrite <- app_assoc.
Qed.

End LexerSteps.

(** A property of the fresh lexer that every step keeps holds after anything
    number of steps. *)
Lemma steps_invariant (P : Lexer.t → Prop) source L :
  rtc lexStep (Lexer.newLexer source) L →
  P (Lexer.newLexer source) → (∀ L1 L2, lexStep L1 L2 → P L1 → P L2) → P L.
Proof.
  intros Hr H0 Hstep. revert L Hr. apply rtc_ind_r; [done|].
  intros L1 L2 _ Hs HP. by apply (Hstep L1 L2).
Qed.

(** ** Blocks are well nested *)

Lemma depthAfter_app ts1 : ∀ d ts2,
  depthAfter d (ts1 ++ ts2) =
  match depthAfter d ts1 with
  | Some d' => depthAfter d' ts2
  | None => None
  end.
Proof.
  induction ts1 as [|tok ts1 IH]; intros d ts2; [done|]. simpl.
  destruct (type tok); try apply IH. destruct d; [done|apply IH].
Qed.

Lemma depthAfter_dedents line k : ∀ d,
  depthAfter (d + k) (repeat (dedentAt line) k) = Some d.
Proof.
  induction k as [|k IH]; intros d; simpl; [by rewrite Nat.add_0_r|].
  replace (d + S k) with (S (d + k)) by lia. apply IH.
Qed.

Lemma depthAfter_word d tok : plain (type tok) = true → depthAfter d [tok] = Some d.
Proof. simpl. by destruct (type tok). Qed.

Lemma lexStep_depth L L' :
  lexStep L L' →
  1 ≤ length (Lexer.indentStack_ L) ∧
  depthAfter 0 (Lexer.tokens_ L) = Some (length (Lexer.indentStack_ L) - 1) →
  1 ≤ length (Lexer.indentStack_ L') ∧
  depthAfter 0 (Lexer.tokens_ L') = Some (length (Lexer.indentStack_ L') - 1).
Proof.
  intros Hstep [Hlen Hd].
  destruct Hstep as [Hl Hf Hs Ht|tok _ Hw _ _ Hl Hf Hs Ht|col Hl Hf Hs Ht
                    |spaces _ _ Hl Hf Hs Ht|k _ Hk Hl Hf Hs Ht];
    rewrite Hs, Ht, ?depthAfter_app, ?Hd.
  - done.
  - split; [done|]. by apply depthAfter_word, isWord_plain.
  - done.
  - rewrite length_app. simpl. split; [lia|]. do 2 f_equal. lia.
  - rewrite length_take. split; [lia|].
    replace (length (Lexer.indentStack_ L) - 1)
      with ((length (Lexer.indentStack_ L) - k - 1) + k) by lia.
    rewrite depthAfter_dedents. do 2 f_equal. lia.
Qed.

(** X1. In the token stream of every source that [tokenize] accepts the blocks
    are well nested: reading the stream from its start, no [Dedent] comes when
    no [Indent] is open, and at the end every [Indent] has been closed. *)
Theorem X1_blocks_well_nested source ts :
  Lexer.tokenize source = Ret ts → depthAfter 0 ts = Some 0.
Proof.
  unfold Lexer.tokenize.
  destruct (Lexer.runLexer source) as [Lf|[e Lx]|] eqn:Hrun; [|done..].
  intros [= <-]. destruct (runLexer_steps source Lf Hrun) as (L & Hr & _ & ->).
  assert (H : 1 ≤ length (Lexer.indentStack_ L) ∧
              depthAfter 0 (Lexer.tokens_ L) =
                Some (length (Lexer.indentStack_ L) - 1)).
  { apply (steps_invariant
             (fun L => 1 ≤ length (Lexer.indentStack_ L) ∧
                       depthAfter 0 (Lexer.tokens_ L) =
                         Some (length (Lexer.indentStack_ L) - 1))
             source L Hr); [|apply lexStep_depth].
    simpl. split; [lia|done]. }
  destruct H as [_ Hd].
  rewrite depthAfter_app, Hd, depthAfter_app.
  pose proof (depthAfter_dedents (Lexer.line_ L)
                (length (Lexer.indentStack_ L) - 1) 0) as Hp.
  simpl in Hp. by rewrite Hp.
Qed.

Lemma X1_blocks_well_nested_witness :
  Lexer.tokenize branchSource = Ret branchTokens ∧
  depthAfter 0 branchTokens = Some 0.
Proof.
  split; [vm_compute; reflexivity|].
  apply (X1_blocks_well_nested branchSource branchTokens). vm_compute; reflexivity.
Defined.

(** ** Line numbers of the tokens *)

Lemma linesAscend_app ts new l :
  linesAscend ts → Forall (fun tok => line tok ≤ l) ts →
  Forall (fun tok => line tok = l) new →
  linesAscend (ts ++ new).
Proof.
  intros Hasc Hle Hnew i j ti tj Hij Hi Hj.
  apply lookup_app_Some in Hi as [Hi|[Hil Hi]];
    apply lookup_app_Some in Hj as [Hj|[Hjl Hj]].
  - by eapply Hasc.
  - rewrite Forall_lookup in Hle, Hnew.
    rewrite (Hnew _ _ Hj). by eapply Hle.
  - apply lookup_lt_Some in Hj. lia.
  - rewrite Forall_lookup in Hnew.
    by rewrite (Hnew _ _ Hi), (Hnew _ _ Hj).
Qed.

Lemma linesInv_push L l' new :
  linesInv L →
  Forall (fun tok => line tok = Lexer.line_ L) new →
  Lexer.line_ L ≤ l' →
  Forall (fun tok => 1 ≤ line tok ≤ l') (Lexer.tokens_ L ++ new) ∧
  linesAscend (Lexer.tokens_ L ++ new).
Proof.
  intros (Hl & Hle & Hasc) Hnew Hll. split.
  - apply Forall_app. split.
    + eapply Forall_impl; [exact Hle|]. simpl. lia.
    + eapply Forall_impl; [exact Hnew|]. simpl. lia.
  - eapply linesAscend_app; [done| |done].
    eapply Forall_impl; [exact Hle|]. simpl. lia.
Qed.

Lemma Forall_repeat_dedent (P : Token → Prop) line k :
  P (dedentAt line) → Forall P (repeat (dedentAt line) k).
Proof. intros H. induction k; simpl; by constructor. Qed.

Lemma countType_snoc ty ts tok :
  countType ty (ts ++ [tok]) =
  countType ty ts + if bool_decide (type tok = ty) then 1 else 0.
Proof.
  rewrite countType_app. f_equal. unfold countType. simpl.
  rewrite filter_cons, filter_nil. by case_bool_decide; case_decide.
Qed.

Lemma lexStep_lines L L' : lexStep L L' → linesInv L → linesInv L'.
Proof.
  intros Hstep Hinv. pose proof Hinv as (Hc & _ & _).
  destruct Hstep as [Hl Hf Hs Ht|tok _ Hw Hlt _ Hl Hf Hs Ht|col Hl Hf Hs Ht
                    |spaces _ _ Hl Hf Hs Ht|k _ Hk Hl Hf Hs Ht];
    unfold linesInv; rewrite Hl, Ht.
  - exact Hinv.
  - split.
    + rewrite countType_snoc. case_bool_decide as Hn; [|lia].
      rewrite Hn in Hw. done.
    + apply linesInv_push; [done| |done]. by repeat constructor.
  - split.
    + rewrite countType_snoc. simpl. lia.
    + apply linesInv_push; [done| |lia]. by repeat constructor.
  - split.
    + rewrite countType_snoc. simpl. lia.
    + apply linesInv_push; [done| |done]. by repeat constructor.
  - split.
    + rewrite countType_app, countType_repeat_dedent. simpl. lia.
    + apply linesInv_push; [done| |done]. by apply Forall_repeat_dedent.
Qed.

(** X2. In the token stream of every source that [tokenize] accepts the line
    numbers start at 1 or later and never go down along the stream, and the
    line of the final [EndOfFile] is one more than the number of [Newline]
    tokens. *)
Theorem X2_token_lines_ascend source ts :
  Lexer.tokenize source = Ret ts →
  Forall (fun tok => 1 ≤ line tok) ts ∧ linesAscend ts ∧
  ∃ eofTok, last ts = Some eofTok ∧
            line eofTok = 1 + countType Newline ts.
Proof.
  unfold Lexer.tokenize.
  destruct (Lexer.runLexer source) as [Lf|[e Lx]|] eqn:Hrun; [|done..].
  intros [= <-]. destruct (runLexer_steps source Lf Hrun) as (L & Hr & _ & ->).
  assert (Hinv : linesInv L).
  { apply (steps_invariant linesInv source L Hr); [|apply lexStep_lines].
    split; [done|]. split; [constructor|]. intros i j ti tj _ Hi. done. }
  destruct (linesInv_push L (Lexer.line_ L)
              (repeat (dedentAt (Lexer.line_ L))
                      (length (Lexer.indentStack_ L) - 1) ++
               [mkToken EndOfFile "" (Lexer.line_ L) (Lexer.column_ L)]) Hinv)
    as [Hle Hasc]; [|done|].
  { apply Forall_app. split; [by apply Forall_repeat_dedent|by repeat constructor]. }
  split; [|split; [done|]].
  - eapply Forall_impl; [exact Hle|]. simpl. lia.
  - eexists. rewrite app_assoc, last_snoc. split; [done|].
    destruct Hinv as (Hc & _). cbn [line].
    rewrite countType_snoc, countType_app, countType_repeat_dedent.
    repeat case_bool_decide; try done. lia.
Qed.

Lemma X2_token_lines_ascend_witness :
  Lexer.tokenize branchSource = Ret branchTokens ∧
  Forall (fun tok => 1 ≤ line tok) branchTokens ∧ linesAscend branchTokens ∧
  ∃ eofTok, last branchTokens = Some eofTok ∧
            line eofTok = 1 + countType Newline branchTokens.
Proof.
  split; [vm_compute; reflexivity|].
  apply (X2_token_lines_ascend branchSource branchTokens). vm_compute; reflexivity.
Defined.

(** ** Indents start lines *)

Lemma endsLine_lookup ts :
  endsLine ts →
  length ts = 0 ∨ ∃ nl, ts !! (length ts - 1) = Some nl ∧ type nl = Newline.
Proof.
  intros [->|(nl & Hl & Hn)]; [by left|right].
  exists nl. split; [|done]. rewrite last_lookup in Hl.
  by replace (length ts - 1) with (pred (length ts)) by lia.
Qed.

Lemma indentsStartLines_app ts new :
  indentsStartLines ts → Forall (fun tok => type tok ≠ Indent) new →
  indentsStartLines (ts ++ new).
Proof.
  intros H Hnew i tok Hi Hty.
  apply lookup_app_Some in Hi as [Hi|[_ Hi]].
  - destruct (H i tok Hi Hty) as [->|(nl & Hnl & Hn)]; [by left|right].
    exists nl. split; [|done]. by apply lookup_app_l_Some.
  - rewrite Forall_lookup in Hnew. by destruct (Hnew _ _ Hi).
Qed.

Lemma indentsStartLines_indent ts tok :
  indentsStartLines ts → endsLine ts → indentsStartLines (ts ++ [tok]).
Proof.
  intros H Hend i tok' Hi Hty.
  apply lookup_app_Some in Hi as [Hi|[Hil Hi]].
  - destruct (H i tok' Hi Hty) as [->|(nl & Hnl & Hn)]; [by left|right].
    exists nl. split; [|done]. by apply lookup_app_l_Some.
  - destruct (i - length ts) as [|n] eqn:Hn; [|done].
    assert (i = length ts) as -> by lia.
    destruct (endsLine_lookup ts Hend) as [Hz|(nl & Hnl & Hnn)]; [by left|right].
    exists nl. split; [|done]. by apply lookup_app_l_Some.
Qed.

Lemma lexStep_indents L L' :
  lexStep L L' →
  (Lexer.atLineStart_ L = true → endsLine (Lexer.tokens_ L)) ∧
  indentsStartLines (Lexer.tokens_ L) →
  (Lexer.atLineStart_ L' = true → endsLine (Lexer.tokens_ L')) ∧
  indentsStartLines (Lexer.tokens_ L').
Proof.
  intros Hstep [Hflag Hind].
  destruct Hstep as [Hl Hf Hs Ht|tok _ Hw Hlt _ Hl Hf Hs Ht|col Hl Hf Hs Ht
                    |spaces Hf0 _ Hl Hf Hs Ht|k _ Hk Hl Hf Hs Ht];
    rewrite Hf, Ht.
  - done.
  - split; [done|]. apply indentsStartLines_app; [done|].
    repeat constructor. intros Hi. by rewrite Hi in Hw.
  - split.
    + intros _. right. eexists. by rewrite last_snoc.
    + apply indentsStartLines_app; [done|]. by repeat constructor.
  - split; [done|]. apply indentsStartLines_indent; [done|by apply Hflag].
  - split; [done|]. apply indentsStartLines_app; [done|].
    by apply Forall_repeat_dedent.
Qed.

(** X3. In the token stream of every source that [tokenize] accepts an
    [Indent] is the first token of its line: it is the first token of the
    stream or the token before it is a [Newline]. *)
Theorem X3_indents_start_lines source ts :
  Lexer.tokenize source = Ret ts → indentsStartLines ts.
Proof.
  unfold Lexer.tokenize.
  destruct (Lexer.runLexer source) as [Lf|[e Lx]|] eqn:Hrun; [|done..].
  intros [= <-]. destruct (runLexer_steps source Lf Hrun) as (L & Hr & _ & ->).
  apply indentsStartLines_app.
  - apply (steps_invariant
             (fun L => (Lexer.atLineStart_ L = true → endsLine (Lexer.tokens_ L)) ∧
                       indentsStartLines (Lexer.tokens_ L))
             source L Hr); [|apply lexStep_indents].
    split; [by left|]. intros i tok Hi. done.
  - apply Forall_app. split; [by apply Forall_repeat_dedent|by repeat constructor].
Qed.

Lemma X3_indents_start_lines_witness :
  Lexer.tokenize branchSource = Ret branchTokens ∧
  indentsStartLines branchTokens.
Proof.
  split; [vm_compute; reflexivity|].
  apply (X3_indents_start_lines branchSource branchTokens). vm_compute; reflexivity.
Defined.

(** ** Lexemes *)

Lemma lexStep_lexemes L L' :
  lexStep L L' → Forall lexemeOf (Lexer.tokens_ L) →
  Forall lexemeOf (Lexer.tokens_ L').
Proof.
  intros Hstep Hall.
  destruct Hstep as [Hl Hf Hs Ht|tok _ Hw Hlt Hlex Hl Hf Hs Ht|col Hl Hf Hs Ht
                    |spaces _ _ Hl Hf Hs Ht|k _ Hk Hl Hf Hs Ht];
    rewrite Ht; [done|apply Forall_app; split; [done|]..].
  - by repeat constructor.
  - by repeat constructor.
  - by repeat constructor.
  - by apply Forall_repeat_dedent.
Qed.

(** X4. The lexeme of every token of an accepted source fits its type: a
    keyword carries its own spelling, an identifier a non-empty run of
    identifier bytes that is no keyword, an integer literal a non-empty run
    of digits, a double literal two such runs around one dot, and the
    operators, parentheses, [Newline], [Indent], [Dedent] and [EndOfFile]
    carry the empty lexeme. *)
Theorem X4_token_lexemes source ts :
  Lexer.tokenize source = Ret ts → Forall lexemeOf ts.
Proof.
  unfold Lexer.tokenize.
  destruct (Lexer.runLexer source) as [Lf|[e Lx]|] eqn:Hrun; [|done..].
  intros [= <-]. destruct (runLexer_steps source Lf Hrun) as (L & Hr & _ & ->).
  apply Forall_app. split.
  - by apply (steps_invariant (fun L => Forall lexemeOf (Lexer.tokens_ L))
                source L Hr); [constructor|apply lexStep_lexemes].
  - apply Forall_app. split; [by apply Forall_repeat_dedent|by repeat constructor].
Qed.

Lemma X4_token_lexemes_witness :
  Lexer.tokenize branchSource = Ret branchTokens ∧
  Forall lexemeOf branchTokens.
Proof.
  split; [vm_compute; reflexivity|].
  apply (X4_token_lexemes branchSource branchTokens). vm_compute; reflexivity.
Defined.

(** ** The end of the stream *)

(** X5. The token stream of an accepted source has exactly one [EndOfFile]
    token, its last one, and that token has the empty lexeme. *)
Theorem X5_eof_only_last source ts :
  Lexer.tokenize source = Ret ts →
  ∃ front eofLine eofColumn,
    ts = front ++ [mkToken EndOfFile "" eofLine eofColumn] ∧
    Forall (fun tok => type tok ≠ EndOfFile) front.
Proof.
  unfold Lexer.tokenize. pose proof (runLexer_spec source) as H.
  destruct (Lexer.runLexer source) as [L|[e Lf]|]; [|done..].
  intros [= <-]. destruct H as (front & -> & _ & Hne).
  by exists front, (Lexer.line_ L), (Lexer.column_ L).
Qed.

Lemma X5_eof_only_last_witness :
  Lexer.tokenize branchSource = Ret branchTokens ∧
  ∃ front eofLine eofColumn,
    branchTokens = front ++ [mkToken EndOfFile "" eofLine eofColumn] ∧
    Forall (fun tok => type tok ≠ EndOfFile) front.
Proof.
  split; [vm_compute; reflexivity|].
  apply (X5_eof_only_last branchSource branchTokens). vm_compute; reflexivity.
Defined.

(** ** Literals written by the generator are read back by the lexer *)

Lemma string_app_nil_r (s : string) : s +:+ "" = s.
Proof. induction s as [|c s IH]; [done|]. rewrite app_String. by f_equal. Qed.

Lemma string_length_app (a b : string) :
  String.length (a +:+ b) = String.length a + String.length b.
Proof. induction a as [|c a IH]; [done|]. rewrite app_String. simpl. by rewrite IH. Qed.

Section Unread.
Import Lexer.

Lemma unread_head L c s :
  unread L (String c s) → String.get (current_ L) (source_ L) = Some c.
Proof. intros H. specialize (H 0). by rewrite Nat.add_0_r in H. Qed.

Lemma unread_bump L c s : unread L (String c s) → unread (bump 1 L) s.
Proof.
  intros H k. specialize (H (S k)). simpl in *.
  by replace (current_ L + 1 + k) with (current_ L + S k) by lia.
Qed.

Lemma unread_new source : unread (newLexer source) source.
Proof. by intros k. Qed.

Lemma stringBody_escaped startColumn post value : ∀ acc L fuel,
  unread L (CodeGenerator.escapeString value +:+ String QUOTE post) →
  String.length (CodeGenerator.escapeString value) < fuel →
  iterate fuel (stringBody startColumn) (acc, L) =
  Ret (acc +:+ value,
       push_back_token
         (bump (String.length (CodeGenerator.escapeString value) + 1) L)
         (mkToken StringLiteral (acc +:+ value) (line_ L) startColumn)).
Proof.
  induction value as [|ch value IH]; intros acc L fuel Hun Hfuel.
  - destruct fuel; [simpl in Hfuel; lia|]. simpl in Hun.
    cbn [iterate]. unfold stringBody. rewrite (unread_head _ _ _ Hun).
    simpl. by rewrite string_app_nil_r.
  - destruct fuel; [lia|]. cbn [CodeGenerator.escapeString] in *.
    rewrite string_length_app in *. rewrite string_app_assoc in Hun.
    assert (Hacc : (acc +:+ String ch "") +:+ value = acc +:+ String ch value)
      by (by rewrite string_app_assoc).
    cbn [iterate]. unfold stringBody at 1.
    destruct (Ascii.eqb_spec ch BACKSLASH) as [->|Hb];
      [|destruct (Ascii.eqb_spec ch QUOTE) as [->|Hq];
        [|destruct (Ascii.eqb_spec ch NL) as [->|Hn];
          [|destruct (Ascii.eqb_spec ch TAB) as [->|Ht]]]].
    all: rewrite !app_String in Hun; change ("" +:+ ?x) with x in Hun;
      rewrite (unread_head _ _ _ Hun); apply unread_bump in Hun.
    1-4: rewrite (unread_head _ _ _ Hun); apply unread_bump in Hun;
      rewrite bump_bump in Hun; cbn [Ascii.eqb Bool.eqb NL QUOTE BACKSLASH TAB];
      cbn match; unfold push_back_char; cbn [current_ source_ bump set_column set_current];
      fold (bump 1 L); rewrite ?bump_bump.
    5: apply Ascii.eqb_neq in Hb, Hq, Hn; rewrite Hn, Hq, Hb;
      unfold push_back_char.
    all: rewrite IH; [|done|simpl in Hfuel; lia]; rewrite Hacc, bump_bump;
      do 3 f_equal; simpl; lia.
Qed.

Lemma scanString_escaped L post value :
  unread L (quoted value +:+ post) →
  scanString L =
  Ret (push_back_token
         (bump (String.length (quoted value)) L)
         (mkToken StringLiteral value (line_ L) (column_ L))).
Proof.
  unfold quoted. rewrite app_String, string_app_assoc, app_String.
  intros Hun. pose proof (get_Some_lt _ _ _ (unread_head _ _ _ Hun)) as Hlt.
  apply unread_bump in Hun.
  assert (Hlen : String.length (CodeGenerator.escapeString value) <
                 S (remaining (bump 1 L))).
  { pose proof (Hun (String.length (CodeGenerator.escapeString value))) as Hq.
    assert (Hge : ∀ (a b : string) c,
              String.get (String.length a) (a +:+ String c b) = Some c).
    { clear. induction a; intros; [done|]. rewrite app_String. simpl. auto. }
    rewrite Hge in Hq. apply get_Some_lt in Hq. unfold remaining. simpl in *. lia. }
  unfold scanString.
  rewrite (stringBody_escaped (column_ L) (""+:+post) value "" (bump 1 L)); [|done|done].
  cbn [bind]. rewrite bump_bump. cbn [String.length line_ bump set_column set_current].
  rewrite string_length_app. cbn [String.length].
  change ("" +:+ value) with value. repeat f_equal; lia.
Qed.
End Unread.

Lemma tokenizeBody_at_quote value :
  Lexer.tokenizeBody (Lexer.newLexer (quoted value)) =
  Ret (Next (Lexer.push_back_token
               (Lexer.bump (String.length (quoted value))
                  (Lexer.set_atLineStart (Lexer.newLexer (quoted value)) false))
               (mkToken StringLiteral value 1 1))).
Proof.
  pose proof (scanString_escaped
                (Lexer.set_atLineStart (Lexer.newLexer (quoted value)) false)
                "" value) as Hscan.
  rewrite string_app_nil_r in Hscan. specialize (Hscan ltac:(by intros k)).
  unfold Lexer.tokenizeBody.
  replace (Lexer.lineStart (Lexer.newLexer (quoted value)))
    with (Ret (E := Lexer.LexerError * Lexer.t)
            (Lexer.FallThrough
               (Lexer.set_atLineStart (Lexer.newLexer (quoted value)) false)))
    by reflexivity.
  cbn [bind]. change (Lexer.current_ (Lexer.newLexer (quoted value)) <?
                      String.length (Lexer.source_ (Lexer.newLexer (quoted value))))
    with true. cbv iota.
  change (String.get _ _) with (Some QUOTE). cbv iota.
  change (Ascii.eqb QUOTE " " || Ascii.eqb QUOTE TAB) with false.
  change (Ascii.eqb QUOTE CR) with false.
  change (Ascii.eqb QUOTE NL) with false.
  change (Ascii.eqb QUOTE "/") with false.
  change (Ascii.eqb QUOTE QUOTE) with true. cbv iota. cbn [andb].
  by rewrite Hscan.
Qed.

(** X6. The lexer undoes [escapeString]: for every byte string [value], the
    source made of a quote, [escapeString value] and a quote is accepted by
    [tokenize] and gives one [StringLiteral] token whose lexeme is [value],
    followed by [EndOfFile]. *)
Theorem X6_escaped_literal_lexes_back value :
  Lexer.tokenize (quoted value) =
  Ret [ mkToken StringLiteral value 1 1;
        mkToken EndOfFile "" 1 (String.length (quoted value) + 1) ].
Proof.
  unfold Lexer.tokenize, Lexer.runLexer.
  cbn [iterate]. rewrite tokenizeBody_at_quote.
  set (L2 := Lexer.push_back_token _ _).
  assert (Hbody : Lexer.tokenizeBody L2 = Ret (Done L2)).
  { unfold Lexer.tokenizeBody.
    replace (Lexer.current_ L2 <? String.length (Lexer.source_ L2)) with false; [done|].
    symmetry. apply Nat.ltb_ge. simpl. lia. }
  change (String.length (quoted value))
    with (S (String.length (CodeGenerator.escapeString value +:+ String QUOTE ""))) at 1.
  cbn [iterate]. rewrite Hbody. cbn [bind].
  replace (Lexer.emitPendingDedents (Lexer.line_ L2) L2)
    with (Ret (E := Lexer.LexerError * Lexer.t) L2) by reflexivity.
  cbn [bind]. unfold L2. simpl. do 4 f_equal. lia.
Qed.

(** ** Comments *)

Section Comments.
Import Lexer.

Lemma skipComment_loop text : ∀ L fuel,
  unread L text → occurs NL text = false → String.length text < fuel →
  iterate fuel (advanceWhile (fun ch => negb (Ascii.eqb ch NL))) L =
  Ret (bump (String.length text) L).
Proof.
  induction text as [|c text IH]; intros L fuel Hun Hnl Hfuel.
  - destruct fuel; [simpl in Hfuel; lia|]. cbn [iterate]. unfold advanceWhile.
    pose proof (Hun 0) as H0. rewrite Nat.add_0_r in H0. rewrite H0.
    simpl. by rewrite bump_0.
  - destruct fuel; [lia|]. cbn [iterate]. unfold advanceWhile at 1.
    rewrite (unread_head _ _ _ Hun). simpl in Hnl.
    apply orb_false_iff in Hnl as [Hc Hnl]. rewrite Hc. cbn [negb].
    rewrite (IH (bump 1 L) fuel); [|by eapply unread_bump|done|simpl in Hfuel; lia].
    by rewrite bump_bump.
Qed.

End Comments.

(** X7. A source that is one comment line without a line end gives the single
    token [EndOfFile], on line 1 in the column after the last byte of the
    comment: the comment pushes no token, also no [Newline]. *)
Theorem X7_comment_gives_no_token text :
  occurs NL text = false →
  Lexer.tokenize ("//" +:+ text) =
  Ret [ mkToken EndOfFile "" 1 (String.length text + 3) ].
Proof.
  intros Hnl. unfold Lexer.tokenize, Lexer.runLexer.
  set (source := "//" +:+ text).
  set (L1 := Lexer.bump (String.length source) (Lexer.newLexer source)).
  assert (Hfirst : Lexer.tokenizeBody (Lexer.newLexer source) = Ret (Next L1)).
  { unfold Lexer.tokenizeBody.
    change (Lexer.current_ (Lexer.newLexer source) <?
            String.length (Lexer.source_ (Lexer.newLexer source))) with true.
    cbv iota. unfold Lexer.lineStart.
    change (Lexer.atLineStart_ (Lexer.newLexer source)) with true. cbv iota.
    replace (Lexer.measureIndent (Lexer.newLexer source))
      with (Ret (E := Lexer.LexerError * Lexer.t) (0, 0)) by reflexivity.
    cbn [bind]. change (Lexer.lineKind _ 0) with Lexer.CommentLine. cbv iota.
    unfold Lexer.skipComment.
    rewrite (skipComment_loop source); [done|by intros k|done|].
    unfold Lexer.remaining. simpl. lia. }
  assert (Hsecond : Lexer.tokenizeBody L1 = Ret (Done L1)).
  { unfold Lexer.tokenizeBody.
    replace (Lexer.current_ L1 <? String.length (Lexer.source_ L1)) with false; [done|].
    symmetry. apply Nat.ltb_ge. simpl. lia. }
  change (String.length source) with (S (S (String.length text))) at 1.
  cbn [iterate]. rewrite Hfirst. cbn [iterate]. rewrite Hsecond. cbn [bind].
  replace (Lexer.emitPendingDedents (Lexer.line_ L1) L1)
    with (Ret (E := Lexer.LexerError * Lexer.t) L1) by reflexivity.
  cbn [bind]. unfold L1, source. simpl.
  change ("" +:+ text) with text. do 3 f_equal. lia.
Qed.

Lemma X7_comment_gives_no_token_witness :
  occurs NL " end of the program" = false ∧
  Lexer.tokenize "// end of the program" =
  Ret [ mkToken EndOfFile "" 1 22 ].
Proof.
  split; [reflexivity|].
  apply (X7_comment_gives_no_token " end of the program"). reflexivity.
Defined.

(** ** Printed names of token types *)

(** X8. The keyword table of the lexer and [tokenTypeToString] agree: a text
    is mapped to a type by [kKeywords] exactly when the type is one of the
    seventeen keyword types and [tokenTypeToString] prints it as that text;
    and [tokenTypeToString] gives different texts for different types. *)
Theorem X8_keyword_table_matches_names :
  (∀ text ty, Lexer.kKeywords text = Some ty ↔
              isKeyword ty = true ∧ tokenTypeToString ty = text) ∧
  (∀ a b, tokenTypeToString a = tokenTypeToString b → a = b).
Proof.
  split.
  - intros text ty. split.
    + unfold Lexer.kKeywords.
      repeat match goal with
             | |- context [String.eqb ?a ?b] =>
                 destruct (String.eqb_spec a b) as [->|_]
             end; by intros [= <-].
    + intros [Hk <-]. by destruct ty.
  - intros a b. destruct a; destruct b; (reflexivity || discriminate).
Qed.

(** X9. For every keyword, operator and punctuation type, the text that
    [tokenTypeToString] prints is accepted by [tokenize] and gives exactly
    one token of that type at line 1, column 1 (with the text as lexeme for
    a keyword, the empty lexeme otherwise) followed by [EndOfFile]. *)
Theorem X9_fixed_spelling_lexes_back ty :
  isKeyword ty || isOperator ty = true →
  Lexer.tokenize (tokenTypeToString ty) =
  Ret [ mkToken ty (if isKeyword ty then tokenTypeToString ty else "") 1 1;
        mkToken EndOfFile "" 1 (String.length (tokenTypeToString ty) + 1) ].
Proof. destruct ty; try discriminate; intros _; vm_compute; reflexivity. Qed.

Lemma X9_fixed_spelling_lexes_back_witness :
  isKeyword LessEqual || isOperator LessEqual = true ∧
  Lexer.tokenize "<=" =
  Ret [ mkToken LessEqual "" 1 1; mkToken EndOfFile "" 1 3 ].
Proof. split; [reflexivity|]. apply (X9_fixed_spelling_lexes_back LessEqual). reflexivity. Defined.

(** ** escapeString *)

Lemma occurs_app ch a b : occurs ch (a +:+ b) = occurs ch a || occurs ch b.
Proof.
  induction a as [|c a IH]; [done|].
  rewrite app_String. simpl. by rewrite IH, orb_assoc.
Qed.

(** X10. The result of [escapeString] holds no line feed and no tab byte, so a
    string literal is always emitted on one line of the C++ text. *)
Theorem X10_escapeString_single_line value :
  occurs NL (CodeGenerator.escapeString value) = false ∧
  occurs TAB (CodeGenerator.escapeString value) = false.
Proof.
  induction value as [|ch rest [IHn IHt]]; [done|].
  cbn [CodeGenerator.escapeString]. rewrite !occurs_app, IHn, IHt, !orb_false_r.
  destruct (Ascii.eqb ch BACKSLASH) eqn:?; [done|].
  destruct (Ascii.eqb ch QUOTE) eqn:?; [done|].
  destruct (Ascii.eqb ch NL) eqn:Hn; [done|].
  destruct (Ascii.eqb ch TAB) eqn:Ht; [done|].
  simpl. by rewrite Hn, Ht.
Qed.

(** ** The name mangler *)

Lemma declare_snoc x m outer top :
  NameMangler.scopes_ m = outer ++ [top] →
  NameMangler.scopes_ (NameMangler.declare x m).2 =
  outer ++ [<[x := mangled (NameMangler.counter_ m + 1)]> top].
Proof. intros H. simpl. rewrite H. apply alter_last. Qed.

Lemma resolve_snoc y m outer top :
  NameMangler.scopes_ m = outer ++ [top] →
  NameMangler.resolve y m =
  match top !! y with
  | Some renamed => renamed
  | None => NameMangler.resolveFrom (rev outer) y
  end.
Proof. intros H. unfold NameMangler.resolve. by rewrite H, rev_unit. Qed.

(** X11. After [declare] of a name in a mangler with at least one scope,
    [resolve] of that name gives the C++ name that [declare] returned, and
    every other name resolves as before. *)
Theorem X11_declare_then_resolve m x :
  NameMangler.scopes_ m ≠ [] →
  let m' := (NameMangler.declare x m).2 in
  NameMangler.resolve x m' = (NameMangler.declare x m).1 ∧
  ∀ y, y ≠ x → NameMangler.resolve y m' = NameMangler.resolve y m.
Proof.
  intros (outer & top & Hm)%nonempty_snoc m'.
  pose proof (declare_snoc x m outer top Hm) as Hm'. fold m' in Hm'.
  split.
  - rewrite (resolve_snoc x m' _ _ Hm'). by rewrite lookup_insert_eq.
  - intros y Hy.
    rewrite (resolve_snoc y m' _ _ Hm'), (resolve_snoc y m _ _ Hm).
    by rewrite lookup_insert_ne.
Qed.

Lemma X11_declare_then_resolve_witness :
  let m := NameMangler.new in
  let m' := (NameMangler.declare "x" m).2 in
  NameMangler.scopes_ m ≠ [] ∧
  NameMangler.resolve "x" m' = "vr_1" ∧
  ∀ y, y ≠ "x" → NameMangler.resolve y m' = NameMangler.resolve y m.
Proof.
  intros m m'. split; [done|].
  apply (X11_declare_then_resolve NameMangler.new "x"). done.
Defined.

Lemma resolveFrom_undeclared scopes y :
  Forall (fun scope : gmap string string => scope !! y = None) scopes →
  NameMangler.resolveFrom scopes y = y.
Proof. induction 1 as [|scope rest Hs _ IH]; simpl; [done|by rewrite Hs]. Qed.

(** X12. A name that no scope of the mangler holds resolves to itself. *)
Theorem X12_resolve_undeclared m y :
  Forall (fun scope : gmap string string => scope !! y = None)
         (NameMangler.scopes_ m) →
  NameMangler.resolve y m = y.
Proof.
  intros H. apply resolveFrom_undeclared. by apply Forall_rev.
Qed.

Lemma X12_resolve_undeclared_witness :
  Forall (fun scope : gmap string string => scope !! "x" = None)
         (NameMangler.scopes_ NameMangler.new) ∧
  NameMangler.resolve "x" NameMangler.new = "x".
Proof.
  assert (H : Forall (fun scope : gmap string string => scope !! "x" = None)
                     (NameMangler.scopes_ NameMangler.new))
    by (repeat constructor).
  split; [exact H|]. exact (X12_resolve_undeclared NameMangler.new "x" H).
Defined.

(** Declarations made in a pushed scope. *)
Lemma declareAll_scopes names : ∀ m outer top,
  NameMangler.scopes_ m = outer ++ [top] →
  ∃ top', NameMangler.scopes_ (declareAll names m) = outer ++ [top'] ∧
          NameMangler.counter_ (declareAll names m) =
            NameMangler.counter_ m + length names.
Proof.
  induction names as [|x names IH]; intros m outer top Hm.
  - exists top. simpl. split; [done|lia].
  - cbn [declareAll].
    destruct (IH (NameMangler.declare x m).2 outer _ (declare_snoc x m outer top Hm))
      as (top' & Hs & Hc).
    exists top'. split; [done|]. rewrite Hc. simpl. lia.
Qed.

(** X13. [pushScope], any number of [declare]s, then [popScope] leaves the scopes
    of a mangler with at least one scope as they were, so every name resolves
    as before, while the counter has gone up by the number of declarations. *)
Theorem X13_scope_push_pop m names :
  NameMangler.scopes_ m ≠ [] →
  let m' := NameMangler.popScope (declareAll names (NameMangler.pushScope m)) in
  NameMangler.scopes_ m' = NameMangler.scopes_ m ∧
  NameMangler.counter_ m' = NameMangler.counter_ m + length names ∧
  ∀ y, NameMangler.resolve y m' = NameMangler.resolve y m.
Proof.
  intros Hne m'.
  destruct (declareAll_scopes names (NameMangler.pushScope m)
              (NameMangler.scopes_ m) ∅ eq_refl) as (top' & Hs & Hc).
  assert (Hscopes : NameMangler.scopes_ m' = NameMangler.scopes_ m).
  { unfold m', NameMangler.popScope. rewrite Hs, length_app. simpl.
    destruct (NameMangler.scopes_ m) as [|s l] eqn:Hm; [done|].
    replace (1 <? length (s :: l) + 1) with true
      by (symmetry; apply Nat.ltb_lt; simpl; lia).
    cbn [NameMangler.scopes_]. by rewrite List.removelast_last. }
  split; [done|]. split.
  - unfold m', NameMangler.popScope. by destruct (1 <? _).
  - intros y. by apply resolve_scopes.
Qed.

Lemma X13_scope_push_pop_witness :
  let m := (NameMangler.declare "x" NameMangler.new).2 in
  let m' := NameMangler.popScope
              (declareAll ["x"; "y"] (NameMangler.pushScope m)) in
  NameMangler.scopes_ m ≠ [] ∧
  NameMangler.scopes_ m' = NameMangler.scopes_ m ∧
  NameMangler.counter_ m' = NameMangler.counter_ m + 2 ∧
  ∀ y, NameMangler.resolve y m' = NameMangler.resolve y m.
Proof.
  intros m m'.
  assert (Hne : NameMangler.scopes_ m ≠ []) by (vm_compute; discriminate).
  split; [exact Hne|]. exact (X13_scope_push_pop m ["x"; "y"] Hne).
Defined.

(** ** The generator's stream *)

Section AppendOnly.
Import CodeGenerator.

Lemma emitStatements_appends body i g b :
  out (emitStatements body i g b) =
    out g +:+ out (emitStatements body i (freshStream g) b) ∧
  mangler (emitStatements body i g b) =
    mangler (emitStatements body i (freshStream g) b) ∧
  declared (emitStatements body i g b) =
    declared (emitStatements body i (freshStream g) b).
Proof.
  set (R := fun g1 g2 : Gen =>
              mangler g1 = mangler g2 ∧ declared g1 = declared g2 ∧
              out g1 = out g +:+ out g2).
  assert (H : R (emitStatements body i g b)
                (emitStatements body i (freshStream g) b)).
  { apply (emitStatements_related R).
    - by intros g1 g2 (? & _).
    - intros text g1 g2 (Hm & Hd & Ho). unfold R, write. simpl.
      rewrite Ho. by rewrite string_app_assoc.
    - intros g1 g2 (Hm & Hd & Ho). unfold R, pushScope. simpl. by rewrite Hm.
    - intros g1 g2 (Hm & Hd & Ho). unfold R, popScope. simpl. by rewrite Hm.
    - intros name g1 g2 (Hm & Hd & Ho). unfold R, declare. simpl.
      by rewrite Hm, Hd.
    - unfold R, freshStream. simpl. split; [done|]. split; [done|].
      clear. induction (out g) as [|c s IH]; [done|]. rewrite app_String. by f_equal. }
  destruct H as (Hm & Hd & Ho). done.
Qed.

End AppendOnly.

(** X14. [emitStatements] only appends to the output stream: what it has after
    a body is what it had before followed by what the same call writes on an
    empty stream.  The text of [generate] is therefore the fixed prologue,
    the statement lines and the fixed epilogue. *)
Theorem X14_generate_frame program :
  (∀ body i g b,
     CodeGenerator.out (CodeGenerator.emitStatements body i g b) =
     CodeGenerator.out g +:+
     CodeGenerator.out (CodeGenerator.emitStatements body i (freshStream g) b)) ∧
  CodeGenerator.generate program =
    prologue +:+
    CodeGenerator.out
      (CodeGenerator.emitStatements (statements program) 1
         CodeGenerator.newGen false) +:+
    epilogue.
Proof.
  split; [intros; apply emitStatements_appends|].
  unfold CodeGenerator.generate, CodeGenerator.runGenerate.
  cbn [CodeGenerator.write CodeGenerator.out].
  destruct (emitStatements_appends (statements program) 1
    (CodeGenerator.write
       (CodeGenerator.indent 1 +:+ "std::ios_base::sync_with_stdio(false);" +:+
        CodeGenerator.LF)
       (CodeGenerator.write ("int main() {" +:+ CodeGenerator.LF)
          (CodeGenerator.write ("#include <string>" +:+ CodeGenerator.LF +:+ CodeGenerator.LF)
             (CodeGenerator.write ("#include <iostream>" +:+ CodeGenerator.LF)
                (CodeGenerator.write ("#include <cmath>" +:+ CodeGenerator.LF)
                   CodeGenerator.newGen))))) false) as (-> & _ & _).
  rewrite !string_app_assoc. reflexivity.
Qed.

(** ** How many names are declared *)

Section Declarations.
Import CodeGenerator.

Abbreviation counterOf g := (NameMangler.counter_ (mangler g)).

Ltac fold_declarationsIn :=
  change (fix all (body : list Statement) {struct body} : nat :=
            match body with
            | [] => 0
            | stmt :: rest => declarations stmt + all rest
            end) with declarationsIn in *.

Lemma emitEach_counter body :
  Forall (fun stmt => ∀ i g, counterOf (emitStatement stmt i g) =
                             counterOf g + declarations stmt) body →
  ∀ i g, counterOf (emitEach body i g) = counterOf g + declarationsIn body.
Proof.
  induction 1 as [|stmt rest Hs _ IH]; intros i g; simpl; [lia|].
  rewrite IH, Hs. lia.
Qed.

Lemma popScope_counter g : counterOf (popScope g) = counterOf g.
Proof. unfold popScope, NameMangler.popScope. simpl. by destruct (1 <? _). Qed.

Lemma emitStatements_counter_from body :
  Forall (fun stmt => ∀ i g, counterOf (emitStatement stmt i g) =
                             counterOf g + declarations stmt) body →
  ∀ i g b, counterOf (emitStatements body i g b) = counterOf g + declarationsIn body.
Proof.
  intros H i g b. rewrite emitStatements_eq. destruct b.
  - by rewrite popScope_counter, (emitEach_counter body H).
  - by apply emitEach_counter.
Qed.

Lemma emitStatement_counter statement : ∀ i g,
  counterOf (emitStatement statement i g) = counterOf g + declarations statement.
Proof.
  induction statement using Statement_nested_ind; intros i g.
  - simpl. destruct initializer; simpl; lia.
  - simpl. lia.
  - simpl. lia.
  - simpl. lia.
  - rewrite emitStatement_If. cbn [declarations]. fold_declarationsIn.
    assert (Hb : ∀ k g,
      counterOf (emitBranches i k branches g) = counterOf g +
      (fix each (branches : list (Expression * list Statement)) : nat :=
         match branches with
         | [] => 0
         | (_, body) :: rest => declarationsIn body + each rest
         end) branches).
    { clear -H. induction H as [|[cond body] rest Hbody _ IH]; intros k g.
      - simpl. lia.
      - cbn [emitBranches]. rewrite IH. cbn [write mangler].
        rewrite (emitStatements_counter_from body Hbody). simpl. lia. }
    cbn zeta. destruct hasElse.
    + cbn [write mangler]. rewrite (emitStatements_counter_from elseBranch H0).
      cbn [write mangler]. rewrite Hb.
      lia.
    + rewrite Hb.
      lia.
  - rewrite emitStatement_While. cbn [write mangler declarations].
    fold_declarationsIn. rewrite (emitStatements_counter_from body H). simpl. lia.
  - rewrite emitStatement_For. cbn [declarations]. fold_declarationsIn.
    unfold declare, NameMangler.declare. cbn zeta iota beta.
    rewrite popScope_counter. cbn [write mangler].
    rewrite (emitStatements_counter_from body H). simpl. lia.
Qed.

End Declarations.

(** X15. During one [generate] the mangler hands out exactly one C++ name for
    each variable declaration and each [for] header of the program, nested
    bodies included (the [else] body only when the [if] has one): its counter
    ends at that number. *)
Theorem X15_declared_names_count program :
  let g := CodeGenerator.runGenerate program in
  NameMangler.counter_ (CodeGenerator.mangler g) =
    declarationsIn (statements program) ∧
  length (CodeGenerator.declared g) = declarationsIn (statements program).
Proof.
  intros g.
  assert (Hc : NameMangler.counter_ (CodeGenerator.mangler g) =
               declarationsIn (statements program)).
  { unfold g, CodeGenerator.runGenerate. cbn [CodeGenerator.write CodeGenerator.mangler].
    rewrite emitStatements_counter_from; [done|].
    apply Forall_forall. intros stmt _. apply emitStatement_counter. }
  split; [done|].
  pose proof (runGenerate_logged program) as Hl. unfold logged in Hl. fold g in Hl.
  by rewrite Hl, length_map, length_seq.
Qed.

(** ** What the parser builds, and where it stops *)

Section ParserOutput.
Import Parser.

(** A property of the parser that [advance] keeps. *)
Variable I : Parser.t → Prop.
Hypothesis Hadvance : ∀ p, I p → I (advance p).2.

Abbreviation wfE := (fun e : Expression => parsedExpr e = true).
Abbreviation wfS := (fun s : Statement => parsedStmt s = true).
Abbreviation wfB := (fun body : list Statement => forallb parsedStmt body = true).
Abbreviation anything := (fun _ => True).

Lemma match_keeps ty p : I p → I (match_ ty p).2.
Proof. intros Hp. unfold match_. destruct (check ty p); [by apply Hadvance|done]. Qed.

Lemma consume_keeps ty message : keeps I anything (consume ty message).
Proof.
  intros p Hp. unfold consume. destruct (check ty p); [|done].
  specialize (Hadvance p Hp). by destruct (advance p).
Qed.

Lemma skipNewlines_keeps : keeps I anything skipNewlines.
Proof.
  intros p Hp. unfold skipNewlines.
  pose proof (iterate_invariant (E := ParserError)
    (fun p => let (b, p1) := match_ Newline p in
              if b then Ret (Next p1) else Ret (Done p1))
    I I (fun _ => True)) as Hloop.
  specialize (Hloop ltac:(
    intros q Hq; cbv beta; pose proof (match_keeps Newline q Hq) as Hm;
    destruct (match_ Newline q) as [[] q1]; exact Hm) (S (remaining p)) p Hp).
  by destruct (iterate _ _ _) as [p1| |].
Qed.

Lemma expectNewline_keeps context : keeps I anything (expectNewline context).
Proof.
  intros p Hp. unfold expectNewline.
  pose proof (match_keeps Newline p Hp) as Hm.
  destruct (match_ Newline p) as [[] p1]; cbn [snd] in Hm.
  - by apply skipNewlines_keeps.
  - by destruct (check Dedent p1 || check EndOfFile p1).
Qed.

(** Running a method that keeps [I] after which the result is built. *)
Tactic Notation "run" constr(H) "as" simple_intropattern(pat) :=
  match goal with
  | Hq : I ?q |- context [?f ?q] =>
      let Hr := fresh "Hr" in
      pose proof (H q Hq) as Hr;
      destruct (f q) as [[? ?]| |]; cbn [bind]; [|done..];
      destruct Hr as pat
  end.

Ltac try_match :=
  match goal with
  | Hq : I ?q |- context [match_ ?ty ?q] =>
      let Hm := fresh "Hm" in
      pose proof (match_keeps ty q Hq) as Hm;
      destruct (match_ ty q) as [[] ?]; cbn [snd] in Hm
  end.

Lemma matchFirst_keeps ops : ∀ p op p1,
  I p → matchFirst ops p = Some (op, p1) → op ∈ map snd ops ∧ I p1.
Proof.
  induction ops as [|[ty o] ops IH]; intros p op p1 Hp; simpl; [done|].
  pose proof (match_keeps ty p Hp) as Hm.
  destruct (match_ ty p) as [[] p2]; cbn [snd] in Hm.
  - intros [= <- <-]. split; [by left|done].
  - intros H. destruct (IH p2 op p1 Hm H). split; [by right|done].
Qed.

Lemma level_wf ops sub :
  Forall (fun o : TokenType * string => is_Some (binaryOp o.2)) ops →
  keeps I wfE sub →
  keeps I wfE (fun p => let* (expr, p1) := sub p in
                        iterate (S (remaining p1)) (binaryLoop ops sub) (expr, p1)).
Proof.
  intros Hops Hsub p Hp. pose proof (Hsub p Hp) as Hfirst.
  destruct (sub p) as [[expr p1]| |]; cbn [bind]; [|done..].
  pose proof (iterate_invariant (binaryLoop ops sub)
    (fun st => parsedExpr st.1 = true ∧ I st.2)
    (fun st => parsedExpr st.1 = true ∧ I st.2)
    (fun _ => True)) as Hloop.
  specialize (Hloop ltac:(
    intros [e pc] [He Hpc]; cbn [fst snd] in He, Hpc; unfold binaryLoop;
    destruct (matchFirst ops pc) as [[op p2]|] eqn:Hm; [|done];
    apply (matchFirst_keeps _ _ _ _ Hpc) in Hm as [Hin Hp2];
    pose proof (Hsub p2 Hp2) as Hs;
    destruct (sub p2) as [[rhs p3]| |]; cbn [bind]; [|done..];
    destruct Hs as [Hs Hp3];
    cbn [fst snd makeBinary parsedExpr]; simpl in Hs; rewrite He, Hs;
    apply list_elem_of_fmap in Hin as ([ty o] & -> & Hin);
    rewrite Forall_forall in Hops; specialize (Hops _ Hin);
    by rewrite bool_decide_eq_true_2)
    (S (remaining p1)) (expr, p1) Hfirst).
  by destruct (iterate _ _ _) as [[e p']| |].
Qed.

Lemma exprs_wf n :
  keeps I wfE (parsePrimary n) ∧ keeps I wfE (parseUnary n) ∧
  keeps I wfE (parsePower n) ∧ keeps I wfE (parseFactor n) ∧
  keeps I wfE (parseTerm n) ∧ keeps I wfE (parseComparison n) ∧
  keeps I wfE (parseEquality n) ∧ keeps I wfE (parseAnd n) ∧
  keeps I wfE (parseOr n) ∧ keeps I wfE (parseExpression n).
Proof.
  induction n as [|n (IHprimary & IHunary & IHpower & IHfactor & IHterm &
                      IHcmp & IHeq & IHand & IHor & IHexpr)];
    [by repeat split|].
  assert (Hlevel : ∀ ops sub,
    Forall (fun o : TokenType * string => is_Some (binaryOp o.2)) ops →
    keeps I wfE sub →
    ∀ p, I p →
      match (let* (expr, p1) := sub p in
             iterate (S (remaining p1)) (binaryLoop ops sub) (expr, p1)) with
      | Ret (a, p') => parsedExpr a = true ∧ I p'
      | _ => True
      end).
  { intros ops sub Hops Hsub. by apply level_wf. }
  repeat split; intros p Hp.
  - cbn [parsePrimary].
    do 6 (try_match; [done|]). try_match; [|done].
    run IHexpr as [He ?]. by run (consume_keeps RightParen "Ожидается ')' ") as [_ ?].
  - cbn [parseUnary].
    try_match. { run IHunary as [He ?]. simpl in *. by split. }
    try_match. { run IHunary as [He ?]. simpl in *. by split. }
    by apply IHprimary.
  - cbn [parsePower]. run IHunary as [Hl ?].
    try_match; [|done]. run IHpower as [Hr ?].
    simpl in *. split; [|done]. by rewrite Hl, Hr.
  - cbn [parseFactor]. apply Hlevel; [by repeat constructor|done..].
  - cbn [parseTerm]. apply Hlevel; [by repeat constructor|done..].
  - cbn [parseComparison]. apply Hlevel; [by repeat constructor|done..].
  - cbn [parseEquality]. apply Hlevel; [by repeat constructor|done..].
  - cbn [parseAnd]. apply Hlevel; [by repeat constructor|done..].
  - cbn [parseOr]. apply Hlevel; [by repeat constructor|done..].
  - cbn [parseExpression]. by apply IHor.
Qed.

Lemma parseExpression_wf n : keeps I wfE (parseExpression n).
Proof. apply exprs_wf. Qed.

Lemma forallb_snoc {A} (f : A → bool) l x :
  forallb f (l ++ [x]) = forallb f l && f x.
Proof. rewrite forallb_app. simpl. by rewrite andb_true_r. Qed.

Lemma advance_peek p : isAtEnd p = false → (advance p).1 = peek p.
Proof.
  intros H. unfold advance. rewrite H. unfold previous, peek. simpl.
  by replace (current_ p + 1 - 1) with (current_ p) by lia.
Qed.

Lemma expectNewline_after {A} context (a : A) (P : A → Prop) p :
  I p → P a →
  match (let* (_, p') := expectNewline context p in Ret (a, p')) with
  | Ret (a', p') => P a' ∧ I p'
  | _ => True
  end.
Proof.
  intros Hp Ha. pose proof (expectNewline_keeps context p Hp) as H.
  destruct (expectNewline context p) as [[[] p']| |]; cbn [bind]; [|done..].
  by destruct H.
Qed.

Lemma parseVarDecl_wf n p :
  I p → isTypeKeyword (type (peek p)) = true →
  match parseVarDecl n p with
  | Ret (stmt, p') => parsedStmt stmt = true ∧ I p'
  | _ => True
  end.
Proof.
  intros Hp Hty. unfold parseVarDecl.
  assert (Hend : isAtEnd p = false).
  { unfold isAtEnd. apply bool_decide_eq_false. intros He. by rewrite He in Hty. }
  pose proof (advance_peek p Hend) as Hadv. pose proof (Hadvance p Hp) as Hp1.
  destruct (advance p) as [typeToken p1]. cbn [fst snd] in Hadv, Hp1. subst typeToken.
  run (consume_keeps Identifier "Ожидается имя переменной") as [_ ?].
  try_match.
  - run (parseExpression_wf n) as [He ?].
    apply expectNewline_after; [done|]. simpl in *. rewrite He.
    by destruct (type (peek p)).
  - cbn [bind]. apply expectNewline_after; [done|]. simpl.
    by destruct (type (peek p)).
Qed.

Lemma parseAssignment_wf n : keeps I wfS (parseAssignment n).
Proof.
  intros p Hp. unfold parseAssignment. pose proof (Hadvance p Hp) as Hp1.
  destruct (advance p) as [name p1]. cbn [snd] in Hp1.
  run (consume_keeps Assign "Ожидается '=' в присваивании") as [_ ?].
  run (parseExpression_wf n) as [He ?].
  by apply expectNewline_after.
Qed.

Lemma parseInput_wf : keeps I wfS parseInput.
Proof.
  intros p Hp. unfold parseInput. pose proof (Hadvance p Hp) as Hp1.
  destruct (advance p) as [tok p1]. cbn [snd] in Hp1.
  run (consume_keeps Identifier "Ожидается переменная для ввода") as [_ ?].
  by apply expectNewline_after.
Qed.

Lemma parseOutput_wf n : keeps I wfS (parseOutput n).
Proof.
  intros p Hp. unfold parseOutput. pose proof (Hadvance p Hp) as Hp1.
  destruct (advance p) as [tok p1]. cbn [snd] in Hp1.
  run (parseExpression_wf n) as [He ?].
  by apply expectNewline_after.
Qed.

Lemma parseParenthesizedCondition_wf n context :
  keeps I wfE (parseParenthesizedCondition n context).
Proof.
  intros p Hp. unfold parseParenthesizedCondition.
  run (consume_keeps LeftParen ("Ожидается '(' после " +:+ context)) as [_ ?].
  run (parseExpression_wf n) as [He ?].
  by run (consume_keeps RightParen ("Ожидается ')' после условия " +:+ context))
    as [_ ?].
Qed.

Lemma parseTypeKeyword_known context :
  keeps I (fun vtype => knownType vtype = true) (parseTypeKeyword context).
Proof.
  intros p Hp. unfold parseTypeKeyword.
  do 4 (try_match; [done|]). done.
Qed.

Lemma blockLoop_wf parseStmt fuel :
  keeps I wfS parseStmt →
  ∀ body p, forallb parsedStmt body = true → I p →
    match iterate fuel (blockLoop parseStmt) (body, p) with
    | Ret (body', p') => forallb parsedStmt body' = true ∧ I p'
    | _ => True
    end.
Proof.
  intros Hstmt body p Hbody Hp.
  pose proof (iterate_invariant (blockLoop parseStmt)
    (fun st => forallb parsedStmt st.1 = true ∧ I st.2)
    (fun st => forallb parsedStmt st.1 = true ∧ I st.2) (fun _ => True)) as Hloop.
  specialize (Hloop ltac:(
    intros [b pc] [Hb Hpc]; cbn [fst snd] in Hb, Hpc; unfold blockLoop;
    destruct (negb (check Dedent pc) && negb (isAtEnd pc)); [|done];
    run Hstmt as [Hs ?]; run skipNewlines_keeps as [_ ?];
    cbn [fst snd]; rewrite forallb_snoc, Hb; by split)
    fuel (body, p) (conj Hbody Hp)).
  by destruct (iterate _ _ _) as [[b p']| |].
Qed.

Lemma parsedIf_intro branches elseBranch hasElse p :
  branches ≠ [] →
  forallb (fun branch : Expression * list Statement =>
             parsedExpr branch.1 && forallb parsedStmt branch.2) branches = true →
  forallb parsedStmt elseBranch = true →
  (hasElse = true ∨ elseBranch = []) →
  parsedIf (branches, elseBranch, hasElse, p).
Proof.
  intros Hne Hb He Hh. unfold parsedIf. cbn [parsedStmt]. rewrite Hb, He.
  rewrite bool_decide_eq_false_2 by done. simpl.
  destruct Hh as [->| ->]; [done|]. by rewrite orb_true_r.
Qed.

Lemma parsedIf_elim branches elseBranch hasElse p :
  parsedIf (branches, elseBranch, hasElse, p) →
  branches ≠ [] ∧
  forallb (fun branch : Expression * list Statement =>
             parsedExpr branch.1 && forallb parsedStmt branch.2) branches = true ∧
  forallb parsedStmt elseBranch = true ∧
  (hasElse = true ∨ elseBranch = []).
Proof.
  unfold parsedIf. cbn [parsedStmt].
  intros (((Hne & Hb)%andb_true_iff & He)%andb_true_iff & Hh)%andb_true_iff.
  apply negb_true_iff, bool_decide_eq_false in Hne.
  repeat split; try done.
  apply orb_true_iff in Hh as [?|?%bool_decide_eq_true]; auto.
Qed.

Lemma elseLoop_wf n blockP fuel :
  (∀ context, keeps I wfB (blockP context)) →
  ∀ st, parsedIf st → I st.2 →
    match iterate fuel (elseLoop n blockP) st with
    | Ret st' => parsedIf st' ∧ I st'.2
    | _ => True
    end.
Proof.
  intros Hblock st Hst Hp.
  apply (iterate_invariant (elseLoop n blockP)
           (fun st => parsedIf st ∧ I st.2) (fun st => parsedIf st ∧ I st.2)
           (fun _ => True)); [|done].
  clear st Hst Hp. intros [[[branches elseBranch] hasElse] p] [Hst Hp].
  cbn [snd] in Hp.
  apply parsedIf_elim in Hst as (Hne & Hb & He & Hh).
  unfold elseLoop. try_match.
  - try_match.
    + run (parseParenthesizedCondition_wf n "иначе если") as [Hc ?].
      run (Hblock "условия 'иначе если'") as [Hbody ?].
      split; [|done]. apply parsedIf_intro; try done.
      * by destruct branches.
      * rewrite forallb_snoc, Hb. simpl in *. by rewrite Hc, Hbody.
    + run (Hblock "блока 'иначе'") as [Hbody ?].
      split; [|done]. apply parsedIf_intro; try done. by left.
  - split; [|done]. by apply parsedIf_intro.
Qed.

Lemma stmts_wf n :
  keeps I wfS (parseStatement n) ∧ keeps I wfS (parseIf n) ∧
  keeps I wfS (parseWhile n) ∧ keeps I wfS (parseFor n) ∧
  (∀ context, keeps I wfB (parseIndentedBlock n context)).
Proof.
  induction n as [|n (IHstmt & IHif & IHwhile & IHfor & IHblock)];
    [by repeat split|].
  repeat split.
  - intros p Hp. cbn [parseStatement].
    destruct (check Indent p); [done|].
    destruct (isTypeKeyword (type (peek p))) eqn:Hty; [by apply parseVarDecl_wf|].
    destruct (type (peek p)); try done.
    + by apply parseAssignment_wf.
    + by apply IHif.
    + by apply IHwhile.
    + by apply IHfor.
    + by apply parseInput_wf.
    + by apply parseOutput_wf.
  - intros p Hp. cbn [parseIf]. pose proof (Hadvance p Hp) as Hp1.
    destruct (advance p) as [tok p1]. cbn [snd] in Hp1.
    run (parseParenthesizedCondition_wf n "если") as [Hc ?].
    run (IHblock "условия 'если'") as [Hbody Hp3].
    match goal with
    | |- context [iterate ?f ?b ?st] =>
        pose proof (elseLoop_wf n (parseIndentedBlock n) f IHblock st) as Hloop
    end.
    specialize (Hloop ltac:(apply parsedIf_intro; simpl in *;
                            [done|by rewrite Hc, Hbody|done|by right]) Hp3).
    destruct (iterate _ _ _) as [[[[branches elseBranch] hasElse] p4]| |];
      cbn [bind]; [|done..].
    exact Hloop.
  - intros p Hp. cbn [parseWhile]. pose proof (Hadvance p Hp) as Hp1.
    destruct (advance p) as [tok p1]. cbn [snd] in Hp1.
    run (parseParenthesizedCondition_wf n "пока") as [Hc ?].
    run (IHblock "цикла 'пока'") as [Hbody ?].
    simpl in *. split; [|done]. by rewrite Hc, Hbody.
  - intros p Hp. cbn [parseFor]. pose proof (Hadvance p Hp) as Hp1.
    destruct (advance p) as [tok p1]. cbn [snd] in Hp1.
    run (consume_keeps LeftParen "Ожидается '(' после 'для'") as [_ ?].
    run (parseTypeKeyword_known "цикла 'для'") as [Hk ?].
    run (consume_keeps Identifier "Ожидается имя счётчика") as [_ ?].
    run (consume_keeps KeywordFrom "Ожидается слово 'от' в цикле") as [_ ?].
    run (parseExpression_wf n) as [Hfrom ?].
    run (consume_keeps KeywordTo "Ожидается слово 'до' в цикле") as [_ ?].
    run (parseExpression_wf n) as [Hto ?].
    run (consume_keeps RightParen "Ожидается ')' после заголовка цикла") as [_ ?].
    run (IHblock "цикла 'для'") as [Hbody ?].
    simpl in *. split; [|done]. by rewrite Hk, Hfrom, Hto, Hbody.
  - intros context p Hp. cbn [parseIndentedBlock].
    run (consume_keeps Newline ("Ожидается новая строка после " +:+ context)) as [_ ?].
    run (consume_keeps Indent ("Ожидается отступ после " +:+ context)) as [_ ?].
    run skipNewlines_keeps as [_ Hp3].
    match goal with
    | |- context [iterate ?f ?b (?body, ?q)] =>
        pose proof (blockLoop_wf (parseStatement n) f IHstmt body q eq_refl Hp3)
          as Hloop
    end.
    destruct (iterate _ _ _) as [[body p4]| |]; cbn [bind]; [|done..].
    destruct Hloop as [Hbody ?].
    by run (consume_keeps Dedent ("Ожидается завершение блока " +:+ context))
      as [_ ?].
Qed.

Lemma runParser_wf ts :
  I (mkParser ts 0) →
  match runParser ts with
  | Ret (program, p) => forallb parsedStmt (statements program) = true ∧ I p
  | _ => True
  end.
Proof.
  intros Hp. unfold runParser.
  run skipNewlines_keeps as [_ Hp1].
  match goal with
  | |- context [iterate ?f ?b (?body, ?q)] =>
      pose proof (iterate_invariant b
        (fun st => forallb parsedStmt st.1 = true ∧ I st.2)
        (fun st => forallb parsedStmt st.1 = true ∧ I st.2) (fun _ => True))
        as Hloop;
      specialize (Hloop ltac:(
        intros [b' pc] [Hb Hpc]; cbn [fst snd] in Hb, Hpc; unfold programLoop;
        destruct (negb (isAtEnd pc)); [|done];
        run (proj1 (stmts_wf (callDepth ts))) as [Hs ?];
        run skipNewlines_keeps as [_ ?];
        cbn [fst snd]; rewrite forallb_snoc, Hb; by split)
        f (body, q) (conj eq_refl Hp1))
  end.
  by destruct (iterate _ _ _) as [[stmts p2]| |].
Qed.

End ParserOutput.

(** X16. Every program that [parseProgram] returns is built as the grammar says:
    each operator text is one of the operators of the C++ printer, a literal
    has a known type (a Boolean literal the text [true] or [false] that fits
    its flag), a declaration and a [for] header have a known type, and an
    [if] has at least one branch and statements in its [else] body only when
    it has an [else]. *)
Theorem X16_parser_output_wellformed ts program :
  Parser.parseProgram ts = Ret program →
  forallb parsedStmt (statements program) = true.
Proof.
  unfold Parser.parseProgram.
  pose proof (runParser_wf (fun _ => True) ltac:(done) ts I) as H.
  destruct (Parser.runParser ts) as [[program' p]| |]; cbn [bind]; [|done..].
  intros [= <-]. apply H.
Qed.

Lemma X16_parser_output_wellformed_witness :
  Parser.parseProgram branchTokens = Ret branchParsed.1 ∧
  forallb parsedStmt (statements branchParsed.1) = true.
Proof.
  split; [vm_compute; reflexivity|].
  apply (X16_parser_output_wellformed branchTokens branchParsed.1). vm_compute; reflexivity.
Defined.

Lemma advance_inside ts p : inside ts p → inside ts (Parser.advance p).2.
Proof.
  intros [Ht Hi]. unfold Parser.advance, Parser.isAtEnd, Parser.peek.
  case_bool_decide as Hend; cbn [snd]; [done|].
  split; [done|]. cbn [Parser.current_]. intros i Hlt.
  destruct (decide (i = Parser.current_ p)) as [->|Hne]; [|apply Hi; lia].
  unfold typeAt. by rewrite <- Ht.
Qed.

(** X17. When the parser run of [parseProgram] returns, the parser still holds
    the token vector it was given, every token it has passed is no
    [EndOfFile], and it stands on an [EndOfFile]; if the vector holds an
    [EndOfFile] at all, the parser stands inside the vector. *)
Theorem X17_parser_stops_at_eof ts program p :
  Parser.runParser ts = Ret (program, p) →
  Parser.tokens_ p = ts ∧
  (∀ i, i < Parser.current_ p → typeAt ts i ≠ EndOfFile) ∧
  typeAt ts (Parser.current_ p) = EndOfFile ∧
  (∀ k, k < length ts → typeAt ts k = EndOfFile → Parser.current_ p < length ts).
Proof.
  intros Hrun.
  pose proof (runParser_wf (inside ts) (advance_inside ts) ts) as H.
  pose proof (runParser_spec ts) as Hspec.
  rewrite Hrun in H, Hspec.
  destruct H as [_ [Ht Hi]]; [split; [done|]; simpl; lia|].
  destruct Hspec as (c & -> & Hty & _). cbn [Parser.current_ pos] in *.
  repeat split; try done.
  intros k Hk He. destruct (decide (c ≤ k)) as [Hle|Hgt]; [lia|].
  by destruct (Hi k ltac:(lia)).
Qed.

Lemma X17_parser_stops_at_eof_witness :
  Parser.runParser branchTokens = Ret branchParsed ∧
  Parser.tokens_ branchParsed.2 = branchTokens ∧
  (∀ i, i < Parser.current_ branchParsed.2 →
        typeAt branchTokens i ≠ EndOfFile) ∧
  typeAt branchTokens (Parser.current_ branchParsed.2) = EndOfFile ∧
  (∀ k, k < length branchTokens → typeAt branchTokens k = EndOfFile →
        Parser.current_ branchParsed.2 < length branchTokens).
Proof.
  split; [vm_compute; reflexivity|].
  apply (X17_parser_stops_at_eof branchTokens branchParsed.1 branchParsed.2).
  vm_compute; reflexivity.
Defined.

(** ** The parser on the tokens of the lexer *)

(** X18. When [tokenize] accepts a source and the parser run on its tokens
    returns, the parser has read the whole stream: it stands on the last
    token, the [EndOfFile], so no token of the source is left unparsed. *)
Theorem X18_parsed_source_is_read_whole source ts program p :
  Lexer.tokenize source = Ret ts →
  Parser.runParser ts = Ret (program, p) →
  Parser.tokens_ p = ts ∧ Parser.current_ p + 1 = length ts.
Proof.
  intros Hlex Hrun.
  pose proof (runParser_wf (inside ts) (advance_inside ts) ts) as H.
  pose proof (runParser_spec ts) as Hspec.
  rewrite Hrun in H, Hspec.
  destruct H as [_ [Ht Hi]]; [split; [done|]; simpl; lia|].
  destruct Hspec as (c & -> & Hty & _). cbn [Parser.current_ pos] in *.
  split; [done|].
  pose proof (tokenize_eof_last source ts Hlex c Hty) as Hlast.
  revert Hlex. unfold Lexer.tokenize. pose proof (runLexer_spec source) as Hl.
  destruct (Lexer.runLexer source) as [L|[e Lf]|]; [|done..].
  intros [= <-]. destruct Hl as (front & Hts & _ & _).
  rewrite Hts in *. rewrite length_app in *. simpl in *.
  destruct (decide (c ≤ length front)) as [Hle|Hgt]; [lia|].
  destruct (Hi (length front) ltac:(lia)).
  unfold typeAt. by rewrite nth_middle.
Qed.

Lemma X18_parsed_source_is_read_whole_witness :
  Lexer.tokenize branchSource = Ret branchTokens ∧
  Parser.runParser branchTokens = Ret branchParsed ∧
  Parser.tokens_ branchParsed.2 = branchTokens ∧
  Parser.current_ branchParsed.2 + 1 = length branchTokens.
Proof.
  split; [vm_compute; reflexivity|]. split; [vm_compute; reflexivity|].
  apply (X18_parsed_source_is_read_whole branchSource branchTokens branchParsed.1 branchParsed.2);
    vm_compute; reflexivity.
Defined.

(** ** Reading back a written expression *)

Section ReadBack.
Import Parser.

Lemma drop_head (ts : list Token) c tok more :
  drop c ts = tok :: more →
  nth c ts eof = tok ∧ c < length ts ∧ drop (c + 1) ts = more.
Proof.
  intros H.
  assert (Hl : ts !! c = Some tok).
  { pose proof (lookup_drop ts c 0) as Hd. rewrite H, Nat.add_0_r in Hd. done. }
  split; [|split].
  - by rewrite nth_lookup, Hl.
  - by apply lookup_lt_Some in Hl.
  - by rewrite <- drop_drop, H.
Qed.

Lemma drop_app_head (ts : list Token) c toks rest :
  drop c ts = toks ++ rest → drop (c + length toks) ts = rest.
Proof.
  intros H. rewrite <- drop_drop, H. by rewrite drop_app_length.
Qed.

Lemma match_at ts ty c :
  match_ ty (pos ts c) =
  if bool_decide (typeAt ts c = ty) && negb (bool_decide (ty = EndOfFile))
  then (true, pos ts (c + 1)) else (false, pos ts c).
Proof.
  unfold match_, check, isAtEnd, advance, isAtEnd, peek, pos. cbn [tokens_ current_].
  fold (typeAt ts c).
  destruct (bool_decide_reflect (typeAt ts c = EndOfFile)) as [He|He];
    destruct (bool_decide_reflect (typeAt ts c = ty)) as [Ht|Ht];
    destruct (bool_decide_reflect (ty = EndOfFile)) as [Hy|Hy]; simpl; try done;
    congruence.
Qed.

Lemma consume_at ts ty message c :
  typeAt ts c = ty → ty ≠ EndOfFile →
  consume ty message (pos ts c) = Ret (nth c ts eof, pos ts (c + 1)).
Proof.
  intros Ht Hy. unfold consume, check, isAtEnd, advance, isAtEnd, peek, previous, pos.
  cbn [tokens_ current_]. fold (typeAt ts c). rewrite Ht.
  rewrite (bool_decide_eq_false_2 _ Hy), bool_decide_eq_true_2 by done.
  cbn [tokens_ current_]. by replace (c + 1 - 1) with c by lia.
Qed.

Lemma previous_at ts c : previous (pos ts (c + 1)) = nth c ts eof.
Proof. unfold previous, pos. simpl. by replace (c + 1 - 1) with c by lia. Qed.

Lemma matchFirst_at ts c ops :
  matchFirst ops (pos ts c) =
  if bool_decide (typeAt ts c = EndOfFile) then None
  else (fun o : TokenType * string => (o.2, pos ts (c + 1))) <$>
       find (fun o : TokenType * string => bool_decide (typeAt ts c = o.1)) ops.
Proof.
  induction ops as [|[ty op] ops IH]; simpl; [by case_bool_decide|].
  rewrite match_at.
  destruct (bool_decide_reflect (typeAt ts c = ty)) as [Ht|Ht]; simpl.
  - destruct (bool_decide_reflect (ty = EndOfFile)) as [Hy|Hy]; simpl.
    + rewrite IH. rewrite bool_decide_eq_true_2 by congruence. done.
    + rewrite bool_decide_eq_false_2 by congruence. done.
  - exact IH.
Qed.

Lemma stopsAt_mono lvl lvl' rest :
  lvl ≤ lvl' → stopsAt lvl rest = true → stopsAt lvl' rest = true.
Proof.
  unfold stopsAt. destruct rest as [|tok rest]; [done|].
  destruct (opLevel (type tok)); [|done].
  intros Hle H%Nat.ltb_lt. apply Nat.ltb_lt. lia.
Qed.

(** What ends an expression for level [lvl] is no operator of the loop of
    that level. *)
Lemma matchFirst_stop ts c lvl rest :
  drop c ts = rest → stopsAt lvl rest = true →
  matchFirst (opsAt lvl) (pos ts c) = None.
Proof.
  intros Hd Hs. destruct rest as [|tok rest]; [done|].
  apply drop_head in Hd as (Hn & _ & _).
  rewrite matchFirst_at. unfold typeAt. rewrite Hn.
  case_bool_decide; [done|]. unfold stopsAt in Hs.
  destruct lvl as [|[|[|[|[|[|[|]]]]]]]; try done;
    destruct (type tok); try done.
Qed.

Lemma parseAt_level lvl m p :
  1 ≤ lvl ≤ 6 →
  parseAt lvl m p =
  let* (expr, p1) := parseAt (lvl + 1) m p in
  iterate (S (remaining p1))
    (binaryLoop (opsAt lvl) (parseAt (lvl + 1) m)) (expr, p1).
Proof.
  intros H. destruct lvl as [|[|[|[|[|[|[|]]]]]]]; try lia; reflexivity.
Qed.

Lemma loops_parses lvl m toks e :
  1 ≤ lvl ≤ 6 → loopsFrom lvl m toks e → parsesTo lvl m toks e.
Proof.
  intros Hl Hloop ts c rest Hd Hs.
  destruct (Hloop ts c rest Hd (stopsAt_mono lvl (lvl + 1) rest ltac:(lia) Hs)) as (F & HF & ->).
  destruct F; [lia|]. cbn [iterate]. unfold binaryLoop.
  by rewrite (matchFirst_stop ts _ lvl rest (drop_app_head _ _ _ _ Hd) Hs).
Qed.

Lemma parsesTo_level lvl m toks e :
  1 ≤ lvl ≤ 6 → parsesTo (lvl + 1) m toks e → loopsFrom lvl m toks e.
Proof.
  intros Hl Hq ts c rest Hd Hs. rewrite parseAt_level by done.
  rewrite (Hq ts c rest Hd Hs). cbn [bind].
  exists (S (remaining (pos ts (c + length toks)))). split; [|done].
  unfold remaining, pos. simpl. lia.
Qed.

Lemma typeAt_drop ts c tok more :
  drop c ts = tok :: more → typeAt ts c = type tok.
Proof. intros (Hn & _)%drop_head. unfold typeAt. by rewrite Hn. Qed.

Lemma descend_step lvl m toks e :
  1 ≤ lvl ≤ 8 → (lvl = 8 → startsOperand toks = true) →
  parsesTo (lvl + 1) m toks e →
  parsesTo lvl m toks e ∧ (lvl ≤ 6 → loopsFrom lvl m toks e).
Proof.
  intros Hl Hstart Hq.
  destruct (decide (lvl ≤ 6)) as [H6|H6].
  { pose proof (parsesTo_level lvl m toks e ltac:(lia) Hq) as Hloop.
    split; [apply loops_parses; [lia|done]|done]. }
  split; [|lia]. intros ts c rest Hd Hs.
  destruct (decide (lvl = 7)) as [->|H7].
  - change (parseAt 7 m) with (parsePower (S (2 + m))). cbn [parsePower].
    change (parseUnary (2 + m)) with (parseAt (7 + 1) m).
    rewrite (Hq ts c rest Hd (stopsAt_mono 7 8 rest ltac:(lia) Hs)). cbn [bind].
    rewrite match_at.
    destruct rest as [|tok rest]; [done|].
    rewrite (typeAt_drop ts _ tok rest (drop_app_head _ _ _ _ Hd)).
    unfold stopsAt in Hs.
    destruct (bool_decide_reflect (type tok = Caret)) as [Hc|Hc]; [|done].
    by rewrite Hc in Hs.
  - assert (lvl = 8) as -> by lia. specialize (Hstart eq_refl).
    change (parseAt 8 m) with (parseUnary (S (1 + m))). cbn [parseUnary].
    destruct toks as [|tok toks]; [done|]. simpl in Hd, Hstart.
    apply andb_true_iff in Hstart as [Hm%negb_true_iff Hn%negb_true_iff].
    rewrite match_at, (typeAt_drop ts c tok _ Hd), Hm. cbn [andb].
    rewrite match_at, (typeAt_drop ts c tok _ Hd), Hn. cbn [andb].
    change (parsePrimary (1 + m)) with (parseAt (8 + 1) m).
    apply (Hq ts c rest Hd). apply (stopsAt_mono 8 9); [lia|done].
Qed.

Lemma descend m toks e hi :
  hi ≤ 9 → (hi = 9 → startsOperand toks = true) →
  parsesTo hi m toks e →
  ∀ k lvl, hi = lvl + k → 1 ≤ lvl →
    parsesTo lvl m toks e ∧ (0 < k → lvl ≤ 6 → loopsFrom lvl m toks e).
Proof.
  intros Hhi Hstart Hq. induction k as [|k IH]; intros lvl Hk Hl.
  - replace lvl with hi by lia. split; [done|lia].
  - destruct (IH (lvl + 1) ltac:(lia) ltac:(lia)) as [Hup _].
    destruct (descend_step lvl m toks e ltac:(lia)
                ltac:(intros ->; apply Hstart; lia) Hup) as [Hp Hloop].
    split; [done|]. intros _. exact Hloop.
Qed.

Ltac step_match Hty :=
  rewrite match_at, Hty;
  match goal with
  | |- context [bool_decide ?P && negb (bool_decide ?Q)] =>
      let b := eval vm_compute in (bool_decide P && negb (bool_decide Q)) in
      change (bool_decide P && negb (bool_decide Q)) with b
  end;
  cbv iota beta.

Lemma pos_eq ts c c' : c = c' → pos ts c = pos ts c'.
Proof. by intros ->. Qed.

Lemma parenthesized m toks e :
  parsesTo 1 m toks e → parsesTo 9 (10 + m) (wrap true toks) e.
Proof.
  intros Hq ts c rest Hd _. unfold wrap in Hd. cbn [app] in Hd.
  pose proof (typeAt_drop ts c _ _ Hd) as Hty. cbn [type wordToken] in Hty.
  apply drop_head in Hd as (_ & _ & Hd). rewrite <- app_assoc in Hd. cbn [app] in Hd.
  change (parseAt 9 (10 + m)) with (parsePrimary (S (10 + m))). cbn [parsePrimary].
  do 7 step_match Hty.
  change (parseExpression (10 + m)) with (parseAt 1 m).
  rewrite (Hq ts (c + 1) _ Hd eq_refl). cbn [bind].
  rewrite (consume_at ts RightParen).
  - cbn [bind]. do 2 f_equal. apply pos_eq. unfold wrap. simpl.
    rewrite length_app. simpl. lia.
  - by rewrite (typeAt_drop ts _ _ _ (drop_app_head _ _ _ _ Hd)).
  - done.
Qed.

Lemma literal_parses m vtype text boolValue :
  parsedLiteral vtype text boolValue = true →
  parsesTo 9 m [literalToken vtype text boolValue]
           (LiteralExpr vtype text boolValue).
Proof.
  intros Hlit ts c rest Hd _.
  pose proof (typeAt_drop ts c _ _ Hd) as Hty.
  apply drop_head in Hd as (Hn & _ & _).
  change (parseAt 9 m) with (parsePrimary (S m)). cbn [parsePrimary].
  destruct vtype; simpl in Hlit, Hty; try done.
  - apply negb_true_iff in Hlit as ->.
    do 1 step_match Hty. by rewrite previous_at, Hn.
  - apply negb_true_iff in Hlit as ->.
    do 2 step_match Hty. by rewrite previous_at, Hn.
  - apply negb_true_iff in Hlit as ->.
    do 3 step_match Hty. by rewrite previous_at, Hn.
  - apply orb_true_iff in Hlit as [[Ht ->]%andb_true_iff|[Ht Hb]%andb_true_iff];
      apply String.eqb_eq in Ht as ->.
    + simpl in Hty. by do 4 step_match Hty.
    + apply negb_true_iff in Hb as ->. simpl in Hty. by do 5 step_match Hty.
Qed.

Lemma variable_parses m name :
  parsesTo 9 m [mkToken Identifier name 1 1] (VariableExpr name).
Proof.
  intros ts c rest Hd _.
  pose proof (typeAt_drop ts c _ _ Hd) as Hty.
  apply drop_head in Hd as (Hn & _ & _).
  change (parseAt 9 m) with (parsePrimary (S m)). cbn [parsePrimary].
  simpl in Hty. do 6 step_match Hty. by rewrite previous_at, Hn.
Qed.

Lemma unary_parses m op ty toks operand :
  unaryOp op = Some ty → parsesTo 8 m toks operand →
  parsesTo 8 (S m) (wordToken ty :: toks) (UnaryExpr op operand).
Proof.
  intros Hop Hq ts c rest Hd Hs.
  pose proof (typeAt_drop ts c _ _ Hd) as Hty. cbn [type wordToken] in Hty.
  apply drop_head in Hd as (_ & _ & Hd).
  change (parseAt 8 (S m)) with (parseUnary (S (2 + m))). cbn [parseUnary].
  change (parseUnary (2 + m)) with (parseAt 8 m).
  unfold unaryOp in Hop.
  destruct (String.eqb_spec op "-") as [->|_];
    [|destruct (String.eqb_spec op "!") as [->|_]; [|done]];
    injection Hop as <-.
  - do 1 step_match Hty. rewrite (Hq ts (c + 1) rest Hd Hs). cbn [bind].
    do 2 f_equal. apply pos_eq. simpl. lia.
  - do 2 step_match Hty. rewrite (Hq ts (c + 1) rest Hd Hs). cbn [bind].
    do 2 f_equal. apply pos_eq. simpl. lia.
Qed.

Lemma power_parses m tl tr l r :
  parsesTo 8 (S m) tl l → parsesTo 7 m tr r →
  parsesTo 7 (S m) (tl ++ wordToken Caret :: tr) (BinaryExpr "^" l r).
Proof.
  intros Hl Hr ts c rest Hd Hs. rewrite <- app_assoc in Hd. cbn [app] in Hd.
  change (parseAt 7 (S m)) with (parsePower (S (3 + m))). cbn [parsePower].
  change (parseUnary (3 + m)) with (parseAt 8 (S m)).
  change (parsePower (3 + m)) with (parseAt 7 m).
  rewrite (Hl ts c _ Hd eq_refl). cbn [bind].
  apply drop_app_head in Hd.
  pose proof (typeAt_drop ts _ _ _ Hd) as Hty. cbn [type wordToken] in Hty.
  apply drop_head in Hd as (_ & _ & Hd).
  step_match Hty. rewrite (Hr ts _ rest Hd Hs). cbn [bind].
  do 2 f_equal. apply pos_eq. rewrite length_app. simpl. lia.
Qed.

Lemma binaryOp_spec op k ty :
  binaryOp op = Some (k, ty) →
  opLevel ty = Some k ∧ 1 ≤ k ≤ 7 ∧ (k = 7 → op = "^" ∧ ty = Caret) ∧
  (k ≤ 6 → ∀ ts c, typeAt ts c = ty →
     matchFirst (opsAt k) (pos ts c) = Some (op, pos ts (c + 1))).
Proof.
  unfold binaryOp.
  repeat match goal with
         | |- context [String.eqb ?a ?b] =>
             destruct (String.eqb_spec a b) as [->|_]
         end; intros [= <- <-];
    (split; [done|split; [lia|split; [done || lia|]]]);
    intros Hk ts c Hty; try lia; rewrite matchFirst_at, Hty; reflexivity.
Qed.

Lemma binary_loops k m op ty tl tr l r :
  binaryOp op = Some (k, ty) → k ≤ 6 →
  loopsFrom k m tl l → parsesTo (k + 1) m tr r →
  loopsFrom k m (tl ++ wordToken ty :: tr) (BinaryExpr op l r).
Proof.
  intros Hop Hk Hl Hr ts c rest Hd Hs.
  destruct (binaryOp_spec op k ty Hop) as (Hlvl & Hrange & _ & Hhit).
  rewrite <- app_assoc in Hd. cbn [app] in Hd.
  destruct (Hl ts c _ Hd) as (F & HF & ->).
  { unfold stopsAt. cbn [type wordToken]. rewrite Hlvl. apply Nat.ltb_lt. lia. }
  apply drop_app_head in Hd.
  pose proof (typeAt_drop ts _ _ _ Hd) as Hty. cbn [type wordToken] in Hty.
  apply drop_head in Hd as (_ & Hlt & Hd).
  destruct F as [|F]; [lia|]. cbn [iterate]. unfold binaryLoop at 1.
  rewrite (Hhit Hk ts _ Hty). rewrite (Hr ts _ rest Hd Hs). cbn [bind].
  exists F. rewrite length_app. cbn [length]. split; [lia|].
  do 2 f_equal. apply pos_eq. lia.
Qed.

Lemma nodes_pos e : 1 ≤ nodes e.
Proof. destruct e; simpl; lia. Qed.

Lemma assemble e k natural :
  1 ≤ k ≤ 9 →
  (∀ lvl, lvl ≤ 9 → tokensAt lvl e = wrap (k <? lvl) natural) →
  (k = 9 → startsOperand natural = true) →
  (∀ m, 11 * nodes e ≤ m + 10 →
        parsesTo k m natural e ∧ (k ≤ 6 → loopsFrom k m natural e)) →
  ∀ m lvl, 11 * nodes e ≤ m → 1 ≤ lvl ≤ 9 →
    parsesTo lvl m (tokensAt lvl e) e ∧
    (lvl ≤ 6 → loopsFrom lvl m (tokensAt lvl e) e).
Proof.
  intros Hk Htok Hstart Hnat m lvl Hm Hl. rewrite Htok by lia.
  pose proof (nodes_pos e) as Hsize.
  assert (Hbelow : ∀ m' lvl', 11 * nodes e ≤ m' + 10 → 1 ≤ lvl' ≤ k →
            parsesTo lvl' m' natural e ∧ (lvl' ≤ 6 → loopsFrom lvl' m' natural e)).
  { intros m' lvl' Hm' Hl'. destruct (Hnat m' Hm') as [Hq Hloop].
    destruct (decide (lvl' = k)) as [->|Hne]; [done|].
    destruct (descend m' natural e k ltac:(lia) Hstart Hq (k - lvl') lvl'
                ltac:(lia) ltac:(lia)) as [Hp Hlp].
    split; [done|]. intros H6. apply Hlp; lia. }
  destruct (k <? lvl) eqn:Hcmp.
  - apply Nat.ltb_lt in Hcmp.
    destruct (Hbelow (m - 10) 1 ltac:(lia) ltac:(lia)) as [Hq1 _].
    pose proof (parenthesized (m - 10) natural e Hq1) as Hp9.
    replace (10 + (m - 10)) with m in Hp9 by lia.
    destruct (descend m (wrap true natural) e 9 ltac:(lia) ltac:(done) Hp9
                (9 - lvl) lvl ltac:(lia) ltac:(lia)) as [Hp Hlp].
    split; [done|]. intros H6. apply Hlp; lia.
  - apply Nat.ltb_ge in Hcmp. apply Hbelow; lia.
Qed.

Lemma reads_back e :
  parsedExpr e = true →
  ∀ m lvl, 11 * nodes e ≤ m → 1 ≤ lvl ≤ 9 →
    parsesTo lvl m (tokensAt lvl e) e ∧
    (lvl ≤ 6 → loopsFrom lvl m (tokensAt lvl e) e).
Proof.
  induction e as [vtype text boolValue|name|op operand IH|op l IHl r IHr];
    intros Hwf.
  - apply (assemble _ 9 [literalToken vtype text boolValue]); [lia| | |].
    + intros lvl Hl. replace (9 <? lvl) with false; [done|].
      symmetry. apply Nat.ltb_ge. lia.
    + intros _. by destruct vtype, boolValue.
    + intros m _. split; [by apply literal_parses|lia].
  - apply (assemble _ 9 [mkToken Identifier name 1 1]); [lia| |done|].
    + intros lvl Hl. replace (9 <? lvl) with false; [done|].
      symmetry. apply Nat.ltb_ge. lia.
    + intros m _. split; [by apply variable_parses|lia].
  - cbn [parsedExpr] in Hwf. apply andb_true_iff in Hwf as [Hop Hwf].
    apply bool_decide_eq_true in Hop as [ty Hop].
    apply (assemble _ 8 (wordToken ty :: tokensAt 8 operand)); [lia| |lia|].
    + intros lvl _. cbn [tokensAt]. by rewrite Hop.
    + intros m Hm. cbn [nodes] in Hm. split; [|lia].
      destruct m as [|m]; [lia|]. apply unary_parses; [done|].
      apply (IH Hwf); lia.
  - cbn [parsedExpr] in Hwf.
    apply andb_true_iff in Hwf as [[Hop Hwl]%andb_true_iff Hwr].
    apply bool_decide_eq_true in Hop as [[k ty] Hop].
    destruct (binaryOp_spec op k ty Hop) as (Hlvl & Hrange & Hpow & _).
    destruct (decide (k = 7)) as [->|H7].
    + destruct (Hpow eq_refl) as [-> ->].
      apply (assemble _ 7 (tokensAt 8 l ++ wordToken Caret :: tokensAt 7 r));
        [lia| |lia|].
      * intros lvl _. done.
      * intros m Hm. cbn [nodes] in Hm. split; [|lia].
        destruct m as [|m]; [lia|]. apply power_parses.
        -- apply (IHl Hwl); lia.
        -- apply (IHr Hwr); lia.
    + apply (assemble _ k (tokensAt k l ++ wordToken ty :: tokensAt (k + 1) r));
        [lia| |lia|].
      * intros lvl _. cbn [tokensAt]. rewrite Hop.
        by replace (k =? 7) with false by (symmetry; apply Nat.eqb_neq; lia).
      * intros m Hm. cbn [nodes] in Hm.
        assert (Hloop : loopsFrom k m
                  (tokensAt k l ++ wordToken ty :: tokensAt (k + 1) r)
                  (BinaryExpr op l r)).
        { apply binary_loops; [done|lia| |].
          - apply (IHl Hwl); lia.
          - apply (IHr Hwr); lia. }
        split; [|done]. apply loops_parses; [lia|done].
Qed.

End ReadBack.

(** X19. Precedence and associativity, for every expression: writing an
    expression that the parser can build as tokens with the fewest parentheses
    ([tokensAt]) and running [parseExpression] on them, followed by a token
    that no expression method takes, gives back that very expression and
    leaves the parser right after the written tokens. *)
Theorem X19_written_expression_reads_back e ts c rest fuel :
  parsedExpr e = true →
  drop c ts = tokensAt 1 e ++ rest → stopsAt 1 rest = true →
  11 * nodes e + 10 ≤ fuel →
  Parser.parseExpression fuel (Parser.mkParser ts c) =
  Ret (e, Parser.mkParser ts (c + length (tokensAt 1 e))).
Proof.
  intros Hwf Hd Hs Hfuel.
  replace fuel with (10 + (fuel - 10)) by lia.
  change (Parser.parseExpression (10 + (fuel - 10)))
    with (parseAt 1 (fuel - 10)).
  destruct (reads_back e Hwf (fuel - 10) 1 ltac:(lia) ltac:(lia)) as [Hq _].
  by apply (Hq ts c rest).
Qed.

Lemma X19_written_expression_reads_back_witness :
  parsedExpr sampleExpression = true ∧
  drop 1 sampleTokens =
    tokensAt 1 sampleExpression ++
    [ mkToken Newline "" 1 1; mkToken EndOfFile "" 2 1 ] ∧
  Parser.parseExpression (11 * nodes sampleExpression + 10)
    (Parser.mkParser sampleTokens 1) =
  Ret (sampleExpression,
       Parser.mkParser sampleTokens
         (1 + length (tokensAt 1 sampleExpression))).
Proof.
  split; [reflexivity|]. split; [reflexivity|].
  apply (X19_written_expression_reads_back sampleExpression sampleTokens 1
           [ mkToken Newline "" 1 1; mkToken EndOfFile "" 2 1 ]);
    [reflexivity|reflexivity|reflexivity|lia].
Defined.

(** ** Reading back a written program *)

Section ReadProgram.
Import Parser.

Ltac step_match Hty :=
  rewrite match_at, Hty;
  match goal with
  | |- context [bool_decide ?P && negb (bool_decide ?Q)] =>
      let b := eval vm_compute in (bool_decide P && negb (bool_decide Q)) in
      change (bool_decide P && negb (bool_decide Q)) with b
  end;
  cbv iota beta.

Lemma nodes_le_tokens e : ∀ lvl,
  parsedExpr e = true → nodes e ≤ length (tokensAt lvl e).
Proof.
  induction e as [vtype text boolValue|name|op operand IH|op lhs IHl rhs IHr];
    intros lvl Hwf; cbn [nodes tokensAt]; [done|done| |].
  - cbn [parsedExpr] in Hwf. apply andb_true_iff in Hwf as [Hop Hwf].
    apply bool_decide_eq_true in Hop as [ty ->].
    specialize (IH 8 Hwf). unfold wrap.
    destruct (8 <? lvl); simpl; rewrite ?length_app; simpl; lia.
  - cbn [parsedExpr] in Hwf.
    apply andb_true_iff in Hwf as [[Hop Hwl]%andb_true_iff Hwr].
    apply bool_decide_eq_true in Hop as [[k ty] ->].
    specialize (IHl (if k =? 7 then 8 else k) Hwl).
    specialize (IHr (if k =? 7 then 7 else k + 1) Hwr). unfold wrap.
    destruct (k <? lvl); simpl; rewrite ?length_app; simpl;
      rewrite ?length_app; simpl; lia.
Qed.

Lemma parseExpression_written e ts c rest fuel :
  parsedExpr e = true →
  drop c ts = tokensAt 1 e ++ rest → stopsAt 1 rest = true →
  11 * length (tokensAt 1 e) + 10 ≤ fuel →
  parseExpression fuel (pos ts c) =
  Ret (e, pos ts (c + length (tokensAt 1 e))).
Proof.
  intros Hwf Hd Hs Hfuel. pose proof (nodes_le_tokens e 1 Hwf) as Hn.
  replace fuel with (10 + (fuel - 10)) by lia.
  change (parseExpression (10 + (fuel - 10))) with (parseAt 1 (fuel - 10)).
  destruct (reads_back e Hwf (fuel - 10) 1 ltac:(lia) ltac:(lia)) as [Hq _].
  by apply (Hq ts c rest).
Qed.

Lemma skipNewlines_at ts c :
  typeAt ts c ≠ Newline → skipNewlines (pos ts c) = Ret (tt, pos ts c).
Proof.
  intros Hty. unfold skipNewlines. cbn [iterate]. rewrite match_at.
  by rewrite (bool_decide_eq_false_2 _ Hty).
Qed.

Lemma expectNewline_at ts c context :
  typeAt ts c = Newline → typeAt ts (c + 1) ≠ Newline →
  expectNewline context (pos ts c) = Ret (tt, pos ts (c + 1)).
Proof.
  intros Hty Hnext. unfold expectNewline. rewrite match_at, Hty. simpl.
  by apply skipNewlines_at.
Qed.

Lemma advance_at ts c :
  typeAt ts c ≠ EndOfFile →
  advance (pos ts c) = (nth c ts eof, pos ts (c + 1)).
Proof.
  intros Hty. unfold advance, isAtEnd, peek, previous, pos.
  cbn [tokens_ current_]. fold (typeAt ts c).
  rewrite (bool_decide_eq_false_2 _ Hty). cbn [tokens_ current_].
  by replace (c + 1 - 1) with c by lia.
Qed.

Lemma check_at ts ty c :
  check ty (pos ts c) =
  negb (bool_decide (typeAt ts c = EndOfFile)) && bool_decide (typeAt ts c = ty).
Proof.
  unfold check, isAtEnd, peek, pos. cbn [tokens_ current_].
  fold (typeAt ts c). by destruct (bool_decide (typeAt ts c = EndOfFile)).
Qed.

(** What follows a statement is no [Newline]. *)
Lemma endsStatement_type ts c rest :
  drop c ts = rest → endsStatement rest = true →
  typeAt ts c ≠ Newline ∧ typeAt ts c ≠ KeywordElse.
Proof.
  intros Hd He. destruct rest as [|tok rest]; [done|].
  rewrite (typeAt_drop ts c tok rest Hd). unfold endsStatement in He.
  apply andb_true_iff in He as [Hn%negb_true_iff Hl%negb_true_iff].
  apply bool_decide_eq_false in Hn, Hl. done.
Qed.

Lemma parseParenthesizedCondition_reads n context e ts c rest :
  parsedExpr e = true →
  drop c ts = conditionTokens e ++ rest →
  11 * length (tokensAt 1 e) + 10 ≤ n →
  parseParenthesizedCondition n context (pos ts c) =
  Ret (e, pos ts (c + length (conditionTokens e))).
Proof.
  intros Hwf Hd Hn. unfold conditionTokens in *. cbn [app] in Hd.
  pose proof (typeAt_drop ts c _ _ Hd) as Hty. cbn [type wordToken] in Hty.
  apply drop_head in Hd as (_ & _ & Hd). rewrite <- app_assoc in Hd.
  unfold parseParenthesizedCondition.
  rewrite (consume_at ts LeftParen _ c Hty) by done. cbn [bind].
  rewrite (parseExpression_written e ts (c + 1) _ n Hwf Hd eq_refl Hn).
  cbn [bind]. apply drop_app_head in Hd.
  rewrite (consume_at ts RightParen _ _ (typeAt_drop ts _ _ _ Hd)) by done.
  cbn [bind]. do 2 f_equal. apply pos_eq. simpl. rewrite length_app. simpl. lia.
Qed.

Lemma stmtTokens_If branches elseBranch hasElse :
  stmtTokens (IfStmt branches elseBranch hasElse) =
  match branches with
  | [] => []
  | first :: others =>
      branchTokensOf first ++
      flat_map (fun b => wordToken KeywordElse :: branchTokensOf b) others
  end ++
  (if hasElse then wordToken KeywordElse :: blockTokens (bodyTokens elseBranch)
   else []).
Proof. reflexivity. Qed.

Lemma stmtTokens_While condition body :
  stmtTokens (WhileStmt condition body) =
  wordToken KeywordWhile :: conditionTokens condition ++
  blockTokens (bodyTokens body).
Proof. reflexivity. Qed.

Lemma stmtTokens_For vtype name from to body :
  stmtTokens (ForRangeStmt vtype name from to body) =
  wordToken KeywordFor :: wordToken LeftParen ::
  wordToken (typeKeyword vtype) :: mkToken Identifier name 1 1 ::
  wordToken KeywordFrom :: tokensAt 1 from ++
  wordToken KeywordTo :: tokensAt 1 to ++
  wordToken RightParen :: blockTokens (bodyTokens body).
Proof. reflexivity. Qed.

(** A written statement starts with a token that starts a statement. *)
Lemma stmtTokens_start s :
  parsedStmt s = true →
  ∃ tok more, stmtTokens s = tok :: more ∧ startsStatement (type tok) = true.
Proof.
  destruct s as [vtype name initializer|name value|name|value
                |branches elseBranch hasElse|condition body
                |vtype name from to body]; intros Hwf.
  - cbn [parsedStmt] in Hwf. apply andb_true_iff in Hwf as [Hk _].
    eexists _, _. split; [reflexivity|]. by destruct vtype.
  - by eexists _, _.
  - by eexists _, _.
  - by eexists _, _.
  - cbn [parsedStmt] in Hwf. destruct branches as [|first others]; [done|].
    rewrite stmtTokens_If. by eexists _, _.
  - by eexists _, _.
  - by eexists _, _.
Qed.

Lemma startsStatement_ends tok more :
  startsStatement (type tok) = true → endsStatement (tok :: more) = true.
Proof. unfold endsStatement. by destruct (type tok). Qed.

Lemma body_le_tokens body :
  Forall (fun s => parsedStmt s = true) body →
  length body ≤ length (bodyTokens body).
Proof.
  induction 1 as [|s body Hs _ IH]; [done|].
  destruct (stmtTokens_start s Hs) as (tok & more & Heq & _).
  unfold bodyTokens in *. cbn [flat_map]. rewrite Heq, length_app. simpl. lia.
Qed.

Lemma stmt_in_body s body :
  s ∈ body → length (stmtTokens s) ≤ length (bodyTokens body).
Proof.
  induction 1 as [s body|s s' body _ IH]; unfold bodyTokens in *;
    cbn [flat_map]; rewrite length_app; lia.
Qed.

(** The statements of a body or of a program, read one after the other by
    a loop that goes on while a statement starts. *)
Lemma stmtLoop_reads
    (loop : list Statement * t → Res ParserError (LoopCtl (list Statement * t)))
    (goesOn : TokenType → bool) n ts :
  (∀ acc c,
     loop (acc, pos ts c) =
     if goesOn (typeAt ts c) then
       let* (stmt, p1) := parseStatement n (pos ts c) in
       let* (_, p2) := skipNewlines p1 in
       Ret (Next (acc ++ [stmt], p2))
     else Ret (Done (acc, pos ts c))) →
  (∀ ty, startsStatement ty = true → goesOn ty = true) →
  ∀ body,
    Forall (fun s => parsedStmt s = true ∧ readsStmt n s) body →
    ∀ acc c tok rest fuel,
      drop c ts = bodyTokens body ++ tok :: rest →
      goesOn (type tok) = false → endsStatement (tok :: rest) = true →
      length body < fuel →
      iterate fuel loop (acc, pos ts c) =
      Ret (acc ++ body, pos ts (c + length (bodyTokens body))).
Proof.
  intros Hloop Hstart body Hbody.
  induction Hbody as [|s body [Hwf Hs] Hrest IH];
    intros acc c tok rest fuel Hd Hstop Hend Hfuel.
  - destruct fuel as [|fuel]; [simpl in Hfuel; lia|]. cbn [iterate].
    unfold bodyTokens in *. cbn [flat_map app length] in *.
    rewrite Hloop, (typeAt_drop ts c tok rest Hd), Hstop.
    by rewrite app_nil_r, Nat.add_0_r.
  - destruct fuel as [|fuel]; [simpl in Hfuel; lia|]. cbn [iterate].
    unfold bodyTokens in Hd. cbn [flat_map] in Hd. fold (bodyTokens body) in Hd.
    rewrite <- app_assoc in Hd.
    destruct (stmtTokens_start s Hwf) as (tok1 & more1 & Heq & Hst).
    assert (Hty : typeAt ts c = type tok1).
    { rewrite Heq in Hd. by apply typeAt_drop in Hd. }
    rewrite Hloop, Hty, (Hstart _ Hst).
    assert (Hnext : endsStatement (bodyTokens body ++ tok :: rest) = true).
    { destruct body as [|s2 body]; [done|].
      inversion_clear Hrest as [|? ? [Hwf2 _] _].
      destruct (stmtTokens_start s2 Hwf2) as (tok2 & more2 & Heq2 & Hst2).
      unfold bodyTokens. cbn [flat_map]. rewrite Heq2. cbn [app].
      by apply startsStatement_ends. }
    rewrite (Hs ts c _ Hd Hnext). cbn [bind].
    apply drop_app_head in Hd.
    destruct (endsStatement_type ts _ _ Hd Hnext) as [Hnl _].
    rewrite (skipNewlines_at ts _ Hnl). cbn [bind].
    rewrite (IH (acc ++ [s]) _ tok rest fuel Hd Hstop Hend ltac:(simpl in Hfuel; lia)).
    do 2 f_equal; [by rewrite <- app_assoc|].
    apply pos_eq. unfold bodyTokens. cbn [flat_map]. rewrite length_app. lia.
Qed.

Lemma blockLoop_at n ts acc c :
  blockLoop (parseStatement n) (acc, pos ts c) =
  if negb (bool_decide (typeAt ts c = Dedent)) &&
     negb (bool_decide (typeAt ts c = EndOfFile)) then
    let* (stmt, p1) := parseStatement n (pos ts c) in
    let* (_, p2) := skipNewlines p1 in
    Ret (Next (acc ++ [stmt], p2))
  else Ret (Done (acc, pos ts c)).
Proof.
  unfold blockLoop. rewrite check_at. unfold isAtEnd, peek, pos.
  cbn [tokens_ current_]. fold (typeAt ts c).
  destruct (bool_decide_reflect (typeAt ts c = EndOfFile)) as [He|He];
    destruct (bool_decide_reflect (typeAt ts c = Dedent)) as [Hd|Hd]; try done.
Qed.

Lemma parseIndentedBlock_reads n context body ts c rest :
  Forall (fun s => parsedStmt s = true ∧ readsStmt n s) body →
  drop c ts = blockTokens (bodyTokens body) ++ rest →
  parseIndentedBlock (S n) context (pos ts c) =
  Ret (body, pos ts (c + length (blockTokens (bodyTokens body)))).
Proof.
  intros Hbody Hd. unfold blockTokens in *. cbn [app] in Hd.
  cbn [parseIndentedBlock].
  rewrite (consume_at ts Newline _ c (typeAt_drop ts c _ _ Hd)) by done.
  cbn [bind]. apply drop_head in Hd as (_ & _ & Hd).
  rewrite (consume_at ts Indent _ _ (typeAt_drop ts _ _ _ Hd)) by done.
  cbn [bind]. apply drop_head in Hd as (_ & _ & Hd).
  rewrite <- app_assoc in Hd. cbn [app] in Hd.
  assert (Hend : endsStatement (bodyTokens body ++ wordToken Dedent :: rest) = true).
  { destruct Hbody as [|s2 body [Hwf2 _] _]; [done|].
    destruct (stmtTokens_start s2 Hwf2) as (tok2 & more2 & Heq2 & Hst2).
    unfold bodyTokens. cbn [flat_map]. rewrite Heq2. cbn [app].
    by apply startsStatement_ends. }
  destruct (endsStatement_type ts _ _ Hd Hend) as [Hnl _].
  rewrite (skipNewlines_at ts _ Hnl). cbn [bind].
  assert (Hlen : length body ≤ length (bodyTokens body)).
  { apply body_le_tokens. eapply Forall_impl; [exact Hbody|]. by intros s [? _]. }
  rewrite (stmtLoop_reads (blockLoop (parseStatement n))
             (fun ty => negb (bool_decide (ty = Dedent)) &&
                        negb (bool_decide (ty = EndOfFile)))
             n ts (blockLoop_at n ts) ltac:(by intros []) body Hbody
             [] (c + 1 + 1) (wordToken Dedent) rest _ Hd eq_refl eq_refl).
  - cbn [bind app]. apply drop_app_head in Hd.
    rewrite (consume_at ts Dedent _ _ (typeAt_drop ts _ _ _ Hd)) by done.
    cbn [bind]. do 2 f_equal. apply pos_eq. simpl. rewrite length_app. simpl. lia.
  - unfold remaining, pos. cbn [tokens_ current_].
    pose proof (f_equal length Hd) as Hl.
    rewrite length_drop, length_app in Hl. simpl in Hl. lia.
Qed.

(** The [иначе если] branches and the [иначе] body, read by the loop of
    [parseIf]. *)
Lemma elseLoop_reads n ts elseBranch hasElse :
  (hasElse = false → elseBranch = []) →
  Forall (fun s => parsedStmt s = true ∧ readsStmt n s) elseBranch →
  ∀ others,
    Forall (fun b : Expression * list Statement =>
              parsedExpr b.1 = true ∧
              11 * length (tokensAt 1 b.1) + 10 ≤ S n ∧
              Forall (fun s => parsedStmt s = true ∧ readsStmt n s) b.2)
           others →
    ∀ acc c rest fuel,
      let toks :=
        flat_map (fun b => wordToken KeywordElse :: branchTokensOf b) others ++
        (if hasElse
         then wordToken KeywordElse :: blockTokens (bodyTokens elseBranch)
         else []) in
      drop c ts = toks ++ rest → endsStatement rest = true →
      length others < fuel →
      iterate fuel (elseLoop (S n) (parseIndentedBlock (S n)))
              (acc, [], false, pos ts c) =
      Ret (acc ++ others, elseBranch, hasElse, pos ts (c + length toks)).
Proof.
  intros Helse Hbody others Hothers.
  induction Hothers as [|[cond body] others (Hcond & Hfuel & Hb) _ IH];
    intros acc c rest fuel toks Hd Hend Hlen; subst toks.
  - destruct fuel as [|fuel]; [simpl in Hlen; lia|]. cbn [iterate flat_map app] in *.
    unfold elseLoop. destruct hasElse.
    + cbn [app] in Hd.
      pose proof (typeAt_drop ts c _ _ Hd) as Hty. cbn [type wordToken] in Hty.
      apply drop_head in Hd as (_ & _ & Hd).
      step_match Hty.
      pose proof Hd as Hd'. unfold blockTokens in Hd'. cbn [app] in Hd'.
      pose proof (typeAt_drop ts _ _ _ Hd') as Hty'. cbn [type wordToken] in Hty'.
      step_match Hty'.
      rewrite (parseIndentedBlock_reads n _ elseBranch ts _ rest Hbody Hd).
      cbn [bind]. rewrite app_nil_r. do 2 f_equal. apply pos_eq. simpl. lia.
    + rewrite (Helse eq_refl). cbn [app] in Hd.
      destruct (endsStatement_type ts c rest Hd Hend) as [_ Hne].
      rewrite match_at, (bool_decide_eq_false_2 _ Hne). cbn [andb].
      by rewrite app_nil_r, Nat.add_0_r.
  - destruct fuel as [|fuel]; [simpl in Hlen; lia|]. cbn [iterate].
    cbn [flat_map] in Hd. unfold branchTokensOf in Hd at 1. cbn [fst snd app] in Hd.
    rewrite <- !app_assoc in Hd. cbn [app] in Hd.
    unfold elseLoop at 1.
    pose proof (typeAt_drop ts c _ _ Hd) as Hty. cbn [type wordToken] in Hty.
    apply drop_head in Hd as (_ & _ & Hd). step_match Hty.
    pose proof (typeAt_drop ts _ _ _ Hd) as Hty'. cbn [type wordToken] in Hty'.
    apply drop_head in Hd as (_ & _ & Hd). step_match Hty'.
    rewrite (parseParenthesizedCondition_reads (S n) _ cond ts _ _ Hcond Hd Hfuel).
    cbn [bind]. apply drop_app_head in Hd.
    rewrite (parseIndentedBlock_reads n _ body ts _ _ Hb Hd). cbn [bind].
    apply drop_app_head in Hd. rewrite app_assoc in Hd.
    rewrite (IH (acc ++ [(cond, body)]) _ rest fuel Hd Hend
               ltac:(simpl in Hlen; lia)).
    do 2 f_equal; [by rewrite <- app_assoc|].
    apply pos_eq. cbn [flat_map]. rewrite !length_app. cbn [length].
    unfold branchTokensOf. cbn [fst snd length]. rewrite !length_app. lia.
Qed.

Lemma flat_map_length_in {A B} (f : A → list B) x l :
  x ∈ l → length (f x) ≤ length (flat_map f l).
Proof.
  induction 1 as [x l|x y l _ IH]; cbn [flat_map]; rewrite length_app; lia.
Qed.

Lemma flat_map_length_ge {A B} (f : A → list B) l :
  (∀ x, 1 ≤ length (f x)) → length l ≤ length (flat_map f l).
Proof.
  intros Hf. induction l as [|x l IH]; [done|].
  cbn [flat_map]. rewrite length_app. specialize (Hf x). simpl. lia.
Qed.

Lemma body_ready body n :
  Forall (fun s => parsedStmt s = true →
                   ∀ n, 16 * length (stmtTokens s) ≤ n → readsStmt n s) body →
  forallb parsedStmt body = true →
  16 * length (bodyTokens body) ≤ n →
  Forall (fun s => parsedStmt s = true ∧ readsStmt n s) body.
Proof.
  intros IH Hwf Hn. apply Forall_forall. intros s Hin.
  assert (Hs : parsedStmt s = true).
  { rewrite forallb_forall in Hwf. by apply Hwf, list_elem_of_In. }
  split; [done|]. rewrite Forall_forall in IH. apply (IH s Hin Hs).
  pose proof (stmt_in_body s body Hin). lia.
Qed.

Ltac step_check Hty :=
  rewrite check_at, Hty;
  match goal with
  | |- context [negb (bool_decide ?P) && bool_decide ?Q] =>
      let b := eval vm_compute in (negb (bool_decide P) && bool_decide Q) in
      change (negb (bool_decide P) && bool_decide Q) with b
  end;
  cbv iota beta.

Ltac next_token Hd Hty Hn :=
  pose proof (typeAt_drop _ _ _ _ Hd) as Hty; cbn [type wordToken] in Hty;
  apply drop_head in Hd as (Hn & _ & Hd).

Ltac lengths :=
  repeat (progress (rewrite ?length_app; cbn [length])).

(** The [Newline] that ends a one-line statement. *)
Ltac end_line Hd Hend :=
  let Hnl := fresh "Hnl" in
  let Hnn := fresh "Hnn" in
  pose proof (typeAt_drop _ _ _ _ Hd) as Hnl; cbn [type wordToken] in Hnl;
  apply drop_head in Hd as (_ & _ & Hd);
  destruct (endsStatement_type _ _ _ Hd Hend) as [Hnn _];
  rewrite (expectNewline_at _ _ _ Hnl Hnn); cbn [bind].

(** The choice of [parseStatement] at a token of type [ty]. *)
Ltac dispatch Hty :=
  cbn [parseStatement];
  match goal with
  | |- context [peek (pos ?ts ?c)] =>
      change (type (peek (pos ts c))) with (typeAt ts c)
  end;
  step_check Hty; rewrite ?Hty;
  match goal with
  | |- context [isTypeKeyword ?ty] =>
      let b := eval vm_compute in (isTypeKeyword ty) in
      change (isTypeKeyword ty) with b
  end;
  cbv iota beta.

Lemma stmt_reads s :
  parsedStmt s = true →
  ∀ n, 16 * length (stmtTokens s) ≤ n → readsStmt n s.
Proof.
  induction s as
    [vtype name initializer|name value|name|value
    |branches elseBranch hasElse IHbranches IHelse
    |condition body IHbody|vtype name from to body IHbody]
    using Statement_nested_ind; intros Hwf n Hfuel ts c rest Hd Hend.
  - destruct n as [|n]; [simpl in Hfuel; lia|]. cbn [parseStatement].
    cbn [parsedStmt] in Hwf. apply andb_true_iff in Hwf as [Hk Hwf].
    cbn [stmtTokens app] in Hd, Hfuel |- *.
    next_token Hd Hty Htok.
    change (type (peek (pos ts c))) with (typeAt ts c).
    assert (Hchk : check Indent (pos ts c) = false).
    { rewrite check_at, Hty. by destruct vtype. }
    assert (Hkw : isTypeKeyword (typeAt ts c) = true).
    { rewrite Hty. by destruct vtype. }
    rewrite Hchk, Hkw. unfold parseVarDecl.
    rewrite advance_at by (rewrite Hty; by destruct vtype).
    rewrite Htok.
    match goal with
    | |- context [makeVarDecl ?v] => replace v with vtype by (by destruct vtype)
    end.
    next_token Hd Hty2 Htok2.
    rewrite (consume_at ts Identifier _ _ Hty2) by done. cbn [bind].
    rewrite Htok2. cbn [lexeme].
    destruct initializer as [init|]; cbn [app] in Hd.
    + next_token Hd Hty3 Htok3. step_match Hty3. rewrite <- app_assoc in Hd.
      rewrite (parseExpression_written init ts _ _ n Hwf Hd eq_refl)
        by (cbn [length app] in Hfuel; rewrite ?length_app in Hfuel;
            cbn [length] in Hfuel; lia).
      cbn [bind]. apply drop_app_head in Hd. cbn [app] in Hd.
      end_line Hd Hend. do 2 f_equal. apply pos_eq.
      cbn [length]. rewrite length_app. simpl. lia.
    + pose proof (typeAt_drop _ _ _ _ Hd) as Hty3. cbn [type wordToken] in Hty3.
      step_match Hty3. cbn [bind]. end_line Hd Hend.
      do 2 f_equal. apply pos_eq. simpl. lia.
  - destruct n as [|n]; [simpl in Hfuel; lia|].
    cbn [parsedStmt] in Hwf. cbn [stmtTokens app] in Hd, Hfuel |- *.
    next_token Hd Hty Htok. dispatch Hty. unfold parseAssignment.
    rewrite advance_at by (by rewrite Hty). rewrite Htok. cbn [lexeme].
    next_token Hd Hty2 Htok2.
    rewrite (consume_at ts Assign _ _ Hty2) by done. cbn [bind].
    rewrite <- app_assoc in Hd.
    rewrite (parseExpression_written value ts _ _ n Hwf Hd eq_refl)
      by (cbn [length app] in Hfuel; rewrite ?length_app in Hfuel;
            cbn [length] in Hfuel; lia).
    cbn [bind]. apply drop_app_head in Hd. cbn [app] in Hd.
    end_line Hd Hend. do 2 f_equal. apply pos_eq.
    cbn [length]. rewrite length_app. simpl. lia.
  - destruct n as [|n]; [simpl in Hfuel; lia|].
    cbn [stmtTokens app] in Hd, Hfuel |- *.
    next_token Hd Hty Htok. dispatch Hty. unfold parseInput.
    rewrite advance_at by (by rewrite Hty).
    next_token Hd Hty2 Htok2.
    rewrite (consume_at ts Identifier _ _ Hty2) by done. cbn [bind].
    rewrite Htok2. cbn [lexeme].
    end_line Hd Hend. do 2 f_equal. apply pos_eq. simpl. lia.
  - destruct n as [|n]; [simpl in Hfuel; lia|].
    cbn [parsedStmt] in Hwf. cbn [stmtTokens app] in Hd, Hfuel |- *.
    next_token Hd Hty Htok. dispatch Hty. unfold parseOutput.
    rewrite advance_at by (by rewrite Hty).
    rewrite <- app_assoc in Hd.
    rewrite (parseExpression_written value ts _ _ n Hwf Hd eq_refl)
      by (cbn [length app] in Hfuel; rewrite ?length_app in Hfuel;
            cbn [length] in Hfuel; lia).
    cbn [bind]. apply drop_app_head in Hd. cbn [app] in Hd.
    end_line Hd Hend. do 2 f_equal. apply pos_eq.
    cbn [length]. rewrite length_app. simpl. lia.
  - cbn [parsedStmt] in Hwf.
    apply andb_true_iff in Hwf as [[[Hne Hbr]%andb_true_iff Hwfe]%andb_true_iff He].
    destruct branches as [|[cond body] others]; [done|]. clear Hne.
    cbn [forallb fst snd] in Hbr.
    apply andb_true_iff in Hbr as [[Hc Hb]%andb_true_iff Hbr].
    apply Forall_cons in IHbranches as [IHbody IHothers]. cbn [snd] in IHbody.
    rewrite stmtTokens_If in Hd, Hfuel |- *.
    set (elseToks :=
           if hasElse
           then wordToken KeywordElse :: blockTokens (bodyTokens elseBranch)
           else []) in *.
    set (otherToks :=
           flat_map (fun b => wordToken KeywordElse :: branchTokensOf b) others)
      in *.
    assert (Hlen : length (branchTokensOf (cond, body)) =
                   6 + length (tokensAt 1 cond) + length (bodyTokens body)).
    { unfold branchTokensOf, conditionTokens, blockTokens. cbn [fst snd].
      lengths. lia. }
    rewrite !length_app, Hlen in Hfuel.
    destruct n as [|[|[|n]]]; [lia..|].
    assert (Helse : hasElse = false → elseBranch = []).
    { intros ->. by apply bool_decide_eq_true in He. }
    assert (Hlene : length (bodyTokens elseBranch) ≤ length elseToks).
    { unfold elseToks. destruct hasElse; [|by rewrite Helse].
      unfold blockTokens. cbn [length]. rewrite length_app. lia. }
    assert (Hothers :
      Forall (fun b : Expression * list Statement =>
                parsedExpr b.1 = true ∧
                11 * length (tokensAt 1 b.1) + 10 ≤ S n ∧
                Forall (fun s => parsedStmt s = true ∧ readsStmt n s) b.2)
             others).
    { apply Forall_forall. intros b Hin.
      rewrite forallb_forall in Hbr.
      pose proof (Hbr b (proj1 (list_elem_of_In _ _) Hin)) as [Hcb Hbb]%andb_true_iff.
      pose proof (flat_map_length_in
                    (fun b => wordToken KeywordElse :: branchTokensOf b)
                    b others Hin) as Hin_len.
      fold otherToks in Hin_len.
      unfold branchTokensOf, conditionTokens, blockTokens in Hin_len.
      revert Hin_len. lengths. intros Hin_len.
      split; [done|]. split; [lia|].
      rewrite Forall_forall in IHothers.
      apply body_ready; [by apply IHothers|done|lia]. }
    unfold branchTokensOf in Hd at 1. cbn [fst snd app] in Hd.
    rewrite <- !app_assoc in Hd.
    next_token Hd Hty Htok. dispatch Hty. cbn [parseIf].
    rewrite advance_at by (by rewrite Hty).
    rewrite (parseParenthesizedCondition_reads (S n) _ cond ts _ _ Hc Hd)
      by lia.
    cbn [bind]. apply drop_app_head in Hd.
    rewrite (parseIndentedBlock_reads n _ body ts _ _
               (body_ready body n IHbody Hb ltac:(lia)) Hd).
    cbn [bind]. apply drop_app_head in Hd. rewrite app_assoc in Hd.
    rewrite (elseLoop_reads n ts elseBranch hasElse Helse
               (body_ready elseBranch n IHelse Hwfe ltac:(lia))
               others Hothers [(cond, body)] _ rest _ Hd Hend).
    + cbn [bind app]. do 2 f_equal. apply pos_eq.
      fold otherToks. fold elseToks. rewrite !length_app, Hlen.
      unfold conditionTokens, blockTokens. lengths. lia.
    + unfold remaining, pos. cbn [tokens_ current_].
      pose proof (f_equal length Hd) as Hl.
      rewrite length_drop, !length_app in Hl.
      pose proof (flat_map_length_ge
                    (fun b => wordToken KeywordElse :: branchTokensOf b) others
                    ltac:(intros b; simpl; lia)) as Hge.
      fold otherToks in Hl, Hge. lia.
  - cbn [parsedStmt] in Hwf. apply andb_true_iff in Hwf as [Hc Hb].
    rewrite stmtTokens_While in Hd, Hfuel |- *. cbn [app] in Hd.
    assert (Hlen : length (wordToken KeywordWhile :: conditionTokens condition ++
                           blockTokens (bodyTokens body)) =
                   6 + length (tokensAt 1 condition) + length (bodyTokens body)).
    { unfold conditionTokens, blockTokens. lengths. lia. }
    rewrite Hlen in Hfuel |- *.
    destruct n as [|[|[|n]]]; [lia..|].
    rewrite <- app_assoc in Hd.
    next_token Hd Hty Htok. dispatch Hty. cbn [parseWhile].
    rewrite advance_at by (by rewrite Hty).
    rewrite (parseParenthesizedCondition_reads (S n) _ condition ts _ _ Hc Hd)
      by lia.
    cbn [bind]. apply drop_app_head in Hd.
    rewrite (parseIndentedBlock_reads n _ body ts _ _
               (body_ready body n IHbody Hb ltac:(lia)) Hd).
    cbn [bind]. do 2 f_equal. apply pos_eq.
    unfold conditionTokens, blockTokens. lengths. lia.
  - cbn [parsedStmt] in Hwf.
    apply andb_true_iff in Hwf as [[[Hk Hwf]%andb_true_iff Hwt]%andb_true_iff Hb].
    rewrite stmtTokens_For in Hd, Hfuel |- *. cbn [app] in Hd.
    assert (Hlen : length (wordToken KeywordFor :: wordToken LeftParen ::
                     wordToken (typeKeyword vtype) :: mkToken Identifier name 1 1 ::
                     wordToken KeywordFrom :: tokensAt 1 from ++
                     wordToken KeywordTo :: tokensAt 1 to ++
                     wordToken RightParen :: blockTokens (bodyTokens body)) =
                   10 + length (tokensAt 1 from) + length (tokensAt 1 to) +
                   length (bodyTokens body)).
    { unfold blockTokens. lengths. lia. }
    rewrite Hlen in Hfuel |- *.
    destruct n as [|[|[|n]]]; [lia..|].
    next_token Hd Hty Htok. dispatch Hty. cbn [parseFor].
    rewrite advance_at by (by rewrite Hty).
    next_token Hd Hty2 Htok2.
    rewrite (consume_at ts LeftParen _ _ Hty2) by done. cbn [bind].
    next_token Hd Hty3 Htok3.
    assert (Htype : parseTypeKeyword "цикла 'для'" (pos ts (c + 1 + 1)) =
                    Ret (vtype, pos ts (c + 1 + 1 + 1))).
    { unfold parseTypeKeyword.
      destruct vtype; try done; cbn [typeKeyword] in Hty3;
        [do 1 step_match Hty3|do 2 step_match Hty3
        |do 3 step_match Hty3|do 4 step_match Hty3]; done. }
    rewrite Htype. cbn [bind].
    next_token Hd Hty4 Htok4.
    rewrite (consume_at ts Identifier _ _ Hty4) by done. cbn [bind].
    rewrite Htok4. cbn [lexeme].
    next_token Hd Hty5 Htok5.
    rewrite (consume_at ts KeywordFrom _ _ Hty5) by done. cbn [bind].
    rewrite <- app_assoc in Hd. cbn [app] in Hd.
    rewrite (parseExpression_written from ts _ _ (S n) Hwf Hd eq_refl) by lia.
    cbn [bind]. apply drop_app_head in Hd.
    next_token Hd Hty6 Htok6.
    rewrite (consume_at ts KeywordTo _ _ Hty6) by done. cbn [bind].
    rewrite <- app_assoc in Hd. cbn [app] in Hd.
    rewrite (parseExpression_written to ts _ _ (S n) Hwt Hd eq_refl) by lia.
    cbn [bind]. apply drop_app_head in Hd.
    next_token Hd Hty7 Htok7.
    rewrite (consume_at ts RightParen _ _ Hty7) by done. cbn [bind].
    rewrite (parseIndentedBlock_reads n _ body ts _ _
               (body_ready body n IHbody Hb ltac:(lia)) Hd).
    cbn [bind]. do 2 f_equal. apply pos_eq.
    unfold blockTokens. lengths. lia.
Qed.

End ReadProgram.

Lemma programLoop_at n ts acc c :
  Parser.programLoop n (acc, pos ts c) =
  if negb (bool_decide (typeAt ts c = EndOfFile)) then
    let* (stmt, p1) := Parser.parseStatement n (pos ts c) in
    let* (_, p2) := Parser.skipNewlines p1 in
    Ret (Next (acc ++ [stmt], p2))
  else Ret (Done (acc, pos ts c)).
Proof. reflexivity. Qed.

(** The parser run on a written program. *)
Lemma runParser_written stmts :
  Forall (fun s => parsedStmt s = true) stmts →
  Parser.runParser (bodyTokens stmts ++ [wordToken EndOfFile]) =
  Ret (mkProgram stmts,
       pos (bodyTokens stmts ++ [wordToken EndOfFile])
           (length (bodyTokens stmts))).
Proof.
  intros Hall. unfold Parser.runParser.
  set (ts := bodyTokens stmts ++ [wordToken EndOfFile]).
  assert (Hd : drop 0 ts = bodyTokens stmts ++ wordToken EndOfFile :: []) by done.
  assert (Hend : endsStatement (bodyTokens stmts ++ [wordToken EndOfFile]) = true).
  { destruct Hall as [|s stmts Hs _]; [done|].
    destruct (stmtTokens_start s Hs) as (tok & more & Heq & Hst).
    unfold bodyTokens. cbn [flat_map]. rewrite Heq. cbn [app].
    by apply startsStatement_ends. }
  destruct (endsStatement_type ts 0 _ Hd Hend) as [Hnl _].
  change (Parser.mkParser ts 0) with (pos ts 0).
  rewrite (skipNewlines_at ts 0 Hnl). cbn [bind].
  rewrite (stmtLoop_reads (Parser.programLoop (Parser.callDepth ts))
             (fun ty => negb (bool_decide (ty = EndOfFile)))
             (Parser.callDepth ts) ts (programLoop_at _ ts) ltac:(by intros [])
             stmts) with (tok := wordToken EndOfFile) (rest := []);
    [done| |done|done|done|].
  - apply Forall_forall. intros s Hin. rewrite Forall_forall in Hall.
    split; [by apply Hall|]. apply stmt_reads; [by apply Hall|].
    pose proof (stmt_in_body s stmts Hin) as Hle.
    unfold Parser.callDepth, ts. rewrite length_app. lia.
  - unfold Parser.remaining, pos, ts.
    cbn [Parser.tokens_ Parser.current_].
    pose proof (body_le_tokens stmts Hall). rewrite length_app. simpl. lia.
Qed.

(** X20. The parser reads back every program it can build: a program whose
    statements have the form [parseProgram] gives them, written as the tokens
    of its lines and blocks ([programTokens]), is parsed by [parseProgram]
    into that very program. *)
Theorem X20_written_program_reads_back program :
  forallb parsedStmt (statements program) = true →
  Parser.parseProgram (programTokens program) = Ret program.
Proof.
  destruct program as [stmts]. cbn [statements]. intros Hwf.
  unfold Parser.parseProgram, programTokens. cbn [statements].
  rewrite runParser_written; [done|].
  apply Forall_forall. intros s Hin. rewrite forallb_forall in Hwf.
  by apply Hwf, list_elem_of_In.
Qed.

Lemma X20_written_program_reads_back_witness :
  forallb parsedStmt (statements branchParsed.1) = true ∧
  Parser.parseProgram (programTokens branchParsed.1) = Ret branchParsed.1.
Proof.
  split; [reflexivity|].
  apply (X20_written_program_reads_back branchParsed.1). reflexivity.
Defined.

(** ** The last line of an accepted program *)

Section LineEnds.
Import Parser.

Lemma leaves_bind {A B} (Q : t → Prop) (r : Res ParserError (A * t))
    (k : A * t → Res ParserError (B * t)) :
  (∀ x, leaves Q (k x)) → leaves Q (bind r k).
Proof. intros Hk. destruct r as [x| |]; [apply Hk|done..]. Qed.

Lemma leaves_last {A B} (Q : t → Prop) (r : Res ParserError (A * t)) (b : B) :
  leaves Q r → leaves Q (let* (_, p') := r in Ret (b, p')).
Proof. by destruct r as [[a p']| |]. Qed.

Lemma advance_passed p :
  isAtEnd p = false → passed (type (peek p)) (advance p).2.
Proof.
  intros He. unfold advance, passed. rewrite He. cbn [snd current_].
  split; [lia|]. unfold previous, peek. cbn [tokens_ current_].
  by replace (current_ p + 1 - 1) with (current_ p) by lia.
Qed.

Lemma check_true ty p :
  check ty p = true → isAtEnd p = false ∧ type (peek p) = ty.
Proof.
  unfold check. destruct (isAtEnd p); [done|].
  by intros ?%bool_decide_eq_true.
Qed.

Lemma consume_passed ty message p :
  leaves (passed ty) (consume ty message p).
Proof.
  unfold consume. destruct (check ty p) eqn:Hc; [|done].
  apply check_true in Hc as [He <-]. cbn [leaves].
  pose proof (advance_passed p He) as H. by destruct (advance p).
Qed.

Lemma match_passed ty p :
  if (match_ ty p).1 then passed ty (match_ ty p).2 else (match_ ty p).2 = p.
Proof.
  unfold match_. destruct (check ty p) eqn:Hc; [|done].
  apply check_true in Hc as [He <-]. by apply advance_passed.
Qed.

Lemma skipNewlines_leaves p :
  leaves (fun p' => p' = p ∨ passed Newline p') (skipNewlines p).
Proof.
  unfold skipNewlines.
  pose proof (iterate_invariant (E := ParserError)
    (fun q => let (b, q1) := match_ Newline q in
              if b then Ret (Next q1) else Ret (Done q1))
    (fun q => q = p ∨ passed Newline q) (fun q => q = p ∨ passed Newline q)
    (fun _ => True)) as Hloop.
  specialize (Hloop ltac:(
    intros q Hq; cbv beta; pose proof (match_passed Newline q) as Hm;
    destruct (match_ Newline q) as [[] q1]; cbn [fst snd] in Hm;
    [by right|by subst q1]) (S (remaining p)) p (or_introl eq_refl)).
  by destruct (iterate _ _ _) as [p1| |].
Qed.

Lemma expectNewline_leaves context p :
  leaves lineEnded (expectNewline context p).
Proof.
  unfold expectNewline. pose proof (match_passed Newline p) as Hm.
  destruct (match_ Newline p) as [[] p1]; cbn [fst snd] in Hm.
  - pose proof (skipNewlines_leaves p1) as Hs.
    destruct (skipNewlines p1) as [[[] p2]| |]; [|done..]. cbn [leaves] in *.
    left. destruct Hs as [->|[Hc Hp]]; [|split; [done|by left]].
    destruct Hm as [Hc Hp]. split; [done|by left].
  - subst p1. rewrite check_EndOfFile_false, orb_false_r.
    destruct (check Dedent p) eqn:Hc; [|done].
    apply check_true in Hc as [_ Hc]. by right.
Qed.

Lemma parseIndentedBlock_leaves n context p :
  leaves (passed Dedent) (parseIndentedBlock n context p).
Proof.
  destruct n as [|n]; [done|]. cbn [parseIndentedBlock].
  do 4 (apply leaves_bind; intros [? ?]).
  apply leaves_last, consume_passed.
Qed.

Lemma passed_ended ty p :
  ty = Newline ∨ ty = Dedent → passed ty p → lineEnded p.
Proof. intros Hty [Hc Hp]. left. rewrite Hp. done. Qed.

Lemma parseIf_leaves n p : leaves lineEnded (parseIf n p).
Proof.
  destruct n as [|n]; [done|]. cbn [parseIf].
  destruct (advance p) as [tok p1].
  apply leaves_bind; intros [condition p2].
  pose proof (parseIndentedBlock_leaves n "условия 'если'" p2) as Hblock.
  destruct (parseIndentedBlock n "условия 'если'" p2) as [[ifBody p3]| |];
    [|done..].
  cbn [bind leaves] in Hblock |- *.
  assert (Hstep : ∀ st : IfState, lineEnded st.2 →
            match elseLoop n (parseIndentedBlock n) st with
            | Ret (Next st') => lineEnded st'.2
            | Ret (Done st') => lineEnded st'.2
            | _ => True
            end).
  { intros [[[branches elseBranch] hasElse] q] Hq. cbn [snd] in Hq.
    unfold elseLoop. pose proof (match_passed KeywordElse q) as Hm.
    destruct (match_ KeywordElse q) as [[] q1]; cbn [fst snd] in Hm;
      [|by subst q1].
    destruct (match_ KeywordIf q1) as [[] q2].
    - destruct (parseParenthesizedCondition n "иначе если" q2)
        as [[elseIfCond q3]| |]; [|done..]. cbn [bind].
      pose proof (parseIndentedBlock_leaves n "условия 'иначе если'" q3) as Hb.
      destruct (parseIndentedBlock n "условия 'иначе если'" q3)
        as [[elseIfBody q4]| |]; [|done..].
      apply (passed_ended Dedent); [by right|exact Hb].
    - pose proof (parseIndentedBlock_leaves n "блока 'иначе'" q2) as Hb.
      destruct (parseIndentedBlock n "блока 'иначе'" q2)
        as [[body q3]| |]; [|done..].
      apply (passed_ended Dedent); [by right|exact Hb]. }
  pose proof (iterate_invariant (elseLoop n (parseIndentedBlock n))
    (fun st : IfState => lineEnded st.2) (fun st : IfState => lineEnded st.2)
    (fun _ => True) Hstep
    (S (remaining p3)) ([(condition, ifBody)], [], false, p3)
    (passed_ended Dedent p3 (or_intror eq_refl) Hblock)) as Hloop.
  by destruct (iterate _ _ _) as [[[[branches elseBranch] hasElse] p4]| |].
Qed.

Lemma parseStatement_leaves n p : leaves lineEnded (parseStatement n p).
Proof.
  destruct n as [|n]; [done|]. cbn [parseStatement].
  destruct (check Indent p); [done|].
  assert (Hblock : ∀ m (A : Type) (f : list Statement → A) context q,
            leaves lineEnded
              (let* (body, q') := parseIndentedBlock m context q in
               Ret (f body, q'))).
  { intros m A f context q.
    pose proof (parseIndentedBlock_leaves m context q) as Hb.
    destruct (parseIndentedBlock m context q) as [[body q']| |]; [|done..].
    apply (passed_ended Dedent); [by right|exact Hb]. }
  destruct (isTypeKeyword _).
  { unfold parseVarDecl. destruct (advance p) as [tok p1].
    apply leaves_bind; intros [name p2].
    destruct (match_ Assign p2) as [b p3].
    apply leaves_bind; intros [initializer p4].
    apply leaves_last, expectNewline_leaves. }
  destruct (type (peek p)); try done.
  - unfold parseAssignment. destruct (advance p) as [tok p1].
    do 2 (apply leaves_bind; intros [? ?]).
    apply leaves_last, expectNewline_leaves.
  - apply parseIf_leaves.
  - destruct n as [|n]; [done|]. cbn [parseWhile].
    destruct (advance p) as [tok p1].
    apply leaves_bind; intros [condition p2].
    apply (Hblock n _ (makeWhile condition)).
  - destruct n as [|n]; [done|]. cbn [parseFor].
    destruct (advance p) as [tok p1].
    do 8 (apply leaves_bind; intros [? ?]).
    match goal with
    | |- context [makeFor ?a ?b ?c ?d] => apply (Hblock n _ (makeFor a b c d))
    end.
  - unfold parseInput. destruct (advance p) as [tok p1].
    apply leaves_bind; intros [name p2].
    apply leaves_last, expectNewline_leaves.
  - unfold parseOutput. destruct (advance p) as [tok p1].
    apply leaves_bind; intros [value p2].
    apply leaves_last, expectNewline_leaves.
Qed.

(** Where [parseProgram] stops, a line or a block has just ended, or
    nothing has been read. *)
Lemma runParser_leaves ts :
  leaves (fun p => current_ p = 0 ∨ passed Newline p ∨ passed Dedent p)
         (runParser ts).
Proof.
  unfold runParser.
  pose proof (skipNewlines_leaves (mkParser ts 0)) as Hs.
  destruct (skipNewlines (mkParser ts 0)) as [[[] p1]| |]; [|done..].
  cbn [bind leaves] in Hs |- *.
  assert (Hstep : ∀ st : list Statement * t,
            current_ st.2 = 0 ∨ lineEnded st.2 →
            match programLoop (callDepth ts) st with
            | Ret (Next st') => current_ st'.2 = 0 ∨ lineEnded st'.2
            | Ret (Done st') =>
                (current_ st'.2 = 0 ∨ lineEnded st'.2) ∧ isAtEnd st'.2 = true
            | _ => True
            end).
  { intros [stmts q] Hq. cbn [snd] in Hq. unfold programLoop.
    destruct (isAtEnd q) eqn:He; cbn [negb]; [done|].
    pose proof (parseStatement_leaves (callDepth ts) q) as Hst.
    destruct (parseStatement (callDepth ts) q) as [[stmt q1]| |]; [|done..].
    cbn [bind leaves] in Hst |- *.
    pose proof (skipNewlines_leaves q1) as Hsk.
    destruct (skipNewlines q1) as [[[] q2]| |]; [|done..].
    cbn [bind leaves snd] in Hsk |- *. right.
    destruct Hsk as [->|Hsk]; [done|].
    apply (passed_ended Newline); [by left|done]. }
  pose proof (iterate_invariant (programLoop (callDepth ts))
    (fun st => current_ st.2 = 0 ∨ lineEnded st.2)
    (fun st => (current_ st.2 = 0 ∨ lineEnded st.2) ∧ isAtEnd st.2 = true)
    (fun _ => True) Hstep (S (remaining p1)) ([], p1)) as Hloop.
  destruct (iterate _ _ _) as [[stmts p2]| |]; [|done..]. cbn [bind leaves].
  destruct Hloop as [Hp He].
  { destruct Hs as [->|Hs]; [by left|].
    right. apply (passed_ended Newline); [by left|done]. }
  cbn [snd] in Hp, He. apply bool_decide_eq_true in He.
  destruct Hp as [?|[[? [?|?]]|Hd]]; [by left|by right; left|by right; right|].
  congruence.
Qed.

End LineEnds.

(** X21. A last line that is not ended is rejected: when the token stream
    of a source has, directly before its [EndOfFile], a token that is neither
    a [Newline] nor a [Dedent] (the last line holds a statement, is not in a
    block and has no line feed after it), [translate] fails with an error of
    the parser. *)
Theorem X21_open_last_line_rejected source front tok eofTok :
  Lexer.tokenize source = Ret (front ++ [tok; eofTok]) →
  type tok ≠ Newline → type tok ≠ Dedent →
  ∃ e, translate source = Throw (ParseFailure e).
Proof.
  intros Hlex Hnl Hdd. unfold translate. rewrite Hlex.
  set (ts := front ++ [tok; eofTok]) in *.
  pose proof (parseProgram_total ts) as Htotal.
  unfold Parser.parseProgram in *.
  pose proof (runParser_leaves ts) as Hleaves.
  pose proof (runParser_wf (inside ts) (advance_inside ts) ts) as Hin.
  pose proof (runParser_spec ts) as Hspec.
  destruct (Parser.runParser ts) as [[program p]|e|]; cbn [bind] in *;
    [exfalso|by exists e|done].
  destruct Hin as [_ [Ht Hi]]; [split; [done|]; simpl; lia|].
  destruct Hspec as (c & -> & Hty & _). cbn [Parser.current_ pos leaves] in *.
  revert Hlex. unfold Lexer.tokenize. pose proof (runLexer_spec source) as Hl.
  destruct (Lexer.runLexer source) as [L|[e Lf]|]; [|done..].
  intros [= Heq]. destruct Hl as (front' & Hts & _ & Hne).
  rewrite Heq in Hts. unfold ts in Hts.
  replace (front ++ [tok; eofTok]) with ((front ++ [tok]) ++ [eofTok]) in Hts
    by (by rewrite <- app_assoc).
  apply app_inj_tail in Hts as [<- ->].
  assert (Hc : c = length front + 1).
  { destruct (decide (c ≤ length front + 1)) as [Hle|Hgt].
    - destruct (decide (c = length front + 1)) as [|Hlt]; [done|].
      rewrite Forall_forall in Hne.
      destruct (Hne (nth c (front ++ [tok]) Parser.eof)).
      + apply list_elem_of_In, nth_In. rewrite length_app. simpl. lia.
      + revert Hty. unfold typeAt, ts.
        replace (front ++ [tok; mkToken EndOfFile "" (Lexer.line_ L) (Lexer.column_ L)])
          with ((front ++ [tok]) ++ [mkToken EndOfFile "" (Lexer.line_ L) (Lexer.column_ L)])
          by (by rewrite <- app_assoc).
        rewrite app_nth1; [done|]. rewrite length_app. simpl. lia.
    - destruct (Hi (length front + 1) ltac:(lia)).
      unfold typeAt, ts.
      replace (front ++ [tok; mkToken EndOfFile "" (Lexer.line_ L) (Lexer.column_ L)])
        with ((front ++ [tok]) ++ [mkToken EndOfFile "" (Lexer.line_ L) (Lexer.column_ L)])
        by (by rewrite <- app_assoc).
      replace (length front + 1) with (length (front ++ [tok]))
        by (rewrite length_app; simpl; lia).
      by rewrite nth_middle. }
  subst c.
  assert (Hprev : Parser.previous (pos ts (length front + 1)) = tok).
  { unfold Parser.previous, pos, ts. cbn [Parser.tokens_ Parser.current_].
    replace (length front + 1 - 1) with (length front) by lia.
    by rewrite nth_middle. }
  unfold passed in Hleaves. rewrite Hprev in Hleaves.
  cbn [Parser.current_] in Hleaves. destruct Hleaves as [?|[[_ ?]|[_ ?]]]; [lia|done..].
Qed.

Lemma X21_open_last_line_rejected_witness :
  Lexer.tokenize powerSource =
    Ret ([ mkToken KeywordInteger "целое" 1 1; mkToken Identifier "x" 1 12;
           mkToken Assign "" 1 14; mkToken IntegerLiteral "2" 1 16;
           mkToken Caret "" 1 18; mkToken IntegerLiteral "3" 1 20;
           mkToken Caret "" 1 22 ] ++
         [ mkToken IntegerLiteral "2" 1 24; mkToken EndOfFile "" 1 25 ]) ∧
  ∃ e, translate powerSource = Throw (ParseFailure e).
Proof.
  split; [vm_compute; reflexivity|].
  apply (X21_open_last_line_rejected powerSource
           [ mkToken KeywordInteger "целое" 1 1; mkToken Identifier "x" 1 12;
             mkToken Assign "" 1 14; mkToken IntegerLiteral "2" 1 16;
             mkToken Caret "" 1 18; mkToken IntegerLiteral "3" 1 20;
             mkToken Caret "" 1 22 ]
           (mkToken IntegerLiteral "2" 1 24) (mkToken EndOfFile "" 1 25));
    [vm_compute; reflexivity|done|done].
Defined.

(** ** The parser does not look at lines and columns *)

Section Places.
Import Parser.

Lemma peek_unplaced p : peek (unplacedParser p) = unplaced (peek p).
Proof.
  unfold peek, unplacedParser. cbn [tokens_ current_].
  change eof with (unplaced eof) at 1. apply map_nth.
Qed.

Lemma previous_unplaced p : previous (unplacedParser p) = unplaced (previous p).
Proof.
  unfold previous, unplacedParser. cbn [tokens_ current_].
  change eof with (unplaced eof) at 1. apply map_nth.
Qed.

Lemma isAtEnd_unplaced p : isAtEnd (unplacedParser p) = isAtEnd p.
Proof. unfold isAtEnd. by rewrite peek_unplaced. Qed.

Lemma check_unplaced ty p : check ty (unplacedParser p) = check ty p.
Proof. unfold check. by rewrite isAtEnd_unplaced, peek_unplaced. Qed.

Lemma remaining_unplaced p : remaining (unplacedParser p) = remaining p.
Proof. unfold remaining, unplacedParser. simpl. by rewrite length_map. Qed.

Lemma advance_unplaced p :
  advance (unplacedParser p) =
  (unplaced (advance p).1, unplacedParser (advance p).2).
Proof.
  unfold advance. rewrite isAtEnd_unplaced.
  destruct (isAtEnd p); cbn [fst snd].
  - by rewrite previous_unplaced.
  - change (mkParser (tokens_ (unplacedParser p)) (current_ (unplacedParser p) + 1))
      with (unplacedParser (mkParser (tokens_ p) (current_ p + 1))).
    by rewrite previous_unplaced.
Qed.

Lemma match_unplaced ty p :
  match_ ty (unplacedParser p) =
  ((match_ ty p).1, unplacedParser (match_ ty p).2).
Proof.
  unfold match_. rewrite check_unplaced.
  destruct (check ty p); [|done]. by rewrite advance_unplaced.
Qed.

Lemma consume_unplaced ty message p :
  consume ty message (unplacedParser p) =
  match consume ty message p with
  | Ret (tok, p') => Ret (unplaced tok, unplacedParser p')
  | Throw e => Throw e
  | Starved => Starved
  end.
Proof.
  unfold consume. rewrite check_unplaced.
  destruct (check ty p); [|done]. rewrite advance_unplaced.
  by destruct (advance p).
Qed.

(** A loop whose turns commute with a change of the state commutes with
    it. *)
Lemma iterate_commutes {E St} (g : St → St)
    (body : St → Res E (LoopCtl St)) :
  (∀ s, body (g s) =
        match body s with
        | Ret (Next s') => Ret (Next (g s'))
        | Ret (Done s') => Ret (Done (g s'))
        | Throw e => Throw e
        | Starved => Starved
        end) →
  ∀ fuel s,
    iterate fuel body (g s) =
    match iterate fuel body s with
    | Ret s' => Ret (g s')
    | Throw e => Throw e
    | Starved => Starved
    end.
Proof.
  intros Hbody fuel. induction fuel as [|fuel IH]; intros s; [done|].
  cbn [iterate]. rewrite Hbody. by destruct (body s) as [[s'|s']|e|].
Qed.

Lemma skipNewlines_ignores : ignoresPlaces skipNewlines.
Proof.
  intros p. unfold skipNewlines. rewrite remaining_unplaced.
  rewrite (iterate_commutes unplacedParser).
  - by destruct (iterate _ _ p).
  - intros q. rewrite match_unplaced. by destruct (match_ Newline q) as [[] q1].
Qed.

Lemma expectNewline_ignores context : ignoresPlaces (expectNewline context).
Proof.
  intros p. unfold expectNewline. rewrite match_unplaced.
  destruct (match_ Newline p) as [[] p1]; cbn [fst snd].
  - apply skipNewlines_ignores.
  - rewrite !check_unplaced. by destruct (check Dedent p1 || check EndOfFile p1).
Qed.

Lemma parseTypeKeyword_ignores context : ignoresPlaces (parseTypeKeyword context).
Proof.
  intros p. unfold parseTypeKeyword.
  do 4 (rewrite match_unplaced;
        match goal with
        | |- context [match_ ?ty ?q] =>
            destruct (match_ ty q) as [[] ?]; cbn [fst snd]; [done|]
        end).
  done.
Qed.

Lemma matchFirst_unplaced ops : ∀ p,
  matchFirst ops (unplacedParser p) =
  match matchFirst ops p with
  | Some (op, p1) => Some (op, unplacedParser p1)
  | None => None
  end.
Proof.
  induction ops as [|[ty op] ops IH]; intros p; [done|].
  cbn [matchFirst]. rewrite match_unplaced.
  destruct (match_ ty p) as [[] p1]; cbn [fst snd]; [done|apply IH].
Qed.

Lemma level_ignores ops sub :
  ignoresPlaces sub →
  ignoresPlaces (fun p => let* (expr, p1) := sub p in
                          iterate (S (remaining p1)) (binaryLoop ops sub)
                                  (expr, p1)).
Proof.
  intros Hsub p. rewrite Hsub.
  destruct (sub p) as [[expr p1]| |]; cbn [bind onParser]; [|done..].
  rewrite remaining_unplaced.
  pose proof (iterate_commutes
                (fun st : Expression * t => (st.1, unplacedParser st.2))
                (binaryLoop ops sub)) as Hloop.
  specialize (Hloop ltac:(
    intros [e q]; cbn [fst snd]; unfold binaryLoop;
    rewrite matchFirst_unplaced;
    destruct (matchFirst ops q) as [[op q1]|]; [|done];
    rewrite Hsub; by destruct (sub q1) as [[rhs q2]| |])
    (S (remaining p1)) (expr, p1)).
  cbn [fst snd] in Hloop. rewrite Hloop. clear Hloop.
  by destruct (iterate _ _ _) as [[e q]| |].
Qed.

Ltac take_match :=
  rewrite match_unplaced;
  match goal with
  | |- context [match_ ?ty ?q] =>
      destruct (match_ ty q) as [[] ?]; cbn [fst snd]
  end.

(** Run the next method, which ignores places by [H]. *)
Ltac run H :=
  rewrite H;
  match goal with
  | |- context [onParser (?f ?q)] =>
      destruct (f q) as [[? ?]| |]; cbn [bind onParser]; [|done..]
  end.

Ltac take_consume :=
  rewrite consume_unplaced;
  match goal with
  | |- context [consume ?ty ?m ?q] =>
      destruct (consume ty m q) as [[? ?]| |]; cbn [bind onParser]; [|done..]
  end.

Lemma exprs_ignore n :
  ignoresPlaces (parsePrimary n) ∧ ignoresPlaces (parseUnary n) ∧
  ignoresPlaces (parsePower n) ∧ ignoresPlaces (parseFactor n) ∧
  ignoresPlaces (parseTerm n) ∧ ignoresPlaces (parseComparison n) ∧
  ignoresPlaces (parseEquality n) ∧ ignoresPlaces (parseAnd n) ∧
  ignoresPlaces (parseOr n) ∧ ignoresPlaces (parseExpression n).
Proof.
  induction n as [|n (IHprimary & IHunary & IHpower & IHfactor & IHterm &
                      IHcmp & IHeq & IHand & IHor & IHexpr)];
    [by repeat split|].
  repeat split; intros p.
  - cbn [parsePrimary].
    take_match; [by rewrite previous_unplaced|].
    take_match; [by rewrite previous_unplaced|].
    take_match; [by rewrite previous_unplaced|].
    take_match; [done|]. take_match; [done|].
    take_match; [by rewrite previous_unplaced|].
    take_match.
    + run IHexpr. by take_consume.
    + unfold unexpectedToken. by rewrite peek_unplaced.
  - cbn [parseUnary].
    take_match. { by run IHunary. }
    take_match. { by run IHunary. }
    apply IHprimary.
  - cbn [parsePower]. run IHunary. take_match; [|done]. by run IHpower.
  - cbn [parseFactor]. by apply (level_ignores _ _ IHpower).
  - cbn [parseTerm]. by apply (level_ignores _ _ IHfactor).
  - cbn [parseComparison]. by apply (level_ignores _ _ IHterm).
  - cbn [parseEquality]. by apply (level_ignores _ _ IHcmp).
  - cbn [parseAnd]. by apply (level_ignores _ _ IHeq).
  - cbn [parseOr]. by apply (level_ignores _ _ IHand).
  - cbn [parseExpression]. apply IHor.
Qed.

Lemma parseExpression_ignores n : ignoresPlaces (parseExpression n).
Proof. apply exprs_ignore. Qed.

Ltac take_advance :=
  rewrite advance_unplaced;
  match goal with
  | |- context [advance ?q] => destruct (advance q) as [? ?]; cbn [fst snd]
  end.

Lemma parseParenthesizedCondition_ignores n context :
  ignoresPlaces (parseParenthesizedCondition n context).
Proof.
  intros p. unfold parseParenthesizedCondition.
  take_consume. run (parseExpression_ignores n). by take_consume.
Qed.

Lemma parseVarDecl_ignores n : ignoresPlaces (parseVarDecl n).
Proof.
  intros p. unfold parseVarDecl. take_advance. take_consume. take_match.
  - run (parseExpression_ignores n). by run expectNewline_ignores.
  - cbn [bind]. by run expectNewline_ignores.
Qed.

Lemma parseAssignment_ignores n : ignoresPlaces (parseAssignment n).
Proof.
  intros p. unfold parseAssignment. take_advance. take_consume.
  run (parseExpression_ignores n). by run expectNewline_ignores.
Qed.

Lemma parseInput_ignores : ignoresPlaces parseInput.
Proof.
  intros p. unfold parseInput. take_advance. take_consume.
  by run expectNewline_ignores.
Qed.

Lemma parseOutput_ignores n : ignoresPlaces (parseOutput n).
Proof.
  intros p. unfold parseOutput. take_advance.
  run (parseExpression_ignores n). by run expectNewline_ignores.
Qed.

(** A loop over a state that ends with the parser. *)
Ltac run_loop g Hstep :=
  rewrite ?remaining_unplaced;
  match goal with
  | |- context [iterate ?fuel ?body (?a, unplacedParser ?q)] =>
      let Hloop := fresh "Hloop" in
      pose proof (iterate_commutes g body Hstep fuel (a, q)) as Hloop;
      cbn [fst snd] in Hloop; rewrite Hloop; clear Hloop;
      destruct (iterate fuel body (a, q)) as [[? ?]| |];
      cbn [bind onParser fst snd]; [|done..]
  end.

Lemma blockLoop_commutes (parseStatement : M Statement) :
  ignoresPlaces parseStatement →
  ∀ st : list Statement * t,
    blockLoop parseStatement (st.1, unplacedParser st.2) =
    match blockLoop parseStatement st with
    | Ret (Next st') => Ret (Next (st'.1, unplacedParser st'.2))
    | Ret (Done st') => Ret (Done (st'.1, unplacedParser st'.2))
    | Throw e => Throw e
    | Starved => Starved
    end.
Proof.
  intros Hstmt [body q]. cbn [fst snd]. unfold blockLoop.
  rewrite check_unplaced, isAtEnd_unplaced.
  destruct (negb (check Dedent q) && negb (isAtEnd q)); [|done].
  run Hstmt. by run skipNewlines_ignores.
Qed.

Lemma elseLoop_commutes n (block : string → M (list Statement)) :
  (∀ context, ignoresPlaces (block context)) →
  ∀ st : IfState,
    elseLoop n block (st.1, unplacedParser st.2) =
    match elseLoop n block st with
    | Ret (Next st') => Ret (Next (st'.1, unplacedParser st'.2))
    | Ret (Done st') => Ret (Done (st'.1, unplacedParser st'.2))
    | Throw e => Throw e
    | Starved => Starved
    end.
Proof.
  intros Hblock [[[branches elseBranch] hasElse] q]. cbn [fst snd].
  unfold elseLoop. take_match; [|done]. take_match.
  - run (parseParenthesizedCondition_ignores n "иначе если").
    by run (Hblock "условия 'иначе если'").
  - by run (Hblock "блока 'иначе'").
Qed.

Lemma stmts_ignore n :
  ignoresPlaces (parseStatement n) ∧ ignoresPlaces (parseIf n) ∧
  ignoresPlaces (parseWhile n) ∧ ignoresPlaces (parseFor n) ∧
  (∀ context, ignoresPlaces (parseIndentedBlock n context)).
Proof.
  induction n as [|n (IHstmt & IHif & IHwhile & IHfor & IHblock)];
    [by repeat split|].
  repeat split; intros p.
  - cbn [parseStatement]. rewrite check_unplaced, peek_unplaced.
    cbn [type unplaced].
    destruct (check Indent p); [done|].
    destruct (isTypeKeyword (type (peek p))); [apply parseVarDecl_ignores|].
    destruct (type (peek p)); try done;
      first [apply parseAssignment_ignores | apply IHif | apply IHwhile
            | apply IHfor | apply parseInput_ignores
            | apply parseOutput_ignores | idtac].
    all: unfold unexpectedWord; by rewrite peek_unplaced.
  - cbn [parseIf]. take_advance.
    run (parseParenthesizedCondition_ignores n "если").
    run (IHblock "условия 'если'").
    rewrite remaining_unplaced.
    pose proof (iterate_commutes
                  (fun st : IfState => (st.1, unplacedParser st.2))
                  (elseLoop n (parseIndentedBlock n))
                  (elseLoop_commutes n _ IHblock)) as Hloop.
    match goal with
    | |- context [iterate ?fuel ?body (?a, unplacedParser ?q)] =>
        specialize (Hloop fuel (a, q)); cbn [fst snd] in Hloop;
        rewrite Hloop; clear Hloop;
        by destruct (iterate fuel body (a, q)) as [[[[? ?] ?] ?]| |]
    end.
  - cbn [parseWhile]. take_advance.
    run (parseParenthesizedCondition_ignores n "пока").
    by run (IHblock "цикла 'пока'").
  - cbn [parseFor]. take_advance. take_consume.
    run (parseTypeKeyword_ignores "цикла 'для'").
    take_consume. take_consume.
    run (parseExpression_ignores n). take_consume.
    run (parseExpression_ignores n). take_consume.
    by run (IHblock "цикла 'для'").
  - rename p into context. intros p. cbn [parseIndentedBlock].
    take_consume. take_consume. run skipNewlines_ignores.
    run_loop (fun st : list Statement * t => (st.1, unplacedParser st.2))
             (blockLoop_commutes _ IHstmt).
    by take_consume.
Qed.

Lemma programLoop_commutes n (st : list Statement * t) :
  programLoop n (st.1, unplacedParser st.2) =
  match programLoop n st with
  | Ret (Next st') => Ret (Next (st'.1, unplacedParser st'.2))
  | Ret (Done st') => Ret (Done (st'.1, unplacedParser st'.2))
  | Throw e => Throw e
  | Starved => Starved
  end.
Proof.
  destruct st as [stmts q]. cbn [fst snd]. unfold programLoop.
  rewrite isAtEnd_unplaced. destruct (negb (isAtEnd q)); [|done].
  run (proj1 (stmts_ignore n)). by run skipNewlines_ignores.
Qed.

Lemma runParser_unplaced ts :
  runParser (map unplaced ts) = onParser (runParser ts).
Proof.
  unfold runParser.
  change (mkParser (map unplaced ts) 0) with (unplacedParser (mkParser ts 0)).
  run skipNewlines_ignores.
  replace (callDepth (map unplaced ts)) with (callDepth ts)
    by (unfold callDepth; by rewrite length_map).
  run_loop (fun st : list Statement * t => (st.1, unplacedParser st.2))
           (programLoop_commutes (callDepth ts)).
  done.
Qed.

End Places.

Lemma parseProgram_unplaced ts :
  Parser.parseProgram (map unplaced ts) = Parser.parseProgram ts.
Proof.
  unfold Parser.parseProgram. rewrite runParser_unplaced.
  by destruct (Parser.runParser ts) as [[program p]| |].
Qed.

(** X22. The parser does not look at the lines and columns of the tokens:
    two token vectors whose tokens have the same types and lexemes, one by
    one, give the same program or the same error. *)
Theorem X22_parser_ignores_places ts ts' :
  map unplaced ts = map unplaced ts' →
  Parser.parseProgram ts = Parser.parseProgram ts'.
Proof.
  intros H. by rewrite <- (parseProgram_unplaced ts), H, parseProgram_unplaced.
Qed.

Lemma X22_parser_ignores_places_witness :
  map unplaced nestedTokens = map unplaced (map unplaced nestedTokens) ∧
  Parser.parseProgram nestedTokens =
  Parser.parseProgram (map unplaced nestedTokens).
Proof.
  split; [reflexivity|].
  apply (X22_parser_ignores_places nestedTokens (map unplaced nestedTokens)).
  reflexivity.
Defined.

(** ** Reading back written lines *)

Section ReadLines.
Import Lexer.

Lemma tokenizeBody_scanAt L :
  tokenizeBody L =
  if current_ L <? String.length (source_ L) then
    let* fl := lineStart L in
    match fl with
    | Break L1 => Ret (Done L1)
    | Continue L1 => Ret (Next L1)
    | FallThrough L1 => scanAt L1
    end
  else Ret (Done L).
Proof. reflexivity. Qed.

Lemma unread_same L L' s :
  source_ L' = source_ L → current_ L' = current_ L →
  unread L s → unread L' s.
Proof. intros Hs Hc H k. rewrite Hs, Hc. apply H. Qed.

Lemma unread_app a : ∀ L b,
  unread L (a +:+ b) → unread (bump (String.length a) L) b.
Proof.
  induction a as [|c a IH]; intros L b H.
  - by rewrite bump_0.
  - rewrite app_String in H. apply unread_bump, IH in H.
    rewrite bump_bump in H. exact H.
Qed.

Lemma unread_lt L c s :
  unread L (String c s) → current_ L < String.length (source_ L).
Proof. intros H%unread_head. by apply get_Some_lt in H. Qed.

Lemma unread_end L :
  unread L "" → String.length (source_ L) ≤ current_ L.
Proof.
  intros H. specialize (H 0). rewrite Nat.add_0_r in H.
  by apply get_None_ge.
Qed.

Lemma substring_get s : ∀ n a,
  (∀ k, k < String.length a → String.get (n + k) s = String.get k a) →
  String.substring n (String.length a) s = a.
Proof.
  induction s as [|x s IH]; intros n a H.
  - destruct a as [|c a]; [by destruct n|].
    specialize (H 0 ltac:(simpl; lia)). by destruct n.
  - destruct n as [|n].
    + destruct a as [|c a]; [done|]. cbn [String.length String.substring].
      pose proof (H 0 ltac:(simpl; lia)) as H0. simpl in H0.
      injection H0 as ->. f_equal. apply (IH 0).
      intros k Hk. apply (H (S k)). simpl. lia.
    + cbn [String.substring]. apply IH. intros k Hk. apply (H k Hk).
Qed.

Lemma substring_unread L a b :
  unread L (a +:+ b) →
  String.substring (current_ L) (String.length a) (source_ L) = a.
Proof.
  intros H. apply substring_get. intros k Hk. rewrite H.
  clear H. revert k Hk. induction a as [|c a IH]; intros k Hk; [simpl in Hk; lia|].
  destruct k as [|k]; [done|]. simpl. apply IH. simpl in Hk. lia.
Qed.

(** A loop of [advanceWhile] reads the bytes it keeps up to the first one
    it does not keep. *)
Lemma advanceWhile_text keep text : ∀ L fuel post,
  unread L (text +:+ post) → allBytes keep text = true →
  match post with
  | EmptyString => True
  | String c _ => keep c = false
  end →
  String.length text < fuel →
  iterate fuel (advanceWhile keep) L = Ret (bump (String.length text) L).
Proof.
  induction text as [|c text IH]; intros L fuel post Hun Hall Hstop Hfuel;
    (destruct fuel as [|fuel]; [simpl in Hfuel; lia|]); cbn [iterate].
  - unfold advanceWhile. change ("" +:+ post) with post in Hun. rewrite bump_0.
    destruct post as [|c post].
    + specialize (Hun 0). rewrite Nat.add_0_r in Hun. by rewrite Hun.
    + by rewrite (unread_head L c post Hun), Hstop.
  - rewrite app_String in Hun. cbn [allBytes] in Hall.
    apply andb_true_iff in Hall as [Hc Hall].
    unfold advanceWhile at 1. rewrite (unread_head L c _ Hun), Hc.
    rewrite (IH (bump 1 L) fuel post (unread_bump L c _ Hun) Hall Hstop
               ltac:(simpl in Hfuel; lia)).
    by rewrite bump_bump.
Qed.

Lemma unread_remaining s : ∀ L, unread L s → String.length s ≤ remaining L.
Proof.
  induction s as [|c s IH]; intros L H; [simpl; lia|].
  pose proof (unread_lt L c s H) as Hlt.
  specialize (IH (bump 1 L) (unread_bump L c s H)).
  unfold remaining in *. simpl in *. lia.
Qed.

Lemma scanIdentifierOrKeyword_text L text post :
  unread L (text +:+ String " " post) →
  allBytes isIdentifierPart text = true →
  scanIdentifierOrKeyword L =
  Ret (push_back_token
         (bump (String.length text) L)
         (mkToken match kKeywords text with
                  | None => Identifier
                  | Some kw => kw
                  end text (line_ L) (column_ L))).
Proof.
  intros Hun Hall. unfold scanIdentifierOrKeyword.
  pose proof (unread_remaining _ L Hun) as Hrem.
  rewrite string_length_app in Hrem. simpl in Hrem.
  rewrite (advanceWhile_text isIdentifierPart text L (S (remaining L))
             (String " " post) Hun Hall eq_refl ltac:(lia)).
  cbn [bind]. rewrite current_bump, source_bump.
  replace (current_ L + String.length text - current_ L)
    with (String.length text) by lia.
  by rewrite (substring_unread L text _ Hun).
Qed.

(** The digits of a number, read by the loop of [scanNumber]. *)
Lemma numberBody_digits text : ∀ L fuel seenDot post,
  unread L (text +:+ post) → allBytes isdigit text = true →
  String.length text ≤ fuel →
  iterate fuel numberBody (seenDot, L) =
  iterate (fuel - String.length text) numberBody
          (seenDot, bump (String.length text) L).
Proof.
  induction text as [|c text IH]; intros L fuel seenDot post Hun Hall Hfuel.
  - by rewrite bump_0, Nat.sub_0_r.
  - destruct fuel as [|fuel]; [simpl in Hfuel; lia|]. cbn [iterate].
    rewrite app_String in Hun. cbn [allBytes] in Hall.
    apply andb_true_iff in Hall as [Hc Hall].
    unfold numberBody at 1. rewrite (unread_head L c _ Hun), Hc.
    rewrite (IH (bump 1 L) fuel seenDot post (unread_bump L c _ Hun) Hall
               ltac:(simpl in Hfuel; lia)).
    by rewrite bump_bump.
Qed.

Lemma isNumeral_elim s :
  isNumeral s = true → allBytes isdigit s = true ∧ 0 < String.length s.
Proof.
  unfold isNumeral. intros [Hne Hall]%andb_true_iff. split; [done|].
  destruct s; [done|simpl; lia].
Qed.

Lemma scanNumber_integer L text post :
  unread L (text +:+ String " " post) → isNumeral text = true →
  scanNumber L =
  Ret (push_back_token
         (bump (String.length text) L)
         (mkToken IntegerLiteral text (line_ L) (column_ L))).
Proof.
  intros Hun [Hall Hpos]%isNumeral_elim. unfold scanNumber.
  pose proof (unread_remaining _ L Hun) as Hrem.
  rewrite string_length_app in Hrem. simpl in Hrem.
  rewrite (numberBody_digits text L (S (remaining L)) false _ Hun Hall
             ltac:(lia)).
  replace (S (remaining L) - String.length text)
    with (S (remaining L - String.length text)) by lia.
  cbn [iterate]. unfold numberBody at 1.
  rewrite (unread_head _ _ _ (unread_app text L _ Hun)).
  change (isdigit " ") with false. cbv iota.
  change (Ascii.eqb " " "." && negb false) with false. cbv iota.
  cbn [bind]. rewrite current_bump, source_bump.
  replace (current_ L + String.length text - current_ L)
    with (String.length text) by lia.
  by rewrite (substring_unread L text _ Hun).
Qed.

Lemma isDecimal_split s :
  isDecimal s = true →
  ∃ whole frac, s = whole +:+ String "." frac ∧
                isNumeral whole = true ∧ isNumeral frac = true.
Proof.
  induction s as [|c s IH]; [done|]. cbn [isDecimal].
  intros [Hc Hrest]%andb_true_iff.
  destruct s as [|d s].
  - done.
  - destruct (Ascii.eqb_spec d ".") as [->|Hd].
    + exists (String c ""), s. repeat split; [|done].
      unfold isNumeral. simpl. by rewrite Hc.
    + assert (Hdec : isDecimal (String d s) = true).
      { revert Hrest. clear -Hd. destruct d as [[] [] [] [] [] [] [] []]; done. }
      destruct (IH Hdec) as (whole & frac & Heq & Hw & Hf).
      exists (String c whole), frac. rewrite Heq. repeat split; [|done].
      apply isNumeral_elim in Hw as [Hw _].
      unfold isNumeral. simpl. by rewrite Hc, Hw.
Qed.

Lemma scanNumber_decimal L text post :
  unread L (text +:+ String " " post) → isDecimal text = true →
  scanNumber L =
  Ret (push_back_token
         (bump (String.length text) L)
         (mkToken DoubleLiteral text (line_ L) (column_ L))).
Proof.
  intros Hun (whole & frac & Heq & [Hw Hwpos]%isNumeral_elim &
              [Hf Hfpos]%isNumeral_elim)%isDecimal_split.
  unfold scanNumber.
  pose proof (unread_remaining _ L Hun) as Hrem.
  rewrite string_length_app in Hrem. simpl in Hrem.
  pose proof Hun as Hun'. rewrite Heq, string_app_assoc, app_String in Hun'.
  assert (Hlen : String.length text =
                 String.length whole + S (String.length frac)).
  { rewrite Heq, string_length_app. done. }
  rewrite (numberBody_digits whole L (S (remaining L)) false _ Hun' Hw
             ltac:(lia)).
  apply unread_app in Hun'.
  replace (S (remaining L) - String.length whole)
    with (S (remaining L - String.length whole)) by lia.
  cbn [iterate]. unfold numberBody at 1.
  rewrite (unread_head _ _ _ Hun').
  change (isdigit ".") with false. cbv iota.
  change (Ascii.eqb "." "." && negb false) with true. cbv iota.
  destruct frac as [|d frac]; [simpl in Hfpos; lia|].
  cbn [allBytes] in Hf. apply andb_true_iff in Hf as [Hd Hf].
  assert (Hpeek : peekChar 1 (bump (String.length whole) L) = d).
  { unfold peekChar. rewrite (Hun' 1). done. }
  rewrite Hpeek, Hd. cbn [negb]. cbv iota.
  apply unread_bump in Hun'. rewrite bump_bump in Hun'.
  assert (Hall : allBytes isdigit (String d frac) = true)
    by (cbn [allBytes]; by rewrite Hd, Hf).
  rewrite bump_bump.
  rewrite (numberBody_digits (String d frac) _
             (remaining L - String.length whole) true _ Hun' Hall
             ltac:(simpl in *; lia)).
  apply unread_app in Hun'.
  replace (remaining L - String.length whole - String.length (String d frac))
    with (S (remaining L - String.length text)) by (simpl in *; lia).
  cbn [iterate]. unfold numberBody at 1.
  rewrite (unread_head _ _ _ Hun').
  change (isdigit " ") with false. cbv iota.
  change (Ascii.eqb " " "." && negb true) with false. cbv iota.
  cbn [bind]. rewrite !bump_bump, current_bump, source_bump.
  replace (String.length whole + 1 + String.length (String d frac))
    with (String.length text) by (simpl in *; lia).
  replace (current_ L + String.length text - current_ L)
    with (String.length text) by lia.
  by rewrite (substring_unread L text _ Hun).
Qed.

Lemma scanOperator_text L ty post :
  isOperator ty = true →
  unread L (tokenTypeToString ty +:+ String " " post) →
  scanOperator L =
  Ret (push_back_token
         (bump (String.length (tokenTypeToString ty)) L)
         (mkToken ty "" (line_ L) (column_ L))).
Proof.
  intros Hop Hun. pose proof (Hun 0) as H0. pose proof (Hun 1) as H1.
  destruct ty; try discriminate; simpl in H0, H1;
    unfold scanOperator, peekChar; rewrite H0, ?H1; reflexivity.
Qed.

(** The bytes a name or a number starts with are no blanks, no line ends,
    no quote and no slash. *)
Lemma start_tests ch :
  isIdentifierStart ch = true →
  Ascii.eqb ch " " = false ∧ Ascii.eqb ch TAB = false ∧
  Ascii.eqb ch CR = false ∧ Ascii.eqb ch NL = false ∧
  Ascii.eqb ch "/" = false ∧ Ascii.eqb ch QUOTE = false ∧
  isdigit ch = false.
Proof.
  destruct ch as [[] [] [] [] [] [] [] []]; intros H; try discriminate H;
    repeat split; reflexivity.
Qed.

Lemma digit_tests ch :
  isdigit ch = true →
  Ascii.eqb ch " " = false ∧ Ascii.eqb ch TAB = false ∧
  Ascii.eqb ch CR = false ∧ Ascii.eqb ch NL = false ∧
  Ascii.eqb ch "/" = false ∧ Ascii.eqb ch QUOTE = false.
Proof.
  destruct ch as [[] [] [] [] [] [] [] []]; intros H; try discriminate H;
    repeat split; reflexivity.
Qed.

(** Evaluate the tests of [scanAt] on a known byte. *)
Ltac known_test t :=
  let v := eval vm_compute in t in
  lazymatch v with
  | true => change t with true
  | false => change t with false
  end.

Ltac known_byte :=
  repeat match goal with
         | |- context [Ascii.eqb ?a ?b] => known_test (Ascii.eqb a b)
         | |- context [isdigit ?a] => known_test (isdigit a)
         | |- context [isIdentifierStart ?a] => known_test (isIdentifierStart a)
         end;
  cbn [orb andb]; cbv iota.

(** A turn of the loop at a written word pushes that word, places apart,
    and stops before the space after it. *)
Lemma scanAt_word L w post :
  writableWord w = true →
  unread L (wordText w +:+ String " " post) →
  ∃ tok, unplaced tok = unplaced w ∧
         scanAt L =
         Ret (Next (push_back_token
                      (bump (String.length (wordText w)) L) tok)).
Proof.
  destruct w as [ty lex l c]. unfold writableWord, wordText.
  cbn [type lexeme]. intros Hw Hun.
  destruct ty; try discriminate Hw.
  (* keywords and operators but the slash: by their spelling *)
  all: try solve
    [ apply String.eqb_eq in Hw; cbn [isKeyword] in Hw; subst lex;
      cbv iota beta in Hun |- *;
      match type of Hun with
      | unread _ (tokenTypeToString ?ty +:+ _) =>
          exists (mkToken ty
                    (if isKeyword ty then tokenTypeToString ty else "")
                    (line_ L) (column_ L));
          (split; [done|]); unfold scanAt;
          pose proof (Hun 0) as H0; rewrite Nat.add_0_r in H0; simpl in H0;
          rewrite H0; known_byte;
          first [ rewrite (scanIdentifierOrKeyword_text L _ post Hun eq_refl);
                  reflexivity
                | rewrite (scanOperator_text L ty post eq_refl Hun);
                  reflexivity ]
      end ].
  - (* a name *)
    destruct lex as [|ch rest]; [done|]. cbn [isName] in Hw.
    apply andb_true_iff in Hw as [[Hs Hrest]%andb_true_iff Hk].
    apply bool_decide_eq_true in Hk.
    destruct (start_tests ch Hs) as (H1 & H2 & H3 & H4 & H5 & H6 & H7).
    exists (mkToken Identifier (String ch rest) (line_ L) (column_ L)).
    split; [done|]. unfold scanAt. rewrite app_String in Hun.
    rewrite (unread_head L ch _ Hun), H1, H2, H3, H4, H5, H6, H7, Hs.
    cbn [orb andb]. rewrite <- app_String in Hun.
    rewrite (scanIdentifierOrKeyword_text L (String ch rest) post Hun)
      by (cbn [allBytes]; by rewrite (isIdentifierStart_part ch Hs), Hrest).
    by rewrite Hk.
  - (* an integer *)
    pose proof Hw as [Hall Hpos]%isNumeral_elim.
    destruct lex as [|ch rest]; [simpl in Hpos; lia|].
    cbn [allBytes] in Hall. apply andb_true_iff in Hall as [Hd _].
    destruct (digit_tests ch Hd) as (H1 & H2 & H3 & H4 & H5 & H6).
    exists (mkToken IntegerLiteral (String ch rest) (line_ L) (column_ L)).
    split; [done|]. unfold scanAt. rewrite app_String in Hun.
    rewrite (unread_head L ch _ Hun), H1, H2, H3, H4, H5, H6, Hd.
    cbn [orb andb]. rewrite <- app_String in Hun.
    by rewrite (scanNumber_integer L (String ch rest) post Hun Hw).
  - (* a double *)
    destruct lex as [|ch rest]; [done|]. pose proof Hw as Hw'.
    cbn [isDecimal] in Hw'. apply andb_true_iff in Hw' as [Hd _].
    destruct (digit_tests ch Hd) as (H1 & H2 & H3 & H4 & H5 & H6).
    exists (mkToken DoubleLiteral (String ch rest) (line_ L) (column_ L)).
    split; [done|]. unfold scanAt. rewrite app_String in Hun.
    rewrite (unread_head L ch _ Hun), H1, H2, H3, H4, H5, H6, Hd.
    cbn [orb andb]. rewrite <- app_String in Hun.
    by rewrite (scanNumber_decimal L (String ch rest) post Hun Hw).
  - (* a string *)
    exists (mkToken StringLiteral lex (line_ L) (column_ L)).
    split; [done|]. unfold scanAt. pose proof Hun as Hun'.
    unfold quoted in Hun'. rewrite app_String in Hun'.
    rewrite (unread_head L QUOTE _ Hun'). known_byte.
    by rewrite (scanString_escaped L _ lex Hun).
  - (* the slash: what follows it is a space, not a second slash *)
    apply String.eqb_eq in Hw. cbn [isKeyword] in Hw. subst lex.
    exists (mkToken Slash "" (line_ L) (column_ L)).
    split; [done|]. unfold scanAt.
    pose proof (Hun 0) as H0. rewrite Nat.add_0_r in H0. simpl in H0.
    pose proof (Hun 1) as H1. simpl in H1.
    rewrite H0. known_byte. unfold peekChar at 1. rewrite H1. known_byte.
    by rewrite (scanOperator_text L Slash post eq_refl Hun).
Qed.

Lemma scanAt_space L s :
  unread L (String " " s) → scanAt L = Ret (Next (bump 1 L)).
Proof. intros Hun. unfold scanAt. by rewrite (unread_head L _ _ Hun). Qed.

Lemma scanAt_newline L s :
  unread L (String NL s) →
  scanAt L =
  Ret (Next (mkLexer (source_ L) (current_ L + 1) (line_ L + 1) 1 true
               (indentStack_ L)
               (tokens_ L ++ [mkToken Newline "" (line_ L) (column_ L)]))).
Proof. intros Hun. unfold scanAt. by rewrite (unread_head L _ _ Hun). Qed.

(** The spaces at the start of a written line, measured. *)
Lemma indentBody_spaces source n : ∀ temp count fuel c s,
  (∀ k, String.get (temp + k) source = String.get k (spaces n (String c s))) →
  Ascii.eqb c " " = false → Ascii.eqb c TAB = false →
  Ascii.eqb c CR = false → n < fuel →
  iterate fuel (indentBody source) (temp, count) = Ret (temp + n, count + n).
Proof.
  induction n as [|n IH]; intros temp count fuel c s Hget H1 H2 H3 Hfuel;
    (destruct fuel as [|fuel]; [lia|]); cbn [iterate]; unfold indentBody at 1.
  - pose proof (Hget 0) as H0. rewrite Nat.add_0_r in H0. simpl in H0.
    rewrite H0, H1, H2, H3. by rewrite !Nat.add_0_r.
  - pose proof (Hget 0) as H0. rewrite Nat.add_0_r in H0. simpl in H0.
    rewrite H0. cbn [Ascii.eqb Bool.eqb].
    rewrite (IH (temp + 1) (count + 1) fuel c s); [|
      intros k; specialize (Hget (S k)); simpl in Hget;
      by replace (temp + 1 + k) with (temp + S k) by lia|done..|lia].
    do 2 f_equal; lia.
Qed.

Lemma unread_spaces n : ∀ L s,
  unread L (spaces n s) → unread (bump n L) s.
Proof.
  induction n as [|n IH]; intros L s H; [by rewrite bump_0|].
  cbn [spaces] in H. apply unread_bump, IH in H. by rewrite bump_bump in H.
Qed.

(** The first byte of a written word and the byte after it, as the start
    of a line tells them from a blank line and from a comment. *)
Lemma word_first w post :
  writableWord w = true →
  ∃ c rest, wordText w +:+ String " " post = String c rest ∧
            Ascii.eqb c " " = false ∧ Ascii.eqb c TAB = false ∧
            Ascii.eqb c CR = false ∧ Ascii.eqb c NL = false ∧
            (Ascii.eqb c "/" &&
             match rest with
             | String c2 _ => Ascii.eqb c2 "/"
             | EmptyString => false
             end) = false.
Proof.
  destruct w as [ty lex l c]. unfold writableWord, wordText.
  cbn [type lexeme]. intros Hw.
  destruct ty; try discriminate Hw.
  all: try solve
    [ apply String.eqb_eq in Hw; cbn [isKeyword] in Hw; subst lex;
      eexists _, _; split; [reflexivity|]; by repeat split ].
  - destruct lex as [|ch rest]; [done|]. cbn [isName] in Hw.
    apply andb_true_iff in Hw as [[Hs _]%andb_true_iff _].
    destruct (start_tests ch Hs) as (H1 & H2 & H3 & H4 & H5 & _).
    exists ch, (rest +:+ String " " post). rewrite H5. by repeat split.
  - apply isNumeral_elim in Hw as [Hall Hpos].
    destruct lex as [|ch rest]; [simpl in Hpos; lia|].
    cbn [allBytes] in Hall. apply andb_true_iff in Hall as [Hd _].
    destruct (digit_tests ch Hd) as (H1 & H2 & H3 & H4 & H5 & _).
    exists ch, (rest +:+ String " " post). rewrite H5. by repeat split.
  - destruct lex as [|ch rest]; [done|].
    cbn [isDecimal] in Hw. apply andb_true_iff in Hw as [Hd _].
    destruct (digit_tests ch Hd) as (H1 & H2 & H3 & H4 & H5 & _).
    exists ch, (rest +:+ String " " post). rewrite H5. by repeat split.
  - eexists _, _. split; [reflexivity|]. by repeat split.
Qed.

Lemma levels_snoc d : levels (S d) = levels d ++ [4 * S d].
Proof. unfold levels. by rewrite (seq_S (S d)), map_app. Qed.

Lemma levels_back d : back (levels d) = 4 * d.
Proof.
  unfold back. destruct d as [|d]; [done|]. by rewrite levels_snoc, last_last.
Qed.

Lemma levels_length d : length (levels d) = S d.
Proof. unfold levels. by rewrite length_map, length_seq. Qed.

Lemma popDeeper_levels d : ∀ cur,
  d ≤ cur → popDeeper (4 * d) (levels cur) = levels d.
Proof.
  induction cur as [|cur IH]; intros Hle.
  - by replace d with 0 by lia.
  - rewrite levels_snoc, popDeeper_snoc.
    destruct (decide (d = S cur)) as [->|Hne].
    + rewrite Nat.ltb_irrefl. by rewrite <- levels_snoc.
    + replace (4 * d <? 4 * S cur) with true
        by (symmetry; apply Nat.ltb_lt; lia).
      apply IH. lia.
Qed.

Lemma dedents_unplaced line k :
  map unplaced (repeat (dedentAt line) k) =
  map unplaced (repeat (wordToken Dedent) k).
Proof. induction k as [|k IH]; [done|]. simpl. by rewrite IH. Qed.

(** [handleIndentation] at a written line: one [Indent] for a line one
    level deeper, a [Dedent] for each level left. *)
Lemma handleIndentation_enter L cur d line :
  indentStack_ L = levels cur → d ≤ cur + 1 →
  ∃ new, map unplaced new = map unplaced (enter cur d) ∧
         handleIndentation (4 * d) line L =
         Ret (mkLexer (source_ L) (current_ L) (line_ L) (column_ L)
                (atLineStart_ L) (levels d) (tokens_ L ++ new)).
Proof.
  intros Hstack Hle. unfold handleIndentation, enter.
  rewrite Hstack, levels_back.
  destruct (decide (cur < d)) as [Hlt|Hge].
  - assert (d = S cur) as -> by lia.
    replace (4 * cur <? 4 * S cur) with true by (symmetry; apply Nat.ltb_lt; lia).
    replace (cur <? S cur) with true by (symmetry; apply Nat.ltb_lt; lia).
    exists [mkToken Indent "" line 1]. split; [done|].
    by rewrite levels_snoc.
  - replace (4 * cur <? 4 * d) with false by (symmetry; apply Nat.ltb_ge; lia).
    replace (cur <? d) with false by (symmetry; apply Nat.ltb_ge; lia).
    rewrite (popLoop_spec (4 * d) line (levels cur) L _ Hstack)
      by (rewrite levels_length; lia).
    cbn [bind indentStack_]. rewrite popDeeper_levels by lia.
    rewrite levels_back, Nat.eqb_refl. cbn [negb].
    exists (repeat (dedentAt line) (cur - d)). split.
    + apply dedents_unplaced.
    + by rewrite !levels_length.
Qed.

Lemma spaces_length n s : String.length (spaces n s) = n + String.length s.
Proof. induction n as [|n IH]; [done|]. simpl. by rewrite IH. Qed.

Lemma stands_push L s atStart cur pushed L' s' atStart' cur' new new' :
  stands L s atStart cur pushed →
  unread L' s' → atLineStart_ L' = atStart' → indentStack_ L' = levels cur' →
  tokens_ L' = tokens_ L ++ new → map unplaced new = map unplaced new' →
  stands L' s' atStart' cur' (pushed ++ new').
Proof.
  intros (_ & _ & _ & Ht) Hun Hflag Hstack Htoks Hnew.
  repeat split; try done. by rewrite Htoks, !map_app, Ht, Hnew.
Qed.

(** The turn of the loop at a word inside a line. *)
Lemma turn_word L d w rest pushed :
  stands L (wordText w +:+ String " " rest) false d pushed →
  writableWord w = true →
  ∃ L', tokenizeBody L = Ret (Next L') ∧
        stands L' (String " " rest) false d (pushed ++ [w]).
Proof.
  intros Hst Hw. pose proof Hst as (Hun & Hflag & Hstack & Htoks).
  destruct (word_first w rest Hw) as (c & more & Heq & _).
  assert (Hlt : current_ L < String.length (source_ L)).
  { rewrite Heq in Hun. by apply unread_lt in Hun. }
  destruct (scanAt_word L w rest Hw Hun) as (tok & Htok & Hscan).
  eexists. split.
  - rewrite tokenizeBody_scanAt. apply Nat.ltb_lt in Hlt. rewrite Hlt.
    unfold lineStart. rewrite Hflag. cbn [bind]. exact Hscan.
  - apply (stands_push L _ _ _ _ _ _ _ _ [tok] [w] Hst); try done.
    + apply (unread_same (bump (String.length (wordText w)) L)); [done..|].
      by apply unread_app.
    + simpl. by rewrite Htok.
Qed.

(** The turn at the space after a word. *)
Lemma turn_space L d s pushed :
  stands L (String " " s) false d pushed →
  ∃ L', tokenizeBody L = Ret (Next L') ∧ stands L' s false d pushed.
Proof.
  intros Hst. pose proof Hst as (Hun & Hflag & Hstack & Htoks).
  pose proof (unread_lt L _ _ Hun) as Hlt.
  exists (bump 1 L). split.
  - rewrite tokenizeBody_scanAt. apply Nat.ltb_lt in Hlt. rewrite Hlt.
    unfold lineStart. rewrite Hflag. cbn [bind]. by apply (scanAt_space L s).
  - repeat split; try done. by apply (unread_bump L " " s).
Qed.

(** The turn at the end of a line. *)
Lemma turn_newline L d s pushed :
  stands L (String NL s) false d pushed →
  ∃ L', tokenizeBody L = Ret (Next L') ∧
        stands L' s true d (pushed ++ [wordToken Newline]).
Proof.
  intros Hst. pose proof Hst as (Hun & Hflag & Hstack & Htoks).
  pose proof (unread_lt L _ _ Hun) as Hlt.
  eexists. split.
  - rewrite tokenizeBody_scanAt. apply Nat.ltb_lt in Hlt. rewrite Hlt.
    unfold lineStart. rewrite Hflag. cbn [bind]. by apply (scanAt_newline L s).
  - apply (stands_push L _ _ _ _ _ _ _ _
             [mkToken Newline "" (line_ L) (column_ L)] [wordToken Newline] Hst);
      try done.
    apply (unread_same (bump 1 L)); [done..|]. by apply (unread_bump L NL s).
Qed.

(** The turn at the start of a line of code: the indentation is measured,
    the blocks are opened or closed, and the first word is read. *)
Lemma turn_lineStart L cur d w rest pushed :
  stands L (spaces (4 * d) (wordText w +:+ String " " rest)) true cur pushed →
  d ≤ cur + 1 → writableWord w = true →
  ∃ L', tokenizeBody L = Ret (Next L') ∧
        stands L' (String " " rest) false d (pushed ++ enter cur d ++ [w]).
Proof.
  intros Hst Hd Hw. pose proof Hst as (Hun & Hflag & Hstack & Htoks).
  destruct (word_first w rest Hw) as (c & more & Heq & H1 & H2 & H3 & H4 & H5).
  pose proof (unread_remaining _ L Hun) as Hrem.
  rewrite spaces_length in Hrem.
  assert (Hpos : 0 < String.length (wordText w +:+ String " " rest))
    by (rewrite Heq; simpl; lia).
  assert (Hlt : current_ L < String.length (source_ L))
    by (unfold remaining in Hrem; lia).
  destruct (handleIndentation_enter L cur d (line_ L) Hstack Hd)
    as (new & Hnew & Hindent).
  set (L1 := mkLexer (source_ L) (current_ L + 4 * d) (line_ L) (4 * d + 1)
               false (levels d) (tokens_ L ++ new)).
  assert (Hun1 : unread L1 (wordText w +:+ String " " rest)).
  { apply (unread_same (bump (4 * d) L)); [done..|]. by apply unread_spaces. }
  destruct (scanAt_word L1 w rest Hw Hun1) as (tok & Htok & Hscan).
  eexists. split.
  - rewrite tokenizeBody_scanAt. apply Nat.ltb_lt in Hlt. rewrite Hlt.
    unfold lineStart. rewrite Hflag. unfold measureIndent.
    rewrite (indentBody_spaces (source_ L) (4 * d) (current_ L) 0
               (S (remaining L)) c more); [|by rewrite <- Heq|done..|lia].
    cbn [bind]. unfold lineKind.
    pose proof (Hun1 0) as Hc. rewrite Heq in Hc. unfold L1 in Hc.
    cbn [current_ source_ String.get] in Hc.
    rewrite Nat.add_0_r in Hc. rewrite Hc, H4.
    pose proof (Hun1 1) as Hc2. rewrite Heq in Hc2. unfold L1 in Hc2.
    cbn [current_ source_ String.get] in Hc2.
    rewrite Hc2.
    replace (match String.get 0 more with
             | Some c0 => Ascii.eqb c0 "/"
             | None => false
             end)
      with (match more with
            | String c2 _ => Ascii.eqb c2 "/"
            | EmptyString => false
            end) by (by destruct more).
    rewrite H5, Nat.add_0_l, Hindent. cbn [bind]. exact Hscan.
  - apply (stands_push L _ _ _ _ _ _ _ _ (new ++ [tok]) (enter cur d ++ [w]) Hst);
      try done.
    + apply (unread_same (bump (String.length (wordText w)) L1)); [done..|].
      by apply unread_app.
    + simpl. by rewrite app_assoc.
    + rewrite !map_app, Hnew. simpl. by rewrite Htok.
Qed.

Lemma reaches_trans {E St} (body : St → Res E (LoopCtl St)) s0 s1 s2 :
  reaches body s0 s1 → reaches body s1 s2 → reaches body s0 s2.
Proof.
  intros H1 H2. induction H2 as [|s s' _ IH Hstep]; [done|].
  by eapply reaches_turn.
Qed.

Lemma reaches_first {E St} (body : St → Res E (LoopCtl St)) s0 s1 s2 :
  body s0 = Ret (Next s1) → reaches body s1 s2 → reaches body s0 s2.
Proof.
  intros Hstep. apply reaches_trans. by eapply reaches_turn; [constructor|].
Qed.

(** A loop that gets to a turn that leaves it returns what that turn
    gives (unless the embedding runs out of fuel before). *)
Lemma iterate_done_reached {E St} (body : St → Res E (LoopCtl St))
    s0 s s' fuel :
  reaches body s0 s → body s = Ret (Done s') →
  iterate fuel body s0 = Starved ∨ iterate fuel body s0 = Ret s'.
Proof.
  intros Hr Hdone.
  destruct (iterate_from_reached body s0 s Hr fuel) as (f & _ & [?|[Heq Hpos]]);
    [by left|].
  right. rewrite Heq. destruct f; [lia|]. simpl. by rewrite Hdone.
Qed.

(** The words of a line after its first one, and its line feed. *)
Lemma words_read ws : ∀ L d s pushed,
  forallb writableWord ws = true →
  stands L (String " " (wordsText ws +:+ String NL s)) false d pushed →
  ∃ L', reaches tokenizeBody L L' ∧
        stands L' s true d (pushed ++ ws ++ [wordToken Newline]).
Proof.
  induction ws as [|w ws IH]; intros L d s pushed Hall Hst.
  - destruct (turn_space L d _ pushed Hst) as (L1 & Hstep1 & Hst1).
    destruct (turn_newline L1 d s pushed Hst1) as (L2 & Hstep2 & Hst2).
    exists L2. split; [|done].
    eapply reaches_first; [exact Hstep1|].
    eapply reaches_first; [exact Hstep2|constructor].
  - cbn [forallb] in Hall. apply andb_true_iff in Hall as [Hw Hall].
    destruct (turn_space L d _ pushed Hst) as (L1 & Hstep1 & Hst1).
    cbn [wordsText] in Hst1. rewrite string_app_assoc, app_String in Hst1.
    destruct (turn_word L1 d w _ pushed Hst1 Hw) as (L2 & Hstep2 & Hst2).
    destruct (IH L2 d s (pushed ++ [w]) Hall Hst2) as (L3 & Hr & Hst3).
    exists L3. split.
    + eapply reaches_first; [exact Hstep1|].
      eapply reaches_first; [exact Hstep2|exact Hr].
    + by rewrite <- app_assoc in Hst3.
Qed.

(** Written lines, read line by line. *)
Lemma lines_read ls : ∀ cur L pushed,
  wellLaid cur ls = true →
  stands L (linesText ls) true cur pushed →
  ∃ L', reaches tokenizeBody L L' ∧
        stands L' "" true (lastDepth cur ls) (pushed ++ linesWords cur ls).
Proof.
  induction ls as [|[d ws] ls IH]; intros cur L pushed Hlaid Hst.
  - exists L. split; [constructor|]. by rewrite app_nil_r.
  - cbn [wellLaid] in Hlaid.
    apply andb_true_iff in Hlaid as [[[Hd Hne]%andb_true_iff Hall]%andb_true_iff Hlaid].
    apply Nat.leb_le in Hd. destruct ws as [|w ws]; [done|]. clear Hne.
    cbn [forallb] in Hall. apply andb_true_iff in Hall as [Hw Hall].
    cbn [linesText wordsText] in Hst.
    rewrite string_app_assoc, app_String in Hst.
    destruct (turn_lineStart L cur d w _ pushed Hst Hd Hw) as (L1 & Hstep1 & Hst1).
    destruct (words_read ws L1 d _ _ Hall Hst1) as (L2 & Hr2 & Hst2).
    destruct (IH d L2 _ Hlaid Hst2) as (L3 & Hr3 & Hst3).
    exists L3. split.
    + eapply reaches_first; [exact Hstep1|].
      eapply reaches_trans; [exact Hr2|exact Hr3].
    + cbn [lastDepth linesWords].
      replace (pushed ++ enter cur d ++ (w :: ws) ++
               wordToken Newline :: linesWords d ls)
        with (((pushed ++ enter cur d ++ [w]) ++ ws ++ [wordToken Newline]) ++
              linesWords d ls); [done|].
      by rewrite <- !app_assoc.
Qed.

Lemma linesTokens_split ls : ∀ cur,
  linesTokens cur ls =
  linesWords cur ls ++
  repeat (wordToken Dedent) (lastDepth cur ls) ++ [wordToken EndOfFile].
Proof.
  induction ls as [|[d ws] ls IH]; intros cur; [done|].
  cbn [linesTokens linesWords lastDepth]. rewrite IH.
  by rewrite <- !app_assoc.
Qed.

Lemma levels_cons d : levels d = 0 :: map (Nat.mul 4) (seq 1 d).
Proof. reflexivity. Qed.

(** The lexer run on written lines. *)
Lemma runLexer_lines ls :
  wellLaid 0 ls = true →
  ∃ Lf, runLexer (linesText ls) = Ret Lf ∧
        map unplaced (tokens_ Lf) = map unplaced (linesTokens 0 ls).
Proof.
  intros Hlaid. set (source := linesText ls).
  assert (Hst : stands (newLexer source) source true 0 []).
  { by repeat split. }
  destruct (lines_read ls 0 (newLexer source) [] Hlaid Hst)
    as (L & Hr & Hun & Hflag & Hstack & Htoks).
  assert (Hdone : tokenizeBody L = Ret (Done L)).
  { rewrite tokenizeBody_scanAt. apply unread_end in Hun.
    by replace (current_ L <? String.length (source_ L)) with false
      by (symmetry; apply Nat.ltb_ge; lia). }
  unfold runLexer.
  pose proof (mainLoop_spec source (S (String.length source)) ltac:(lia)) as Hm.
  destruct (iterate_done_reached tokenizeBody _ L L (S (String.length source))
              Hr Hdone) as [Hs|Hs]; rewrite Hs in Hm |- *; [done|].
  cbn [bind]. unfold emitPendingDedents.
  rewrite (popPending_loop (line_ L) (map (Nat.mul 4) (seq 1 (lastDepth 0 ls)))
             L _ Hstack)
    by (rewrite Hstack, levels_length, length_map, length_seq; lia).
  cbn [bind]. eexists. split; [reflexivity|].
  cbn [tokens_ pushToken push_back_token].
  rewrite !map_app, Htoks, linesTokens_split, !map_app, length_map, length_seq.
  rewrite (dedents_unplaced (line_ L)). cbn [app map].
  by rewrite <- app_assoc.
Qed.

End ReadLines.

(** X23. The lexer reads back written lines: for lines of code none of
    which is more than one level deeper than the line before, each with at
    least one word, written as text with four spaces per level, a space
    after every word and a line feed at the end of every line, [tokenize]
    returns, lines and columns apart, the words of the lines with an
    [Indent] before a deeper line, a [Dedent] for every level left, a
    [Newline] after every line and the final [EndOfFile]. *)
Theorem X23_written_lines_lex_back ls :
  wellLaid 0 ls = true →
  ∃ ts, Lexer.tokenize (linesText ls) = Ret ts ∧
        map unplaced ts = map unplaced (linesTokens 0 ls).
Proof.
  intros Hlaid. destruct (runLexer_lines ls Hlaid) as (Lf & Hrun & Htoks).
  exists (Lexer.tokens_ Lf). split; [|done].
  unfold Lexer.tokenize. by rewrite Hrun.
Qed.

Lemma X23_written_lines_lex_back_witness :
  wellLaid 0 (bodyLines 0 (statements branchParsed.1)) = true ∧
  ∃ ts, Lexer.tokenize (linesText (bodyLines 0 (statements branchParsed.1))) =
          Ret ts ∧
        map unplaced ts =
        map unplaced (linesTokens 0 (bodyLines 0 (statements branchParsed.1))).
Proof.
  split; [reflexivity|].
  apply (X23_written_lines_lex_back (bodyLines 0 (statements branchParsed.1))).
  reflexivity.
Defined.

(** ** A program as lines of code, and its tokens *)

Lemma writable_wordToken ty :
  isKeyword ty || isOperator ty = true → writableWord (wordToken ty) = true.
Proof. by destruct ty. Qed.

Lemma forallb_snoc_word (f : Token → bool) l x :
  forallb f (l ++ [x]) = forallb f l && f x.
Proof. rewrite forallb_app. simpl. by rewrite andb_true_r. Qed.

Lemma wrap_writable parens toks :
  forallb writableWord toks = true →
  forallb writableWord (wrap parens toks) = true.
Proof.
  intros H. unfold wrap. destruct parens; [|done].
  cbn [forallb]. by rewrite forallb_snoc_word, H.
Qed.

Lemma unaryOp_word op ty :
  unaryOp op = Some ty → writableWord (wordToken ty) = true.
Proof.
  unfold unaryOp.
  repeat (destruct (String.eqb _ _); [by intros [= <-]|]). done.
Qed.

Lemma binaryOp_word op k ty :
  binaryOp op = Some (k, ty) → writableWord (wordToken ty) = true.
Proof.
  unfold binaryOp.
  repeat (destruct (String.eqb _ _); [by intros [= <- <-]|]). done.
Qed.

(** The tokens of an expression with writable names and numbers are
    writable words. *)
Lemma tokensAt_writable e :
  parsedExpr e = true → writableExpr e = true →
  ∀ lvl, forallb writableWord (tokensAt lvl e) = true.
Proof.
  induction e as [vtype text boolValue|name|op operand IH|op lhs IHl rhs IHr];
    intros Hp Hw lvl; cbn [tokensAt parsedExpr writableExpr] in *.
  - cbn [forallb]. rewrite andb_true_r. unfold writableWord.
    destruct vtype; cbn [literalToken type lexeme] in *; try done.
    by destruct boolValue.
  - cbn [forallb]. by rewrite andb_true_r.
  - apply andb_true_iff in Hp as [Hop Hp].
    apply bool_decide_eq_true in Hop as [ty Hop]. rewrite Hop.
    apply wrap_writable. cbn [forallb].
    by rewrite (unaryOp_word op ty Hop), (IH Hp Hw).
  - apply andb_true_iff in Hp as [[Hop Hpl]%andb_true_iff Hpr].
    apply andb_true_iff in Hw as [Hwl Hwr].
    apply bool_decide_eq_true in Hop as [[k ty] Hop]. rewrite Hop.
    apply wrap_writable. rewrite forallb_app. cbn [forallb].
    by rewrite (binaryOp_word op k ty Hop), (IHl Hpl Hwl), (IHr Hpr Hwr).
Qed.

Lemma conditionTokens_writable e :
  parsedExpr e = true → writableExpr e = true →
  forallb writableWord (conditionTokens e) = true.
Proof.
  intros Hp Hw. unfold conditionTokens. cbn [forallb].
  by rewrite forallb_snoc_word, (tokensAt_writable e Hp Hw).
Qed.

Lemma typeKeyword_writable vtype :
  knownType vtype = true →
  writableWord (wordToken (typeKeyword vtype)) = true.
Proof. by destruct vtype. Qed.

(** The lines after a block close it with a [Dedent]. *)
Lemma linesTokens_deeper d rest :
  shallow d rest = true →
  linesTokens (S d) rest = wordToken Dedent :: linesTokens d rest.
Proof.
  destruct rest as [|[d' ws] rest]; [done|]. cbn [shallow linesTokens].
  intros Hle%Nat.leb_le. unfold enter.
  replace (S d <? d') with false by (symmetry; apply Nat.ltb_ge; lia).
  replace (d <? d') with false by (symmetry; apply Nat.ltb_ge; lia).
  by replace (S d - d') with (S (d - d')) by lia.
Qed.

Lemma wellLaid_mono c c' rest :
  wellLaid c rest = true → c ≤ c' → wellLaid c' rest = true.
Proof.
  destruct rest as [|[d ws] rest]; [done|]. cbn [wellLaid].
  intros [[[Hd Hne]%andb_true_iff Hall]%andb_true_iff Hrest]%andb_true_iff Hle.
  apply Nat.leb_le in Hd. rewrite Hne, Hall, Hrest.
  by replace (d <=? c' + 1) with true by (symmetry; apply Nat.leb_le; lia).
Qed.

Lemma enter_same d : enter d d = [].
Proof. unfold enter. by rewrite Nat.ltb_irrefl, Nat.sub_diag. Qed.

Lemma enter_deeper d : enter d (S d) = [wordToken Indent].
Proof.
  unfold enter. by replace (d <? S d) with true by (symmetry; apply Nat.ltb_lt; lia).
Qed.

(** The first line of a written statement is at its depth. *)
Lemma stmtLines_first d s :
  parsedStmt s = true →
  ∃ ws more, stmtLines d s = (d, ws) :: more.
Proof.
  destruct s as [vtype name initializer|name value|name|value
                |branches elseBranch hasElse|condition body
                |vtype name from to body]; intros Hp; try by eexists _, _.
  cbn [parsedStmt] in Hp. destruct branches as [|first others]; [done|].
  by eexists _, _.
Qed.

(** The statements of a body, one after the other. *)
Lemma bodyLines_laysOut body :
  Forall laysOut body → Forall (fun s => parsedStmt s = true) body →
  body ≠ [] →
  ∀ d cur rest,
    d ≤ cur + 1 → shallow d rest = true → wellLaid d rest = true →
    linesTokens cur (bodyLines d body ++ rest) =
      enter cur d ++ bodyTokens body ++ linesTokens d rest ∧
    wellLaid cur (bodyLines d body ++ rest) = true.
Proof.
  intros Hlay Hparsed.
  induction Hlay as [|s body Hs Hlay IH]; [done|]. intros _ d cur rest Hd Hsh Hwl.
  apply Forall_cons in Hparsed as [Hps Hparsed].
  unfold bodyLines, bodyTokens in *. cbn [flat_map]. rewrite <- !app_assoc.
  destruct body as [|s2 body].
  - cbn [flat_map app]. by apply Hs.
  - destruct (IH Hparsed ltac:(done) d d rest ltac:(lia) Hsh Hwl) as [Htok Hlaid].
    rewrite enter_same in Htok. cbn [app] in Htok.
    destruct (Hs d cur (flat_map (stmtLines d) (s2 :: body) ++ rest) Hd)
      as [Htok1 Hlaid1]; [|done|].
    + apply Forall_cons in Hparsed as [Hps2 _].
      destruct (stmtLines_first d s2 Hps2) as (ws & more & Heq).
      cbn [flat_map]. rewrite Heq. cbn [app shallow]. by apply Nat.leb_le.
    + split; [|done]. by rewrite Htok1, Htok.
Qed.

(** A header line and its body. *)
Lemma block_laysOut hdr body :
  hdr ≠ [] → forallb writableWord hdr = true →
  Forall laysOut body → Forall (fun s => parsedStmt s = true) body →
  body ≠ [] →
  ∀ d cur rest,
    d ≤ cur + 1 → shallow d rest = true → wellLaid d rest = true →
    linesTokens cur ((d, hdr) :: bodyLines (S d) body ++ rest) =
      enter cur d ++ hdr ++ blockTokens (bodyTokens body) ++
      linesTokens d rest ∧
    wellLaid cur ((d, hdr) :: bodyLines (S d) body ++ rest) = true.
Proof.
  intros Hne Hwords Hlay Hparsed Hbody d cur rest Hd Hsh Hwl.
  destruct (bodyLines_laysOut body Hlay Hparsed Hbody (S d) d rest)
    as [Htok Hlaid]; [lia| |by apply (wellLaid_mono d); [|lia]|].
  { destruct rest as [|[d' ws] rest]; [done|]. cbn [shallow] in *.
    apply Nat.leb_le in Hsh. apply Nat.leb_le. lia. }
  split.
  - cbn [linesTokens]. rewrite Htok, enter_deeper, (linesTokens_deeper d rest Hsh).
    unfold blockTokens. cbn [app]. by rewrite <- !app_assoc.
  - cbn [wellLaid]. rewrite Hwords, Hlaid.
    replace (d <=? cur + 1) with true by (symmetry; by apply Nat.leb_le).
    by destruct hdr.
Qed.

Lemma body_laysOut body :
  Forall (fun s => parsedStmt s = true → writableStmt s = true → laysOut s)
         body →
  forallb parsedStmt body = true → forallb writableStmt body = true →
  Forall laysOut body ∧ Forall (fun s => parsedStmt s = true) body.
Proof.
  intros IH Hp Hw. rewrite forallb_forall in Hp, Hw. rewrite Forall_forall in IH.
  split; apply Forall_forall; intros s Hin.
  - apply (IH s Hin); [apply Hp|apply Hw]; by apply list_elem_of_In.
  - by apply Hp, list_elem_of_In.
Qed.

(** Lists written with [++] and [::], brought to one form. *)
Ltac flatten := repeat (progress (rewrite <- ?app_assoc; cbn [app])).

Lemma nonEmpty_ne {A} (l : list A) : nonEmpty l = true → l ≠ [].
Proof. by destruct l. Qed.

(** Every statement the parser can build, with writable names and numbers
    and no empty body, is laid out. *)
Lemma stmt_laysOut s :
  parsedStmt s = true → writableStmt s = true → laysOut s.
Proof.
  induction s as
    [vtype name initializer|name value|name|value
    |branches elseBranch hasElse IHbranches IHelse
    |condition body IHbody|vtype name from to body IHbody]
    using Statement_nested_ind; intros Hp Hw d cur rest Hd Hsh Hwl;
    cbn [parsedStmt writableStmt] in Hp, Hw.
  - apply andb_true_iff in Hp as [Hk Hp]. apply andb_true_iff in Hw as [Hn Hw].
    cbn [stmtLines stmtTokens app linesTokens wellLaid forallb].
    replace (d <=? cur + 1) with true by (symmetry; by apply Nat.leb_le).
    rewrite (typeKeyword_writable vtype Hk), Hwl.
    unfold writableWord at 1. cbn [type lexeme]. rewrite Hn. split.
    + by flatten.
    + destruct initializer as [init|]; [|done]. cbn [forallb].
      by rewrite (tokensAt_writable init Hp Hw).
  - apply andb_true_iff in Hw as [Hn Hw].
    cbn [stmtLines stmtTokens app linesTokens wellLaid forallb].
    replace (d <=? cur + 1) with true by (symmetry; by apply Nat.leb_le).
    rewrite (tokensAt_writable value Hp Hw), Hwl.
    unfold writableWord at 1. cbn [type lexeme]. rewrite Hn. split; [|done]. by flatten.
  - cbn [stmtLines stmtTokens app linesTokens wellLaid forallb].
    replace (d <=? cur + 1) with true by (symmetry; by apply Nat.leb_le).
    rewrite Hwl. unfold writableWord at 2. cbn [type lexeme]. by rewrite Hw.
  - cbn [stmtLines stmtTokens app linesTokens wellLaid forallb].
    replace (d <=? cur + 1) with true by (symmetry; by apply Nat.leb_le).
    rewrite (tokensAt_writable value Hp Hw), Hwl. split; [|done]. by flatten.
  - apply andb_true_iff in Hp as [[[Hne Hpb]%andb_true_iff Hpe]%andb_true_iff He].
    apply andb_true_iff in Hw as [Hwb Hwe].
    destruct branches as [|[cond body] others]; [done|]. clear Hne.
    cbn [forallb fst snd] in Hpb, Hwb.
    apply andb_true_iff in Hpb as [[Hpc Hpbody]%andb_true_iff Hpo].
    apply andb_true_iff in Hwb as [[Hwc [Hnb Hwbody]%andb_true_iff]%andb_true_iff Hwo].
    apply Forall_cons in IHbranches as [IHbody IHothers]. cbn [snd] in IHbody.
    set (elseLines :=
           if hasElse
           then (d, [wordToken KeywordElse]) :: bodyLines (S d) elseBranch
           else []).
    set (elseToks :=
           if hasElse
           then wordToken KeywordElse :: blockTokens (bodyTokens elseBranch)
           else []).
    set (otherLine := fun b : Expression * list Statement =>
           (d, wordToken KeywordElse :: wordToken KeywordIf ::
               conditionTokens b.1) :: bodyLines (S d) b.2).
    assert (Helse :
      linesTokens d (elseLines ++ rest) = elseToks ++ linesTokens d rest ∧
      wellLaid d (elseLines ++ rest) = true ∧
      shallow d (elseLines ++ rest) = true).
    { unfold elseLines, elseToks. destruct hasElse; [|done].
      apply andb_true_iff in Hwe as [Hne Hwe].
      destruct (body_laysOut elseBranch IHelse Hpe Hwe) as [Hlay Hparsed].
      destruct (block_laysOut [wordToken KeywordElse] elseBranch ltac:(done)
                  eq_refl Hlay Hparsed (nonEmpty_ne _ Hne) d d rest
                  ltac:(lia) Hsh Hwl) as [Htok Hlaid].
      rewrite enter_same in Htok. cbn [app] in Htok |- *.
      repeat split; [done..|]. cbn [shallow]. by apply Nat.leb_le. }
    assert (Hchain : ∀ others',
      Forall (fun b : Expression * list Statement =>
                Forall (fun s => parsedStmt s = true → writableStmt s = true →
                                 laysOut s) b.2) others' →
      forallb (fun b : Expression * list Statement =>
                 parsedExpr b.1 && forallb parsedStmt b.2) others' = true →
      forallb (fun b : Expression * list Statement =>
                 writableExpr b.1 &&
                 (nonEmpty b.2 && forallb writableStmt b.2)) others' = true →
      linesTokens d (flat_map otherLine others' ++ elseLines ++ rest) =
        flat_map (fun b => wordToken KeywordElse :: branchTokensOf b) others' ++
        elseToks ++ linesTokens d rest ∧
      wellLaid d (flat_map otherLine others' ++ elseLines ++ rest) = true ∧
      shallow d (flat_map otherLine others' ++ elseLines ++ rest) = true).
    { induction others' as [|[c b] others' IHo]; intros IHb Hpo' Hwo'; [done|].
      apply Forall_cons in IHb as [IHb1 IHb]. cbn [snd] in IHb1.
      cbn [forallb fst snd] in Hpo', Hwo'.
      apply andb_true_iff in Hpo' as [[Hpc' Hpb']%andb_true_iff Hpo'].
      apply andb_true_iff in Hwo' as [[Hwc' [Hnb' Hwb']%andb_true_iff]%andb_true_iff Hwo'].
      destruct (IHo IHb Hpo' Hwo') as (Htok & Hlaid & Hshallow).
      destruct (body_laysOut b IHb1 Hpb' Hwb') as [Hlay Hparsed].
      destruct (block_laysOut
                  (wordToken KeywordElse :: wordToken KeywordIf :: conditionTokens c)
                  b ltac:(done)
                  ltac:(cbn [forallb]; by rewrite (conditionTokens_writable c Hpc' Hwc'))
                  Hlay Hparsed (nonEmpty_ne _ Hnb') d d
                  (flat_map otherLine others' ++ elseLines ++ rest)
                  ltac:(lia) Hshallow Hlaid) as [Htok1 Hlaid1].
      rewrite enter_same in Htok1. cbn [app] in Htok1.
      cbn [flat_map]. unfold otherLine at 1 3 5. cbn [fst snd].
      flatten. repeat split.
      - etrans; [exact Htok1|]. rewrite Htok. unfold branchTokensOf.
        cbn [fst snd]. by flatten.
      - exact Hlaid1.
      - cbn [shallow]. by apply Nat.leb_le. }
    destruct (Hchain others IHothers Hpo Hwo) as (Htok & Hlaid & Hshallow).
    destruct (body_laysOut body IHbody Hpbody Hwbody) as [Hlay Hparsed].
    destruct (block_laysOut (wordToken KeywordIf :: conditionTokens cond) body
                ltac:(done)
                ltac:(cbn [forallb]; by rewrite (conditionTokens_writable cond Hpc Hwc))
                Hlay Hparsed (nonEmpty_ne _ Hnb) d cur
                (flat_map otherLine others ++ elseLines ++ rest)
                Hd Hshallow Hlaid) as [Htok1 Hlaid1].
    rewrite stmtTokens_If. fold elseToks.
    change (stmtLines d (IfStmt ((cond, body) :: others) elseBranch hasElse))
      with ((((d, wordToken KeywordIf :: conditionTokens cond) ::
              bodyLines (S d) body) ++ flat_map otherLine others) ++ elseLines).
    flatten. split; [|exact Hlaid1].
    etrans; [exact Htok1|]. rewrite Htok. unfold branchTokensOf.
    cbn [fst snd]. by flatten.
  - apply andb_true_iff in Hp as [Hpc Hpb].
    apply andb_true_iff in Hw as [Hwc [Hnb Hwb]%andb_true_iff].
    destruct (body_laysOut body IHbody Hpb Hwb) as [Hlay Hparsed].
    destruct (block_laysOut (wordToken KeywordWhile :: conditionTokens condition)
                body ltac:(done)
                ltac:(cbn [forallb]; by rewrite (conditionTokens_writable _ Hpc Hwc))
                Hlay Hparsed (nonEmpty_ne _ Hnb) d cur rest Hd Hsh Hwl)
      as [Htok Hlaid].
    rewrite stmtTokens_While.
    change (stmtLines d (WhileStmt condition body))
      with ((d, wordToken KeywordWhile :: conditionTokens condition) ::
            bodyLines (S d) body).
    cbn [app]. split; [|exact Hlaid]. etrans; [exact Htok|]. by flatten.
  - apply andb_true_iff in Hp as [[[Hk Hpf]%andb_true_iff Hpt]%andb_true_iff Hpb].
    apply andb_true_iff in Hw as [[[Hn Hwf]%andb_true_iff Hwt]%andb_true_iff
                                    [Hnb Hwb]%andb_true_iff].
    destruct (body_laysOut body IHbody Hpb Hwb) as [Hlay Hparsed].
    set (hdr := wordToken KeywordFor :: wordToken LeftParen ::
                wordToken (typeKeyword vtype) :: mkToken Identifier name 1 1 ::
                wordToken KeywordFrom :: tokensAt 1 from ++
                wordToken KeywordTo :: tokensAt 1 to ++ [wordToken RightParen]).
    assert (Hhdr : forallb writableWord hdr = true).
    { unfold hdr. cbn [forallb]. rewrite (typeKeyword_writable vtype Hk).
      unfold writableWord at 3. cbn [type lexeme]. rewrite Hn.
      rewrite forallb_app. cbn [forallb]. rewrite forallb_snoc_word.
      by rewrite (tokensAt_writable from Hpf Hwf), (tokensAt_writable to Hpt Hwt). }
    destruct (block_laysOut hdr body ltac:(done) Hhdr Hlay Hparsed
                (nonEmpty_ne _ Hnb) d cur rest Hd Hsh Hwl) as [Htok Hlaid].
    rewrite stmtTokens_For.
    change (stmtLines d (ForRangeStmt vtype name from to body))
      with ((d, hdr) :: bodyLines (S d) body).
    cbn [app]. split; [|exact Hlaid]. etrans; [exact Htok|]. unfold hdr.
    by flatten.
Qed.

Lemma program_laysOut stmts :
  forallb (fun s => parsedStmt s && writableStmt s) stmts = true →
  linesTokens 0 (bodyLines 0 stmts) = bodyTokens stmts ++ [wordToken EndOfFile] ∧
  wellLaid 0 (bodyLines 0 stmts) = true.
Proof.
  intros Hall. destruct stmts as [|s stmts]; [done|].
  assert (Hlay : Forall laysOut (s :: stmts) ∧
                 Forall (fun s => parsedStmt s = true) (s :: stmts)).
  { rewrite forallb_forall in Hall.
    split; apply Forall_forall; intros s' Hin;
      apply list_elem_of_In, Hall, andb_true_iff in Hin as [Hp Hw];
      [by apply stmt_laysOut|done]. }
  destruct Hlay as [Hlay Hparsed].
  destruct (bodyLines_laysOut (s :: stmts) Hlay Hparsed ltac:(done) 0 0 []
              ltac:(lia) eq_refl eq_refl) as [Htok Hlaid].
  rewrite app_nil_r in Htok, Hlaid. by split.
Qed.

(** X24. Every program has a text the translator reads back: for a
    program as the parser builds it, with names and numbers the lexer
    accepts and no empty body, [translate] of its text (four spaces per
    level, a space after every word, a line feed after every line) returns
    the C++ text that [generate] gives for that program. *)
Theorem X24_written_program_translates program :
  printable program = true →
  translate (programText program) = Ret (CodeGenerator.generate program).
Proof.
  destruct program as [stmts]. unfold printable, programText. cbn [statements].
  intros Hall. destruct (program_laysOut stmts Hall) as [Htok Hlaid].
  destruct (runLexer_lines (bodyLines 0 stmts) Hlaid) as (Lf & Hrun & Hts).
  unfold translate, Lexer.tokenize. rewrite Hrun.
  rewrite <- (parseProgram_unplaced (Lexer.tokens_ Lf)), Hts, Htok.
  rewrite parseProgram_unplaced. unfold Parser.parseProgram.
  rewrite runParser_written; [done|].
  apply Forall_forall. intros s Hin. rewrite forallb_forall in Hall.
  by apply list_elem_of_In, Hall, andb_true_iff in Hin as [Hp _].
Qed.

Lemma X24_written_program_translates_witness :
  printable branchParsed.1 = true ∧
  translate (programText branchParsed.1) =
  Ret (CodeGenerator.generate branchParsed.1).
Proof.
  split; [reflexivity|].
  apply (X24_written_program_translates branchParsed.1). reflexivity.
Defined.
